(** * numio: the expression engine and its rate cache

    A shallow embedding of the Go sources of numio (value model, rate
    cache, lexer, parser, evaluation context, evaluator and engine) and the
    properties of the specification proved about it.

    Conventions of the embedding:
    - a Go [float64] is a primitive binary64 float ([PrimFloat.float]);
      [==], [!=], [<] are [PrimFloat.eqb], its negation and [PrimFloat.ltb];
    - a Go [string] is a [string], one [ascii] per byte; a [rune] and an
      [int] are integers in [Z];
    - a nil-able pointer to an immutable registry record is an [option];
    - a Go [map] is a [gmap]; the order in which [range] enumerates it is
      left unspecified by Go and is a parameter of the model;
    - functions of the Go standard library (strings, strconv, math,
      unicode) and the curated registries are parameters, gathered in the
      classes [GoStd] and [Registry]. *)

From Stdlib Require Import ZArith List String Ascii Floats Uint63 Bool Lia.
From stdpp Require Import base gmap strings list.

Set Warnings "-inexact-float,-register-all".

Open Scope string_scope.
Open Scope Z_scope.

(** ** The Go standard library, as far as the sources use it *)

(** The functions of package math that have no counterpart among the
    primitive float operations ([math.Abs] and [math.Sqrt] have one). *)
Variant MathFn :=
  | FnRound | FnFloor | FnCeil | FnLog10 | FnLog | FnExp
  | FnSin | FnCos | FnTan | FnAsin | FnAcos | FnAtan.

Class GoStd := {
  strings_ToUpper : string -> string;
  strings_ToLower : string -> string;
  strings_TrimSpace : string -> string;
  strconv_ParseFloat : string -> option float;
  unicode_IsLetter : Z -> bool;
  math_Pow : float -> float -> float;
  math_Mod : float -> float -> float;
  math_fn : MathFn -> float -> float;
  (** the capacity [append] gives a slice of capacity [cap] that must
      hold [needed] elements *)
  runtime_growslice : nat -> nat -> nat
}.

(** [math.IsNaN] and [math.IsInf(x, 0)]. *)
Definition math_IsNaN (x : float) : bool := PrimFloat.is_nan x.
Definition math_IsInf (x : float) : bool := PrimFloat.is_infinity x.

(** [float64(n)] for a length [n]. *)
Definition floatOfNat (n : nat) : float :=
  PrimFloat.of_uint63 (Uint63.of_Z (Z.of_nat n)).

(** Go's [x != y] on float64. *)
Definition fneq (x y : float) : bool := negb (PrimFloat.eqb x y).

(** ** pkg/types: currencies, units, metals, cryptos and values *)

Module Types.

Record Currency := {
  CurrCode : string;
  CurrSymbol : string;
  CurrName : string;
  CurrAliases : list string;
  SymbolAfter : bool
}.

Variant UnitType :=
  | UnitTypeLength | UnitTypeWeight | UnitTypeTime | UnitTypeTemperature
  | UnitTypeData | UnitTypeArea | UnitTypeVolume | UnitTypeSpeed.

Definition UnitType_eqb (a b : UnitType) : bool :=
  match a, b with
  | UnitTypeLength, UnitTypeLength | UnitTypeWeight, UnitTypeWeight
  | UnitTypeTime, UnitTypeTime | UnitTypeTemperature, UnitTypeTemperature
  | UnitTypeData, UnitTypeData | UnitTypeArea, UnitTypeArea
  | UnitTypeVolume, UnitTypeVolume | UnitTypeSpeed, UnitTypeSpeed => true
  | _, _ => false
  end.

Record Unit := {
  UnitCode : string;
  UnitSymbol : string;
  UnitName : string;
  Plural : string;
  UType : UnitType;
  UnitAliases : list string;
  ToBase : float;
  FromBaseAdd : float;
  IsBase : bool
}.

Record Metal := {
  MetalCode : string;
  MetalSymbol : string;
  MetalName : string;
  MetalAliases : list string;
  UnitName_ : string;
  UnitLabel : string
}.

Record Crypto := {
  CryptoCode : string;
  CryptoSymbol : string;
  CryptoName : string;
  CryptoAliases : list string;
  CoingeckoID : string;
  Decimals : Z
}.

(** The curated registries ([currencies], [cryptos], [metals], [units]) are
    lookup tables; the engine only consults them through these functions. *)
Class Registry := {
  ParseCurrency : string -> option Currency;
  CurrencyFromCode : string -> option Currency;
  LookupCurrencyBySymbol : string -> option Currency;
  IsCurrencySymbolRune : Z -> bool;
  ParseCrypto : string -> option Crypto;
  LookupCrypto : string -> option Crypto;
  IsCrypto : string -> bool;
  IsCryptoSymbolRune : Z -> bool;
  ParseMetal : string -> option Metal;
  ParseUnit : string -> option Unit
}.

Variant ValueKind :=
  | ValueEmpty | ValueNumber | ValuePercentage | ValueCurrency
  | ValueWithUnit | ValueMetal | ValueCrypto | ValueError.

Definition ValueKind_eqb (a b : ValueKind) : bool :=
  match a, b with
  | ValueEmpty, ValueEmpty | ValueNumber, ValueNumber
  | ValuePercentage, ValuePercentage | ValueCurrency, ValueCurrency
  | ValueWithUnit, ValueWithUnit | ValueMetal, ValueMetal
  | ValueCrypto, ValueCrypto | ValueError, ValueError => true
  | _, _ => false
  end.

Record Value := {
  Kind : ValueKind;
  Num : float;
  Curr : option Currency;
  UnitP : option Unit;
  MetalP : option Metal;
  CryptoP : option Crypto;
  Err : string
}.

(** The zero [Value{}] of Go, from which the constructors set fields. *)
Definition zeroValue : Value :=
  {| Kind := ValueEmpty; Num := 0%float; Curr := None; UnitP := None;
     MetalP := None; CryptoP := None; Err := "" |}.

Definition Empty : Value := zeroValue.

Definition Number (n : float) : Value :=
  {| Kind := ValueNumber; Num := n; Curr := None; UnitP := None;
     MetalP := None; CryptoP := None; Err := "" |}.

Definition Percentage (p : float) : Value :=
  {| Kind := ValuePercentage; Num := p; Curr := None; UnitP := None;
     MetalP := None; CryptoP := None; Err := "" |}.

Definition CurrencyValue (amount : float) (curr : option Currency) : Value :=
  {| Kind := ValueCurrency; Num := amount; Curr := curr; UnitP := None;
     MetalP := None; CryptoP := None; Err := "" |}.

Definition UnitValue (amount : float) (unit : option Unit) : Value :=
  {| Kind := ValueWithUnit; Num := amount; Curr := None; UnitP := unit;
     MetalP := None; CryptoP := None; Err := "" |}.

Definition MetalValue (amount : float) (metal : option Metal) : Value :=
  {| Kind := ValueMetal; Num := amount; Curr := None; UnitP := None;
     MetalP := metal; CryptoP := None; Err := "" |}.

Definition CryptoValue (amount : float) (crypto : option Crypto) : Value :=
  {| Kind := ValueCrypto; Num := amount; Curr := None; UnitP := None;
     MetalP := None; CryptoP := crypto; Err := "" |}.

Definition Error (message : string) : Value :=
  {| Kind := ValueError; Num := 0%float; Curr := None; UnitP := None;
     MetalP := None; CryptoP := None; Err := message |}.

(** [strings.Index(msg, "%")]: the offset of the first percent sign. *)
Fixpoint indexPercent (msg : string) : option nat :=
  match msg with
  | EmptyString => None
  | String c rest =>
      if Ascii.eqb c "%"%char then Some O
      else option_map S (indexPercent rest)
  end.

(** [Errorf], for the string arguments the engine passes: each argument
    replaces the first remaining two-byte format specifier. *)
Fixpoint Errorf_msg (msg : string) (args : list string) : string :=
  match args with
  | [] => msg
  | arg :: rest =>
      match indexPercent msg with
      | Some idx =>
          let stop := Nat.min (idx + 2) (String.length msg) in
          Errorf_msg (substring 0 idx msg ++ arg ++
                      substring stop (String.length msg - stop) msg) rest
      | None => Errorf_msg msg rest
      end
  end.

Definition Errorf (format : string) (args : list string) : Value :=
  Error (Errorf_msg format args).

Definition IsEmpty (v : Value) : bool := ValueKind_eqb (Kind v) ValueEmpty.
Definition IsError (v : Value) : bool := ValueKind_eqb (Kind v) ValueError.

Definition IsNumeric (v : Value) : bool :=
  match Kind v with
  | ValueNumber | ValuePercentage | ValueCurrency | ValueWithUnit
  | ValueMetal | ValueCrypto => true
  | _ => false
  end.

Definition IsNumber (v : Value) : bool := ValueKind_eqb (Kind v) ValueNumber.
Definition IsPercentage (v : Value) : bool := ValueKind_eqb (Kind v) ValuePercentage.
Definition IsCurrency (v : Value) : bool := ValueKind_eqb (Kind v) ValueCurrency.
Definition IsUnit (v : Value) : bool := ValueKind_eqb (Kind v) ValueWithUnit.
Definition IsMetal (v : Value) : bool := ValueKind_eqb (Kind v) ValueMetal.

Definition AsFloat (v : Value) : float := Num v.

Definition WithAmount (v : Value) (amount : float) : Value :=
  {| Kind := Kind v; Num := amount; Curr := Curr v; UnitP := UnitP v;
     MetalP := MetalP v; CryptoP := CryptoP v; Err := Err v |}.

Definition Negate (v : Value) : Value :=
  if IsError v || IsEmpty v then v
  else WithAmount v (- Num v)%float.

(** [convertTemperature]: through Kelvin, selected by the unit codes. *)
Definition convertTemperature (value : float) (from to : Unit) : float :=
  let kelvin :=
    if String.eqb (UnitCode from) "K" then value
    else if String.eqb (UnitCode from) "C" then (value + 273.15)%float
    else if String.eqb (UnitCode from) "F"
         then ((value - 32) * 5 / 9 + 273.15)%float
    else value in
  if String.eqb (UnitCode to) "K" then kelvin
  else if String.eqb (UnitCode to) "C" then (kelvin - 273.15)%float
  else if String.eqb (UnitCode to) "F"
       then ((kelvin - 273.15) * 9 / 5 + 32)%float
  else kelvin.

(** [Unit.ConvertTo]: [None] is the Go result [(0, false)]. *)
Definition ConvertTo (u : Unit) (value : float) (target : Unit) : option float :=
  if negb (UnitType_eqb (UType u) (UType target)) then None
  else if UnitType_eqb (UType u) UnitTypeTemperature
       then Some (convertTemperature value u target)
  else
    let baseValue := (value * ToBase u)%float in
    Some (baseValue / ToBase target)%float.

End Types.

(** ** internal/cache: the rate cache *)

Module Cache.
Import Types.

(** A [ratePair{From, To}] is the key of the rate table. *)
Definition ratePair : Type := string * string.
Definition From (p : ratePair) : string := fst p.
Definition To (p : ratePair) : string := snd p.

(** Go leaves the order of [range] over a map unspecified: [range_rates k m]
    is the enumeration the [k]-th [range] of a search runs through, some
    arrangement of the entries of [m]. *)
Class MapOrder := {
  range_rates : nat -> gmap (string * string) float -> list (ratePair * float);
  range_rates_perm : forall k m, range_rates k m ≡ₚ map_to_list m
}.

Record RateCache := {
  rates : gmap (string * string) float;
  rawRates : gmap string float;
  lastUpdate : Z;
  ttl : Z
}.

Definition with_rates (c : RateCache) (r : gmap (string * string) float) : RateCache :=
  {| rates := r; rawRates := rawRates c; lastUpdate := lastUpdate c; ttl := ttl c |}.

Definition DefaultTTL : Z := 3600.

(** The cache of [New] before [loadDefaults] and [LoadFromFile] run. *)
Definition empty : RateCache :=
  {| rates := ∅; rawRates := ∅; lastUpdate := 0; ttl := DefaultTTL |}.

(** Storing [rate] for a pair and, when [rate != 0], its inverse for the
    swapped pair: the body shared by [SetRate], [ApplyRawRates] and
    [loadDefaults]. *)
Definition storeBoth (from to : string) (rate : float)
    (r : gmap (string * string) float) : gmap (string * string) float :=
  let r1 := <[(from, to) := rate]> r in
  if fneq rate 0 then <[(to, from) := (1 / rate)%float]> r1 else r1.

Section WithStd.
Context `{std : GoStd}.

Definition SetRate (c : RateCache) (from to : string) (rate : float) : RateCache :=
  let from := strings_ToUpper from in
  let to := strings_ToUpper to in
  with_rates c (storeBoth from to rate (rates c)).

Record queueEntry := { currency : string; rate : float }.

(** The body of [for pair, rate := range c.rates] for one dequeued entry:
    [inl r] when the target is found, otherwise the visited set and queue
    after the whole enumeration. *)
Fixpoint scanRates (to : string) (current : queueEntry)
    (entries : list (ratePair * float))
    (visited : gset string) (queue : list queueEntry)
    : float + (gset string * list queueEntry) :=
  match entries with
  | [] => inr (visited, queue)
  | (pr, r) :: rest =>
      if negb (String.eqb (From pr) (currency current))
      then scanRates to current rest visited queue
      else
        let nextCurrency := To pr in
        let nextRate := (rate current * r)%float in
        if String.eqb nextCurrency to then inl nextRate
        else if bool_decide (nextCurrency ∈ visited)
        then scanRates to current rest visited queue
        else scanRates to current rest ({[nextCurrency]} ∪ visited)
               (queue ++ [{| currency := nextCurrency; rate := nextRate |}])
  end.

(** [for len(queue) > 0]: [k] counts the entries dequeued so far; [None]
    when [fuel] runs out before the queue is empty. *)
Fixpoint bfsLoop `{ord : MapOrder} (fuel k : nat) (tbl : gmap (string * string) float)
    (to : string) (visited : gset string) (queue : list queueEntry)
    : option (float * bool) :=
  match fuel with
  | O => None
  | S fuel' =>
      match queue with
      | [] => Some (0%float, false)
      | current :: queue' =>
          match scanRates to current (range_rates k tbl) visited queue' with
          | inl r => Some (r, true)
          | inr (visited', queue'') => bfsLoop fuel' (S k) tbl to visited' queue''
          end
      end
  end.

(** Every code is enqueued at most once, so the loop dequeues at most one
    entry per stored pair besides the start: this much fuel is never used
    up ([bfsLoop_total] below). *)
Definition bfsFuel (tbl : gmap (string * string) float) : nat := size tbl + 2.

Definition findRateBFS `{ord : MapOrder} (c : RateCache) (from to : string) : float * bool :=
  match bfsLoop (bfsFuel (rates c)) 0 (rates c) to {[from]}
          [{| currency := from; rate := 1%float |}] with
  | Some res => res
  | None => (0%float, false)
  end.

Definition GetRate `{ord : MapOrder} (c : RateCache) (from to : string) : float * bool :=
  let from := strings_ToUpper from in
  let to := strings_ToUpper to in
  if String.eqb from to then (1%float, true)
  else
    match rates c !! (from, to) with
    | Some r => (r, true)
    | None => findRateBFS c from to
    end.

Definition HasRate `{ord : MapOrder} (c : RateCache) (from to : string) : bool :=
  snd (GetRate c from to).

Definition Clear (c : RateCache) : RateCache :=
  {| rates := ∅; rawRates := ∅; lastUpdate := 0; ttl := ttl c |}.

(** [ApplyRawRates]: [raw] is the argument map in the order its [range]
    runs, [now] the value of [time.Now()]. *)
Definition ApplyRawRates `{reg : Registry} (c : RateCache) (raw : list (string * float))
    (now : Z) : RateCache :=
  {| rates :=
       fold_left
         (fun r '(code, rate) =>
            let code := strings_ToUpper code in
            if IsCrypto code then storeBoth code "USD" rate r
            else storeBoth "USD" code rate r)
         raw (rates c);
     rawRates := list_to_map raw;
     lastUpdate := now;
     ttl := ttl c |}.

Definition Convert `{ord : MapOrder} (c : RateCache) (amount : float) (from to : string)
    : float * bool :=
  let '(r, ok) := GetRate c from to in
  if negb ok then (0%float, false) else ((amount * r)%float, true).

Definition ConvertValue `{ord : MapOrder} `{reg : Registry} (c : RateCache) (v : Value)
    (target : string) : Value * bool :=
  if IsError v || IsEmpty v then (v, false)
  else
    let target := strings_ToUpper target in
    match Kind v with
    | ValueCurrency =>
        match Curr v with
        | None => (v, false)
        | Some curr =>
            let '(converted, ok) := Convert c (Num v) (CurrCode curr) target in
            if negb ok then (v, false)
            else
              let targetCurr :=
                match ParseCurrency target with
                | Some t => Some t
                | None => CurrencyFromCode target
                end in
              (CurrencyValue converted targetCurr, true)
        end
    | ValueCrypto =>
        match CryptoP v with
        | None => (v, false)
        | Some crypto =>
            let '(converted, ok) := Convert c (Num v) (CryptoCode crypto) target in
            if negb ok then (v, false)
            else
              match ParseCrypto target with
              | Some t => (CryptoValue converted (Some t), true)
              | None =>
                  match ParseCurrency target with
                  | Some t => (CurrencyValue converted (Some t), true)
                  | None => (Number converted, true)
                  end
              end
        end
    | ValueMetal =>
        match MetalP v with
        | None => (v, false)
        | Some metal =>
            let '(converted, ok) := Convert c (Num v) (MetalCode metal) target in
            if negb ok then (v, false)
            else
              match ParseCurrency target with
              | Some t => (CurrencyValue converted (Some t), true)
              | None => (Number converted, true)
              end
        end
    | _ => (v, false)
    end.

End WithStd.

(** The tables of [loadDefaults], in the order they are written. *)
Definition fiatDefaults : list (string * float) :=
  [("EUR", 0.92); ("GBP", 0.79); ("JPY", 149.50); ("CHF", 0.88);
   ("CAD", 1.36); ("AUD", 1.53); ("CNY", 7.24); ("INR", 83.12);
   ("KRW", 1320.0); ("MXN", 17.15); ("BRL", 4.97); ("RUB", 92.50);
   ("TRY", 32.50); ("ZAR", 18.65); ("SGD", 1.34); ("HKD", 7.82);
   ("NOK", 10.65); ("SEK", 10.42); ("DKK", 6.87); ("PLN", 3.98);
   ("THB", 35.20); ("IDR", 15650.0); ("MYR", 4.72); ("PHP", 55.80);
   ("CZK", 22.85); ("ILS", 3.72); ("AED", 3.67); ("SAR", 3.75);
   ("TWD", 31.50); ("HUF", 355.0); ("UAH", 41.0); ("VND", 24500.0);
   ("EGP", 30.90); ("PKR", 285.0); ("BDT", 110.0); ("NGN", 800.0);
   ("ARS", 850.0); ("CLP", 880.0); ("COP", 3950.0); ("KES", 155.0);
   ("QAR", 3.64); ("KWD", 0.31); ("RON", 4.57); ("NZD", 1.64)]%float.

Definition cryptoDefaults : list (string * float) :=
  [("BTC", 95000.0); ("ETH", 3500.0); ("SOL", 180.0); ("BNB", 650.0);
   ("XRP", 2.20); ("ADA", 0.95); ("DOGE", 0.38); ("DOT", 7.50);
   ("MATIC", 0.55); ("LTC", 105.0); ("LINK", 22.0); ("AVAX", 42.0);
   ("ATOM", 9.50); ("UNI", 12.0); ("XLM", 0.42); ("ALGO", 0.35);
   ("TON", 6.50); ("NEAR", 5.80); ("APT", 12.50); ("ARB", 1.10);
   ("OP", 2.80); ("AAVE", 350.0); ("MKR", 3200.0); ("CRV", 0.85);
   ("SHIB", 0.000025); ("PEPE", 0.000018); ("WIF", 2.50);
   ("BONK", 0.000032); ("USDT", 1.0); ("USDC", 1.0); ("DAI", 1.0);
   ("BUSD", 1.0)]%float.

Definition metalDefaults : list (string * float) :=
  [("XAU", 2650.0); ("XAG", 31.50); ("XPT", 1020.0); ("XPD", 1100.0)]%float.

(** [loadDefaults]: the identity pair of USD, then the three tables. *)
Definition loadDefaults (c : RateCache) : RateCache :=
  let r0 := <[("USD", "USD") := 1.0%float]> (rates c) in
  let r1 := fold_left (fun r '(code, rate) => storeBoth "USD" code rate r)
              fiatDefaults r0 in
  let r2 := fold_left (fun r '(code, rate) => storeBoth code "USD" rate r)
              cryptoDefaults r1 in
  let r3 := fold_left (fun r '(code, rate) => storeBoth code "USD" rate r)
              metalDefaults r2 in
  with_rates c r3.

(** The JSON the cache file holds, once read and decoded. *)
Record CachedRates := {
  Timestamp : Z;
  Rates : list (string * float);
  BaseCurrency : string
}.

(** [LoadFromFile]: [disk] is the decoded cache file, [None] when there is
    no path, no file or no valid JSON; [now] is the clock. *)
Definition LoadFromFile `{std : GoStd} `{reg : Registry} (c : RateCache)
    (disk : option CachedRates) (now : Z) : RateCache * bool :=
  match disk with
  | None => (c, false)
  | Some cached =>
      if ttl c <? now - Timestamp cached then (c, false)
      else
        let c1 := ApplyRawRates c (Rates cached) now in
        ({| rates := rates c1; rawRates := rawRates c1;
            lastUpdate := Timestamp cached; ttl := ttl c1 |}, true)
  end.

Definition New `{std : GoStd} `{reg : Registry} (disk : option CachedRates) (now : Z)
    : RateCache :=
  fst (LoadFromFile (loadDefaults empty) disk now).

End Cache.

(** ** internal/token *)

Module Token.

Variant Type_ :=
  | EOF | ILLEGAL
  | NUMBER | PERCENT | IDENTIFIER
  | PLUS | MINUS | STAR | SLASH | CARET | POWER
  | LPAREN | RPAREN | EQUALS | COMMA
  | IN | OF
  | DOLLAR | EURO | POUND | YEN | BITCOIN | CURRENCY
  | COMMENT | WHITESPACE | NEWLINE.

Definition Type_eqb (a b : Type_) : bool :=
  match a, b with
  | EOF, EOF | ILLEGAL, ILLEGAL | NUMBER, NUMBER | PERCENT, PERCENT
  | IDENTIFIER, IDENTIFIER | PLUS, PLUS | MINUS, MINUS | STAR, STAR
  | SLASH, SLASH | CARET, CARET | POWER, POWER | LPAREN, LPAREN
  | RPAREN, RPAREN | EQUALS, EQUALS | COMMA, COMMA | IN, IN | OF, OF
  | DOLLAR, DOLLAR | EURO, EURO | POUND, POUND | YEN, YEN
  | BITCOIN, BITCOIN | CURRENCY, CURRENCY | COMMENT, COMMENT
  | WHITESPACE, WHITESPACE | NEWLINE, NEWLINE => true
  | _, _ => false
  end.

Record Token := { Typ : Type_; Literal : string; Pos : Z }.

Definition New (typ : Type_) (literal : string) (pos : Z) : Token :=
  {| Typ := typ; Literal := literal; Pos := pos |}.

(** [Keywords]: "to" is an alias of "in". *)
Definition LookupIdentifier (ident : string) : Type_ :=
  if String.eqb ident "in" then IN
  else if String.eqb ident "to" then IN
  else if String.eqb ident "of" then OF
  else IDENTIFIER.

(** [CurrencySymbols], keyed by code point. *)
Definition LookupCurrencySymbol (r : Z) : Type_ :=
  if r =? 36 then DOLLAR            (* $ *)
  else if r =? 8364 then EURO       (* U+20AC *)
  else if r =? 163 then POUND       (* U+00A3 *)
  else if r =? 165 then YEN         (* U+00A5 *)
  else if r =? 8383 then BITCOIN    (* U+20BF *)
  else if (r =? 8377) || (r =? 8361) || (r =? 8381) || (r =? 8362)
          || (r =? 8372) || (r =? 8366) || (r =? 8371) || (r =? 208)
          || (r =? 321) || (r =? 926) || (r =? 9678)
       then CURRENCY
  else ILLEGAL.

End Token.

(** ** Strings as byte sequences *)

(** [s[i]] as an integer; 0 where Go would panic on the index. *)
Definition byteAt (s : string) (i : Z) : Z :=
  if i <? 0 then 0
  else match String.get (Z.to_nat i) s with
       | Some c => Z.of_nat (nat_of_ascii c)
       | None => 0
       end.

Definition strlen (s : string) : Z := Z.of_nat (String.length s).

(** [s[i:]]. *)
Definition strFrom (s : string) (i : Z) : string :=
  substring (Z.to_nat i) (String.length s - Z.to_nat i) s.

Definition byteStr (b : Z) : string :=
  String (ascii_of_nat (Z.to_nat b)) EmptyString.

(** [utf8.EncodeRune], as [strings.Builder.WriteRune] and [string(rune)]
    use it: an invalid code point is written as U+FFFD. *)
Definition encodeRune (r : Z) : string :=
  if (r <? 0) || (1114111 <? r) || ((55296 <=? r) && (r <=? 57343))
  then byteStr 239 ++ byteStr 191 ++ byteStr 189
  else if r <=? 127 then byteStr r
  else if r <=? 2047
  then byteStr (Z.lor 192 (Z.shiftr r 6)) ++ byteStr (Z.lor 128 (Z.land r 63))
  else if r <=? 65535
  then byteStr (Z.lor 224 (Z.shiftr r 12))
       ++ byteStr (Z.lor 128 (Z.land (Z.shiftr r 6) 63))
       ++ byteStr (Z.lor 128 (Z.land r 63))
  else byteStr (Z.lor 240 (Z.shiftr r 18))
       ++ byteStr (Z.lor 128 (Z.land (Z.shiftr r 12) 63))
       ++ byteStr (Z.lor 128 (Z.land (Z.shiftr r 6) 63))
       ++ byteStr (Z.lor 128 (Z.land r 63)).

(** A [for cond { body }] loop: [body] answers [inl] for [break] and [inr]
    to go round again; [None] when [fuel] iterations were not enough. *)
Fixpoint loop {S : Type} (fuel : nat) (cond : S -> bool) (body : S -> S + S)
    (s : S) : option S :=
  if cond s then
    match fuel with
    | O => None
    | Datatypes.S fuel' =>
        match body s with
        | inl s' => Some s'
        | inr s' => loop fuel' cond body s'
        end
    end
  else Some s.

(** The code of an ASCII character, for the rune constants of the source. *)
Definition chr (c : ascii) : Z := Z.of_nat (nat_of_ascii c).

(** ** internal/lexer *)

Module Lexer.
Import Token.

Record Lexer := {
  input : string;
  pos : Z;
  readPos : Z;
  ch : Z;
  line : Z;
  col : Z
}.

Definition ReplacementChar : Z := 65533.

(** The [for i := 1; i < size; i++] of [decodeRune]; [n] iterations left. *)
Fixpoint decodeTail (s : string) (n : nat) (i r size : Z) : Z * Z :=
  match n with
  | O => (r, size)
  | S n' =>
      if negb (Z.land (byteAt s i) 192 =? 128) then (ReplacementChar, 1)
      else decodeTail s n' (i + 1)
             (Z.lor (Z.shiftl r 6) (Z.land (byteAt s i) 63)) size
  end.

Definition decodeRune (s : string) : Z * Z :=
  if strlen s =? 0 then (0, 0)
  else
    let b := byteAt s 0 in
    if b <? 128 then (b, 1)
    else
      let hdr :=
        if Z.land b 224 =? 192 then Some (2, Z.land b 31)
        else if Z.land b 240 =? 224 then Some (3, Z.land b 15)
        else if Z.land b 248 =? 240 then Some (4, Z.land b 7)
        else None in
      match hdr with
      | None => (ReplacementChar, 1)
      | Some (size, r) =>
          if strlen s <? size then (ReplacementChar, 1)
          else decodeTail s (Z.to_nat (size - 1)) 1 r size
      end.

Definition readChar (l : Lexer) : Lexer :=
  let '(c, rp) :=
    if strlen (input l) <=? readPos l then (0, readPos l)
    else
      let c := byteAt (input l) (readPos l) in
      if 128 <=? c then
        let '(r, size) := decodeRune (strFrom (input l) (readPos l)) in
        (r, readPos l + (size - 1))
      else (c, readPos l) in
  {| input := input l; pos := rp; readPos := rp + 1; ch := c;
     line := if c =? 10 then line l + 1 else line l;
     col := if c =? 10 then 0 else col l + 1 |}.

Definition New (inp : string) : Lexer :=
  readChar {| input := inp; pos := 0; readPos := 0; ch := 0; line := 1; col := 0 |}.

Definition peekChar (l : Lexer) : Z :=
  if strlen (input l) <=? readPos l then 0
  else
    let c := byteAt (input l) (readPos l) in
    if 128 <=? c then fst (decodeRune (strFrom (input l) (readPos l)))
    else c.

Definition isDigit (c : Z) : bool := (chr "0" <=? c) && (c <=? chr "9").

Definition isSpace (c : Z) : bool := (c =? chr " ") || (c =? 9) || (c =? 13).

(** No loop of the lexer reads past the end of the input, where [ch] is 0:
    one iteration per input byte is enough. *)
Definition fuelOf (l : Lexer) : nat := String.length (input l).

Definition with_pos (l : Lexer) (p rp c : Z) : Lexer :=
  {| input := input l; pos := p; readPos := rp; ch := c;
     line := line l; col := col l |}.

Definition with_col (l : Lexer) (k : Z) : Lexer :=
  {| input := input l; pos := pos l; readPos := readPos l; ch := ch l;
     line := line l; col := k |}.

Definition skipWhitespace (l : Lexer) : option Lexer :=
  loop (fuelOf l) (fun l => isSpace (ch l)) (fun l => inr (readChar l)) l.

(** The backwards scan of [isStartOfExpression] from index [n - 1]. *)
Fixpoint lookBack (inp : string) (n : nat) : bool :=
  match n with
  | O => true
  | S m =>
      let c := byteAt inp (Z.of_nat m) in
      if (c =? chr " ") || (c =? 9) then lookBack inp m
      else (c =? chr "+") || (c =? chr "-") || (c =? chr "*") || (c =? chr "/")
           || (c =? chr "^") || (c =? chr "(") || (c =? chr "=") || (c =? chr ",")
  end.

Definition isStartOfExpression (l : Lexer) : bool :=
  if pos l <=? 1 then true
  else lookBack (input l) (Z.to_nat (pos l - 1)).

(** A lexer together with the [strings.Builder] a reader fills. *)
Definition Reader : Type := Lexer * string.

Definition writeRune (st : Reader) : Reader :=
  (readChar (fst st), snd st ++ encodeRune (ch (fst st))).

(** [for isDigit(l.ch) { sb.WriteRune(l.ch); l.readChar() }]. *)
Definition readDigits (st : Reader) : option Reader :=
  loop (fuelOf (fst st)) (fun st => isDigit (ch (fst st)))
       (fun st => inr (writeRune st)) st.

(** The integer part of [readNumber]: digits, and commas that a digit
    follows; the flag is [hasDigits]. *)
Definition readIntPart (st : Reader * bool) : option (Reader * bool) :=
  loop (fuelOf (fst (fst st)))
       (fun st => isDigit (ch (fst (fst st))) || (ch (fst (fst st)) =? chr ","))
       (fun st =>
          let l := fst (fst st) in
          if ch l =? chr "," then
            if negb (isDigit (peekChar l)) then inl st
            else inr ((readChar l, snd (fst st)), snd st)
          else inr (writeRune (fst st), true))
       st.

Definition readNumber (l : Lexer) (startPos : Z) : option (Token * Lexer) :=
  let st0 : Reader := (l, "") in
  let st1 := if ch l =? chr "-" then writeRune st0 else st0 in
  '(st2, hasDigits) ← readIntPart (st1, false);
  st3 ←
    (if (ch (fst st2) =? chr ".") && isDigit (peekChar (fst st2))
     then readDigits (writeRune st2)
     else if (ch (fst st2) =? chr ".") && negb hasDigits
     then readDigits (writeRune (fst st2, snd st2 ++ "0"))
     else Some st2);
  st4 ←
    (if (ch (fst st3) =? chr "e") || (ch (fst st3) =? chr "E")
     then
       let st := writeRune st3 in
       let st' :=
         if (ch (fst st) =? chr "+") || (ch (fst st) =? chr "-")
         then writeRune st else st in
       readDigits st'
     else Some st3);
  if ch (fst st4) =? chr "%"
  then Some (Token.New PERCENT (snd st4 ++ "%") startPos, readChar (fst st4))
  else Some (Token.New NUMBER (snd st4) startPos, fst st4).

Definition multiWordPrefixes (lower : string) : option (list string) :=
  if String.eqb lower "turkish" then Some ["lira"]
  else if String.eqb lower "hong" then Some ["kong"; "dollar"]
  else if String.eqb lower "new" then Some ["zealand"; "dollar"]
  else if String.eqb lower "south" then Some ["african"; "rand"; "korean"; "won"]
  else if String.eqb lower "saudi" then Some ["riyal"]
  else if String.eqb lower "swiss" then Some ["franc"; "francs"]
  else if String.eqb lower "british" then Some ["pound"; "pounds"]
  else if String.eqb lower "us" then Some ["dollar"; "dollars"]
  else if String.eqb lower "mexican" then Some ["peso"]
  else if String.eqb lower "brazilian" then Some ["real"]
  else if String.eqb lower "indian" then Some ["rupee"; "rupees"]
  else if String.eqb lower "square"
  then Some ["meter"; "meters"; "foot"; "feet"; "mile"; "miles";
             "kilometer"; "kilometers"]
  else if String.eqb lower "cubic" then Some ["meter"; "meters"]
  else if String.eqb lower "fluid" then Some ["ounce"; "ounces"]
  else if String.eqb lower "troy" then Some ["ounce"; "ounces"]
  else if String.eqb lower "nautical" then Some ["mile"; "miles"]
  else None.

(** [strings.Join(words, " ")]. *)
Fixpoint joinWords (words : list string) : string :=
  match words with
  | [] => ""
  | [w] => w
  | w :: rest => w ++ " " ++ joinWords rest
  end.

Section WithStd.
Context `{std : GoStd}.

Definition isLetter (c : Z) : bool :=
  ((chr "a" <=? c) && (c <=? chr "z")) || ((chr "A" <=? c) && (c <=? chr "Z"))
  || (c =? chr "_") || unicode_IsLetter c.

(** [for isLetter(l.ch) || l.ch == '_'], the word reader of the multi-word
    lookahead. *)
Definition readWord (st : Reader) : option Reader :=
  loop (fuelOf (fst st))
       (fun st => isLetter (ch (fst st)) || (ch (fst st) =? chr "_"))
       (fun st => inr (writeRune st)) st.

(** [for _, expected := range expectedWords] of
    [tryReadMultiWordIdentifier]. *)
Fixpoint readExpected (expectedWords : list string) (l : Lexer)
    (words : list string) : option (Lexer * list string) :=
  match expectedWords with
  | [] => Some (l, words)
  | expected :: rest =>
      l1 ← skipWhitespace l;
      if negb (isLetter (ch l1)) then Some (l1, words)
      else
        let wordStart := pos l1 in
        '(l2, word) ← readWord (l1, "");
        if String.eqb (strings_ToLower word) expected
        then readExpected rest l2 (words ++ [word])
        else
          Some (with_pos l2 wordStart (wordStart + 1)
                  (if wordStart <? strlen (input l2)
                   then byteAt (input l2) wordStart else 0),
                words)
  end.

Definition tryReadMultiWordIdentifier (l : Lexer) (first : string)
    : option (string * Lexer) :=
  let lower := strings_ToLower first in
  match multiWordPrefixes lower with
  | None => Some ("", l)
  | Some expectedWords =>
      '(l', words) ← readExpected expectedWords l [first];
      if (length words =? 1)%nat
      then Some ("", with_col (with_pos l' (pos l) (readPos l) (ch l)) (col l))
      else Some (joinWords words, l')
  end.

Definition readIdentifier (l : Lexer) (startPos : Z) : option (Token * Lexer) :=
  '(l1, literal) ←
    loop (fuelOf l)
         (fun st : Reader =>
            isLetter (ch (fst st)) || isDigit (ch (fst st))
            || (ch (fst st) =? chr "_"))
         (fun st => inr (writeRune st)) (l, "");
  let lower := strings_ToLower literal in
  let tokType := LookupIdentifier lower in
  if negb (Type_eqb tokType IDENTIFIER)
  then Some (Token.New tokType literal startPos, l1)
  else
    '(multiWord, l2) ← tryReadMultiWordIdentifier l1 literal;
    if negb (String.eqb multiWord "")
    then Some (Token.New IDENTIFIER multiWord startPos, l2)
    else Some (Token.New IDENTIFIER literal startPos, l2).

Definition readComment (l : Lexer) (startPos : Z) : option (Token * Lexer) :=
  let st0 : Reader := (l, "") in
  let st1 :=
    if ch l =? chr "#" then writeRune st0
    else if ch l =? chr "/" then
      let st := writeRune st0 in
      if ch (fst st) =? chr "/" then writeRune st else st
    else st0 in
  '(l2, sb) ←
    loop (fuelOf l)
         (fun st : Reader => negb (ch (fst st) =? 10) && negb (ch (fst st) =? 0))
         (fun st => inr (writeRune st)) st1;
  Some (Token.New COMMENT sb startPos, l2).

Definition readCurrencySymbol (l : Lexer) (startPos : Z) : Token * Lexer :=
  let symbol := encodeRune (ch l) in
  let l1 := readChar l in
  let tokType := LookupCurrencySymbol (byteAt symbol 0) in
  (Token.New tokType symbol startPos, l1).

Definition NextToken `{reg : Types.Registry} (l0 : Lexer) : option (Token * Lexer) :=
  l ← skipWhitespace l0;
  let startPos := pos l in
  let c := ch l in
  if c =? 0 then Some (Token.New EOF "" startPos, l)
  else if (c =? chr "#") || ((c =? chr "/") && (peekChar l =? chr "/"))
  then readComment l startPos
  else if Types.IsCurrencySymbolRune c || Types.IsCryptoSymbolRune c
  then Some (readCurrencySymbol l startPos)
  else if isDigit c || ((c =? chr ".") && isDigit (peekChar l))
  then readNumber l startPos
  else if c =? chr "+" then Some (Token.New PLUS "+" startPos, readChar l)
  else if c =? chr "-" then
    if isDigit (peekChar l) && isStartOfExpression l
    then readNumber l startPos
    else Some (Token.New MINUS "-" startPos, readChar l)
  else if c =? chr "*" then
    if peekChar l =? chr "*"
    then Some (Token.New POWER "**" startPos, readChar (readChar l))
    else Some (Token.New STAR "*" startPos, readChar l)
  else if c =? chr "/" then Some (Token.New SLASH "/" startPos, readChar l)
  else if c =? chr "^" then Some (Token.New CARET "^" startPos, readChar l)
  else if c =? chr "(" then Some (Token.New LPAREN "(" startPos, readChar l)
  else if c =? chr ")" then Some (Token.New RPAREN ")" startPos, readChar l)
  else if c =? chr "=" then Some (Token.New EQUALS "=" startPos, readChar l)
  else if c =? chr "," then Some (Token.New COMMA "," startPos, readChar l)
  else if c =? chr "%" then Some (Token.New PERCENT "%" startPos, readChar l)
  else if c =? 10
  then Some (Token.New NEWLINE (byteStr 10) startPos, readChar l)
  else if isLetter c || (c =? chr "_") then readIdentifier l startPos
  else Some (Token.New ILLEGAL (encodeRune c) startPos, readChar l).

(** [Lexer.Tokenize]: every token but EOF consumes input, so one round per
    input byte and one for EOF suffice. *)
Fixpoint tokenizeLoop `{reg : Types.Registry} (fuel : nat) (l : Lexer)
    : option (list Token) :=
  match fuel with
  | O => None
  | S fuel' =>
      '(tok, l') ← NextToken l;
      if Type_eqb (Typ tok) EOF then Some [tok]
      else toks ← tokenizeLoop fuel' l'; Some (tok :: toks)
  end.

Definition Tokenize `{reg : Types.Registry} (inp : string) : option (list Token) :=
  tokenizeLoop (S (String.length inp)) (New inp).

End WithStd.

End Lexer.

(** ** internal/ast *)

Module Ast.

Variant BinaryOp := OpAdd | OpSub | OpMul | OpDiv | OpPow | OpMod.

Definition BinaryOp_eqb (a b : BinaryOp) : bool :=
  match a, b with
  | OpAdd, OpAdd | OpSub, OpSub | OpMul, OpMul | OpDiv, OpDiv
  | OpPow, OpPow | OpMod, OpMod => true
  | _, _ => false
  end.

Definition Precedence (op : BinaryOp) : Z :=
  match op with
  | OpAdd | OpSub => 1
  | OpMul | OpDiv | OpMod => 2
  | OpPow => 3
  end.

Variant UnaryOp := OpNeg | OpPos.

(** The expression nodes; [Nil] is the nil [Expr] interface value.
    [CondExpr] and [RangeExpr] are the placeholders the evaluator does not
    know. *)
Inductive Expr :=
  | Nil
  | NumberLit (value : float) (raw : string)
  | PercentLit (value : float) (raw : string)
  | CurrencyLit (amount : float) (currency : option Types.Currency) (raw : string)
  | UnitLit (amount : float) (unit : option Types.Unit) (raw : string)
  | MetalLit (amount : float) (metal : option Types.Metal) (raw : string)
  | CryptoLit (amount : float) (crypto : option Types.Crypto) (raw : string)
  | Identifier (name : string)
  | BinaryExpr (lhs : Expr) (op : BinaryOp) (rhs : Expr)
  | UnaryExpr (op : UnaryOp) (e : Expr)
  | PercentOfExpr (percent : Expr) (value : Expr)
  | ConversionExpr (value : Expr) (target : string)
  | CallExpr (name : string) (args : list Expr)
  | GroupExpr (e : Expr)
  | ContinuationExpr (op : BinaryOp) (e : Expr)
  | ConversionContinuation (target : string)
  | CondExpr (cond thn els : Expr)
  | RangeExpr (start stop step : Expr).

Definition isNil (e : Expr) : bool :=
  match e with Nil => true | _ => false end.

Inductive Stmt :=
  | NilStmt
  | EmptyStmt
  | CommentStmt (text : string)
  | ExprStmt (e : Expr)
  | AssignStmt (name : string) (e : Expr).

Record Line := { LStmt : Stmt; Comment : string; Raw : string }.

Definition with_Raw (l : Line) (raw : string) : Line :=
  {| LStmt := LStmt l; Comment := Comment l; Raw := raw |}.

End Ast.

(** ** internal/parser *)

Module Parser.
Import Token Ast.

(** An [errors.Error] of kind parse: its message and position. *)
Record Error := { Message : string; EPos : Z }.

Record Parser := {
  tokens : list Token;
  pos : Z;
  errors : list Error
}.

Definition NewFromTokens (toks : list Token) : Parser :=
  {| tokens := toks; pos := 0; errors := [] |}.

Definition ntokens (p : Parser) : Z := Z.of_nat (length (tokens p)).

Definition tokenAt (p : Parser) (i : Z) : Token :=
  if ntokens p <=? i then Token.New EOF "" (-1)
  else nth (Z.to_nat i) (tokens p) (Token.New EOF "" (-1)).

Definition current (p : Parser) : Token := tokenAt p (pos p).
Definition peek (p : Parser) : Token := tokenAt p (pos p + 1).

Definition advance (p : Parser) : Token * Parser :=
  (current p,
   if pos p <? ntokens p
   then {| tokens := tokens p; pos := pos p + 1; errors := errors p |}
   else p).

Definition check (p : Parser) (t : Type_) : bool := Type_eqb (Typ (current p)) t.

Definition checkAny (p : Parser) (ts : list Type_) : bool :=
  existsb (fun t => Type_eqb (Typ (current p)) t) ts.

Definition addError (p : Parser) (msg : string) : Parser :=
  {| tokens := tokens p; pos := pos p;
     errors := errors p ++ [{| Message := msg; EPos := Pos (current p) |}] |}.

(** [match]: consumes the current token if it has type [t]. *)
Definition match_ (p : Parser) (t : Type_) : bool * Parser :=
  if check p t then (true, snd (advance p)) else (false, p).

Definition expect (p : Parser) (t : Type_) (msg : string) : bool * Parser :=
  if check p t then (true, snd (advance p)) else (false, addError p msg).

Definition isBinaryOp (p : Parser) : bool :=
  checkAny p [PLUS; MINUS; STAR; SLASH; CARET; POWER].

Definition currentBinaryOp (p : Parser) : BinaryOp :=
  match Typ (current p) with
  | PLUS => OpAdd
  | MINUS => OpSub
  | STAR => OpMul
  | SLASH => OpDiv
  | CARET | POWER => OpPow
  | _ => OpAdd
  end.

Definition parseBinaryOp (p : Parser) : BinaryOp * Parser :=
  (currentBinaryOp p, snd (advance p)).

(** [strings.ReplaceAll(s, ",", "")]. *)
Fixpoint removeCommas (s : string) : string :=
  match s with
  | EmptyString => EmptyString
  | String c rest =>
      if Ascii.eqb c ","%char then removeCommas rest
      else String c (removeCommas rest)
  end.

(** [strings.TrimSuffix(s, "%")]. *)
Fixpoint trimPercentSuffix (s : string) : string :=
  match s with
  | EmptyString => EmptyString
  | String c EmptyString => if Ascii.eqb c "%"%char then EmptyString else s
  | String c rest => String c (trimPercentSuffix rest)
  end.

Section WithStd.
Context `{std : GoStd} `{reg : Types.Registry}.

Definition parseFloat (s : string) : option float :=
  strconv_ParseFloat (removeCommas s).

Definition parseNumber (p : Parser) : Expr * Parser :=
  let '(tok, p1) := advance p in
  match parseFloat (Literal tok) with
  | None =>
      (NumberLit 0 (Literal tok),
       addError p1 ("invalid number: " ++ Literal tok))
  | Some value =>
      if check p1 IDENTIFIER then
        let suffix := Literal (current p1) in
        let raw := Literal tok ++ " " ++ suffix in
        match Types.ParseCurrency suffix with
        | Some curr => (CurrencyLit value (Some curr) raw, snd (advance p1))
        | None =>
        match Types.ParseCrypto suffix with
        | Some crypto => (CryptoLit value (Some crypto) raw, snd (advance p1))
        | None =>
        match Types.ParseMetal suffix with
        | Some metal => (MetalLit value (Some metal) raw, snd (advance p1))
        | None =>
        match Types.ParseUnit suffix with
        | Some unit => (UnitLit value (Some unit) raw, snd (advance p1))
        | None => (NumberLit value (Literal tok), p1)
        end end end end
      else (NumberLit value (Literal tok), p1)
  end.

Definition parsePercent (p : Parser) : Expr * Parser :=
  let '(tok, p1) := advance p in
  let numStr := trimPercentSuffix (Literal tok) in
  match parseFloat numStr with
  | None =>
      (PercentLit 0 (Literal tok),
       addError p1 ("invalid percentage: " ++ Literal tok))
  | Some value => (PercentLit (value / 100.0)%float (Literal tok), p1)
  end.

Definition parseCurrencyWithSymbol (p : Parser) : Expr * Parser :=
  let '(symbolTok, p1) := advance p in
  let symbol := Literal symbolTok in
  let curr := Types.LookupCurrencyBySymbol symbol in
  let crypto :=
    match curr with Some _ => None | None => Types.LookupCrypto symbol end in
  if negb (check p1 NUMBER) then
    let p2 := addError p1 "expected number after currency symbol" in
    match curr, crypto with
    | Some c, _ => (CurrencyLit 0 (Some c) symbol, p2)
    | None, Some c => (CryptoLit 0 (Some c) symbol, p2)
    | None, None => (NumberLit 0 symbol, p2)
    end
  else
    let '(numTok, p2) := advance p1 in
    let '(amount, p3) :=
      match parseFloat (Literal numTok) with
      | Some a => (a, p2)
      | None => (0%float, addError p2 ("invalid number: " ++ Literal numTok))
      end in
    let raw := symbol ++ Literal numTok in
    match curr, crypto with
    | Some c, _ => (CurrencyLit amount (Some c) raw, p3)
    | None, Some c => (CryptoLit amount (Some c) raw, p3)
    | None, None => (NumberLit amount raw, p3)
    end.

(** The recursive descent proper. [fuel] bounds the depth of the calls;
    [None] when it is used up. *)
Fixpoint parseBinaryExpr (fuel : nat) (minPrec : Z) (p : Parser)
    : option (Expr * Parser) :=
  match fuel with
  | O => None
  | S f =>
      '(lhs, p1) ← parseUnaryExpr f p;
      if isNil lhs then Some (Nil, p1)
      else binaryLoop f minPrec lhs p1
  end

(** The [for] loop of [parseBinaryExpr] and the conversion suffix after it. *)
with binaryLoop (fuel : nat) (minPrec : Z) (lhs : Expr) (p : Parser)
    : option (Expr * Parser) :=
  match fuel with
  | O => None
  | S f =>
      let suffix (lhs : Expr) (p : Parser) : Expr * Parser :=
        if check p IN then
          let p1 := snd (advance p) in
          if check p1 IDENTIFIER then
            let '(tok, p2) := advance p1 in
            (ConversionExpr lhs (Literal tok), p2)
          else (lhs, p1)
        else (lhs, p) in
      if negb (isBinaryOp p) then Some (suffix lhs p)
      else
        let op := currentBinaryOp p in
        let prec := Precedence op in
        if prec <? minPrec then Some (suffix lhs p)
        else
          let p1 := snd (advance p) in
          let rightPrec := if BinaryOp_eqb op OpPow then prec else prec + 1 in
          '(rhs, p2) ← parseBinaryExpr f rightPrec p1;
          if isNil rhs
          then Some (lhs, addError p2 "expected expression after operator")
          else binaryLoop f minPrec (BinaryExpr lhs op rhs) p2
  end

with parseUnaryExpr (fuel : nat) (p : Parser) : option (Expr * Parser) :=
  match fuel with
  | O => None
  | S f =>
      if checkAny p [MINUS; PLUS] then
        let '(tok, p1) := advance p in
        '(e, p2) ← parseUnaryExpr f p1;
        if isNil e then Some (Nil, p2)
        else
          let op := if Type_eqb (Typ tok) MINUS then OpNeg else OpPos in
          Some (UnaryExpr op e, p2)
      else parsePostfixExpr f p
  end

with parsePostfixExpr (fuel : nat) (p : Parser) : option (Expr * Parser) :=
  match fuel with
  | O => None
  | S f =>
      '(e, p1) ← parsePrimaryExpr f p;
      if isNil e then Some (Nil, p1)
      else if check p1 OF then
        match e with
        | PercentLit _ _ =>
            let p2 := snd (advance p1) in
            '(value, p3) ← parseUnaryExpr f p2;
            if isNil value
            then Some (e, addError p3 "expected expression after 'of'")
            else Some (PercentOfExpr e value, p3)
        | _ => Some (e, p1)
        end
      else Some (e, p1)
  end

with parsePrimaryExpr (fuel : nat) (p : Parser) : option (Expr * Parser) :=
  match fuel with
  | O => None
  | S f =>
      let tok := current p in
      match Typ tok with
      | NUMBER => Some (parseNumber p)
      | PERCENT => Some (parsePercent p)
      | DOLLAR | EURO | POUND | YEN | BITCOIN | CURRENCY =>
          Some (parseCurrencyWithSymbol p)
      | IDENTIFIER => parseIdentifierOrValue f p
      | LPAREN => parseGroupExpr f p
      | EOF | NEWLINE | COMMENT => Some (Nil, p)
      | RPAREN | COMMA => Some (Nil, p)
      | _ => Some (Nil, addError p ("unexpected token: " ++ Literal tok))
      end
  end

with parseIdentifierOrValue (fuel : nat) (p : Parser) : option (Expr * Parser) :=
  match fuel with
  | O => None
  | S f =>
      let '(tok, p1) := advance p in
      let name := Literal tok in
      if check p1 LPAREN then parseFunctionCall f name p1
      else
        let lower := strings_ToLower name in
        if String.eqb lower "_" || String.eqb lower "ans"
        then Some (Identifier "_", p1)
        else Some (Identifier name, p1)
  end

with parseFunctionCall (fuel : nat) (name : string) (p : Parser)
    : option (Expr * Parser) :=
  match fuel with
  | O => None
  | S f =>
      let p1 := snd (advance p) in
      '(args, p2) ←
        (if negb (check p1 RPAREN) then parseArgs f [] p1 else Some ([], p1));
      let p3 := snd (expect p2 RPAREN "expected ')' after function arguments") in
      Some (CallExpr name args, p3)
  end

(** The argument loop of [parseFunctionCall]. *)
with parseArgs (fuel : nat) (args : list Expr) (p : Parser)
    : option (list Expr * Parser) :=
  match fuel with
  | O => None
  | S f =>
      '(arg, p1) ← parseBinaryExpr f 0 p;
      let args' := if isNil arg then args else (args ++ [arg])%list in
      let '(matched, p2) := match_ p1 COMMA in
      if negb matched then Some (args', p2)
      else parseArgs f args' p2
  end

with parseGroupExpr (fuel : nat) (p : Parser) : option (Expr * Parser) :=
  match fuel with
  | O => None
  | S f =>
      let p1 := snd (advance p) in
      '(e, p2) ← parseBinaryExpr f 0 p1;
      let '(e', p3) :=
        if isNil e
        then (NumberLit 0 "", addError p2 "expected expression inside parentheses")
        else (e, p2) in
      let p4 := snd (expect p3 RPAREN "expected ')' after expression") in
      Some (GroupExpr e', p4)
  end.

(** Between two tokens consumed the calls nest at most eight deep. *)
Definition fuelOf (p : Parser) : nat := 8 * length (tokens p) + 8.

Definition parseExpression (p : Parser) : option (Expr * Parser) :=
  parseBinaryExpr (fuelOf p) 0 p.

Definition parseAssignment (p : Parser) : option (Stmt * Parser) :=
  let '(tok, p1) := advance p in
  let name := Literal tok in
  let p2 := snd (advance p1) in
  '(e, p3) ← parseExpression p2;
  if isNil e
  then Some (AssignStmt name (NumberLit 0 ""),
             addError p3 "expected expression after '='")
  else Some (AssignStmt name e, p3).

Definition parseContinuation (p : Parser) : option (Stmt * Parser) :=
  let '(op, p1) := parseBinaryOp p in
  '(e, p2) ← parseExpression p1;
  if isNil e
  then Some (EmptyStmt, addError p2 "expected expression after operator")
  else Some (ExprStmt (ContinuationExpr op e), p2).

Definition parseConversionContinuation (p : Parser) : Stmt * Parser :=
  let p1 := snd (advance p) in
  if negb (check p1 IDENTIFIER)
  then (EmptyStmt, addError p1 "expected unit or currency after 'in'/'to'")
  else
    let '(tok, p2) := advance p1 in
    (ExprStmt (ConversionContinuation (Literal tok)), p2).

Definition parseStatement (p : Parser) : option (Stmt * Parser) :=
  if check p IDENTIFIER && Type_eqb (Typ (peek p)) EQUALS
  then parseAssignment p
  else if checkAny p [PLUS; MINUS; STAR; SLASH; CARET; POWER]
  then parseContinuation p
  else if check p IN then Some (parseConversionContinuation p)
  else
    '(e, p1) ← parseExpression p;
    if isNil e then Some (EmptyStmt, p1) else Some (ExprStmt e, p1).

(** The method [Parser.ParseLine]. *)
Definition parseLine (p : Parser) : option (Line * Parser) :=
  p1 ← loop (length (tokens p)) (fun p => check p NEWLINE)
          (fun p => inr (snd (advance p))) p;
  if check p1 EOF
  then Some ({| LStmt := EmptyStmt; Comment := ""; Raw := "" |}, p1)
  else if check p1 COMMENT then
    let '(comment, p2) := advance p1 in
    Some ({| LStmt := CommentStmt (Literal comment);
             Comment := Literal comment; Raw := "" |}, p2)
  else
    '(stmt, p2) ← parseStatement p1;
    let '(comment, p3) :=
      if check p2 COMMENT
      then let '(tok, p3) := advance p2 in (Literal tok, p3)
      else ("", p2) in
    Some ({| LStmt := stmt; Comment := comment; Raw := "" |}, p3).

(** [New]: a parser over the tokens of the input. *)
Definition New (inp : string) : option Parser :=
  toks ← Lexer.Tokenize inp; Some (NewFromTokens toks).

(** The function [ParseLine]: the line and the errors of the parser. *)
Definition ParseLine (inp : string) : option (Line * list Error) :=
  p ← New inp;
  '(line, p') ← parseLine p;
  Some (line, errors p').

Definition ParseExpr (inp : string) : option (Expr * list Error) :=
  p ← New inp;
  '(e, p') ← parseExpression p;
  Some (e, errors p').

End WithStd.

End Parser.

(** ** internal/eval: the context

    ([Eval] is a keyword of Rocq: the package is the module [Evaluation].) *)

Module Evaluation.
Import Types Ast.

Record LineResult := {
  Input : string;
  LValue : Value;
  IsConsumed : bool;
  IsContinuation : bool;
  AssignedVar : string
}.

Definition zeroLineResult : LineResult :=
  {| Input := ""; LValue := zeroValue; IsConsumed := false;
     IsContinuation := false; AssignedVar := "" |}.

Definition consume (lr : LineResult) : LineResult :=
  {| Input := Input lr; LValue := LValue lr; IsConsumed := true;
     IsContinuation := IsContinuation lr; AssignedVar := AssignedVar lr |}.

(** *** The store

    Contexts, the maps of their variables, the backing arrays of their
    line slices and the rate caches are objects of a store, reached through
    references: a [*Context] is a reference into [ctxs], and so on. *)
Definition ref : Type := positive.

(** A slice header [[]LineResult]: the backing array ([None] for the nil
    slice) and the length; the capacity is the length of the array. *)
Record Slice := { arr : option ref; len : nat }.

Definition nilSlice : Slice := {| arr := None; len := 0 |}.

Record Context := {
  variables : ref;
  rateCache : option ref;
  previous : Value;
  lines : Slice;
  precision : Z;
  strict : bool
}.

Record Store := {
  ctxs : gmap positive Context;
  maps : gmap positive (gmap string Value);
  arrays : gmap positive (list LineResult);
  caches : gmap positive Cache.RateCache
}.

Definition emptyStore : Store :=
  {| ctxs := ∅; maps := ∅; arrays := ∅; caches := ∅ |}.

Definition with_ctx (st : Store) (c : ref) (x : Context) : Store :=
  {| ctxs := <[c := x]> (ctxs st); maps := maps st; arrays := arrays st;
     caches := caches st |}.

Definition with_map (st : Store) (m : ref) (x : gmap string Value) : Store :=
  {| ctxs := ctxs st; maps := <[m := x]> (maps st); arrays := arrays st;
     caches := caches st |}.

Definition with_array (st : Store) (a : ref) (x : list LineResult) : Store :=
  {| ctxs := ctxs st; maps := maps st; arrays := <[a := x]> (arrays st);
     caches := caches st |}.

Definition with_cache (st : Store) (r : ref) (x : Cache.RateCache) : Store :=
  {| ctxs := ctxs st; maps := maps st; arrays := arrays st;
     caches := <[r := x]> (caches st) |}.

(** Allocation: a reference no object of that kind has yet. *)
Definition newCtx (st : Store) : ref := fresh (dom (ctxs st)).
Definition newMap (st : Store) : ref := fresh (dom (maps st)).
Definition newArray (st : Store) : ref := fresh (dom (arrays st)).
Definition newCache (st : Store) : ref := fresh (dom (caches st)).

Definition set_variables (x : Context) (m : ref) : Context :=
  {| variables := m; rateCache := rateCache x; previous := previous x;
     lines := lines x; precision := precision x; strict := strict x |}.

Definition set_rateCache (x : Context) (r : option ref) : Context :=
  {| variables := variables x; rateCache := r; previous := previous x;
     lines := lines x; precision := precision x; strict := strict x |}.

Definition set_previous (x : Context) (v : Value) : Context :=
  {| variables := variables x; rateCache := rateCache x; previous := v;
     lines := lines x; precision := precision x; strict := strict x |}.

Definition set_lines (x : Context) (s : Slice) : Context :=
  {| variables := variables x; rateCache := rateCache x; previous := previous x;
     lines := s; precision := precision x; strict := strict x |}.

Definition set_precision (x : Context) (p : Z) : Context :=
  {| variables := variables x; rateCache := rateCache x; previous := previous x;
     lines := lines x; precision := p; strict := strict x |}.

Definition set_strict (x : Context) (b : bool) : Context :=
  {| variables := variables x; rateCache := rateCache x; previous := previous x;
     lines := lines x; precision := precision x; strict := b |}.

(** The elements of a slice: the first [len] cells of its array. A slice
    is never longer than its array, and the nil slice is empty. *)
Definition sliceElems (st : Store) (s : Slice) : option (list LineResult) :=
  match arr s with
  | None => if (len s =? 0)%nat then Some [] else None
  | Some a =>
      content ← arrays st !! a;
      if (len s <=? length content)%nat then Some (take (len s) content)
      else None
  end.

(** *** What a context holds

    The evaluator only reads the context; [Env] is what it can read
    through a [*Context]: the entries of the variables map, the previous
    result, the line history, the settings and the rate table. *)
Record Env := {
  vars : gmap string Value;
  prev : Value;
  hist : list LineResult;
  isStrict : bool;
  prec : Z;
  rc : option Cache.RateCache
}.

Definition load (st : Store) (c : ref) : option Env :=
  x ← ctxs st !! c;
  m ← maps st !! variables x;
  h ← sliceElems st (lines x);
  r ← match rateCache x with
      | None => Some None
      | Some r => Some <$> caches st !! r
      end;
  Some {| vars := m; prev := previous x; hist := h; isStrict := strict x;
          prec := precision x; rc := r |}.

Section WithStd.
Context `{std : GoStd} `{reg : Registry} `{ord : Cache.MapOrder}.

(** *** Readers *)

Definition calculateTotal (e : Env) : Value :=
  Number
    (fold_left
       (fun total lr =>
          if IsConsumed lr then total
          else if IsNumeric (LValue lr) then (total + AsFloat (LValue lr))%float
          else total)
       (hist e) 0%float).

Definition isSpecial (lower : string) : bool :=
  String.eqb lower "_" || String.eqb lower "ans" || String.eqb lower "total".

Definition GetVariable (e : Env) (name : string) : Value * bool :=
  let lower := strings_ToLower name in
  if String.eqb lower "_" || String.eqb lower "ans" then
    if negb (IsEmpty (prev e)) then (prev e, true) else (Empty, false)
  else if String.eqb lower "total" then (calculateTotal e, true)
  else
    match vars e !! name with
    | Some v => (v, true)
    | None =>
        match vars e !! lower with
        | Some v => (v, true)
        | None => (zeroValue, false)
        end
    end.

Definition HasVariable (e : Env) (name : string) : bool := snd (GetVariable e name).

Definition Previous (e : Env) : Value := prev e.

Definition HasPrevious (e : Env) : bool :=
  negb (IsEmpty (prev e)) && negb (IsError (prev e)).

Definition IsStrict (e : Env) : bool := isStrict e.

(** [LastLine]: the last line that is neither empty nor an error. *)
Definition isValidLine (lr : LineResult) : bool :=
  negb (IsEmpty (LValue lr)) && negb (IsError (LValue lr)).

Definition LastLine (e : Env) : LineResult * bool :=
  match find isValidLine (rev (hist e)) with
  | Some lr => (lr, true)
  | None => (zeroLineResult, false)
  end.

Definition GetRate (e : Env) (from to : string) : float * bool :=
  match rc e with
  | None => (0%float, false)
  | Some c => Cache.GetRate c from to
  end.

Definition Convert (e : Env) (amount : float) (from to : string) : float * bool :=
  match rc e with
  | None => (0%float, false)
  | Some c => Cache.Convert c amount from to
  end.

Definition ConvertValue (e : Env) (v : Value) (target : string) : Value * bool :=
  match Kind v, UnitP v with
  | ValueWithUnit, Some unit =>
      match ParseUnit target with
      | Some targetUnit =>
          match ConvertTo unit (Num v) targetUnit with
          | Some converted => (UnitValue converted (Some targetUnit), true)
          | None => (v, false)
          end
      | None => (v, false)
      end
  | _, _ =>
      match rc e with
      | None => (v, false)
      | Some c => Cache.ConvertValue c v target
      end
  end.

(** *** Writers: each acts on the objects a [*Context] refers to *)

Definition SetVariable (st : Store) (c : ref) (name : string) (value : Value)
    : option Store :=
  x ← ctxs st !! c;
  let lower := strings_ToLower name in
  if isSpecial lower then Some st
  else
    m ← maps st !! variables x;
    Some (with_map st (variables x) (<[name := value]> m)).

Definition DeleteVariable (st : Store) (c : ref) (name : string) : option Store :=
  x ← ctxs st !! c;
  m ← maps st !! variables x;
  Some (with_map st (variables x) (delete name m)).

(** [ClearVariables]: the context gets a new, empty map. *)
Definition ClearVariables (st : Store) (c : ref) : option Store :=
  x ← ctxs st !! c;
  let m := newMap st in
  Some (with_ctx (with_map st m ∅) c (set_variables x m)).

Definition SetPrevious (st : Store) (c : ref) (v : Value) : option Store :=
  x ← ctxs st !! c;
  if negb (IsEmpty v) && negb (IsError v)
  then Some (with_ctx st c (set_previous x v))
  else Some st.

(** [append(s, lr)]: in place when the array has room, else into a new
    array of the capacity the runtime chooses. *)
Definition appendLine (st : Store) (s : Slice) (lr : LineResult)
    : option (Slice * Store) :=
  match arr s with
  | Some a =>
      content ← arrays st !! a;
      if (len s <? length content)%nat
      then Some ({| arr := Some a; len := S (len s) |},
                 with_array st a (<[len s := lr]> content))
      else
        let a' := newArray st in
        let cap := runtime_growslice (length content) (S (len s)) in
        Some ({| arr := Some a'; len := S (len s) |},
              with_array st a'
                (take (len s) content ++ [lr]
                 ++ replicate (cap - S (len s)) zeroLineResult))
  | None =>
      let a' := newArray st in
      let cap := runtime_growslice 0 1 in
      Some ({| arr := Some a'; len := 1 |},
            with_array st a' ([lr] ++ replicate (cap - 1) zeroLineResult))
  end.

Definition AddLineResult (st : Store) (c : ref) (result : LineResult)
    : option Store :=
  x ← ctxs st !! c;
  '(s, st1) ← appendLine st (lines x) result;
  Some (with_ctx st1 c (set_lines x s)).

(** The index of the last valid line among the first [n] cells, if any:
    the downward loop of [MarkLastConsumed]. *)
Fixpoint lastValid (content : list LineResult) (n : nat) : option nat :=
  match n with
  | O => None
  | S i =>
      match content !! i with
      | Some lr => if isValidLine lr then Some i else lastValid content i
      | None => lastValid content i
      end
  end.

Definition MarkLastConsumed (st : Store) (c : ref) : option Store :=
  x ← ctxs st !! c;
  match arr (lines x) with
  | None => Some st
  | Some a =>
      content ← arrays st !! a;
      match lastValid content (Nat.min (len (lines x)) (length content)) with
      | Some i =>
          Some (with_array st a (alter consume i content))
      | None => Some st
      end
  end.

Definition ClearLines (st : Store) (c : ref) : option Store :=
  x ← ctxs st !! c;
  Some (with_ctx st c (set_lines x nilSlice)).

Definition SetRateCache (st : Store) (c : ref) (r : option ref) : option Store :=
  x ← ctxs st !! c;
  Some (with_ctx st c (set_rateCache x r)).

Definition SetPrecision (st : Store) (c : ref) (p : Z) : option Store :=
  x ← ctxs st !! c;
  if (0 <=? p) && (p <=? 15) then Some (with_ctx st c (set_precision x p))
  else Some st.

Definition SetStrict (st : Store) (c : ref) (b : bool) : option Store :=
  x ← ctxs st !! c;
  Some (with_ctx st c (set_strict x b)).

(** [Clear]: a new empty map, no previous result, the nil slice; the rate
    cache stays. *)
Definition Clear (st : Store) (c : ref) : option Store :=
  x ← ctxs st !! c;
  let m := newMap st in
  Some (with_ctx (with_map st m ∅) c
          (set_lines (set_previous (set_variables x m) Empty) nilSlice)).

(** [NewContext]: a new map, a new rate cache ([cache.New], which reads
    the cache file [disk] at time [now]), no previous result, no lines. *)
Definition NewContext (st : Store) (disk : option Cache.CachedRates) (now : Z)
    : ref * Store :=
  let m := newMap st in
  let r := newCache st in
  let c := newCtx st in
  (c, with_ctx (with_cache (with_map st m ∅) r (Cache.New disk now)) c
        {| variables := m; rateCache := Some r; previous := Empty;
           lines := nilSlice; precision := 2; strict := false |}).

Definition NewContextWithCache (st : Store) (r : option ref)
    (disk : option Cache.CachedRates) (now : Z) : ref * Store :=
  let '(c, st1) := NewContext st disk now in
  match r, ctxs st1 !! c with
  | Some _, Some x => (c, with_ctx st1 c (set_rateCache x r))
  | _, _ => (c, st1)
  end.

(** [Clone]: a new context whose map and line array are copies; the rate
    cache reference is shared. *)
Definition Clone (st : Store) (c : ref) : option (ref * Store) :=
  x ← ctxs st !! c;
  m ← maps st !! variables x;
  h ← sliceElems st (lines x);
  let m' := newMap st in
  let a' := newArray st in
  let c' := newCtx st in
  Some (c',
        with_ctx (with_array (with_map st m' m) a' h) c'
          {| variables := m'; rateCache := rateCache x; previous := previous x;
             lines := {| arr := Some a'; len := len (lines x) |};
             precision := precision x; strict := strict x |}).

(** ** internal/eval: the evaluator *)

(** [applyPercentageOp]: "value + percentage", "value - percentage". *)
Definition applyPercentageOp (op : BinaryOp) (lhs rhs : Value) : Value :=
  let baseValue := AsFloat lhs in
  let percentage := Num rhs in
  let result :=
    if BinaryOp_eqb op OpAdd then (baseValue * (1 + percentage))%float
    else (baseValue * (1 - percentage))%float in
  WithAmount lhs result.

Definition isAddSub (op : BinaryOp) : bool :=
  BinaryOp_eqb op OpAdd || BinaryOp_eqb op OpSub.

Definition isMulDiv (op : BinaryOp) : bool :=
  BinaryOp_eqb op OpMul || BinaryOp_eqb op OpDiv.

(** [coerceResult]: the type of the result of a binary operation. *)
Definition coerceResult (e : Env) (result : float) (lhs rhs : Value)
    (op : BinaryOp) : Value :=
  if isMulDiv op && IsNumber lhs && negb (IsNumber rhs)
  then WithAmount rhs result
  else if isMulDiv op && IsNumber rhs && negb (IsNumber lhs)
  then WithAmount lhs result
  else if isMulDiv op && negb (IsNumber lhs) && negb (IsNumber rhs)
  then Number result
  else if isAddSub op then
    if ValueKind_eqb (Kind lhs) (Kind rhs) then WithAmount lhs result
    else if IsNumber lhs then WithAmount rhs result
    else if IsNumber rhs then WithAmount lhs result
    else
      let viaCurrency : option Value :=
        if IsCurrency lhs && IsCurrency rhs then
          match Curr lhs, Curr rhs with
          | Some lc, Some rcur =>
              let '(converted, ok) :=
                Convert e (Num rhs) (CurrCode rcur) (CurrCode lc) in
              if ok then
                if BinaryOp_eqb op OpAdd
                then Some (WithAmount lhs (Num lhs + converted)%float)
                else Some (WithAmount lhs (Num lhs - converted)%float)
              else None
          | _, _ => None
          end
        else None in
      match viaCurrency with
      | Some v => v
      | None =>
          if IsUnit lhs && IsUnit rhs then
            match UnitP lhs, UnitP rhs with
            | Some lu, Some ru =>
                match ConvertTo ru (Num rhs) lu with
                | Some converted =>
                    if BinaryOp_eqb op OpAdd
                    then WithAmount lhs (Num lhs + converted)%float
                    else WithAmount lhs (Num lhs - converted)%float
                | None => Error "incompatible units"
                end
            | _, _ => Error "incompatible units"
            end
          else Number result
      end
  else Number result.

Definition applyBinaryOp (e : Env) (op : BinaryOp) (lhs rhs : Value) : Value :=
  if IsPercentage rhs && isAddSub op then applyPercentageOp op lhs rhs
  else
    let leftNum0 := AsFloat lhs in
    let rightNum0 := AsFloat rhs in
    let rightNum := if IsPercentage rhs && isMulDiv op then Num rhs else rightNum0 in
    let leftNum := if IsPercentage lhs && isMulDiv op then Num lhs else leftNum0 in
    match op with
    | OpAdd => coerceResult e (leftNum + rightNum)%float lhs rhs op
    | OpSub => coerceResult e (leftNum - rightNum)%float lhs rhs op
    | OpMul => coerceResult e (leftNum * rightNum)%float lhs rhs op
    | OpDiv =>
        if PrimFloat.eqb rightNum 0 then Error "division by zero"
        else coerceResult e (leftNum / rightNum)%float lhs rhs op
    | OpPow => coerceResult e (math_Pow leftNum rightNum) lhs rhs op
    | OpMod =>
        if PrimFloat.eqb rightNum 0 then Error "modulo by zero"
        else coerceResult e (math_Mod leftNum rightNum) lhs rhs op
    end.

Definition convertValue (e : Env) (value : Value) (target : string) : Value :=
  let viaUnit : option Value :=
    match IsUnit value, UnitP value with
    | true, Some unit =>
        match ParseUnit target with
        | Some targetUnit =>
            match ConvertTo unit (Num value) targetUnit with
            | Some converted => Some (UnitValue converted (Some targetUnit))
            | None =>
                Some (Errorf "cannot convert %s to %s" [UnitCode unit; target])
            end
        | None => None
        end
    | _, _ => None
    end in
  match viaUnit with
  | Some v => v
  | None =>
      let '(converted, ok) := ConvertValue e value target in
      if ok then converted
      else if bool_decide (is_Some (ParseCurrency target))
              || bool_decide (is_Some (ParseCrypto target))
      then Errorf "no rate available for conversion to %s" [target]
      else if bool_decide (is_Some (ParseUnit target))
      then Errorf "cannot convert to %s (incompatible types)" [target]
      else Errorf "unknown target: %s" [target]
  end.

(** *** Built-in functions *)

Definition fnSum (args : list Value) : Value :=
  match args with
  | [] => Number 0
  | resultType :: _ =>
      (fix go (l : list Value) (total : float) : Value :=
         match l with
         | [] => WithAmount resultType total
         | arg :: rest =>
             if IsError arg then arg
             else go rest (total + AsFloat arg)%float
         end) args 0%float
  end.

Definition fnAvg (args : list Value) : Value :=
  match args with
  | [] => Number 0
  | _ =>
      let sum := fnSum args in
      if IsError sum then sum
      else WithAmount sum (AsFloat sum / floatOfNat (length args))%float
  end.

Definition fnMin (args : list Value) : Value :=
  match args with
  | [] => Error "min requires at least one argument"
  | first :: rest =>
      (fix go (l : list Value) (minVal : Value) (minNum : float) : Value :=
         match l with
         | [] => WithAmount minVal minNum
         | arg :: rest =>
             if IsError arg then arg
             else if PrimFloat.ltb (AsFloat arg) minNum
             then go rest arg (AsFloat arg)
             else go rest minVal minNum
         end) rest first (AsFloat first)
  end.

Definition fnMax (args : list Value) : Value :=
  match args with
  | [] => Error "max requires at least one argument"
  | first :: rest =>
      (fix go (l : list Value) (maxVal : Value) (maxNum : float) : Value :=
         match l with
         | [] => WithAmount maxVal maxNum
         | arg :: rest =>
             if IsError arg then arg
             else if PrimFloat.ltb maxNum (AsFloat arg)
             then go rest arg (AsFloat arg)
             else go rest maxVal maxNum
         end) rest first (AsFloat first)
  end.

Definition fnUnary (args : list Value) (fn : float -> float) : Value :=
  match args with
  | [arg] =>
      if IsError arg then arg
      else
        let result := fn (AsFloat arg) in
        if math_IsNaN result || math_IsInf result then Error "invalid result"
        else Number result
  | _ => Error "function requires exactly one argument"
  end.

Definition fnPow (args : list Value) : Value :=
  match args with
  | [b; x] =>
      let result := math_Pow (AsFloat b) (AsFloat x) in
      if math_IsNaN result || math_IsInf result then Error "invalid result"
      else Number result
  | _ => Error "pow requires exactly two arguments"
  end.

Definition callFunction (name : string) (args : list Value) : Value :=
  if String.eqb name "sum" then fnSum args
  else if String.eqb name "avg" || String.eqb name "average"
          || String.eqb name "mean" then fnAvg args
  else if String.eqb name "min" then fnMin args
  else if String.eqb name "max" then fnMax args
  else if String.eqb name "count" then Number (floatOfNat (length args))
  else if String.eqb name "abs" then fnUnary args PrimFloat.abs
  else if String.eqb name "sqrt" then fnUnary args PrimFloat.sqrt
  else if String.eqb name "round" then fnUnary args (math_fn FnRound)
  else if String.eqb name "floor" then fnUnary args (math_fn FnFloor)
  else if String.eqb name "ceil" then fnUnary args (math_fn FnCeil)
  else if String.eqb name "log" || String.eqb name "log10"
  then fnUnary args (math_fn FnLog10)
  else if String.eqb name "ln" then fnUnary args (math_fn FnLog)
  else if String.eqb name "exp" then fnUnary args (math_fn FnExp)
  else if String.eqb name "sin" then fnUnary args (math_fn FnSin)
  else if String.eqb name "cos" then fnUnary args (math_fn FnCos)
  else if String.eqb name "tan" then fnUnary args (math_fn FnTan)
  else if String.eqb name "asin" then fnUnary args (math_fn FnAsin)
  else if String.eqb name "acos" then fnUnary args (math_fn FnAcos)
  else if String.eqb name "atan" then fnUnary args (math_fn FnAtan)
  else if String.eqb name "pow" then fnPow args
  else Errorf "unknown function: %s" [name].

(** *** Expressions *)

Definition evalIdentifier (e : Env) (name : string) : Value :=
  let '(value, ok) := GetVariable e name in
  if negb ok then
    if IsStrict e then Errorf "undefined variable: %s" [name]
    else Number 0
  else value.

Fixpoint evalExpr (e : Env) (expr : Expr) : Value :=
  match expr with
  | Nil => Empty
  | NumberLit value _ => Number value
  | PercentLit value _ => Percentage value
  | CurrencyLit amount currency _ => CurrencyValue amount currency
  | UnitLit amount unit _ => UnitValue amount unit
  | MetalLit amount metal _ => MetalValue amount metal
  | CryptoLit amount crypto _ => CryptoValue amount crypto
  | Identifier name => evalIdentifier e name
  | BinaryExpr l op r =>
      (* evalBinary *)
      let lhs := evalExpr e l in
      if IsError lhs then lhs
      else
        let rhs := evalExpr e r in
        if IsError rhs then rhs
        else applyBinaryOp e op lhs rhs
  | UnaryExpr op x =>
      (* evalUnary *)
      let value := evalExpr e x in
      if IsError value then value
      else match op with
           | OpNeg => Negate value
           | OpPos => value
           end
  | PercentOfExpr pe ve =>
      (* evalPercentOf *)
      let percent := evalExpr e pe in
      if IsError percent then percent
      else
        let value := evalExpr e ve in
        if IsError value then value
        else
          let pct :=
            if IsPercentage percent then Num percent
            else (AsFloat percent / 100.0)%float in
          WithAmount value (AsFloat value * pct)%float
  | ConversionExpr ve target =>
      (* evalConversion *)
      let value := evalExpr e ve in
      if IsError value then value
      else convertValue e value target
  | CallExpr name args =>
      (* evalCall *)
      let evalArgs :=
        fix evalArgs (l : list Expr) (acc : list Value) : Value + list Value :=
          match l with
          | [] => inr acc
          | a :: rest =>
              let val := evalExpr e a in
              if IsError val then inl val
              else evalArgs rest (acc ++ [val])%list
          end in
      match evalArgs args [] with
      | inl err => err
      | inr vals => callFunction (strings_ToLower name) vals
      end
  | GroupExpr x => evalExpr e x
  | ContinuationExpr op x =>
      (* evalContinuation *)
      if negb (HasPrevious e) then evalExpr e x
      else
        let prv := Previous e in
        let rhs := evalExpr e x in
        if IsError rhs then rhs
        else applyBinaryOp e op prv rhs
  | ConversionContinuation target =>
      (* evalConversionContinuation *)
      if negb (HasPrevious e) then Error "no previous value to convert"
      else convertValue e (Previous e) target
  | CondExpr _ _ _ | RangeExpr _ _ _ => Error "unknown expression type"
  end.

(** *** Statements and lines: these write to the context *)

Definition evalAssign (st : Store) (c : ref) (name : string) (expr : Expr)
    : option (Value * Store) :=
  e ← load st c;
  let value := evalExpr e expr in
  if negb (IsError value)
  then st' ← SetVariable st c name value; Some (value, st')
  else Some (value, st).

Definition evalStmt (st : Store) (c : ref) (stmt : Stmt) : option (Value * Store) :=
  match stmt with
  | EmptyStmt => Some (Empty, st)
  | CommentStmt _ => Some (Empty, st)
  | ExprStmt expr => e ← load st c; Some (evalExpr e expr, st)
  | AssignStmt name expr => evalAssign st c name expr
  | NilStmt => Some (Error "unknown statement type", st)
  end.

Definition isContinuationStmt (stmt : Stmt) : bool :=
  match stmt with
  | ExprStmt (ContinuationExpr _ _) | ExprStmt (ConversionContinuation _) => true
  | _ => false
  end.

Definition EvalLine (st : Store) (c : ref) (line : Line) : option (Value * Store) :=
  match LStmt line with
  | NilStmt => Some (Empty, st)
  | stmt =>
      '(result, st1) ← evalStmt st c stmt;
      let cont := isContinuationStmt stmt in
      st2 ← (if cont then MarkLastConsumed st1 c else Some st1);
      let lr :=
        {| Input := Raw line; LValue := result; IsConsumed := false;
           IsContinuation := cont;
           AssignedVar :=
             match stmt with AssignStmt name _ => name | _ => "" end |} in
      st3 ← AddLineResult st2 c lr;
      st4 ← SetPrevious st3 c result;
      Some (result, st4)
  end.

End WithStd.

End Evaluation.

(** ** pkg/engine *)

Module Engine.
Import Types Ast.

(** An [*eval.Evaluator] holds the reference to its context. *)
Record Evaluator := { ctx : Evaluation.ref }.

Record Engine := {
  evaluator : Evaluator;
  rateCache : Evaluation.ref
}.

Definition NewWithContext (c : Evaluation.ref) : Evaluator := {| ctx := c |}.

Section WithStd.
Context `{std : GoStd} `{reg : Registry} `{ord : Cache.MapOrder}.

(** Modelled from the spec: [Context.SetRateCacheAdapter], which the
    engine calls and the sources of the context do not define. The spec has
    the evaluator reach the rate cache "through a 3-method interface
    (GetRate/Convert/ConvertValue)" and a clone keep "the same shared Rate
    Cache reference": the adapter over the cache [r] makes [r] the rate
    cache of the context, as [SetRateCache] does. *)
Definition SetRateCacheAdapter (st : Evaluation.Store) (c : Evaluation.ref) (r : Evaluation.ref)
    : option Evaluation.Store :=
  Evaluation.SetRateCache st c (Some r).

(** [New]: a rate cache and a context over it. *)
Definition New (st : Evaluation.Store) (disk : option Cache.CachedRates) (now : Z)
    : option (Engine * Evaluation.Store) :=
  let r := Evaluation.newCache st in
  let st1 := Evaluation.with_cache st r (Cache.New disk now) in
  let '(c, st2) := Evaluation.NewContext st1 disk now in
  st3 ← SetRateCacheAdapter st2 c r;
  Some ({| evaluator := NewWithContext c; rateCache := r |}, st3).

Definition hasPrefix (pre s : string) : bool := String.prefix pre s.

(** [Engine.Eval] ([Eval] alone is a keyword of terms). *)
Definition Eval_ (e : Engine) (inp : string) (st : Evaluation.Store)
    : option (Value * Evaluation.Store) :=
  let trimmed := strings_TrimSpace inp in
  if String.eqb trimmed "" then Some (Empty, st)
  else if hasPrefix "#" trimmed || hasPrefix "//" trimmed then Some (Empty, st)
  else
    '(line, errs) ← Parser.ParseLine inp;
    match errs with
    | err :: _ => Some (Error (Parser.Message err), st)
    | [] => Evaluation.EvalLine st (ctx (evaluator e)) (with_Raw line inp)
    end.

(** [EvalMultiple]: the lines one after the other. *)
Fixpoint EvalMultiple (e : Engine) (inputs : list string) (st : Evaluation.Store)
    : option (list Value * Evaluation.Store) :=
  match inputs with
  | [] => Some ([], st)
  | inp :: rest =>
      '(v, st1) ← Eval_ e inp st;
      '(vs, st2) ← EvalMultiple e rest st1;
      Some (v :: vs, st2)
  end.

(** [EvalPreview]: the line is evaluated by a temporary evaluator over a
    clone of the context. *)
Definition EvalPreview (e : Engine) (inp : string) (st : Evaluation.Store)
    : option (Value * Evaluation.Store) :=
  '(c, st1) ← Evaluation.Clone st (ctx (evaluator e));
  st2 ← SetRateCacheAdapter st1 c (rateCache e);
  let tempEval := NewWithContext c in
  let trimmed := strings_TrimSpace inp in
  if String.eqb trimmed "" then Some (Empty, st2)
  else
    '(line, errs) ← Parser.ParseLine inp;
    match errs with
    | err :: _ => Some (Error (Parser.Message err), st2)
    | [] => Evaluation.EvalLine st2 (ctx tempEval) (with_Raw line inp)
    end.

Definition SetVariable (e : Engine) (name : string) (value : Value)
    (st : Evaluation.Store) : option Evaluation.Store :=
  Evaluation.SetVariable st (ctx (evaluator e)) name value.

Definition DeleteVariable (e : Engine) (name : string) (st : Evaluation.Store)
    : option Evaluation.Store :=
  Evaluation.DeleteVariable st (ctx (evaluator e)) name.

Definition Clear (e : Engine) (st : Evaluation.Store) : option Evaluation.Store :=
  Evaluation.Clear st (ctx (evaluator e)).

Definition ClearVariables (e : Engine) (st : Evaluation.Store) : option Evaluation.Store :=
  Evaluation.ClearVariables st (ctx (evaluator e)).

Definition ClearLines (e : Engine) (st : Evaluation.Store) : option Evaluation.Store :=
  Evaluation.ClearLines st (ctx (evaluator e)).

(** [SetRate] acts on the rate cache of the engine. *)
Definition SetRate (e : Engine) (from to : string) (rate : float)
    (st : Evaluation.Store) : option Evaluation.Store :=
  r ← Evaluation.caches st !! rateCache e;
  Some (Evaluation.with_cache st (rateCache e) (Cache.SetRate r from to rate)).

(** [Engine.Clone]: an engine over a clone of the context. *)
Definition Clone (e : Engine) (st : Evaluation.Store) : option (Engine * Evaluation.Store) :=
  '(c, st1) ← Evaluation.Clone st (ctx (evaluator e));
  st2 ← SetRateCacheAdapter st1 c (rateCache e);
  Some ({| evaluator := NewWithContext c; rateCache := rateCache e |}, st2).

End WithStd.

End Engine.

(** ** A runtime to run the model on ASCII text

    The theorems below hold for every [GoStd], [Registry] and [MapOrder].
    To evaluate the model on concrete lines this section fixes one of each:
    the string functions as Go has them on ASCII text, a decimal reader for
    plain literals, a registry of a few curated entries, and the
    enumeration of a map in the order of its keys. *)

Module Sample.
Import Types.

Definition upperChar (c : ascii) : ascii :=
  let n := nat_of_ascii c in
  if ((97 <=? n) && (n <=? 122))%nat then ascii_of_nat (n - 32) else c.

Definition lowerChar (c : ascii) : ascii :=
  let n := nat_of_ascii c in
  if ((65 <=? n) && (n <=? 90))%nat then ascii_of_nat (n + 32) else c.

Fixpoint mapStr (f : ascii -> ascii) (s : string) : string :=
  match s with
  | EmptyString => EmptyString
  | String c rest => String (f c) (mapStr f rest)
  end.

Definition isSpaceChar (c : ascii) : bool :=
  let n := nat_of_ascii c in
  ((n =? 32) || ((9 <=? n) && (n <=? 13)))%nat.

Fixpoint trimLeft (s : string) : string :=
  match s with
  | EmptyString => EmptyString
  | String c rest => if isSpaceChar c then trimLeft rest else s
  end.

Fixpoint revStr (s acc : string) : string :=
  match s with
  | EmptyString => acc
  | String c rest => revStr rest (String c acc)
  end.

Definition trimSpace (s : string) : string :=
  revStr (trimLeft (revStr (trimLeft s) "")) "".

Definition isAsciiLetter (c : Z) : bool :=
  ((97 <=? c) && (c <=? 122)) || ((65 <=? c) && (c <=? 90)).

(** Digits to a number, most significant first. *)
Fixpoint digitsVal (s : string) (acc : Z) : option Z :=
  match s with
  | EmptyString => Some acc
  | String c rest =>
      let n := Z.of_nat (nat_of_ascii c) in
      if (48 <=? n) && (n <=? 57) then digitsVal rest (10 * acc + (n - 48))
      else None
  end.

Fixpoint splitDot (s : string) : string * option string :=
  match s with
  | EmptyString => (EmptyString, None)
  | String c rest =>
      if Ascii.eqb c "."%char then (EmptyString, Some rest)
      else let '(a, b) := splitDot rest in (String c a, b)
  end.

Definition floatOfZ (n : Z) : float := PrimFloat.of_uint63 (Uint63.of_Z n).

(** [digits] or [digits.digits], of at most fifteen digits: numerator and
    power of ten are exact floats and their quotient is the correctly
    rounded value, as [strconv.ParseFloat] returns it. Other forms are not
    read. *)
Definition parseDecimal (s : string) : option float :=
  let '(sign, body) :=
    match s with
    | String c rest => if Ascii.eqb c "-"%char then (true, rest) else (false, s)
    | EmptyString => (false, s)
    end in
  let '(ip, fp) := splitDot body in
  let fpart := match fp with Some f => f | None => EmptyString end in
  let digits := ip ++ fpart in
  if (String.length digits =? 0)%nat || (15 <? String.length digits)%nat
  then None
  else
    match digitsVal digits 0 with
    | None => None
    | Some n =>
        let v := (floatOfZ n / floatOfZ (10 ^ Z.of_nat (String.length fpart)))%float in
        Some (if sign then (- v)%float else v)
    end.

#[local] Instance std : GoStd := {|
  strings_ToUpper := mapStr upperChar;
  strings_ToLower := mapStr lowerChar;
  strings_TrimSpace := trimSpace;
  strconv_ParseFloat := parseDecimal;
  unicode_IsLetter := isAsciiLetter;
  math_Pow := fun x _ => x;
  math_Mod := fun x _ => x;
  math_fn := fun _ x => x;
  runtime_growslice := fun cap needed => Nat.max needed (2 * cap)
|}.

Definition USD : Currency :=
  {| CurrCode := "USD"; CurrSymbol := "$"; CurrName := "US Dollar";
     CurrAliases := ["dollar"; "dollars"; "usd"; "bucks"; "buck"];
     SymbolAfter := false |}.

Definition EUR : Currency :=
  {| CurrCode := "EUR"; CurrSymbol := "€"; CurrName := "Euro";
     CurrAliases := ["euro"; "euros"; "eur"]; SymbolAfter := false |}.

Definition curated : list Currency := [USD; EUR].

Definition lookupCurrency (s : string) : option Currency :=
  match find (fun c => String.eqb (CurrSymbol c) s) curated with
  | Some c => Some c
  | None =>
      match find (fun c => String.eqb (CurrCode c) (mapStr upperChar s)) curated with
      | Some c => Some c
      | None =>
          find (fun c => existsb (String.eqb (mapStr lowerChar s)) (CurrAliases c))
               curated
      end
  end.

#[local] Instance registry : Registry := {|
  ParseCurrency := fun s => lookupCurrency (trimSpace s);
  CurrencyFromCode := fun code =>
    let code := mapStr upperChar (trimSpace code) in
    if negb (String.length code =? 3)%nat then None
    else match lookupCurrency code with
         | Some c => Some c
         | None => Some {| CurrCode := code; CurrSymbol := code; CurrName := code;
                           CurrAliases := []; SymbolAfter := false |}
         end;
  LookupCurrencyBySymbol := fun s =>
    find (fun c => String.eqb (CurrSymbol c) s) curated;
  IsCurrencySymbolRune := fun r =>
    existsb (fun c => String.eqb (CurrSymbol c) (encodeRune r)) curated;
  ParseCrypto := fun _ => None;
  LookupCrypto := fun _ => None;
  IsCrypto := fun _ => false;
  IsCryptoSymbolRune := fun _ => false;
  ParseMetal := fun _ => None;
  ParseUnit := fun _ => None
|}.

#[local] Program Instance order : Cache.MapOrder := {|
  Cache.range_rates := fun _ m => map_to_list m
|}.
Next Obligation. reflexivity. Qed.

(** An environment with no variables, no history and no rate cache. *)
Definition env0 : Evaluation.Env :=
  {| Evaluation.vars := ∅; Evaluation.prev := Empty; Evaluation.hist := [];
     Evaluation.isStrict := false; Evaluation.prec := 2;
     Evaluation.rc := None |}.

(** An environment over the rate cache [c]. *)
Definition envOver (c : Cache.RateCache) : Evaluation.Env :=
  {| Evaluation.vars := ∅; Evaluation.prev := Empty; Evaluation.hist := [];
     Evaluation.isStrict := false; Evaluation.prec := 2;
     Evaluation.rc := Some c |}.

End Sample.

(** * Properties *)

(** ** Values *)

(** Two values of the same kind with the same type descriptors. *)
Definition sameType (a b : Types.Value) : Prop :=
  Types.Kind a = Types.Kind b /\ Types.Curr a = Types.Curr b
  /\ Types.UnitP a = Types.UnitP b /\ Types.MetalP a = Types.MetalP b
  /\ Types.CryptoP a = Types.CryptoP b.

Lemma sameType_refl (a : Types.Value) : sameType a a.
Proof. repeat split. Qed.

Lemma sameType_trans (a b c : Types.Value) :
  sameType a b -> sameType b c -> sameType a c.
Proof.
  intros (?&?&?&?&?) (?&?&?&?&?); repeat split; etransitivity; eassumption.
Qed.

Lemma WithAmount_sameType (v : Types.Value) (x : float) :
  sameType (Types.WithAmount v x) v.
Proof. repeat split. Qed.

Lemma WithAmount_Num (v : Types.Value) (x : float) :
  Types.Num (Types.WithAmount v x) = x.
Proof. reflexivity. Qed.

Lemma WithAmount_own (v : Types.Value) : Types.WithAmount v (Types.Num v) = v.
Proof. destruct v; reflexivity. Qed.

Lemma ValueKind_eqb_eq (a b : Types.ValueKind) :
  Types.ValueKind_eqb a b = true <-> a = b.
Proof. destruct a, b; simpl; split; intros; congruence. Qed.

Lemma IsError_WithAmount (v : Types.Value) (x : float) :
  Types.IsError (Types.WithAmount v x) = Types.IsError v.
Proof. reflexivity. Qed.

Lemma IsPercentage_not_error (v : Types.Value) :
  Types.IsPercentage v = true -> Types.IsError v = false.
Proof.
  unfold Types.IsPercentage, Types.IsError.
  destruct (Types.Kind v); simpl; congruence.
Qed.

(** ** The evaluator: binary operations *)

Section BinaryOps.
Context `{std : GoStd} `{reg : Types.Registry} `{ord : Cache.MapOrder}.
Import Types Ast Evaluation.

Lemma applyBinaryOp_percentage (e : Env) (op : BinaryOp) (lhs rhs : Value) :
  IsPercentage rhs = true -> isAddSub op = true ->
  applyBinaryOp e op lhs rhs = applyPercentageOp op lhs rhs.
Proof. intros Hp Ho. unfold applyBinaryOp. rewrite Hp, Ho. reflexivity. Qed.

(** C2: under [+] and [-] with a Percentage on the right, the amount is
    base × (1 ± pct) in float64 arithmetic and the result keeps the kind and
    the type descriptors of the left operand; so does the evaluation of the
    binary expression whose operands evaluate to them. *)
Theorem C2_percentage_keeps_left_type (e : Env) (op : BinaryOp)
    (l r : Expr) (lhs rhs : Value) :
  IsError lhs = false ->
  IsPercentage rhs = true ->
  op = OpAdd \/ op = OpSub ->
  evalExpr e l = lhs -> evalExpr e r = rhs ->
  let result := applyBinaryOp e op lhs rhs in
  Num result =
    (Num lhs * (match op with
                | OpAdd => 1 + Num rhs
                | _ => 1 - Num rhs
                end))%float
  /\ sameType result lhs
  /\ evalExpr e (BinaryExpr l op r) = result.
Proof.
  intros Hl Hp Hop El Er result.
  assert (Ho : isAddSub op = true) by (destruct Hop; subst; reflexivity).
  assert (Hr : result = applyPercentageOp op lhs rhs)
    by (apply applyBinaryOp_percentage; assumption).
  split; [|split].
  - rewrite Hr. destruct Hop; subst op; reflexivity.
  - rewrite Hr. apply WithAmount_sameType.
  - simpl. rewrite El, Er, Hl.
    rewrite (IsPercentage_not_error _ Hp). reflexivity.
Qed.

(** C7: division and modulo by a right operand whose number is zero
    (either zero of float64) give an Error value, whatever the kinds of the
    operands; the Error carries no infinity and no NaN. *)
Theorem C7_division_by_zero_is_error (e : Env) (op : BinaryOp)
    (l r : Expr) (lhs rhs : Value) :
  IsError lhs = false -> IsError rhs = false ->
  op = OpDiv \/ op = OpMod ->
  PrimFloat.eqb (Num rhs) 0 = true ->
  evalExpr e l = lhs -> evalExpr e r = rhs ->
  let result := applyBinaryOp e op lhs rhs in
  IsError result = true
  /\ math_IsNaN (Num result) = false /\ math_IsInf (Num result) = false
  /\ evalExpr e (BinaryExpr l op r) = result.
Proof.
  intros Hl Hr Hop Hz El Er result.
  assert (Hres : result =
            Error (match op with OpDiv => "division by zero"
                               | _ => "modulo by zero" end)).
  { unfold result, applyBinaryOp.
    destruct Hop; subst op;
      destruct (IsPercentage rhs), (IsPercentage lhs); cbn;
      unfold AsFloat; rewrite Hz; reflexivity. }
  repeat split.
  - rewrite Hres. destruct op; reflexivity.
  - rewrite Hres. destruct op; reflexivity.
  - rewrite Hres. destruct op; reflexivity.
  - simpl. rewrite El, Er, Hl, Hr. reflexivity.
Qed.

(** C1 (what the code does): under [+] and [-], two Currency operands
    have the same kind, so [coerceResult] returns before its conversion
    branch: the result is formed on the raw amounts and given the left
    currency. The rate cache of the environment is not consulted and no
    Error results, whatever the two currencies are. *)
Theorem C1_currencies_combined_without_conversion (e : Env) (op : BinaryOp)
    (lhs rhs : Value) :
  IsCurrency lhs = true -> IsCurrency rhs = true ->
  op = OpAdd \/ op = OpSub ->
  applyBinaryOp e op lhs rhs =
    WithAmount lhs (match op with
                    | OpAdd => Num lhs + Num rhs
                    | _ => Num lhs - Num rhs
                    end)%float.
Proof.
  intros Hl Hr Hop. unfold IsCurrency in *.
  apply ValueKind_eqb_eq in Hl. apply ValueKind_eqb_eq in Hr.
  unfold applyBinaryOp, coerceResult, IsPercentage, IsNumber, AsFloat.
  rewrite Hl, Hr. destruct Hop; subst op; reflexivity.
Qed.

End BinaryOps.

(** ** The evaluator: aggregations *)

Section Aggregations.
Import Types Evaluation.

(** The running sum of [fnSum]. *)
Definition sumFrom (total : float) (args : list Value) : float :=
  fold_left (fun t a => (t + AsFloat a)%float) args total.

Definition noErrors (args : list Value) : Prop :=
  Forall (fun a => IsError a = false) args.

Lemma fnSum_go (resultType : Value) (args : list Value) (total : float) :
  noErrors args ->
  (fix go (l : list Value) (total : float) : Value :=
     match l with
     | [] => WithAmount resultType total
     | arg :: rest =>
         if IsError arg then arg else go rest (total + AsFloat arg)%float
     end) args total = WithAmount resultType (sumFrom total args).
Proof.
  intros Hn. revert total. induction Hn as [|a rest Ha _ IH]; intros total.
  - reflexivity.
  - simpl. rewrite Ha. apply IH.
Qed.

Lemma fnSum_spec (first : Value) (rest : list Value) :
  noErrors (first :: rest) ->
  fnSum (first :: rest) = WithAmount first (sumFrom 0 (first :: rest)).
Proof. intros Hn. unfold fnSum. apply (fnSum_go first _ _ Hn). Qed.

Lemma fnAvg_spec (first : Value) (rest : list Value) :
  noErrors (first :: rest) ->
  fnAvg (first :: rest) =
    WithAmount first
      (sumFrom 0 (first :: rest) / floatOfNat (length (first :: rest)))%float.
Proof.
  intros Hn. unfold fnAvg. rewrite (fnSum_spec _ _ Hn).
  rewrite IsError_WithAmount.
  inversion Hn as [|? ? Hf _]; subst. rewrite Hf. reflexivity.
Qed.

(** The argument [fnMin] selects: a later argument replaces the current
    choice when its number is strictly smaller. *)
Fixpoint selectMin (cur : Value) (rest : list Value) : Value :=
  match rest with
  | [] => cur
  | a :: rest' =>
      if PrimFloat.ltb (AsFloat a) (AsFloat cur) then selectMin a rest'
      else selectMin cur rest'
  end.

Fixpoint selectMax (cur : Value) (rest : list Value) : Value :=
  match rest with
  | [] => cur
  | a :: rest' =>
      if PrimFloat.ltb (AsFloat cur) (AsFloat a) then selectMax a rest'
      else selectMax cur rest'
  end.

Lemma fnMin_go (rest : list Value) (cur : Value) :
  noErrors rest ->
  (fix go (l : list Value) (minVal : Value) (minNum : float) : Value :=
     match l with
     | [] => WithAmount minVal minNum
     | arg :: rest =>
         if IsError arg then arg
         else if PrimFloat.ltb (AsFloat arg) minNum
         then go rest arg (AsFloat arg)
         else go rest minVal minNum
     end) rest cur (AsFloat cur) = selectMin cur rest.
Proof.
  intros Hn. revert cur. induction Hn as [|a rest Ha _ IH]; intros cur.
  - apply WithAmount_own.
  - simpl. rewrite Ha. destruct (PrimFloat.ltb (AsFloat a) (AsFloat cur)); apply IH.
Qed.

Lemma fnMax_go (rest : list Value) (cur : Value) :
  noErrors rest ->
  (fix go (l : list Value) (maxVal : Value) (maxNum : float) : Value :=
     match l with
     | [] => WithAmount maxVal maxNum
     | arg :: rest =>
         if IsError arg then arg
         else if PrimFloat.ltb maxNum (AsFloat arg)
         then go rest arg (AsFloat arg)
         else go rest maxVal maxNum
     end) rest cur (AsFloat cur) = selectMax cur rest.
Proof.
  intros Hn. revert cur. induction Hn as [|a rest Ha _ IH]; intros cur.
  - apply WithAmount_own.
  - simpl. rewrite Ha. destruct (PrimFloat.ltb (AsFloat cur) (AsFloat a)); apply IH.
Qed.

Lemma selectMin_In (cur : Value) (rest : list Value) :
  In (selectMin cur rest) (cur :: rest).
Proof.
  revert cur. induction rest as [|a rest IH]; intros cur; simpl.
  - left; reflexivity.
  - destruct (PrimFloat.ltb (AsFloat a) (AsFloat cur)).
    + right. apply IH.
    + destruct (IH cur) as [E|E]; [left; exact E | right; right; exact E].
Qed.

Lemma selectMax_In (cur : Value) (rest : list Value) :
  In (selectMax cur rest) (cur :: rest).
Proof.
  revert cur. induction rest as [|a rest IH]; intros cur; simpl.
  - left; reflexivity.
  - destruct (PrimFloat.ltb (AsFloat cur) (AsFloat a)).
    + right. apply IH.
    + destruct (IH cur) as [E|E]; [left; exact E | right; right; exact E].
Qed.

Lemma selectMin_first (cur : Value) (rest : list Value) :
  Forall (fun a => PrimFloat.ltb (AsFloat a) (AsFloat cur) = false) rest ->
  selectMin cur rest = cur.
Proof.
  induction 1 as [|a rest Ha _ IH]; simpl; [reflexivity|].
  rewrite Ha. exact IH.
Qed.

Lemma selectMax_first (cur : Value) (rest : list Value) :
  Forall (fun a => PrimFloat.ltb (AsFloat cur) (AsFloat a) = false) rest ->
  selectMax cur rest = cur.
Proof.
  induction 1 as [|a rest Ha _ IH]; simpl; [reflexivity|].
  rewrite Ha. exact IH.
Qed.

(** C8, as the code has it: on a non-empty list of non-error arguments,
    [sum] and [avg] return the computed amount with the kind and type
    descriptors of the first argument; [min] and [max] return the selected
    argument itself, hence with that argument's kind and descriptors, which
    are the first argument's when no later argument is strictly smaller
    (for [max]: strictly larger) than it. *)
Theorem C8_aggregation_types (first : Value) (rest : list Value) :
  noErrors (first :: rest) ->
  let args := first :: rest in
  (sameType (fnSum args) first /\ Num (fnSum args) = sumFrom 0 args)
  /\ (sameType (fnAvg args) first
      /\ Num (fnAvg args) = (sumFrom 0 args / floatOfNat (length args))%float)
  /\ (fnMin args = selectMin first rest /\ In (fnMin args) args
      /\ (Forall (fun a => PrimFloat.ltb (AsFloat a) (AsFloat first) = false) rest
          -> fnMin args = first))
  /\ (fnMax args = selectMax first rest /\ In (fnMax args) args
      /\ (Forall (fun a => PrimFloat.ltb (AsFloat first) (AsFloat a) = false) rest
          -> fnMax args = first)).
Proof.
  intros Hn args.
  assert (Hrest : noErrors rest) by (inversion Hn; assumption).
  assert (Hmin : fnMin args = selectMin first rest)
    by (apply (fnMin_go rest first Hrest)).
  assert (Hmax : fnMax args = selectMax first rest)
    by (apply (fnMax_go rest first Hrest)).
  split; [|split; [|split]].
  - unfold args. rewrite (fnSum_spec _ _ Hn).
    split; [apply WithAmount_sameType | reflexivity].
  - unfold args. rewrite (fnAvg_spec _ _ Hn).
    split; [apply WithAmount_sameType | reflexivity].
  - split; [exact Hmin|]. rewrite Hmin. split.
    + apply selectMin_In.
    + apply selectMin_first.
  - split; [exact Hmax|]. rewrite Hmax. split.
    + apply selectMax_In.
    + apply selectMax_first.
Qed.

End Aggregations.

(** ** Instances of the theorems above on concrete operands *)

Section Instances.
Import Types Ast Evaluation.

Lemma C2_witness :
  let lhs := CurrencyValue 100 (Some Sample.USD) in
  let rhs := Percentage 0.25 in
  IsError lhs = false /\ IsPercentage rhs = true
  /\ evalExpr (std := Sample.std) (reg := Sample.registry) (ord := Sample.order)
        Sample.env0
        (BinaryExpr (CurrencyLit 100 (Some Sample.USD) "$100") OpAdd
           (PercentLit 0.25 "25%"))
      = CurrencyValue 125 (Some Sample.USD).
Proof.
  intros lhs rhs. split; [reflexivity|]. split; [reflexivity|].
  destruct (C2_percentage_keeps_left_type (std := Sample.std)
              (reg := Sample.registry) (ord := Sample.order) Sample.env0 OpAdd
              (CurrencyLit 100 (Some Sample.USD) "$100") (PercentLit 0.25 "25%")
              lhs rhs eq_refl eq_refl (or_introl eq_refl) eq_refl eq_refl)
    as (_ & _ & E).
  rewrite E. reflexivity.
Defined.

Lemma C7_witness :
  let lhs := CurrencyValue 10 (Some Sample.USD) in
  let rhs := Number (-0) in
  IsError lhs = false /\ IsError rhs = false
  /\ PrimFloat.eqb (Num rhs) 0 = true
  /\ IsError (applyBinaryOp (std := Sample.std)
                (ord := Sample.order) Sample.env0 OpDiv lhs rhs) = true.
Proof.
  intros lhs rhs. repeat (split; [reflexivity|]).
  exact (proj1 (C7_division_by_zero_is_error (std := Sample.std)
                  (reg := Sample.registry) (ord := Sample.order) Sample.env0 OpDiv
                  (CurrencyLit 10 (Some Sample.USD) "$10") (NumberLit (-0) "-0")
                  lhs rhs eq_refl eq_refl (or_introl eq_refl) eq_refl
                  eq_refl eq_refl)).
Defined.

Lemma C1_witness :
  let lhs := CurrencyValue 10 (Some Sample.USD) in
  let rhs := CurrencyValue 5 (Some Sample.EUR) in
  IsCurrency lhs = true /\ IsCurrency rhs = true
  /\ applyBinaryOp (std := Sample.std)
        (ord := Sample.order) (Sample.envOver Cache.empty) OpAdd lhs rhs
      = CurrencyValue 15 (Some Sample.USD).
Proof.
  intros lhs rhs. repeat (split; [reflexivity|]).
  rewrite (C1_currencies_combined_without_conversion (std := Sample.std)
             (ord := Sample.order)
             (Sample.envOver Cache.empty) OpAdd lhs rhs eq_refl eq_refl
             (or_introl eq_refl)).
  reflexivity.
Defined.

Lemma C8_witness :
  let args := [CurrencyValue 3 (Some Sample.USD); Number 4; Number 5] in
  noErrors args
  /\ fnSum args = CurrencyValue 12 (Some Sample.USD)
  /\ fnMin args = CurrencyValue 3 (Some Sample.USD).
Proof.
  intros args.
  assert (Hn : noErrors args) by (repeat constructor).
  split; [exact Hn|].
  destruct (C8_aggregation_types _ _ Hn) as ((_ & _) & _ & (Hmin & _) & _).
  split; [reflexivity|]. etransitivity; [exact Hmin | reflexivity].
Defined.

(** C8 as stated fails for [min]: the smaller second argument is returned
    with its own kind, not the kind of the first. *)
Lemma C8_counterexample :
  let args := [Number 5; CurrencyValue 3 (Some Sample.USD)] in
  noErrors args
  /\ fnMin args = CurrencyValue 3 (Some Sample.USD)
  /\ Kind (fnMin args) <> Kind (Number 5)
  /\ Kind (fnMax [Number 5; CurrencyValue 7 (Some Sample.USD)]) <> Kind (Number 5).
Proof.
  intros args. split; [repeat constructor|].
  split; [reflexivity|]. split; discriminate.
Qed.

End Instances.

(** ** Floating point: multiplying by one is exact *)

Lemma shr52 (m : positive) :
  SpecFloat.iter_pos shr_1 52
    {| shr_m := Z.pos (4503599627370496 * m); shr_r := false; shr_s := false |}
  = {| shr_m := Z.pos m; shr_r := false; shr_s := false |}.
Proof. reflexivity. Qed.

Lemma digits52 (m : positive) :
  Z.pos (digits2_pos (4503599627370496 * m)) = Z.pos (digits2_pos m) + 52.
Proof.
  change (4503599627370496 * m)%positive with
    (m~0~0~0~0~0~0~0~0~0~0~0~0~0~0~0~0~0~0~0~0~0~0~0~0~0~0~0~0~0~0~0~0~0~0~0~0~0~0~0~0~0~0~0~0~0~0~0~0~0~0~0~0)%positive.
  cbn [digits2_pos]. rewrite !Pos2Z.inj_succ. lia.
Qed.

(** The product of 1.0 (mantissa 2^52, exponent -52) and a valid binary64
    number is that number: the 52 bits shifted out are zeros. *)
Lemma SFmul_1_l (x : spec_float) :
  SpecFloat.valid_binary prec emax x = true ->
  SFmul prec emax (S754_finite false 4503599627370496 (-52)) x = x.
Proof.
  destruct x as [s|s| |s m e]; cbn [SFmul xorb SpecFloat.valid_binary];
    try reflexivity.
  intros Hb. unfold bounded, canonical_mantissa in Hb.
  apply andb_true_iff in Hb. destruct Hb as [Hc He].
  apply Z.eqb_eq in Hc.
  unfold binary_round_aux, shr_fexp.
  unfold Zdigits2. rewrite digits52.
  replace (Z.pos (digits2_pos m) + 52 + (-52 + e))
    with (Z.pos (digits2_pos m) + e) by lia.
  rewrite Hc.
  replace (e - (-52 + e)) with 52 by lia.
  unfold shr_record_of_loc, shr. rewrite shr52.
  cbn [loc_of_shr_record shr_m shr_r shr_s round_nearest_even].
  replace (-52 + e + 52) with e by lia.
  rewrite Hc. rewrite Z.sub_diag. cbn [shr_m].
  rewrite He. reflexivity.
Qed.

Lemma float_mul_1_l (x : float) : (1 * x)%float = x.
Proof.
  apply Prim2SF_inj. rewrite FloatAxioms.mul_spec.
  change (Prim2SF 1) with (S754_finite false 4503599627370496 (-52)).
  apply SFmul_1_l. apply Prim2SF_valid.
Qed.

(** ** The rate cache *)

Section CacheTheory.
Context `{std : GoStd} `{ord : Cache.MapOrder}.
Import Cache.

(** The rate graph: an edge for every stored pair. *)
Definition edge (tbl : gmap (string * string) float) (a b : string) : Prop :=
  is_Some (tbl !! (a, b)).

Definition connected (tbl : gmap (string * string) float) : string -> string -> Prop :=
  rtc (edge tbl).

Lemma range_rates_elem (k : nat) (tbl : gmap (string * string) float)
    (p : ratePair) (r : float) :
  (p, r) ∈ range_rates k tbl <-> tbl !! p = Some r.
Proof. rewrite range_rates_perm. apply elem_of_map_to_list. Qed.

Lemma range_rates_length (k : nat) (tbl : gmap (string * string) float) :
  length (range_rates k tbl) = size tbl.
Proof. rewrite range_rates_perm. apply length_map_to_list. Qed.

Lemma scanRates_inl (to : string) (cur : queueEntry)
    (entries : list (ratePair * float)) (v : gset string)
    (q : list queueEntry) (r : float) :
  scanRates to cur entries v q = inl r ->
  exists p r0, (p, r0) ∈ entries /\ From p = currency cur /\ To p = to
               /\ r = (rate cur * r0)%float.
Proof.
  revert v q. induction entries as [|[p r0] rest IH]; intros v q; simpl.
  - discriminate.
  - destruct (String.eqb (From p) (currency cur)) eqn:Ef; simpl.
    + destruct (String.eqb (To p) to) eqn:Et.
      * intros [= <-]. exists p, r0. apply String.eqb_eq in Ef, Et.
        split; [left|]. split; [assumption|]. split; [assumption|reflexivity].
      * intros Hs.
        assert (exists p' r', (p', r') ∈ rest /\ From p' = currency cur
                              /\ To p' = to /\ r = (rate cur * r')%float)
          as (p' & r' & Hin & ?).
        { case_bool_decide; eapply IH; eassumption. }
        exists p', r'. split; [right; assumption | assumption].
    + intros Hs. destruct (IH _ _ Hs) as (p' & r' & Hin & ?).
      exists p', r'. split; [right; assumption | assumption].
Qed.

Lemma scanRates_inr (to : string) (cur : queueEntry)
    (entries : list (ratePair * float)) (v v' : gset string)
    (q q' : list queueEntry) :
  scanRates to cur entries v q = inr (v', q') ->
  exists new,
    q' = (q ++ new)%list
    /\ v ⊆ v'
    /\ size v' = (size v + length new)%nat
    /\ (forall x, x ∈ v' -> x ∈ v \/
          exists p r0, (p, r0) ∈ entries /\ From p = currency cur /\ To p = x)
    /\ Forall (fun n => currency n ∈ v' /\
          exists p r0, (p, r0) ∈ entries /\ From p = currency cur
                       /\ To p = currency n) new.
Proof.
  revert v q. induction entries as [|[p r0] rest IH]; intros v q; simpl.
  - intros [= <- <-]. exists []. rewrite app_nil_r.
    split; [reflexivity|]. split; [set_solver|]. split; [simpl; lia|].
    split; [intros; left; assumption | constructor].
  - assert (Hlift : forall v0 q0,
              scanRates to cur rest v0 q0 = inr (v', q') ->
              exists new, q' = (q0 ++ new)%list /\ v0 ⊆ v'
                /\ size v' = (size v0 + length new)%nat
                /\ (forall x, x ∈ v' -> x ∈ v0 \/
                      exists p' r', (p', r') ∈ (p, r0) :: rest
                        /\ From p' = currency cur /\ To p' = x)
                /\ Forall (fun n => currency n ∈ v' /\
                      exists p' r', (p', r') ∈ (p, r0) :: rest
                        /\ From p' = currency cur /\ To p' = currency n) new).
    { intros v0 q0 Hs. destruct (IH _ _ Hs) as (new & ? & ? & ? & Hx & Hn).
      exists new. split; [assumption|]. split; [assumption|].
      split; [assumption|]. split.
      - intros x Hxin. destruct (Hx x Hxin) as [?|(p' & r' & ? & ?)];
          [left; assumption | right; exists p', r'; split; [right|]; assumption].
      - eapply Forall_impl; [exact Hn|]. intros n [? (p' & r' & ? & ?)].
        split; [assumption|]. exists p', r'. split; [right|]; assumption. }
    destruct (String.eqb (From p) (currency cur)) eqn:Ef; simpl;
      [|apply Hlift].
    destruct (String.eqb (To p) to) eqn:Et; [discriminate|].
    case_bool_decide as Hv; [apply Hlift|].
    intros Hs. destruct (Hlift _ _ Hs) as (new & -> & Hsub & Hsz & Hx & Hn).
    apply String.eqb_eq in Ef.
    exists ({| currency := To p; rate := (rate cur * r0)%float |} :: new).
    split; [rewrite <- app_assoc; reflexivity|].
    split; [set_solver|].
    split.
    { rewrite Hsz, size_union, size_singleton by set_solver. simpl. lia. }
    split.
    { intros x Hxin. destruct (Hx x Hxin) as [Hu|?]; [|right; assumption].
      apply elem_of_union in Hu as [Hu|Hu]; [|left; assumption].
      apply elem_of_singleton in Hu. subst x.
      right. exists p, r0. split; [left|split; [assumption|reflexivity]]. }
    constructor; [|exact Hn]. simpl. split; [set_solver|].
    exists p, r0. split; [left|split; [assumption|reflexivity]].
Qed.

(** The codes a search from [from] can ever visit. *)
Definition nodes (tbl : gmap (string * string) float) (from : string) : gset string :=
  {[from]} ∪ list_to_set ((map_to_list tbl).*1.*2).

Lemma size_list_to_set_le (l : list string) :
  (size (list_to_set l : gset string) <= length l)%nat.
Proof.
  induction l as [|x l IH].
  - rewrite list_to_set_nil, size_empty. simpl. lia.
  - rewrite list_to_set_cons, size_union_alt, size_singleton.
    assert (Hle : (size (list_to_set l ∖ {[x]} : gset string)
                   <= size (list_to_set l : gset string))%nat)
      by (apply subseteq_size; intros y [Hy _]%elem_of_difference; exact Hy).
    cbn [length]. lia.
Qed.

Lemma size_nodes (tbl : gmap (string * string) float) (from : string) :
  (size (nodes tbl from) <= S (size tbl))%nat.
Proof.
  unfold nodes. rewrite size_union_alt, size_singleton.
  assert (Hle : (size (list_to_set ((map_to_list tbl).*1.*2) ∖ {[from]} : gset string)
                 <= size (list_to_set ((map_to_list tbl).*1.*2) : gset string))%nat)
    by (apply subseteq_size; intros y [Hy _]%elem_of_difference; exact Hy).
  pose proof (size_list_to_set_le ((map_to_list tbl).*1.*2)) as Hl.
  rewrite !length_fmap, length_map_to_list in Hl. lia.
Qed.

Lemma edge_target_in_nodes (tbl : gmap (string * string) float) (from : string)
    (p : ratePair) (r : float) :
  tbl !! p = Some r -> To p ∈ nodes tbl from.
Proof.
  intros Hp. unfold nodes. apply elem_of_union_r, elem_of_list_to_set.
  apply list_elem_of_fmap. exists p. split; [reflexivity|].
  apply list_elem_of_fmap. exists (p, r). split; [reflexivity|].
  apply elem_of_map_to_list. destruct p; assumption.
Qed.

(** The loop returns within its fuel; when the target cannot be reached
    from the codes in the queue, it returns not-found. *)
Lemma bfsLoop_spec (tbl : gmap (string * string) float) (from to : string) :
  forall (fuel k : nat) (visited : gset string) (queue : list queueEntry),
    visited ⊆ nodes tbl from ->
    (size (nodes tbl from) - size visited + length queue < fuel)%nat ->
    Forall (fun n => connected tbl from (currency n)) queue ->
    exists res, bfsLoop fuel k tbl to visited queue = Some res
      /\ (snd res = true -> connected tbl from to)
      /\ (snd res = false -> fst res = 0%float).
Proof.
  induction fuel as [|fuel IH]; intros k visited queue Hsub Hfuel Hq; [lia|].
  simpl. destruct queue as [|cur queue'].
  - eexists. split; [reflexivity|]. split; [discriminate | reflexivity].
  - inversion Hq as [|? ? Hcur Hq']; subst.
    destruct (scanRates to cur (range_rates k tbl) visited queue') as [r|[v' q']] eqn:Hs.
    + eexists. split; [reflexivity|]. split; [|discriminate]. intros _.
      apply scanRates_inl in Hs as (p & r0 & Hin & Hf & Ht & _).
      apply range_rates_elem in Hin.
      eapply rtc_r; [exact Hcur|]. unfold edge. rewrite <- Hf, <- Ht.
      destruct p; eauto.
    + apply scanRates_inr in Hs as (new & -> & Hvs & Hsz & Hx & Hn).
      assert (Hsub' : v' ⊆ nodes tbl from).
      { intros x Hxin. destruct (Hx x Hxin) as [?|(p & r0 & Hin & _ & <-)];
          [set_solver|].
        apply range_rates_elem in Hin. eapply edge_target_in_nodes; eassumption. }
      apply IH; [exact Hsub' | |].
      * pose proof (subseteq_size _ _ Hsub'). rewrite length_app.
        simpl in Hfuel. lia.
      * apply Forall_app. split; [assumption|].
        eapply Forall_impl; [exact Hn|]. intros n [_ (p & r0 & Hin & Hf & Ht)].
        apply range_rates_elem in Hin.
        eapply rtc_r; [exact Hcur|]. unfold edge. rewrite <- Hf, <- Ht.
        destruct p; eauto.
Qed.

Lemma bfsLoop_total (c : RateCache) (from to : string) :
  exists res,
    bfsLoop (bfsFuel (rates c)) 0 (rates c) to {[from]}
      [{| currency := from; rate := 1%float |}] = Some res
    /\ findRateBFS c from to = res
    /\ (snd res = true -> connected (rates c) from to)
    /\ (snd res = false -> fst res = 0%float).
Proof.
  destruct (bfsLoop_spec (rates c) from to (bfsFuel (rates c)) 0 {[from]}
              [{| currency := from; rate := 1%float |}]) as (res & Hres & H1 & H2).
  - unfold nodes. set_solver.
  - pose proof (size_nodes (rates c) from). rewrite size_singleton.
    unfold bfsFuel. simpl. lia.
  - constructor; [apply rtc_refl | constructor].
  - exists res. unfold findRateBFS. rewrite Hres. auto.
Qed.

Lemma GetRate_unreachable (c : RateCache) (from to : string) :
  ~ connected (rates c) (strings_ToUpper from) (strings_ToUpper to) ->
  GetRate c from to = (0%float, false).
Proof.
  intros Hnc. unfold GetRate.
  destruct (String.eqb (strings_ToUpper from) (strings_ToUpper to)) eqn:E.
  { apply String.eqb_eq in E. exfalso. apply Hnc. rewrite E. apply rtc_refl. }
  destruct (rates c !! (strings_ToUpper from, strings_ToUpper to)) eqn:Hd.
  { exfalso. apply Hnc. apply rtc_once. unfold edge. rewrite Hd. eauto. }
  destruct (bfsLoop_total c (strings_ToUpper from) (strings_ToUpper to))
    as ([r b] & _ & -> & H1 & H2).
  destruct b; simpl in *; [exfalso; auto|]. rewrite H2; reflexivity.
Qed.


Ltac lookup_none :=
  repeat (rewrite lookup_insert_ne by (intros [=]; congruence));
  first [apply lookup_empty | reflexivity].

(** A scan only looks at the pairs that leave the current code. *)
Definition leaves (cur : string) (e : ratePair * float) : Prop := From e.1 = cur.

#[local] Instance leaves_dec cur e : Decision (leaves cur e).
Proof. unfold leaves. apply _. Defined.

Lemma scanRates_filter (to : string) (cur : queueEntry)
    (entries : list (ratePair * float)) (v : gset string) (q : list queueEntry) :
  scanRates to cur entries v q =
  scanRates to cur (filter (leaves (currency cur)) entries) v q.
Proof.
  revert v q. induction entries as [|[p r0] rest IH]; intros v q; [reflexivity|].
  rewrite filter_cons. destruct (decide (leaves (currency cur) (p, r0))) as [Hl|Hl];
    unfold leaves in Hl; simpl in Hl.
  - simpl. apply String.eqb_eq in Hl. rewrite Hl. simpl.
    destruct (String.eqb (To p) to); [reflexivity|].
    case_bool_decide; apply IH.
  - simpl. apply String.eqb_neq in Hl. rewrite Hl. simpl. apply IH.
Qed.

(** The table after [SetRate(A,B,r1)] and [SetRate(B,C,r2)] on an empty
    one, for nonzero rates. *)
Definition twoHop (a b c : string) (r1 r2 : float) : gmap (string * string) float :=
  <[(c, b) := (1 / r2)%float]> (<[(b, c) := r2]>
    (<[(b, a) := (1 / r1)%float]> (<[(a, b) := r1]> ∅))).

Lemma twoHop_list (a b c : string) (r1 r2 : float) :
  a <> b -> b <> c -> a <> c ->
  map_to_list (twoHop a b c r1 r2) ≡ₚ
    [((c, b), (1 / r2)%float); ((b, c), r2); ((b, a), (1 / r1)%float); ((a, b), r1)].
Proof.
  intros Hab Hbc Hac. unfold twoHop.
  rewrite map_to_list_insert by lookup_none.
  rewrite map_to_list_insert by lookup_none.
  rewrite map_to_list_insert by lookup_none.
  rewrite map_to_list_insert by lookup_none.
  rewrite map_to_list_empty. reflexivity.
Qed.

Lemma twoHop_leaves (k : nat) (a b c x : string) (r1 r2 : float) :
  a <> b -> b <> c -> a <> c ->
  filter (leaves x) (range_rates k (twoHop a b c r1 r2)) ≡ₚ
  filter (leaves x)
    [((c, b), (1 / r2)%float); ((b, c), r2); ((b, a), (1 / r1)%float); ((a, b), r1)].
Proof.
  intros Hab Hbc Hac. rewrite range_rates_perm, twoHop_list by assumption.
  reflexivity.
Qed.

Lemma GetRate_twoHop (c0 : RateCache) (A C : string) (b : string) (r1 r2 : float) :
  let a := strings_ToUpper A in
  let c := strings_ToUpper C in
  a <> b -> b <> c -> a <> c ->
  rates c0 = twoHop a b c r1 r2 ->
  GetRate c0 A C = ((1 * r1) * r2, true)%float.
Proof.
  intros a c Hab Hbc Hac Htbl. unfold GetRate. fold a c.
  rewrite (proj2 (String.eqb_neq a c) Hac).
  assert (Hd : rates c0 !! (a, c) = None).
  { rewrite Htbl. unfold twoHop. lookup_none. }
  rewrite Hd. unfold findRateBFS, bfsFuel. rewrite Htbl.
  assert (Hsz : size (twoHop a b c r1 r2) = 4%nat).
  { rewrite <- length_map_to_list, twoHop_list by assumption. reflexivity. }
  rewrite Hsz. cbn [Nat.add bfsLoop].
  (* first round: the only pair that leaves a goes to b *)
  rewrite scanRates_filter. cbn [currency].
  assert (H1 : filter (leaves a) (range_rates 0 (twoHop a b c r1 r2))
               = [((a, b), r1)]).
  { apply Permutation_singleton_r. rewrite twoHop_leaves by assumption.
    rewrite !filter_cons, filter_nil. unfold leaves, From; simpl.
    repeat case_decide; try congruence. reflexivity. }
  rewrite H1. cbn [scanRates From To fst snd currency rate].
  rewrite String.eqb_refl. cbn [negb].
  rewrite (proj2 (String.eqb_neq b c) Hbc).
  rewrite bool_decide_eq_false_2 by set_solver.
  cbn [app].
  (* second round: from b the pairs to a and to c, in either order *)
  rewrite scanRates_filter. cbn [currency].
  assert (H2 : filter (leaves b) (range_rates 1 (twoHop a b c r1 r2))
               ≡ₚ [((b, c), r2); ((b, a), (1 / r1)%float)]).
  { rewrite twoHop_leaves by assumption.
    rewrite !filter_cons, filter_nil. unfold leaves, From; simpl.
    repeat case_decide; try congruence. reflexivity. }
  symmetry in H2. apply Permutation_length_2_inv in H2.
  destruct H2 as [-> | ->]; cbn [scanRates From To fst snd currency rate];
    rewrite ?String.eqb_refl; cbn [negb];
    rewrite ?(proj2 (String.eqb_neq a c) Hac);
    rewrite ?bool_decide_eq_true_2 by set_solver;
    cbn [scanRates From To fst snd currency rate];
    rewrite ?String.eqb_refl; reflexivity.
Qed.

Lemma SetRate_twice_twoHop (c0 : RateCache) (A B C : string) (r1 r2 : float) :
  rates c0 = ∅ -> fneq r1 0 = true -> fneq r2 0 = true ->
  rates (SetRate (SetRate c0 A B r1) B C r2) =
    twoHop (strings_ToUpper A) (strings_ToUpper B) (strings_ToUpper C) r1 r2.
Proof.
  intros He H1 H2. unfold SetRate, with_rates, storeBoth; simpl.
  rewrite H1, H2, He. reflexivity.
Qed.

(** C3: after [SetRate(A,B,r1)] and [SetRate(B,C,r2)] on an empty table,
    for codes that differ once upper-cased and nonzero rates, [GetRate(A,C)]
    finds the two-hop path and returns [r1 * r2], whatever order [range]
    enumerates the table in; and for any table and any two codes that no
    path of stored pairs connects, [GetRate] reports not-found. *)
Theorem C3_bfs_two_hops_and_not_found
    (c0 : RateCache) (A B C : string) (r1 r2 : float) :
  rates c0 = ∅ ->
  strings_ToUpper A <> strings_ToUpper B ->
  strings_ToUpper B <> strings_ToUpper C ->
  strings_ToUpper A <> strings_ToUpper C ->
  fneq r1 0 = true -> fneq r2 0 = true ->
  GetRate (SetRate (SetRate c0 A B r1) B C r2) A C = ((r1 * r2)%float, true)
  /\ (forall (c : RateCache) (from to : string),
        ~ connected (rates c) (strings_ToUpper from) (strings_ToUpper to) ->
        GetRate c from to = (0%float, false)).
Proof.
  intros He Hab Hbc Hac H1 H2. split.
  - rewrite (GetRate_twoHop _ A C (strings_ToUpper B) r1 r2 Hab Hbc Hac).
    + rewrite float_mul_1_l. reflexivity.
    + apply SetRate_twice_twoHop; assumption.
  - intros c from to. apply GetRate_unreachable.
Qed.

(** *** The reciprocal and the identity *)

Lemma SetRate_inverse (c : RateCache) (from to : string) (r : float) :
  fneq r 0 = true ->
  rates (SetRate c from to r) !! (strings_ToUpper to, strings_ToUpper from)
  = Some (1 / r)%float.
Proof.
  intros Hr. unfold SetRate, with_rates, storeBoth; simpl. rewrite Hr.
  apply lookup_insert_eq.
Qed.

Lemma SetRate_direct (c : RateCache) (from to : string) (r : float) :
  strings_ToUpper from <> strings_ToUpper to ->
  rates (SetRate c from to r) !! (strings_ToUpper from, strings_ToUpper to)
  = Some r.
Proof.
  intros Hne. unfold SetRate, with_rates, storeBoth; simpl.
  destruct (fneq r 0).
  - rewrite lookup_insert_ne by (intros [=]; congruence). apply lookup_insert_eq.
  - apply lookup_insert_eq.
Qed.

Lemma SetRate_identity_untouched (c : RateCache) (from to x : string) (r : float) :
  strings_ToUpper from <> strings_ToUpper to ->
  rates (SetRate c from to r) !! (x, x) = rates c !! (x, x).
Proof.
  intros Hne. unfold SetRate, with_rates, storeBoth; simpl.
  destruct (fneq r 0);
    repeat (rewrite lookup_insert_ne by (intros [=]; congruence)); reflexivity.
Qed.

Lemma GetRate_identity (c : RateCache) (a : string) :
  GetRate c a a = (1%float, true).
Proof. unfold GetRate. rewrite String.eqb_refl. reflexivity. Qed.

End CacheTheory.

Lemma defaults_identity_USD :
  Cache.rates (Cache.loadDefaults Cache.empty) !! ("USD", "USD") = Some 1%float.
Proof. vm_compute. reflexivity. Qed.

Lemma defaults_identity_only_USD (x : string) :
  is_Some (Cache.rates (Cache.loadDefaults Cache.empty) !! (x, x)) <-> x = "USD".
Proof.
  split.
  - intros [v Hv]. apply elem_of_map_to_list in Hv.
    assert (Hall : forallb
              (fun e : (string * string) * float =>
                 implb (String.eqb e.1.1 e.1.2) (String.eqb e.1.1 "USD"))
              (map_to_list (Cache.rates (Cache.loadDefaults Cache.empty))) = true)
      by (vm_compute; reflexivity).
    rewrite forallb_forall in Hall.
    apply list_elem_of_In in Hv. specialize (Hall _ Hv). simpl in Hall.
    rewrite String.eqb_refl in Hall. simpl in Hall.
    apply String.eqb_eq in Hall. exact Hall.
  - intros ->. rewrite defaults_identity_USD. eauto.
Qed.

(** C4, as the code has it: [SetRate] with a nonzero rate stores the
    reciprocal under the swapped pair (and the rate itself under the pair,
    when the two codes differ); [GetRate(A,A)] is 1.0 for every code and
    every table; [SetRate] on two different codes stores no identity pair;
    the table of [loadDefaults] holds the identity pair (USD,USD) = 1.0 and
    no other. *)
Theorem C4_reciprocal_and_identity `{std : GoStd} `{ord : Cache.MapOrder}
    (c : Cache.RateCache) (from to : string) (r : float) :
  fneq r 0 = true ->
  Cache.rates (Cache.SetRate c from to r) !! (strings_ToUpper to, strings_ToUpper from)
    = Some (1 / r)%float
  /\ (strings_ToUpper from <> strings_ToUpper to ->
      Cache.rates (Cache.SetRate c from to r) !! (strings_ToUpper from, strings_ToUpper to)
        = Some r
      /\ forall x, Cache.rates (Cache.SetRate c from to r) !! (x, x) = Cache.rates c !! (x, x))
  /\ (forall (c' : Cache.RateCache) (a : string), Cache.GetRate c' a a = (1%float, true))
  /\ Cache.rates (Cache.loadDefaults Cache.empty) !! ("USD", "USD") = Some 1%float
  /\ (forall x, is_Some (Cache.rates (Cache.loadDefaults Cache.empty) !! (x, x)) <-> x = "USD").
Proof.
  intros Hr. split; [apply SetRate_inverse; assumption|].
  split.
  { intros Hne. split; [apply SetRate_direct; assumption|].
    intros x. apply SetRate_identity_untouched; assumption. }
  split; [intros; apply GetRate_identity|].
  split; [apply defaults_identity_USD | apply defaults_identity_only_USD].
Qed.

(** C4 as stated fails: the default table stores an identity pair, and so
    does [SetRate] when both codes are the same. *)
Lemma C4_counterexample :
  Cache.rates (Cache.loadDefaults Cache.empty) !! ("USD", "USD") = Some 1%float
  /\ Cache.rates (Cache.SetRate (std := Sample.std) Cache.empty "eur" "EUR" 2)
       !! ("EUR", "EUR") = Some 0.5%float.
Proof. split; vm_compute; reflexivity. Qed.

Lemma C4_witness :
  fneq 4 0 = true
  /\ Cache.rates (Cache.SetRate (std := Sample.std) Cache.empty "eur" "usd" 4)
       !! ("USD", "EUR") = Some 0.25%float.
Proof.
  split; [reflexivity|].
  exact (proj1 (C4_reciprocal_and_identity (std := Sample.std)
                  (ord := Sample.order) Cache.empty "eur" "usd" 4 eq_refl)).
Defined.

Lemma not_connected_empty (a b : string) :
  a <> b -> ~ connected ∅ a b.
Proof.
  intros Hne Hc. apply rtc_inv in Hc as [->|(y & [v Hv] & _)]; [congruence|].
  rewrite lookup_empty in Hv. discriminate.
Qed.

Lemma C3_witness :
  Cache.rates Cache.empty = ∅
  /\ fneq 2 0 = true /\ fneq 4 0 = true
  /\ Cache.GetRate (std := Sample.std) (ord := Sample.order)
       (Cache.SetRate (std := Sample.std)
          (Cache.SetRate (std := Sample.std) Cache.empty "usd" "eur" 2)
          "EUR" "gbp" 4) "USD" "GBP" = (8%float, true)
  /\ Cache.GetRate (std := Sample.std) (ord := Sample.order)
       Cache.empty "USD" "EUR" = (0%float, false).
Proof.
  split; [reflexivity|]. split; [reflexivity|]. split; [reflexivity|].
  destruct (C3_bfs_two_hops_and_not_found (std := Sample.std)
              (ord := Sample.order) Cache.empty "usd" "eur" "gbp" 2 4
              eq_refl ltac:(discriminate) ltac:(discriminate)
              ltac:(discriminate) eq_refl eq_refl) as [Hhop Hnf].
  split; [exact Hhop|].
  apply Hnf. apply not_connected_empty. discriminate.
Defined.

(** ** The context: special names *)

Section SpecialNames.
Context `{std : GoStd} `{reg : Types.Registry} `{ord : Cache.MapOrder}.
Import Types Ast Evaluation.

(** A variables map without a key whose lower-case form is "_", "ans" or
    "total". *)
Definition noSpecialKeys (m : gmap string Value) : Prop :=
  forall k, isSpecial (strings_ToLower k) = true -> m !! k = None.

(** Every map of the store is such a map. *)
Definition mapsOK (st : Store) : Prop :=
  forall l m, maps st !! l = Some m -> noSpecialKeys m.

(** The operations that change a store: those of a context, of an
    evaluator and of an engine. *)
Inductive step : Store -> Store -> Prop :=
  | step_NewContext st disk now :
      step st (snd (NewContext st disk now))
  | step_NewContextWithCache st r disk now :
      step st (snd (NewContextWithCache st r disk now))
  | step_SetVariable st c name value st' :
      SetVariable st c name value = Some st' -> step st st'
  | step_DeleteVariable st c name st' :
      DeleteVariable st c name = Some st' -> step st st'
  | step_ClearVariables st c st' :
      ClearVariables st c = Some st' -> step st st'
  | step_SetPrevious st c v st' :
      SetPrevious st c v = Some st' -> step st st'
  | step_AddLineResult st c lr st' :
      AddLineResult st c lr = Some st' -> step st st'
  | step_MarkLastConsumed st c st' :
      MarkLastConsumed st c = Some st' -> step st st'
  | step_ClearLines st c st' :
      ClearLines st c = Some st' -> step st st'
  | step_SetRateCache st c r st' :
      SetRateCache st c r = Some st' -> step st st'
  | step_SetPrecision st c p st' :
      SetPrecision st c p = Some st' -> step st st'
  | step_SetStrict st c b st' :
      SetStrict st c b = Some st' -> step st st'
  | step_Clear st c st' :
      Clear st c = Some st' -> step st st'
  | step_Clone st c c' st' :
      Clone st c = Some (c', st') -> step st st'
  | step_EvalLine st c line v st' :
      EvalLine st c line = Some (v, st') -> step st st'
  | step_Engine_New st disk now e st' :
      Engine.New st disk now = Some (e, st') -> step st st'
  | step_Engine_Eval st e inp v st' :
      Engine.Eval_ e inp st = Some (v, st') -> step st st'
  | step_Engine_EvalPreview st e inp v st' :
      Engine.EvalPreview e inp st = Some (v, st') -> step st st'
  | step_Engine_SetRate st e from to r st' :
      Engine.SetRate e from to r st = Some st' -> step st st'
  | step_Engine_Clone st e e' st' :
      Engine.Clone e st = Some (e', st') -> step st st'.

Definition reachable (st : Store) : Prop := rtc step emptyStore st.

Lemma noSpecialKeys_empty : noSpecialKeys ∅.
Proof. intros k _. apply lookup_empty. Qed.

Lemma noSpecialKeys_insert (m : gmap string Value) (name : string) (v : Value) :
  isSpecial (strings_ToLower name) = false ->
  noSpecialKeys m -> noSpecialKeys (<[name := v]> m).
Proof.
  intros Hn Hm k Hk. rewrite lookup_insert_ne; [apply Hm; assumption|].
  intros ->. congruence.
Qed.

Lemma noSpecialKeys_delete (m : gmap string Value) (name : string) :
  noSpecialKeys m -> noSpecialKeys (delete name m).
Proof.
  intros Hm k Hk. destruct (decide (name = k)) as [->|Hne].
  - apply lookup_delete_eq.
  - rewrite lookup_delete_ne by assumption. apply Hm; assumption.
Qed.

Lemma mapsOK_same (st st' : Store) :
  maps st' = maps st -> mapsOK st -> mapsOK st'.
Proof. intros E Hok l m. rewrite E. apply Hok. Qed.

Lemma mapsOK_with_map (st : Store) (l : ref) (m : gmap string Value) :
  noSpecialKeys m -> mapsOK st -> mapsOK (with_map st l m).
Proof.
  intros Hm Hok l' m'. simpl. destruct (decide (l = l')) as [->|Hne].
  - rewrite lookup_insert_eq. intros [= <-]. exact Hm.
  - rewrite lookup_insert_ne by assumption. apply Hok.
Qed.

(** What each writer does to the maps of the store. *)

Lemma SetVariable_special (st : Store) (c : ref) (x : Context)
    (name : string) (value : Value) :
  ctxs st !! c = Some x ->
  isSpecial (strings_ToLower name) = true ->
  SetVariable st c name value = Some st.
Proof. intros Hc Hs. unfold SetVariable. rewrite Hc. simpl. rewrite Hs. reflexivity. Qed.

Lemma SetVariable_mapsOK (st st' : Store) (c : ref) (name : string) (value : Value) :
  SetVariable st c name value = Some st' -> mapsOK st -> mapsOK st'.
Proof.
  unfold SetVariable. intros Hs Hok.
  destruct (ctxs st !! c) as [x|]; simpl in Hs; [|discriminate].
  destruct (isSpecial (strings_ToLower name)) eqn:Hsp.
  - injection Hs as <-. exact Hok.
  - destruct (maps st !! variables x) as [m|] eqn:Hm; simpl in Hs; [|discriminate].
    injection Hs as <-. apply mapsOK_with_map; [|exact Hok].
    apply noSpecialKeys_insert; [exact Hsp | eapply Hok; eassumption].
Qed.

Lemma SetPrevious_maps (st st' : Store) (c : ref) (v : Value) :
  SetPrevious st c v = Some st' -> maps st' = maps st.
Proof.
  unfold SetPrevious. destruct (ctxs st !! c); simpl; [|discriminate].
  destruct (negb (IsEmpty v) && negb (IsError v)); intros [= <-]; reflexivity.
Qed.

Lemma AddLineResult_maps (st st' : Store) (c : ref) (lr : LineResult) :
  AddLineResult st c lr = Some st' -> maps st' = maps st.
Proof.
  unfold AddLineResult, appendLine.
  destruct (ctxs st !! c) as [x|]; simpl; [|discriminate].
  destruct (arr (lines x)) as [a|].
  - destruct (arrays st !! a) as [content|]; simpl; [|discriminate].
    destruct (len (lines x) <? length content)%nat; simpl;
      intros [= <-]; reflexivity.
  - simpl. intros [= <-]. reflexivity.
Qed.

Lemma MarkLastConsumed_maps (st st' : Store) (c : ref) :
  MarkLastConsumed st c = Some st' -> maps st' = maps st.
Proof.
  unfold MarkLastConsumed.
  destruct (ctxs st !! c) as [x|]; simpl; [|discriminate].
  destruct (arr (lines x)) as [a|]; [|intros [= <-]; reflexivity].
  destruct (arrays st !! a) as [content|]; simpl; [|discriminate].
  destruct (lastValid _ _); intros [= <-]; reflexivity.
Qed.

Lemma SetRateCache_maps (st st' : Store) (c : ref) (r : option ref) :
  SetRateCache st c r = Some st' -> maps st' = maps st.
Proof.
  unfold SetRateCache. destruct (ctxs st !! c); simpl; [|discriminate].
  intros [= <-]. reflexivity.
Qed.

Lemma NewContext_mapsOK (st : Store) disk now :
  mapsOK st -> mapsOK (snd (NewContext st disk now)).
Proof.
  intros Hok. unfold NewContext. simpl.
  intros l m. simpl. intros Hl.
  revert l m Hl. change (mapsOK (with_map st (newMap st) ∅)).
  apply mapsOK_with_map; [apply noSpecialKeys_empty | exact Hok].
Qed.

Lemma NewContextWithCache_mapsOK (st : Store) r disk now :
  mapsOK st -> mapsOK (snd (NewContextWithCache st r disk now)).
Proof.
  intros Hok. unfold NewContextWithCache.
  pose proof (NewContext_mapsOK st disk now Hok) as H1.
  destruct (NewContext st disk now) as [c st1]. simpl in H1.
  destruct r; [|exact H1]. destruct (ctxs st1 !! c); exact H1.
Qed.

Lemma Clone_mapsOK (st st' : Store) (c c' : ref) :
  Clone st c = Some (c', st') -> mapsOK st -> mapsOK st'.
Proof.
  unfold Clone. intros Hs Hok.
  destruct (ctxs st !! c) as [x|]; simpl in Hs; [|discriminate].
  destruct (maps st !! variables x) as [m|] eqn:Hm; simpl in Hs; [|discriminate].
  destruct (sliceElems st (lines x)) as [h|]; simpl in Hs; [|discriminate].
  injection Hs as <- <-.
  intros l m'. simpl. revert l m'. change (mapsOK (with_map st (newMap st) m)).
  apply mapsOK_with_map; [eapply Hok; eassumption | exact Hok].
Qed.

Lemma evalStmt_mapsOK (st st' : Store) (c : ref) (stmt : Stmt) (v : Value) :
  evalStmt st c stmt = Some (v, st') -> mapsOK st -> mapsOK st'.
Proof.
  destruct stmt as [| |text|e|name e]; simpl.
  - intros [= <- <-]; auto.
  - intros [= <- <-]; auto.
  - intros [= <- <-]; auto.
  - destruct (load st c); simpl; [|discriminate]. intros [= <- <-]; auto.
  - unfold evalAssign. destruct (load st c) as [env|]; simpl; [|discriminate].
    destruct (negb (IsError (evalExpr env e))).
    + destruct (SetVariable st c name (evalExpr env e)) as [st1|] eqn:Hs;
        simpl; [|discriminate].
      intros [= <- <-]. eapply SetVariable_mapsOK; eassumption.
    + intros [= <- <-]; auto.
Qed.

Lemma EvalLine_mapsOK (st st' : Store) (c : ref) (line : Line) (v : Value) :
  EvalLine st c line = Some (v, st') -> mapsOK st -> mapsOK st'.
Proof.
  unfold EvalLine. intros Hs Hok.
  destruct (LStmt line) as [| |text|e|name e] eqn:Hst;
    [injection Hs as <- <-; exact Hok | | | |].
  all: apply bind_Some in Hs as ([result st1] & He & Hs); cbv beta iota zeta in Hs.
  all: apply bind_Some in Hs as (st2 & Hm & Hs).
  all: apply bind_Some in Hs as (st3 & Ha & Hs).
  all: apply bind_Some in Hs as (st4 & Hp & Hs).
  all: injection Hs as <- <-.
  all: apply (mapsOK_same _ _ (SetPrevious_maps _ _ _ _ Hp)).
  all: apply (mapsOK_same _ _ (AddLineResult_maps _ _ _ _ Ha)).
  all: pose proof (evalStmt_mapsOK _ _ _ _ _ He Hok) as Hok1.
  all: match type of Hm with
       | (if ?b then _ else _) = _ =>
           destruct b;
             [apply (mapsOK_same _ _ (MarkLastConsumed_maps _ _ _ Hm)); exact Hok1
             | injection Hm as <-; exact Hok1]
       end.
Qed.

Lemma Engine_New_mapsOK (st st' : Store) disk now (e : Engine.Engine) :
  Engine.New st disk now = Some (e, st') -> mapsOK st -> mapsOK st'.
Proof.
  unfold Engine.New. intros Hs Hok.
  pose proof (NewContext_mapsOK (with_cache st (newCache st) (Cache.New disk now))
                disk now Hok) as H1.
  destruct (NewContext _ disk now) as [c st2]. simpl in H1.
  apply bind_Some in Hs as (st3 & Hr & Hs). injection Hs as <- <-.
  apply (mapsOK_same _ _ (SetRateCache_maps _ _ _ _ Hr)). exact H1.
Qed.

Lemma Engine_Eval_mapsOK (st st' : Store) (e : Engine.Engine) (inp : string)
    (v : Value) :
  Engine.Eval_ e inp st = Some (v, st') -> mapsOK st -> mapsOK st'.
Proof.
  unfold Engine.Eval_. intros Hs Hok.
  destruct (String.eqb _ ""); [injection Hs as <- <-; exact Hok|].
  destruct (_ || _); [injection Hs as <- <-; exact Hok|].
  apply bind_Some in Hs as ([line errs] & Hp & Hs). cbv beta iota in Hs.
  destruct errs; [|injection Hs as <- <-; exact Hok].
  eapply EvalLine_mapsOK; eassumption.
Qed.

Lemma Engine_EvalPreview_mapsOK (st st' : Store) (e : Engine.Engine)
    (inp : string) (v : Value) :
  Engine.EvalPreview e inp st = Some (v, st') -> mapsOK st -> mapsOK st'.
Proof.
  unfold Engine.EvalPreview. intros Hs Hok.
  apply bind_Some in Hs as ([c st1] & Hc & Hs). cbv beta iota in Hs.
  apply bind_Some in Hs as (st2 & Hr & Hs).
  assert (Hok2 : mapsOK st2).
  { apply (mapsOK_same _ _ (SetRateCache_maps _ _ _ _ Hr)).
    eapply Clone_mapsOK; eassumption. }
  cbv zeta in Hs.
  destruct (String.eqb _ ""); [injection Hs as <- <-; exact Hok2|].
  apply bind_Some in Hs as ([line errs] & Hp & Hs). cbv beta iota in Hs.
  destruct errs; [|injection Hs as <- <-; exact Hok2].
  eapply EvalLine_mapsOK; eassumption.
Qed.

Lemma step_mapsOK (st st' : Store) : step st st' -> mapsOK st -> mapsOK st'.
Proof.
  intros Hstep Hok. destruct Hstep as
    [st disk now | st r disk now | st c name value st' Hs | st c name st' Hs
    | st c st' Hs | st c v st' Hs | st c lr st' Hs | st c st' Hs | st c st' Hs
    | st c r st' Hs | st c p st' Hs | st c b st' Hs | st c st' Hs
    | st c c' st' Hs | st c line v st' Hs | st disk now e st' Hs
    | st e inp v st' Hs | st e inp v st' Hs | st e from to r st' Hs
    | st e e' st' Hs].
  - apply NewContext_mapsOK; assumption.
  - apply NewContextWithCache_mapsOK; assumption.
  - eapply SetVariable_mapsOK; eassumption.
  - unfold DeleteVariable in Hs.
    apply bind_Some in Hs as (x & Hx & Hs).
    apply bind_Some in Hs as (m & Hm & Hs). injection Hs as <-.
    apply mapsOK_with_map; [|exact Hok].
    apply noSpecialKeys_delete. eapply Hok; eassumption.
  - unfold ClearVariables in Hs.
    apply bind_Some in Hs as (x & Hx & Hs). injection Hs as <-.
    apply (mapsOK_same (with_map st (newMap st) ∅)); [reflexivity|].
    apply mapsOK_with_map; [apply noSpecialKeys_empty | exact Hok].
  - apply (mapsOK_same _ _ (SetPrevious_maps _ _ _ _ Hs)); exact Hok.
  - apply (mapsOK_same _ _ (AddLineResult_maps _ _ _ _ Hs)); exact Hok.
  - apply (mapsOK_same _ _ (MarkLastConsumed_maps _ _ _ Hs)); exact Hok.
  - unfold ClearLines in Hs.
    apply bind_Some in Hs as (x & Hx & Hs). injection Hs as <-. exact Hok.
  - apply (mapsOK_same _ _ (SetRateCache_maps _ _ _ _ Hs)); exact Hok.
  - unfold SetPrecision in Hs.
    apply bind_Some in Hs as (x & Hx & Hs).
    destruct (_ && _); injection Hs as <-; exact Hok.
  - unfold SetStrict in Hs.
    apply bind_Some in Hs as (x & Hx & Hs). injection Hs as <-. exact Hok.
  - unfold Clear in Hs.
    apply bind_Some in Hs as (x & Hx & Hs). injection Hs as <-.
    apply (mapsOK_same (with_map st (newMap st) ∅)); [reflexivity|].
    apply mapsOK_with_map; [apply noSpecialKeys_empty | exact Hok].
  - eapply Clone_mapsOK; eassumption.
  - eapply EvalLine_mapsOK; eassumption.
  - eapply Engine_New_mapsOK; eassumption.
  - eapply Engine_Eval_mapsOK; eassumption.
  - eapply Engine_EvalPreview_mapsOK; eassumption.
  - unfold Engine.SetRate in Hs.
    apply bind_Some in Hs as (x & Hx & Hs). injection Hs as <-. exact Hok.
  - unfold Engine.Clone in Hs.
    apply bind_Some in Hs as ([c st1] & Hc & Hs). cbv beta iota in Hs.
    apply bind_Some in Hs as (st2 & Hr & Hs). injection Hs as <- <-.
    apply (mapsOK_same _ _ (SetRateCache_maps _ _ _ _ Hr)).
    eapply Clone_mapsOK; eassumption.
Qed.

Lemma reachable_mapsOK (st : Store) : reachable st -> mapsOK st.
Proof.
  unfold reachable. intros Hr.
  apply rtc_ind_r with (P := mapsOK) in Hr; [exact Hr | |].
  - intros l m Hl. simpl in Hl. rewrite lookup_empty in Hl. discriminate.
  - intros y z _ Hstep Hy. eapply step_mapsOK; eassumption.
Qed.

Lemma load_vars (st : Store) (c : ref) (env : Env) :
  load st c = Some env ->
  exists x, ctxs st !! c = Some x /\ maps st !! variables x = Some (vars env).
Proof.
  unfold load. intros Hl.
  apply bind_Some in Hl as (x & Hx & Hl).
  apply bind_Some in Hl as (m & Hm & Hl).
  apply bind_Some in Hl as (h & Hh & Hl).
  apply bind_Some in Hl as (r & Hr & Hl).
  injection Hl as <-. exists x. split; assumption.
Qed.

Lemma GetVariable_special (e e' : Env) (name : string) :
  isSpecial (strings_ToLower name) = true ->
  prev e = prev e' -> hist e = hist e' ->
  GetVariable e name = GetVariable e' name.
Proof.
  unfold isSpecial, GetVariable, calculateTotal. intros Hs Hp Hh.
  rewrite Hp, Hh.
  destruct (String.eqb (strings_ToLower name) "_" ||
            String.eqb (strings_ToLower name) "ans"); [reflexivity|].
  simpl in Hs. rewrite Hs. reflexivity.
Qed.

(** C10: for a name whose lower-case form is "_", "ans" or "total",
    [SetVariable] and an assignment to that name leave the store, hence
    the variables map, as it is; no variables map of a store reached from
    the empty one by the operations of contexts, evaluators and engines
    holds such a key; and [GetVariable] answers for such a name from the
    previous result or the line history alone, whatever the map holds:
    for "_" and "ans" the previous result, found when it is not empty, and
    for "total" the running total, always found. *)
Theorem C10_special_names_never_stored (st : Store) (c : ref) (x : Context)
    (name : string) :
  ctxs st !! c = Some x ->
  isSpecial (strings_ToLower name) = true ->
  (forall value, SetVariable st c name value = Some st)
  /\ (forall expr v st', evalAssign st c name expr = Some (v, st') -> st' = st)
  /\ (forall st0, reachable st0 -> mapsOK st0)
  /\ (forall st0 c0 env, reachable st0 -> load st0 c0 = Some env ->
        noSpecialKeys (vars env))
  /\ (forall e e', prev e = prev e' -> hist e = hist e' ->
        GetVariable e name = GetVariable e' name)
  /\ (forall e,
        GetVariable e name =
          if String.eqb (strings_ToLower name) "_"
             || String.eqb (strings_ToLower name) "ans"
          then (if negb (IsEmpty (prev e)) then (prev e, true)
                else (Empty, false))
          else (calculateTotal e, true)).
Proof.
  intros Hc Hs. split; [|split; [|split; [|split; [|split]]]].
  - intros value. eapply SetVariable_special; eassumption.
  - intros expr v st'. unfold evalAssign.
    destruct (load st c) as [env|]; simpl; [|discriminate].
    destruct (negb (IsError (evalExpr env expr))).
    + rewrite (SetVariable_special _ _ _ _ _ Hc Hs). simpl.
      intros [= _ <-]. reflexivity.
    + intros [= _ <-]. reflexivity.
  - apply reachable_mapsOK.
  - intros st0 c0 env Hr Hl. apply load_vars in Hl as (x0 & _ & Hm).
    eapply reachable_mapsOK; eassumption.
  - intros e e'. apply GetVariable_special. exact Hs.
  - intros e. unfold GetVariable. cbv zeta. unfold isSpecial in Hs.
    destruct (String.eqb (strings_ToLower name) "_"
              || String.eqb (strings_ToLower name) "ans"); [reflexivity|].
    simpl in Hs. rewrite Hs. reflexivity.
Qed.

End SpecialNames.

Section SpecialNamesInstance.
Import Types Ast Evaluation.

(** A store with one fresh context, and the reference to it. *)
Definition sampleCtx : ref * Store :=
  NewContext (std := Sample.std) (reg := Sample.registry) emptyStore None 0.

Lemma C10_witness :
  let st := snd sampleCtx in
  let c := fst sampleCtx in
  is_Some (ctxs st !! c)
  /\ isSpecial (strings_ToLower (GoStd := Sample.std) "Total") = true
  /\ SetVariable (std := Sample.std) st c "Total" (Number 5) = Some st
  /\ GetVariable (std := Sample.std)
       {| vars := {[ "Total" := Number 1 ]}; prev := Empty;
          hist := [{| Input := "5"; LValue := Number 5; IsConsumed := false;
                      IsContinuation := false; AssignedVar := "" |}];
          isStrict := false; prec := 2; rc := None |} "Total"
     = (Number 5, true).
Proof.
  intros st c.
  assert (Hc : exists x, ctxs st !! c = Some x).
  { unfold st, c, sampleCtx, NewContext. cbn [fst snd with_ctx ctxs].
    rewrite lookup_insert_eq. eauto. }
  destruct Hc as [x Hx].
  split; [rewrite Hx; eauto|]. split; [reflexivity|].
  destruct (C10_special_names_never_stored (std := Sample.std)
              (reg := Sample.registry) (ord := Sample.order)
              st c x "Total" Hx eq_refl) as (Hset & _ & _ & _ & _ & Hget).
  split; [exact (Hset (Number 5)) | exact (Hget _)].
Defined.

End SpecialNamesInstance.


(** ** The parser: the conversion suffix *)

Section ConversionSuffix.
Context `{std : GoStd} `{reg : Types.Registry}.
Import Token Ast Parser.

(** The node [parseIdentifierOrValue] builds for a name that no
    parenthesis follows. *)
Definition identNode (name : string) : Expr :=
  if String.eqb (strings_ToLower name) "_" || String.eqb (strings_ToLower name) "ans"
  then Identifier "_" else Identifier name.

Lemma identNode_not_nil (name : string) : isNil (identNode name) = false.
Proof. unfold identNode. destruct (_ || _); reflexivity. Qed.

(** One unfolding of each parsing function. *)
Lemma parseBinaryExpr_S (f : nat) (minPrec : Z) (p : Parser) :
  parseBinaryExpr (S f) minPrec p =
    ('(lhs, p1) ← parseUnaryExpr f p;
     if isNil lhs then Some (Nil, p1) else binaryLoop f minPrec lhs p1).
Proof. reflexivity. Qed.

(** The conversion suffix that ends [parseBinaryExpr]. *)
Definition suffix (lhs : Expr) (p : Parser) : Expr * Parser :=
  if check p IN then
    let p1 := snd (advance p) in
    if check p1 IDENTIFIER then
      let '(tok, p2) := advance p1 in
      (ConversionExpr lhs (Literal tok), p2)
    else (lhs, p1)
  else (lhs, p).

Lemma binaryLoop_stop (f : nat) (minPrec : Z) (lhs : Expr) (p : Parser) :
  isBinaryOp p = false ->
  binaryLoop (S f) minPrec lhs p = Some (suffix lhs p).
Proof. intros Hb. simpl. rewrite Hb. reflexivity. Qed.

Lemma binaryLoop_go (f : nat) (minPrec : Z) (lhs : Expr) (p : Parser) :
  isBinaryOp p = true ->
  (Precedence (currentBinaryOp p) <? minPrec)%Z = false ->
  binaryLoop (S f) minPrec lhs p =
    (let op := currentBinaryOp p in
     let p1 := snd (advance p) in
     let rightPrec :=
       if BinaryOp_eqb op OpPow then Precedence op else (Precedence op + 1)%Z in
     '(rhs, p2) ← parseBinaryExpr f rightPrec p1;
     if isNil rhs
     then Some (lhs, addError p2 "expected expression after operator")
     else binaryLoop f minPrec (BinaryExpr lhs op rhs) p2).
Proof. intros Hb Hp. simpl. rewrite Hb, Hp. reflexivity. Qed.

(** An identifier that neither "(" nor "of" follows is a whole unary
    expression. *)
Lemma parseUnaryExpr_ident (f : nat) (p : Parser) :
  Typ (current p) = IDENTIFIER ->
  check (snd (advance p)) LPAREN = false ->
  check (snd (advance p)) OF = false ->
  parseUnaryExpr (S (S (S (S f)))) p =
    Some (identNode (Literal (current p)), snd (advance p)).
Proof.
  intros Ht Hl Ho.
  assert (Hany : checkAny p [MINUS; PLUS] = false).
  { unfold checkAny. simpl. rewrite Ht. reflexivity. }
  change (parseUnaryExpr (S (S (S (S f)))) p)
    with (if checkAny p [MINUS; PLUS]
          then let '(tok, p1) := advance p in
               '(e, p2) ← parseUnaryExpr (S (S (S f))) p1;
               if isNil e then Some (Nil, p2)
               else Some (UnaryExpr (if Type_eqb (Typ tok) MINUS then OpNeg else OpPos) e, p2)
          else parsePostfixExpr (S (S (S f))) p).
  rewrite Hany.
  assert (Hprim : parsePrimaryExpr (S (S f)) p =
                  Some (identNode (Literal (current p)), snd (advance p))).
  { simpl. rewrite Ht. simpl in Hl. rewrite Hl.
    unfold identNode. destruct (_ || _); reflexivity. }
  change (parsePostfixExpr (S (S (S f))) p)
    with ('(e, p1) ← parsePrimaryExpr (S (S f)) p;
          if isNil e then Some (Nil, p1)
          else if check p1 OF then
            match e with
            | PercentLit _ _ =>
                let p2 := snd (advance p1) in
                '(value, p3) ← parseUnaryExpr (S (S f)) p2;
                if isNil value
                then Some (e, addError p3 "expected expression after 'of'")
                else Some (PercentOfExpr e value, p3)
            | _ => Some (e, p1)
            end
          else Some (e, p1)).
  rewrite Hprim. cbn [mbind option_bind]. rewrite identNode_not_nil, Ho.
  reflexivity.
Qed.

(** The tokens of a line "a + b in t". *)
Definition sumInTokens (a b t : string) (pa pp pb pi pt pe : Z) : list Token :=
  [Token.New IDENTIFIER a pa; Token.New PLUS "+" pp; Token.New IDENTIFIER b pb;
   Token.New IN "in" pi; Token.New IDENTIFIER t pt; Token.New EOF "" pe].

Definition at_ (toks : list Token) (k : Z) : Parser :=
  {| tokens := toks; pos := k; errors := [] |}.

(** C5 (what the code does): on the tokens of "a + b in t" the conversion
    suffix is consumed by the recursive call that parses the right operand:
    the tree is the sum of [a] and the conversion of [b], not the conversion
    of the sum. No error is recorded. *)
Theorem C5_suffix_binds_right_operand (a b t : string) (pa pp pb pi pt pe : Z) :
  let toks := sumInTokens a b t pa pp pb pi pt pe in
  parseLine (NewFromTokens toks) =
    Some ({| LStmt := ExprStmt (BinaryExpr (identNode a) OpAdd
                                  (ConversionExpr (identNode b) t));
             Comment := ""; Raw := "" |}, at_ toks 5)
  /\ BinaryExpr (identNode a) OpAdd (ConversionExpr (identNode b) t)
     <> ConversionExpr (BinaryExpr (identNode a) OpAdd (identNode b)) t.
Proof.
  intros toks. split; [|discriminate].
  assert (Hexpr : parseExpression (at_ toks 0) =
            Some (BinaryExpr (identNode a) OpAdd (ConversionExpr (identNode b) t),
                  at_ toks 5)).
  { unfold parseExpression.
    change (fuelOf (at_ toks 0)) with (S (S (S (S (S (S 50)))))).
    rewrite parseBinaryExpr_S.
    rewrite parseUnaryExpr_ident by reflexivity.
    cbn [mbind option_bind]. rewrite identNode_not_nil.
    change (snd (advance (at_ toks 0))) with (at_ toks 1).
    change (Literal (current (at_ toks 0))) with a.
    rewrite binaryLoop_go by reflexivity.
    change (currentBinaryOp (at_ toks 1)) with OpAdd.
    change (snd (advance (at_ toks 1))) with (at_ toks 2).
    cbv zeta. cbn [BinaryOp_eqb Precedence Z.add Pos.add].
    rewrite parseBinaryExpr_S.
    rewrite parseUnaryExpr_ident by reflexivity.
    cbn [mbind option_bind]. rewrite identNode_not_nil.
    change (snd (advance (at_ toks 2))) with (at_ toks 3).
    change (Literal (current (at_ toks 2))) with b.
    rewrite binaryLoop_stop by reflexivity.
    change (suffix (identNode b) (at_ toks 3))
      with (ConversionExpr (identNode b) t, at_ toks 5).
    cbn [mbind option_bind isNil].
    rewrite binaryLoop_stop by reflexivity.
    reflexivity. }
  unfold parseLine.
  change (NewFromTokens toks) with (at_ toks 0).
  change (loop (length (tokens (at_ toks 0))) (fun p => check p NEWLINE)
            (fun p => inr (snd (advance p))) (at_ toks 0))
    with (Some (at_ toks 0)).
  cbn [mbind option_bind].
  change (check (at_ toks 0) EOF) with false.
  change (check (at_ toks 0) COMMENT) with false.
  cbv iota.
  unfold parseStatement.
  change (check (at_ toks 0) IDENTIFIER && Type_eqb (Typ (peek (at_ toks 0))) EQUALS)
    with false.
  change (checkAny (at_ toks 0) [PLUS; MINUS; STAR; SLASH; CARET; POWER]) with false.
  change (check (at_ toks 0) IN) with false.
  cbv iota. rewrite Hexpr. cbn [mbind option_bind isNil].
  change (check (at_ toks 5) COMMENT) with false.
  reflexivity.
Qed.

End ConversionSuffix.

(** The line "a + b in EUR" itself, through the lexer and the parser. *)
Lemma C5_line_a_plus_b_in_EUR :
  Parser.ParseLine (std := Sample.std) (reg := Sample.registry) "a + b in EUR"
  = Some ({| Ast.LStmt :=
               Ast.ExprStmt
                 (Ast.BinaryExpr (Ast.Identifier "a") Ast.OpAdd
                    (Ast.ConversionExpr (Ast.Identifier "b") "EUR"));
             Ast.Comment := ""; Ast.Raw := "" |}, []).
Proof. vm_compute. reflexivity. Qed.

(** ** The context as the evaluator sees it

    Each writer of the context, run on a store, changes what [load] reads
    through the context as the functions below say. *)

Section Refinement.
Context `{std : GoStd} `{reg : Types.Registry} `{ord : Cache.MapOrder}.
Import Types Ast Evaluation.

Definition env_with_vars (e : Env) (m : gmap string Value) : Env :=
  {| vars := m; prev := prev e; hist := hist e; isStrict := isStrict e;
     prec := prec e; rc := rc e |}.

Definition env_with_prev (e : Env) (v : Value) : Env :=
  {| vars := vars e; prev := v; hist := hist e; isStrict := isStrict e;
     prec := prec e; rc := rc e |}.

Definition env_with_hist (e : Env) (h : list LineResult) : Env :=
  {| vars := vars e; prev := prev e; hist := h; isStrict := isStrict e;
     prec := prec e; rc := rc e |}.

Definition envSetVariable (e : Env) (name : string) (value : Value) : Env :=
  if isSpecial (strings_ToLower name) then e
  else env_with_vars e (<[name := value]> (vars e)).

Definition envSetPrevious (e : Env) (v : Value) : Env :=
  if negb (IsEmpty v) && negb (IsError v) then env_with_prev e v else e.

Definition envAddLineResult (e : Env) (lr : LineResult) : Env :=
  env_with_hist e (hist e ++ [lr]).

Definition envMarkLastConsumed (e : Env) : Env :=
  match lastValid (hist e) (length (hist e)) with
  | Some i => env_with_hist e (alter consume i (hist e))
  | None => e
  end.

Definition envEvalStmt (e : Env) (stmt : Stmt) : Value * Env :=
  match stmt with
  | NilStmt => (Error "unknown statement type", e)
  | EmptyStmt | CommentStmt _ => (Empty, e)
  | ExprStmt expr => (evalExpr e expr, e)
  | AssignStmt name expr =>
      let value := evalExpr e expr in
      if negb (IsError value) then (value, envSetVariable e name value)
      else (value, e)
  end.

Definition envEvalLine (e : Env) (line : Line) : Value * Env :=
  match LStmt line with
  | NilStmt => (Empty, e)
  | stmt =>
      let '(result, e1) := envEvalStmt e stmt in
      let cont := isContinuationStmt stmt in
      let e2 := if cont then envMarkLastConsumed e1 else e1 in
      let lr :=
        {| Input := Raw line; LValue := result; IsConsumed := false;
           IsContinuation := cont;
           AssignedVar :=
             match stmt with AssignStmt name _ => name | _ => "" end |} in
      (result, envSetPrevious (envAddLineResult e2 lr) result)
  end.

(** [load] taken apart. *)
Definition loadCache (st : Store) (x : Context) : option (option Cache.RateCache) :=
  match rateCache x with
  | None => Some None
  | Some r => Some <$> caches st !! r
  end.

Lemma load_Some (st : Store) (c : ref) (e : Env) :
  load st c = Some e <->
  exists x m h r,
    ctxs st !! c = Some x /\ maps st !! variables x = Some m
    /\ sliceElems st (lines x) = Some h /\ loadCache st x = Some r
    /\ e = {| vars := m; prev := previous x; hist := h; isStrict := strict x;
              prec := precision x; rc := r |}.
Proof.
  unfold load, loadCache. split.
  - intros Hl.
    apply bind_Some in Hl as (x & Hx & Hl).
    apply bind_Some in Hl as (m & Hm & Hl).
    apply bind_Some in Hl as (h & Hh & Hl).
    apply bind_Some in Hl as (r & Hr & Hl).
    injection Hl as <-. exists x, m, h, r. auto.
  - intros (x & m & h & r & Hx & Hm & Hh & Hr & ->).
    rewrite Hx. simpl. rewrite Hm. simpl. rewrite Hh. simpl. rewrite Hr.
    reflexivity.
Qed.

Lemma sliceElems_Some (st : Store) (s : Slice) (h : list LineResult) :
  sliceElems st s = Some h <->
  (arr s = None /\ len s = 0%nat /\ h = [])
  \/ (exists a content, arr s = Some a /\ arrays st !! a = Some content
        /\ (len s <= length content)%nat /\ h = take (len s) content).
Proof.
  unfold sliceElems. destruct (arr s) as [a|].
  - split.
    + intros Hs. apply bind_Some in Hs as (content & Hc & Hs).
      destruct (len s <=? length content)%nat eqn:Hle; [|discriminate].
      injection Hs as <-. right. exists a, content.
      apply Nat.leb_le in Hle. auto.
    + intros [(? & _)|(a' & content & [= <-] & Hc & Hle & ->)]; [discriminate|].
      rewrite Hc. simpl. apply Nat.leb_le in Hle. rewrite Hle. reflexivity.
  - split.
    + destruct (len s =? 0)%nat eqn:Hz; [|discriminate].
      intros [= <-]. left. apply Nat.eqb_eq in Hz. auto.
    + intros [(_ & -> & ->)|(a' & content & ? & _)]; [reflexivity|discriminate].
Qed.

Lemma sliceElems_length (st : Store) (s : Slice) (h : list LineResult) :
  sliceElems st s = Some h -> length h = len s.
Proof.
  intros Hs. apply sliceElems_Some in Hs
    as [(_ & -> & ->)|(a & content & _ & _ & Hle & ->)]; [reflexivity|].
  rewrite length_take. lia.
Qed.

(** *** The writers *)

Lemma SetVariable_load (st : Store) (c : ref) (e : Env) (name : string)
    (value : Value) :
  load st c = Some e ->
  exists st', SetVariable st c name value = Some st'
              /\ load st' c = Some (envSetVariable e name value)
              /\ caches st' = caches st.
Proof.
  intros Hl. pose proof Hl as Hl0.
  apply load_Some in Hl as (x & m & h & r & Hx & Hm & Hh & Hr & ->).
  unfold SetVariable, envSetVariable. rewrite Hx. simpl.
  destruct (isSpecial (strings_ToLower name)).
  - exists st. auto.
  - rewrite Hm. simpl. eexists. split; [reflexivity|]. split; [|reflexivity].
    apply load_Some. exists x, (<[name := value]> m), h, r.
    simpl. rewrite lookup_insert_eq. auto.
Qed.

Lemma SetPrevious_load (st : Store) (c : ref) (e : Env) (v : Value) :
  load st c = Some e ->
  exists st', SetPrevious st c v = Some st'
              /\ load st' c = Some (envSetPrevious e v)
              /\ caches st' = caches st.
Proof.
  intros Hl. pose proof Hl as Hl0.
  apply load_Some in Hl as (x & m & h & r & Hx & Hm & Hh & Hr & ->).
  unfold SetPrevious, envSetPrevious. rewrite Hx. simpl.
  destruct (negb (IsEmpty v) && negb (IsError v)).
  - eexists. split; [reflexivity|]. split; [|reflexivity].
    apply load_Some. exists (set_previous x v), m, h, r.
    simpl. rewrite lookup_insert_eq. auto.
  - exists st. auto.
Qed.

Lemma AddLineResult_load (st : Store) (c : ref) (e : Env) (lr : LineResult) :
  load st c = Some e ->
  exists st', AddLineResult st c lr = Some st'
              /\ load st' c = Some (envAddLineResult e lr)
              /\ caches st' = caches st.
Proof.
  intros Hl.
  apply load_Some in Hl as (x & m & h & r & Hx & Hm & Hh & Hr & ->).
  unfold AddLineResult, appendLine, envAddLineResult, env_with_hist.
  rewrite Hx. simpl.
  apply sliceElems_Some in Hh
    as [(Ha & Hlen & ->)|(a & content & Ha & Hc & Hle & ->)].
  - rewrite Ha. simpl. eexists. split; [reflexivity|]. split; [|reflexivity].
    apply load_Some.
    exists (set_lines x {| arr := Some (newArray st); len := 1 |}), m,
      [lr], r.
    simpl. rewrite lookup_insert_eq. repeat split; try assumption.
    apply sliceElems_Some. right. simpl.
    eexists _, _. split; [reflexivity|]. rewrite lookup_insert_eq.
    split; [reflexivity|]. simpl. split; [lia | reflexivity].
  - rewrite Ha. rewrite Hc. simpl.
    destruct (len (lines x) <? length content)%nat eqn:Hlt.
    + apply Nat.ltb_lt in Hlt.
      eexists. split; [reflexivity|]. split; [|reflexivity].
      apply load_Some.
      exists (set_lines x {| arr := Some a; len := S (len (lines x)) |}), m,
        (take (len (lines x)) content ++ [lr])%list, r.
      simpl. rewrite lookup_insert_eq. repeat split; try assumption.
      apply sliceElems_Some. right. simpl.
      eexists _, _. split; [reflexivity|]. rewrite lookup_insert_eq.
      split; [reflexivity|]. rewrite length_insert. split; [lia|].
      rewrite (take_S_r _ _ lr) by (apply list_lookup_insert_eq; lia).
      rewrite take_insert_ge by lia. reflexivity.
    + eexists. split; [reflexivity|]. split; [|reflexivity].
      apply load_Some.
      exists (set_lines x {| arr := Some (newArray st); len := S (len (lines x)) |}),
        m, (take (len (lines x)) content ++ [lr])%list, r.
      simpl. rewrite lookup_insert_eq. repeat split; try assumption.
      apply sliceElems_Some. right. simpl.
      eexists _, _. split; [reflexivity|]. rewrite lookup_insert_eq.
      split; [reflexivity|].
      assert (Hlen : length (take (len (lines x)) content) = len (lines x))
        by (rewrite length_take; lia).
      split.
      * rewrite length_app, Hlen. simpl. lia.
      * symmetry.
        rewrite (cons_middle lr (take (len (lines x)) content) (replicate _ _)).
        rewrite app_assoc. apply take_app_length'.
        rewrite length_app, Hlen. simpl. lia.
Qed.

Lemma lastValid_take (content : list LineResult) (n k : nat) :
  (k <= n)%nat -> lastValid (take n content) k = lastValid content k.
Proof.
  induction k as [|i IH]; intros Hk; [reflexivity|]. simpl.
  rewrite lookup_take_lt by lia. rewrite IH by lia. reflexivity.
Qed.

Lemma lastValid_lt (content : list LineResult) (n i : nat) :
  lastValid content n = Some i -> (i < n)%nat.
Proof.
  induction n as [|k IH]; simpl; [discriminate|].
  destruct (content !! k) as [lr|].
  - destruct (isValidLine lr); [intros [= <-]; lia|].
    intros Hv. specialize (IH Hv). lia.
  - intros Hv. specialize (IH Hv). lia.
Qed.

Lemma MarkLastConsumed_load (st : Store) (c : ref) (e : Env) :
  load st c = Some e ->
  exists st', MarkLastConsumed st c = Some st'
              /\ load st' c = Some (envMarkLastConsumed e)
              /\ caches st' = caches st.
Proof.
  intros Hl. pose proof Hl as Hl0.
  apply load_Some in Hl as (x & m & h & r & Hx & Hm & Hh & Hr & ->).
  unfold MarkLastConsumed, envMarkLastConsumed, env_with_hist.
  rewrite Hx. simpl.
  pose proof Hh as Hh0.
  apply sliceElems_Some in Hh
    as [(Ha & Hlen & ->)|(a & content & Ha & Hc & Hle & ->)].
  - rewrite Ha. simpl. exists st. auto.
  - rewrite Ha, Hc. simpl.
    rewrite length_take. rewrite Nat.min_l by lia.
    rewrite lastValid_take by lia.
    destruct (lastValid content (len (lines x))) as [i|] eqn:Hv.
    + apply lastValid_lt in Hv.
      eexists. split; [reflexivity|]. split; [|reflexivity].
      apply load_Some. exists x, m, (alter consume i (take (len (lines x)) content)), r.
      simpl. repeat split; try assumption.
      apply sliceElems_Some. right.
      exists a, (alter consume i content). split; [assumption|].
      simpl. rewrite lookup_insert_eq. split; [reflexivity|].
      rewrite length_alter. split; [assumption|].
      symmetry. apply take_alter_lt. lia.
    + exists st. auto.
Qed.

Lemma evalStmt_load (st : Store) (c : ref) (e : Env) (stmt : Stmt) :
  load st c = Some e ->
  exists st', evalStmt st c stmt = Some (fst (envEvalStmt e stmt), st')
              /\ load st' c = Some (snd (envEvalStmt e stmt))
              /\ caches st' = caches st.
Proof.
  intros Hl. destruct stmt as [| |text|expr|name expr]; simpl.
  - exists st. auto.
  - exists st. auto.
  - exists st. auto.
  - rewrite Hl. simpl. exists st. auto.
  - unfold evalAssign. rewrite Hl. simpl.
    destruct (negb (IsError (evalExpr e expr))); simpl.
    + destruct (SetVariable_load st c e name (evalExpr e expr) Hl)
        as (st' & Hs & Hl' & Hc).
      rewrite Hs. simpl. exists st'. auto.
    + exists st. auto.
Qed.

Lemma EvalLine_load (st : Store) (c : ref) (e : Env) (line : Line) :
  load st c = Some e ->
  exists st', EvalLine st c line = Some (fst (envEvalLine e line), st')
              /\ load st' c = Some (snd (envEvalLine e line))
              /\ caches st' = caches st.
Proof.
  intros Hl. unfold EvalLine, envEvalLine.
  destruct (LStmt line) as [| |text|expr|name expr] eqn:Hst;
    [exists st; auto | | | |].
  all: match goal with
       | |- context [evalStmt _ _ ?s] =>
           destruct (evalStmt_load st c e s Hl) as (st1 & Hs1 & Hl1 & Hc1);
           rewrite Hs1; destruct (envEvalStmt e s) as [result e1]
       end.
  all: cbn [mbind option_bind fst snd] in *.
  all: match goal with
       | |- context [isContinuationStmt ?s] =>
           assert (exists st2,
                     (if isContinuationStmt s then MarkLastConsumed st1 c
                      else Some st1) = Some st2
                     /\ load st2 c =
                          Some (if isContinuationStmt s
                                then envMarkLastConsumed e1 else e1)
                     /\ caches st2 = caches st)
             as (st2 & Hs2 & Hl2 & Hc2)
             by (destruct (isContinuationStmt s);
                 [destruct (MarkLastConsumed_load st1 c e1 Hl1)
                    as (st2 & ? & ? & Hc2); exists st2;
                  rewrite Hc2; auto
                 | exists st1; auto]);
           rewrite Hs2
       end.
  all: cbn [mbind option_bind].
  all: match goal with
       | |- context [AddLineResult _ _ ?lr] =>
           destruct (AddLineResult_load st2 c _ lr Hl2) as (st3 & Hs3 & Hl3 & Hc3);
           rewrite Hs3
       end.
  all: cbn [mbind option_bind].
  all: destruct (SetPrevious_load st3 c _ result Hl3) as (st4 & Hs4 & Hl4 & Hc4).
  all: rewrite Hs4; cbn [mbind option_bind].
  all: exists st4; split; [reflexivity|]; split; [exact Hl4|].
  all: rewrite Hc4, Hc3, Hc2; reflexivity.
Qed.


(** *** Objects a writer does not touch *)

(** Every object of [st0] is an object of [st], unchanged. *)
Definition extends (st0 st : Store) : Prop :=
  ctxs st0 ⊆ ctxs st /\ maps st0 ⊆ maps st /\ arrays st0 ⊆ arrays st
  /\ caches st0 = caches st.

(** The context [c] of [st], its variables map and its line array are no
    objects of [st0]. *)
Definition private (st0 st : Store) (c : ref) : Prop :=
  ctxs st0 !! c = None
  /\ forall x, ctxs st !! c = Some x ->
       maps st0 !! variables x = None
       /\ forall a, arr (lines x) = Some a -> arrays st0 !! a = None.

Lemma extends_refl (st : Store) : extends st st.
Proof. repeat split; reflexivity. Qed.

Lemma extends_trans (st0 st1 st2 : Store) :
  extends st0 st1 -> extends st1 st2 -> extends st0 st2.
Proof.
  intros (?&?&?&?) (?&?&?&?).
  repeat split; etransitivity; eassumption.
Qed.

Lemma fresh_None {A} (m : gmap positive A) : m !! fresh (dom m) = None.
Proof. apply not_elem_of_dom. apply is_fresh. Qed.

Lemma subseteq_None {A} (m0 m : gmap positive A) (l : positive) :
  m0 ⊆ m -> m !! l = None -> m0 !! l = None.
Proof.
  intros Hsub Hn. destruct (m0 !! l) eqn:E; [|reflexivity].
  eapply lookup_weaken in E; [|exact Hsub]. congruence.
Qed.

Lemma sliceElems_extends (st0 st : Store) (s : Slice) (h : list LineResult) :
  extends st0 st -> sliceElems st0 s = Some h -> sliceElems st s = Some h.
Proof.
  intros (_ & _ & Ha & _) Hs. apply sliceElems_Some in Hs.
  apply sliceElems_Some. destruct Hs as [?|(a & content & ? & Hc & ?)];
    [left; assumption|].
  right. exists a, content. split; [assumption|].
  split; [eapply lookup_weaken; eassumption | assumption].
Qed.

(** What a context holds is read from its own objects alone. *)
Lemma load_extends (st0 st : Store) (c : ref) (e : Env) :
  extends st0 st -> load st0 c = Some e -> load st c = Some e.
Proof.
  intros Hext Hl. pose proof Hext as (Hc & Hm & Ha & Hr).
  apply load_Some in Hl as (x & m & h & r & Hx & Hmx & Hh & Hrx & ->).
  apply load_Some. exists x, m, h, r.
  split; [eapply lookup_weaken; eassumption|].
  split; [eapply lookup_weaken; eassumption|].
  split; [eapply sliceElems_extends; eassumption|].
  split; [|reflexivity].
  unfold loadCache in *. rewrite <- Hr. exact Hrx.
Qed.

Lemma extends_with_ctx (st0 st : Store) (c : ref) (x : Context) :
  ctxs st0 !! c = None -> extends st0 st -> extends st0 (with_ctx st c x).
Proof.
  intros Hn (Hc & Hm & Ha & Hr). repeat split; simpl; try assumption.
  apply insert_subseteq_r; assumption.
Qed.

Lemma extends_with_map (st0 st : Store) (l : ref) (m : gmap string Value) :
  maps st0 !! l = None -> extends st0 st -> extends st0 (with_map st l m).
Proof.
  intros Hn (Hc & Hm & Ha & Hr). repeat split; simpl; try assumption.
  apply insert_subseteq_r; assumption.
Qed.

Lemma extends_with_array (st0 st : Store) (a : ref) (content : list LineResult) :
  arrays st0 !! a = None -> extends st0 st -> extends st0 (with_array st a content).
Proof.
  intros Hn (Hc & Hm & Ha & Hr). repeat split; simpl; try assumption.
  apply insert_subseteq_r; assumption.
Qed.

(** A clone is made of new objects only. *)
Lemma Clone_extends (st st' : Store) (c c' : ref) :
  Clone st c = Some (c', st') -> extends st st' /\ private st st' c'.
Proof.
  unfold Clone. intros Hs.
  apply bind_Some in Hs as (x & Hx & Hs).
  apply bind_Some in Hs as (m & Hm & Hs).
  apply bind_Some in Hs as (h & Hh & Hs).
  injection Hs as <- <-. split.
  - apply extends_with_ctx; [apply fresh_None|].
    apply extends_with_array; [apply fresh_None|].
    apply extends_with_map; [apply fresh_None|]. apply extends_refl.
  - split; [apply fresh_None|]. intros x'. simpl.
    rewrite lookup_insert_eq. intros [= <-]. simpl.
    split; [apply fresh_None|]. intros a [= <-]. apply fresh_None.
Qed.

(** The writers, applied to a private context, touch no object of [st0]. *)

Lemma SetRateCache_private (st0 st st' : Store) (c : ref) (r : option ref) :
  extends st0 st -> private st0 st c ->
  SetRateCache st c r = Some st' -> extends st0 st' /\ private st0 st' c.
Proof.
  intros Hext (Hn & Hp) Hs. unfold SetRateCache in Hs.
  apply bind_Some in Hs as (x & Hx & Hs). injection Hs as <-.
  split; [apply extends_with_ctx; assumption|].
  split; [assumption|]. intros x'. simpl. rewrite lookup_insert_eq.
  intros [= <-]. simpl. apply Hp. assumption.
Qed.

Lemma SetVariable_private (st0 st st' : Store) (c : ref) (name : string)
    (value : Value) :
  extends st0 st -> private st0 st c ->
  SetVariable st c name value = Some st' -> extends st0 st' /\ private st0 st' c.
Proof.
  intros Hext (Hn & Hp) Hs. unfold SetVariable in Hs.
  apply bind_Some in Hs as (x & Hx & Hs).
  destruct (isSpecial _); [injection Hs as <-; split; [|split]; assumption|].
  apply bind_Some in Hs as (m & Hm & Hs). injection Hs as <-.
  destruct (Hp x Hx) as [Hv Ha].
  split; [apply extends_with_map; assumption|].
  split; [assumption|]. exact Hp.
Qed.

Lemma SetPrevious_private (st0 st st' : Store) (c : ref) (v : Value) :
  extends st0 st -> private st0 st c ->
  SetPrevious st c v = Some st' -> extends st0 st' /\ private st0 st' c.
Proof.
  intros Hext (Hn & Hp) Hs. unfold SetPrevious in Hs.
  apply bind_Some in Hs as (x & Hx & Hs).
  destruct (_ && _); injection Hs as <-; [|split; [|split]; assumption].
  split; [apply extends_with_ctx; assumption|].
  split; [assumption|]. intros x'. simpl. rewrite lookup_insert_eq.
  intros [= <-]. simpl. apply Hp. assumption.
Qed.

Lemma MarkLastConsumed_private (st0 st st' : Store) (c : ref) :
  extends st0 st -> private st0 st c ->
  MarkLastConsumed st c = Some st' -> extends st0 st' /\ private st0 st' c.
Proof.
  intros Hext (Hn & Hp) Hs. unfold MarkLastConsumed in Hs.
  apply bind_Some in Hs as (x & Hx & Hs).
  destruct (arr (lines x)) as [a|] eqn:Ha;
    [|injection Hs as <-; split; [|split]; assumption].
  apply bind_Some in Hs as (content & Hc & Hs).
  destruct (lastValid _ _);
    injection Hs as <-; [|split; [|split]; assumption].
  split; [apply extends_with_array; [|assumption]|].
  - destruct (Hp x Hx) as [_ Harr]. apply Harr. assumption.
  - split; [assumption|]. exact Hp.
Qed.

Lemma AddLineResult_private (st0 st st' : Store) (c : ref) (lr : LineResult) :
  extends st0 st -> private st0 st c ->
  AddLineResult st c lr = Some st' -> extends st0 st' /\ private st0 st' c.
Proof.
  intros Hext (Hn & Hp) Hs. unfold AddLineResult, appendLine in Hs.
  apply bind_Some in Hs as (x & Hx & Hs).
  destruct (Hp x Hx) as [Hv Harr].
  assert (Hfresh : arrays st0 !! newArray st = None).
  { destruct Hext as (_ & _ & Ha & _).
    eapply subseteq_None; [exact Ha | apply fresh_None]. }
  apply bind_Some in Hs as ([s st1] & Hs1 & Hs). injection Hs as <-.
  assert (extends st0 st1 /\ ctxs st1 = ctxs st
          /\ forall a, arr s = Some a -> arrays st0 !! a = None)
    as (Hext1 & Hctx & Hs').
  { destruct (arr (lines x)) as [a|] eqn:Ha.
    - apply bind_Some in Hs1 as (content & Hc & Hs1).
      destruct (_ <? _)%nat; injection Hs1 as <- <-.
      + split; [apply extends_with_array; [apply Harr; reflexivity | assumption]|].
        split; [reflexivity|]. simpl. intros a' [= <-]. apply Harr. reflexivity.
      + split; [apply extends_with_array; assumption|].
        split; [reflexivity|]. simpl. intros a' [= <-]. assumption.
    - injection Hs1 as <- <-.
      split; [apply extends_with_array; assumption|].
      split; [reflexivity|]. simpl. intros a' [= <-]. assumption. }
  split; [apply extends_with_ctx; assumption|].
  split; [assumption|]. intros x'. simpl. rewrite lookup_insert_eq.
  intros [= <-]. simpl. split; assumption.
Qed.

Lemma evalStmt_private (st0 st st' : Store) (c : ref) (stmt : Stmt) (v : Value) :
  extends st0 st -> private st0 st c ->
  evalStmt st c stmt = Some (v, st') -> extends st0 st' /\ private st0 st' c.
Proof.
  intros Hext Hp. destruct stmt as [| |text|expr|name expr]; simpl.
  - intros [= _ <-]; auto.
  - intros [= _ <-]; auto.
  - intros [= _ <-]; auto.
  - intros Hs. apply bind_Some in Hs as (e & _ & Hs). injection Hs as _ <-. auto.
  - unfold evalAssign. intros Hs. apply bind_Some in Hs as (e & _ & Hs).
    destruct (negb _); [|injection Hs as _ <-; auto].
    apply bind_Some in Hs as (st1 & Hs1 & Hs). injection Hs as _ <-.
    eapply SetVariable_private; eassumption.
Qed.

Lemma EvalLine_private (st0 st st' : Store) (c : ref) (line : Line) (v : Value) :
  extends st0 st -> private st0 st c ->
  EvalLine st c line = Some (v, st') -> extends st0 st' /\ private st0 st' c.
Proof.
  unfold EvalLine. intros Hext Hp Hs.
  destruct (LStmt line) as [| |text|e|name e] eqn:Hst;
    [injection Hs as _ <-; auto | | | |].
  all: apply bind_Some in Hs as ([result st1] & He & Hs); cbv beta iota zeta in Hs.
  all: apply bind_Some in Hs as (st2 & Hm & Hs).
  all: apply bind_Some in Hs as (st3 & Ha & Hs).
  all: apply bind_Some in Hs as (st4 & Hpv & Hs).
  all: injection Hs as _ <-.
  all: destruct (evalStmt_private _ _ _ _ _ _ Hext Hp He) as [Hext1 Hp1].
  all: assert (extends st0 st2 /\ private st0 st2 c) as [Hext2 Hp2]
         by (match type of Hm with
             | (if ?b then _ else _) = _ =>
                 destruct b;
                   [eapply MarkLastConsumed_private; eassumption
                   | injection Hm as <-; auto]
             end).
  all: destruct (AddLineResult_private _ _ _ _ _ Hext2 Hp2 Ha) as [Hext3 Hp3].
  all: eapply SetPrevious_private; eassumption.
Qed.

End Refinement.

(** ** The engine: previews *)

(** A call of the presentation layer on an engine, and a sequence of
    calls, of which the answers are observed. *)
Variant Call := CallEval (inp : string) | CallPreview (inp : string).

Section Preview.
Context `{std : GoStd} `{reg : Types.Registry} `{ord : Cache.MapOrder}.
Import Types Ast Evaluation.

Definition call (eng : Engine.Engine) (k : Call) (st : Store)
    : option (Value * Store) :=
  match k with
  | CallEval inp => Engine.Eval_ eng inp st
  | CallPreview inp => Engine.EvalPreview eng inp st
  end.

Fixpoint run (eng : Engine.Engine) (calls : list Call) (st : Store)
    : option (list Value * Store) :=
  match calls with
  | [] => Some ([], st)
  | k :: rest =>
      '(v, st1) ← call eng k st;
      '(vs, st2) ← run eng rest st1;
      Some (v :: vs, st2)
  end.

Definition env_with_rc (e : Env) (r : option Cache.RateCache) : Env :=
  {| vars := vars e; prev := prev e; hist := hist e; isStrict := isStrict e;
     prec := prec e; rc := r |}.

(** What [Eval] answers and leaves in the context, and what [EvalPreview]
    answers, from what the context holds. *)
Definition specEval (e : Env) (inp : string) : option (Value * Env) :=
  let trimmed := strings_TrimSpace inp in
  if String.eqb trimmed "" then Some (Empty, e)
  else if Engine.hasPrefix "#" trimmed || Engine.hasPrefix "//" trimmed
  then Some (Empty, e)
  else
    '(line, errs) ← Parser.ParseLine inp;
    match errs with
    | err :: _ => Some (Error (Parser.Message err), e)
    | [] => Some (envEvalLine e (with_Raw line inp))
    end.

Definition specPreview (e : Env) (cache : Cache.RateCache) (inp : string)
    : option Value :=
  let trimmed := strings_TrimSpace inp in
  if String.eqb trimmed "" then Some Empty
  else
    '(line, errs) ← Parser.ParseLine inp;
    match errs with
    | err :: _ => Some (Error (Parser.Message err))
    | [] => Some (fst (envEvalLine (env_with_rc e (Some cache)) (with_Raw line inp)))
    end.

Lemma Eval_spec (eng : Engine.Engine) (st : Store) (e : Env) (inp : string) :
  load st (Engine.ctx (Engine.evaluator eng)) = Some e ->
  match specEval e inp with
  | Some (v, e') =>
      exists st', Engine.Eval_ eng inp st = Some (v, st')
                  /\ load st' (Engine.ctx (Engine.evaluator eng)) = Some e'
                  /\ caches st' = caches st
  | None => Engine.Eval_ eng inp st = None
  end.
Proof.
  intros Hl. unfold specEval, Engine.Eval_.
  destruct (String.eqb _ ""); [exists st; auto|].
  destruct (_ || _); [exists st; auto|].
  destruct (Parser.ParseLine inp) as [[line errs]|]; simpl; [|reflexivity].
  destruct errs as [|err errs]; [|exists st; auto].
  destruct (EvalLine_load st _ e (with_Raw line inp) Hl) as (st' & Hs & Hl' & Hc).
  destruct (envEvalLine e (with_Raw line inp)) as [v e']. exists st'. auto.
Qed.

Lemma Clone_load (st : Store) (c : ref) (e : Env) :
  load st c = Some e ->
  exists c' st', Clone st c = Some (c', st') /\ load st' c' = Some e.
Proof.
  intros Hl. apply load_Some in Hl as (x & m & h & r & Hx & Hm & Hh & Hr & ->).
  unfold Clone. rewrite Hx. simpl. rewrite Hm. simpl. rewrite Hh. simpl.
  eexists _, _. split; [reflexivity|].
  apply load_Some. eexists _, m, h, r. simpl.
  rewrite lookup_insert_eq. split; [reflexivity|]. simpl.
  rewrite lookup_insert_eq. split; [reflexivity|].
  split; [|split; [exact Hr | reflexivity]].
  apply sliceElems_Some. right. simpl. exists (newArray st), h.
  rewrite lookup_insert_eq. pose proof (sliceElems_length _ _ _ Hh) as Hlen.
  repeat split; [lia|]. rewrite <- Hlen. symmetry. apply firstn_all.
Qed.

Lemma SetRateCacheAdapter_load (st : Store) (c r : ref) (e : Env)
    (cache : Cache.RateCache) :
  load st c = Some e -> caches st !! r = Some cache ->
  exists st', Engine.SetRateCacheAdapter st c r = Some st'
              /\ load st' c = Some (env_with_rc e (Some cache)).
Proof.
  intros Hl Hr. apply load_Some in Hl as (x & m & h & r0 & Hx & Hm & Hh & _ & ->).
  unfold Engine.SetRateCacheAdapter, SetRateCache. rewrite Hx. simpl.
  eexists. split; [reflexivity|].
  apply load_Some. exists (set_rateCache x (Some r)), m, h, (Some cache).
  simpl. rewrite lookup_insert_eq. repeat split; try assumption.
  unfold loadCache. simpl. rewrite Hr. reflexivity.
Qed.

(** [EvalPreview] touches no object of the store it starts from. *)
Lemma EvalPreview_extends (eng : Engine.Engine) (inp : string)
    (st st' : Store) (v : Value) :
  Engine.EvalPreview eng inp st = Some (v, st') -> extends st st'.
Proof.
  unfold Engine.EvalPreview. intros Hs.
  apply bind_Some in Hs as ([c st1] & Hc & Hs). cbv beta iota in Hs.
  apply bind_Some in Hs as (st2 & Hr & Hs).
  destruct (Clone_extends _ _ _ _ Hc) as [Hext1 Hp1].
  destruct (SetRateCache_private _ _ _ _ _ Hext1 Hp1 Hr) as [Hext2 Hp2].
  cbv zeta in Hs.
  destruct (String.eqb _ ""); [injection Hs as _ <-; exact Hext2|].
  apply bind_Some in Hs as ([line errs] & Hp & Hs). cbv beta iota in Hs.
  destruct errs; [|injection Hs as _ <-; exact Hext2].
  eapply EvalLine_private; eassumption.
Qed.

Lemma EvalPreview_spec (eng : Engine.Engine) (st : Store) (e : Env)
    (cache : Cache.RateCache) (inp : string) :
  load st (Engine.ctx (Engine.evaluator eng)) = Some e ->
  caches st !! Engine.rateCache eng = Some cache ->
  match specPreview e cache inp with
  | Some v => exists st', Engine.EvalPreview eng inp st = Some (v, st')
  | None => Engine.EvalPreview eng inp st = None
  end.
Proof.
  intros Hl Hr. unfold specPreview, Engine.EvalPreview.
  destruct (Clone_load st _ e Hl) as (c' & st1 & Hc & Hl1).
  rewrite Hc. cbn [mbind option_bind].
  assert (Hr1 : caches st1 !! Engine.rateCache eng = Some cache).
  { destruct (Clone_extends _ _ _ _ Hc) as [(_ & _ & _ & <-) _]. exact Hr. }
  destruct (SetRateCacheAdapter_load st1 c' _ e cache Hl1 Hr1) as (st2 & Hs2 & Hl2).
  rewrite Hs2. cbn [mbind option_bind]. cbv zeta.
  destruct (String.eqb _ ""); [exists st2; reflexivity|].
  destruct (Parser.ParseLine inp) as [[line errs]|]; simpl; [|reflexivity].
  destruct errs as [|err errs]; [|exists st2; reflexivity].
  destruct (EvalLine_load st2 c' _ (with_Raw line inp) Hl2) as (st' & Hs & _).
  exists st'. exact Hs.
Qed.

(** Two stores in which the context of the engine holds the same and the
    rate cache of the engine is the same answer every sequence of calls
    alike. *)
Lemma run_same (eng : Engine.Engine) (calls : list Call) :
  forall (st1 st2 : Store) (e : Env) (cache : Cache.RateCache),
    load st1 (Engine.ctx (Engine.evaluator eng)) = Some e ->
    load st2 (Engine.ctx (Engine.evaluator eng)) = Some e ->
    caches st1 !! Engine.rateCache eng = Some cache ->
    caches st2 !! Engine.rateCache eng = Some cache ->
    fst <$> run eng calls st1 = fst <$> run eng calls st2.
Proof.
  induction calls as [|k rest IH]; intros st1 st2 e cache Hl1 Hl2 Hr1 Hr2;
    [reflexivity|].
  simpl. destruct k as [inp|inp]; unfold call.
  - pose proof (Eval_spec eng st1 e inp Hl1) as H1.
    pose proof (Eval_spec eng st2 e inp Hl2) as H2.
    destruct (specEval e inp) as [[v e']|].
    + destruct H1 as (st1' & -> & Hl1' & Hc1).
      destruct H2 as (st2' & -> & Hl2' & Hc2).
      cbn [mbind option_bind].
      rewrite <- Hc1 in Hr1. rewrite <- Hc2 in Hr2.
      specialize (IH st1' st2' e' cache Hl1' Hl2' Hr1 Hr2).
      destruct (run eng rest st1') as [[vs1 s1]|],
               (run eng rest st2') as [[vs2 s2]|]; simpl in *; congruence.
    + rewrite H1, H2. reflexivity.
  - pose proof (EvalPreview_spec eng st1 e cache inp Hl1 Hr1) as H1.
    pose proof (EvalPreview_spec eng st2 e cache inp Hl2 Hr2) as H2.
    destruct (specPreview e cache inp) as [v|].
    + destruct H1 as (st1' & Hs1). destruct H2 as (st2' & Hs2).
      rewrite Hs1, Hs2. cbn [mbind option_bind].
      pose proof (EvalPreview_extends _ _ _ _ _ Hs1) as Hx1.
      pose proof (EvalPreview_extends _ _ _ _ _ Hs2) as Hx2.
      assert (Hr1' : caches st1' !! Engine.rateCache eng = Some cache)
        by (destruct Hx1 as (_ & _ & _ & <-); exact Hr1).
      assert (Hr2' : caches st2' !! Engine.rateCache eng = Some cache)
        by (destruct Hx2 as (_ & _ & _ & <-); exact Hr2).
      specialize (IH st1' st2' e cache (load_extends _ _ _ _ Hx1 Hl1)
                    (load_extends _ _ _ _ Hx2 Hl2) Hr1' Hr2').
      destruct (run eng rest st1') as [[vs1 s1]|],
               (run eng rest st2') as [[vs2 s2]|]; simpl in *; congruence.
    + rewrite H1, H2. reflexivity.
Qed.

(** A call of [EvalPreview] that returns leaves every object of the store
    as it was: the context of the session, its variables map and the array
    of its line history are unchanged, so the context holds the same
    variables, previous result and history as before; and every sequence
    of later [Eval] and [EvalPreview] calls on the engine gives the same
    answers as it would have given without the preview. *)
Lemma EvalPreview_frame (eng : Engine.Engine) (inp : string)
    (st st' : Store) (v : Value) :
  Engine.EvalPreview eng inp st = Some (v, st') ->
  extends st st'
  /\ (forall c e, load st c = Some e -> load st' c = Some e)
  /\ (forall e cache calls,
        load st (Engine.ctx (Engine.evaluator eng)) = Some e ->
        caches st !! Engine.rateCache eng = Some cache ->
        fst <$> run eng calls st' = fst <$> run eng calls st).
Proof.
  intros Hs. pose proof (EvalPreview_extends _ _ _ _ _ Hs) as Hext.
  split; [exact Hext|]. split.
  - intros c e. apply load_extends. exact Hext.
  - intros e cache calls Hl Hr. apply (run_same eng calls st' st e cache).
    + eapply load_extends; eassumption.
    + exact Hl.
    + destruct Hext as (_ & _ & _ & <-). exact Hr.
    + exact Hr.
Qed.

End Preview.

(** A store with one context over an empty rate cache, and the engine on
    it. *)
Definition sampleStore : Evaluation.Store :=
  {| Evaluation.ctxs :=
       {[ 1%positive :=
            {| Evaluation.variables := 1%positive;
               Evaluation.rateCache := Some 1%positive;
               Evaluation.previous := Types.Empty;
               Evaluation.lines := Evaluation.nilSlice;
               Evaluation.precision := 2;
               Evaluation.strict := false |} ]};
     Evaluation.maps := {[ 1%positive := ∅ ]};
     Evaluation.arrays := ∅;
     Evaluation.caches := {[ 1%positive := Cache.empty ]} |}.

Definition sampleEngine : Engine.Engine :=
  {| Engine.evaluator := {| Engine.ctx := 1%positive |};
     Engine.rateCache := 1%positive |}.

(** ** The lexer on ASCII input *)

(** *** Strings *)

#[local] Arguments String.append : simpl nomatch.

(** Settles a comparison of integers that is written as a boolean. *)
Ltac zbool_step :=
  first [apply Z.ltb_lt | apply Z.ltb_ge | apply Z.leb_le | apply Z.leb_gt
        | apply Z.eqb_eq | apply Z.eqb_neq]; lia.

Ltac zbool := first [zbool_step | symmetry; zbool_step].

Lemma str_app_nil_r (s : string) : s ++ "" = s.
Proof. induction s as [|c s IH]; simpl; [reflexivity | rewrite IH; reflexivity]. Qed.

Lemma str_app_assoc (a b c : string) : (a ++ b) ++ c = a ++ b ++ c.
Proof. induction a as [|x a IH]; simpl; [reflexivity | rewrite IH; reflexivity]. Qed.

Lemma str_length_app (a b : string) :
  String.length (a ++ b) = (String.length a + String.length b)%nat.
Proof. induction a as [|x a IH]; simpl; [reflexivity | rewrite IH; reflexivity]. Qed.

Lemma strlen_app (a b : string) : strlen (a ++ b) = strlen a + strlen b.
Proof. unfold strlen. rewrite str_length_app. lia. Qed.

Lemma strlen_nonneg (a : string) : 0 <= strlen a.
Proof. unfold strlen. lia. Qed.

Lemma substring_prefix (w rest : string) :
  substring 0 (String.length w) (w ++ rest) = w.
Proof. induction w as [|x w IH]; simpl; [destruct rest; reflexivity | rewrite IH; reflexivity]. Qed.

(** The text [w] stands in [pre ++ w ++ rest] at the offset [length pre]. *)
Lemma substring_mid (pre w rest : string) :
  substring (String.length pre) (String.length w) (pre ++ w ++ rest) = w.
Proof. induction pre as [|x pre IH]; simpl; [apply substring_prefix | exact IH]. Qed.

Lemma get_app_r (pre rest : string) :
  String.get (String.length pre) (pre ++ rest) = String.get 0 rest.
Proof. induction pre as [|x pre IH]; simpl; [reflexivity | exact IH]. Qed.

(** The first byte of a string, 0 when it is empty. *)
Definition headByte (s : string) : Z :=
  match s with
  | EmptyString => 0
  | String c _ => chr c
  end.

Lemma byteAt_app (pre rest : string) :
  byteAt (pre ++ rest) (strlen pre) = headByte rest.
Proof.
  unfold byteAt, strlen.
  destruct (Z.of_nat (String.length pre) <? 0) eqn:E; [apply Z.ltb_lt in E; lia|].
  rewrite Nat2Z.id, get_app_r. destruct rest; reflexivity.
Qed.

Lemma chr_range (c : ascii) : 0 <= chr c < 256.
Proof. unfold chr. pose proof (nat_ascii_bounded c). lia. Qed.

Fixpoint asciiOnly (s : string) : bool :=
  match s with
  | EmptyString => true
  | String c rest => (chr c <? 128) && asciiOnly rest
  end.

Lemma asciiOnly_app (a b : string) :
  asciiOnly (a ++ b) = asciiOnly a && asciiOnly b.
Proof.
  induction a as [|x a IH]; simpl; [reflexivity|].
  rewrite IH, andb_assoc. reflexivity.
Qed.

Lemma headByte_ascii (s : string) : asciiOnly s = true -> 0 <= headByte s < 128.
Proof.
  destruct s as [|c s]; simpl; [lia|]. intros H.
  apply andb_true_iff in H as [H _]. pose proof (chr_range c). lia.
Qed.

Lemma byteStr_chr (c : ascii) : byteStr (chr c) = String c "".
Proof. unfold byteStr, chr. rewrite Nat2Z.id, ascii_nat_embedding. reflexivity. Qed.

Lemma encodeRune_chr (c : ascii) : chr c < 128 -> encodeRune (chr c) = String c "".
Proof.
  intros H. pose proof (chr_range c). unfold encodeRune.
  replace (chr c <? 0) with false by zbool.
  replace (1114111 <? chr c) with false by zbool.
  replace (55296 <=? chr c) with false by zbool.
  simpl. replace (chr c <=? 127) with true by zbool. apply byteStr_chr.
Qed.

Lemma chr_inj (a b : ascii) : chr a = chr b -> a = b.
Proof.
  unfold chr. intros H. apply Nat2Z.inj in H.
  rewrite <- (ascii_nat_embedding a), <- (ascii_nat_embedding b), H. reflexivity.
Qed.

(** Every byte of [w] passes [test]. *)
Fixpoint allBytes (test : Z -> bool) (w : string) : bool :=
  match w with
  | EmptyString => true
  | String c rest => test (chr c) && allBytes test rest
  end.

Lemma allBytes_app (test : Z -> bool) (a b : string) :
  allBytes test (a ++ b) = allBytes test a && allBytes test b.
Proof.
  induction a as [|x a IH]; simpl; [reflexivity|].
  rewrite IH, andb_assoc. reflexivity.
Qed.

(** The current byte is the character [c]: it heads the text ahead. *)
Lemma headByte_is (rest : string) (c : ascii) :
  headByte rest = chr c -> chr c <> 0 -> exists r, rest = String c r.
Proof.
  destruct rest as [|c' r]; simpl; intros H Hn; [congruence|].
  apply chr_inj in H. subst c'. exists r. reflexivity.
Qed.

Lemma headByte_nonzero (rest : string) :
  headByte rest <> 0 -> exists c r, rest = String c r.
Proof. destruct rest as [|c r]; simpl; intros H; [congruence | eauto]. Qed.

(** *** The literal against the text

    A number leaves out the commas of its text, a multi-word identifier
    joins its words with single spaces; every other literal is its text. *)

Fixpoint squeeze (s : string) : string :=
  match s with
  | EmptyString => EmptyString
  | String c r =>
      if Lexer.isSpace (chr c) then
        match r with
        | EmptyString => " "
        | String c' _ =>
            if Lexer.isSpace (chr c') then squeeze r else String " " (squeeze r)
        end
      else String c (squeeze r)
  end.

Definition normalize (t : Token.Type_) (src : string) : string :=
  match t with
  | Token.NUMBER | Token.PERCENT => Parser.removeCommas src
  | Token.IDENTIFIER => squeeze src
  | _ => src
  end.

(** The token's literal is the text of the input at the token's offset,
    up to [normalize]. *)
Definition tokenOK (inp : string) (tok : Token.Token) : Prop :=
  exists src,
    0 <= Token.Pos tok
    /\ substring (Z.to_nat (Token.Pos tok)) (String.length src) inp = src
    /\ Token.Literal tok = normalize (Token.Typ tok) src.

Definition notSpace (c : Z) : bool := negb (Lexer.isSpace c).

Fixpoint lastNotSpace (s : string) : bool :=
  match s with
  | EmptyString => false
  | String c EmptyString => notSpace (chr c)
  | String _ r => lastNotSpace r
  end.

Lemma squeeze_word (w : string) : allBytes notSpace w = true -> squeeze w = w.
Proof.
  induction w as [|c w IH]; simpl; [reflexivity|]. unfold notSpace at 1.
  intros [Hc Hw]%andb_true_iff. apply negb_true_iff in Hc. rewrite Hc, IH by exact Hw.
  reflexivity.
Qed.

Lemma squeeze_app (a b : string) :
  lastNotSpace a = true -> squeeze (a ++ b) = squeeze a ++ squeeze b.
Proof.
  induction a as [|c a IH]; [discriminate|]. intros H.
  destruct a as [|c' a'].
  - simpl in H. unfold notSpace in H. apply negb_true_iff in H.
    simpl. rewrite H. reflexivity.
  - assert (Ha : lastNotSpace (String c' a') = true) by exact H.
    specialize (IH Ha).
    change (String c (String c' a') ++ b) with (String c (String c' a' ++ b)).
    change (squeeze (String c (String c' a' ++ b)))
      with (if Lexer.isSpace (chr c)
            then if Lexer.isSpace (chr c') then squeeze (String c' a' ++ b)
                 else String " " (squeeze (String c' a' ++ b))
            else String c (squeeze (String c' a' ++ b))).
    change (squeeze (String c (String c' a')))
      with (if Lexer.isSpace (chr c)
            then if Lexer.isSpace (chr c') then squeeze (String c' a')
                 else String " " (squeeze (String c' a'))
            else String c (squeeze (String c' a'))).
    rewrite IH.
    destruct (Lexer.isSpace (chr c)), (Lexer.isSpace (chr c')); reflexivity.
Qed.

Lemma squeeze_spaces (ws b : string) :
  allBytes Lexer.isSpace ws = true -> ws <> "" -> b <> ""
  -> Lexer.isSpace (headByte b) = false
  -> squeeze (ws ++ b) = String " " (squeeze b).
Proof.
  induction ws as [|c ws IH]; [congruence|].
  intros [Hc Hws]%andb_true_iff _ Hb Hh.
  destruct ws as [|c' ws'].
  - destruct b as [|x b]; [congruence|]. simpl in Hh.
    change (squeeze (String c "" ++ String x b))
      with (if Lexer.isSpace (chr c)
            then if Lexer.isSpace (chr x) then squeeze (String x b)
                 else String " " (squeeze (String x b))
            else String c (squeeze (String x b))).
    rewrite Hc, Hh. reflexivity.
  - assert (Hc' : Lexer.isSpace (chr c') = true).
    { simpl in Hws. apply andb_true_iff in Hws. tauto. }
    change (squeeze (String c (String c' ws') ++ b))
      with (if Lexer.isSpace (chr c)
            then if Lexer.isSpace (chr c') then squeeze (String c' ws' ++ b)
                 else String " " (squeeze (String c' ws' ++ b))
            else String c (squeeze (String c' ws' ++ b))).
    rewrite Hc, Hc'. apply IH; [exact Hws | discriminate | exact Hb | exact Hh].
Qed.

Lemma squeeze_nonempty (s : string) : s <> "" -> squeeze s <> "".
Proof.
  induction s as [|c s IH]; [congruence|]. intros _. simpl.
  destruct (Lexer.isSpace (chr c)); [|discriminate].
  destruct s as [|c' s']; [discriminate|].
  destruct (Lexer.isSpace (chr c')); [apply IH|]; discriminate.
Qed.

Lemma lastNotSpace_app (a w : string) :
  allBytes notSpace w = true -> w <> "" -> lastNotSpace (a ++ w) = true.
Proof.
  intros Hw Hn. induction a as [|c a IH].
  - simpl. revert Hw Hn. clear.
    induction w as [|c w IH]; [congruence|]. intros [Hc Hw]%andb_true_iff _.
    destruct w as [|c' w']; [exact Hc|]. apply IH; [exact Hw | discriminate].
  - simpl. destruct (a ++ w) eqn:E; [|exact IH].
    destruct a; [|discriminate]. simpl in E. congruence.
Qed.

Lemma allBytes_impl (p q : Z -> bool) (w : string) :
  (forall c, p c = true -> q c = true) -> allBytes p w = true -> allBytes q w = true.
Proof.
  intros Hpq. induction w as [|c w IH]; simpl; [reflexivity|].
  intros [Hc Hw]%andb_true_iff. rewrite (Hpq _ Hc), IH by exact Hw. reflexivity.
Qed.

Lemma removeCommas_app (a b : string) :
  Parser.removeCommas (a ++ b) = Parser.removeCommas a ++ Parser.removeCommas b.
Proof.
  induction a as [|c a IH]; simpl; [reflexivity|].
  destruct (Ascii.eqb c ","); rewrite IH; reflexivity.
Qed.

Definition notComma (c : Z) : bool := negb (c =? chr ",").

Lemma removeCommas_none (w : string) :
  allBytes notComma w = true -> Parser.removeCommas w = w.
Proof.
  induction w as [|c w IH]; simpl; [reflexivity|].
  intros [Hc Hw]%andb_true_iff. rewrite IH by exact Hw.
  destruct (Ascii.eqb c ",") eqn:E; [|reflexivity].
  apply Ascii.eqb_eq in E. subst c. discriminate.
Qed.

Lemma str_app_nonempty (a b : string) : a <> "" -> a ++ b <> "".
Proof. destruct a; [congruence | discriminate]. Qed.

Lemma str_app_nonempty_r (a b : string) : b <> "" -> a ++ b <> "".
Proof. destruct a; [simpl; auto | discriminate]. Qed.

(** Rewrites the loop of the goal with its result [H]. *)
Ltac loop_is H :=
  match type of H with
  | _ = ?r =>
      match goal with
      | |- context [@loop ?S ?f ?c ?b ?s] =>
          replace (@loop S f c b s) with r by (symmetry; exact H)
      end
  end.

(** *** The position of the lexer

    On ASCII input the lexer stands between a text read, [pre], and a text
    to read, [rest]: [pos] is the length of [pre], [ch] the first byte of
    [rest]. *)

Section LexerTheory.
Import Token Lexer.
Variable inp : string.
Hypothesis inp_ascii : asciiOnly inp = true.

Definition At (pre rest : string) (l : Lexer) : Prop :=
  inp = pre ++ rest /\ input l = inp /\ pos l = strlen pre
  /\ readPos l = strlen pre + 1 /\ ch l = headByte rest.

Lemma At_rest_ascii (pre rest : string) (l : Lexer) :
  At pre rest l -> asciiOnly rest = true.
Proof.
  intros (E & _). pose proof inp_ascii as H. rewrite E, asciiOnly_app in H.
  apply andb_true_iff in H. tauto.
Qed.

Lemma At_ch_range (pre rest : string) (l : Lexer) :
  At pre rest l -> 0 <= ch l < 128.
Proof.
  intros H. pose proof (At_rest_ascii _ _ _ H) as Ha.
  destruct H as (_ & _ & _ & _ & ->). apply headByte_ascii. exact Ha.
Qed.

Lemma At_fuel (pre rest : string) (l : Lexer) :
  At pre rest l -> (String.length rest <= fuelOf l)%nat.
Proof.
  intros (E & Hi & _). unfold fuelOf. rewrite Hi, E, str_length_app. lia.
Qed.

Lemma readChar_At (pre : string) (c : ascii) (rest : string) (l : Lexer) :
  At pre (String c rest) l -> At (pre ++ String c "") rest (readChar l).
Proof.
  intros H. pose proof (At_rest_ascii _ _ _ H) as Ha.
  destruct H as (E & Hi & Hp & Hr & Hc).
  assert (E' : inp = (pre ++ String c "") ++ rest)
    by (rewrite str_app_assoc; exact E).
  assert (Hlen : strlen (pre ++ String c "") = strlen pre + 1)
    by (rewrite strlen_app; reflexivity).
  assert (Hb : byteAt inp (strlen pre + 1) = headByte rest).
  { rewrite <- Hlen. rewrite E' at 1. apply byteAt_app. }
  assert (Hh : 0 <= headByte rest < 128).
  { apply headByte_ascii. simpl in Ha. apply andb_true_iff in Ha. tauto. }
  unfold At, readChar. rewrite Hi, Hr, Hb.
  destruct (strlen inp <=? strlen pre + 1) eqn:Hle.
  - (* the byte read was the last *)
    assert (rest = "").
    { destruct rest as [|c' rest']; [reflexivity|]. exfalso.
      apply Z.leb_le in Hle. rewrite E in Hle.
      rewrite strlen_app in Hle. unfold strlen in Hle. simpl in Hle. lia. }
    subst rest. simpl. rewrite Hlen. auto.
  - replace (128 <=? headByte rest) with false by zbool.
    simpl. rewrite Hlen. auto.
Qed.

Lemma peekChar_At (pre : string) (c : ascii) (rest : string) (l : Lexer) :
  At pre (String c rest) l -> peekChar l = headByte rest.
Proof.
  intros H. pose proof (At_rest_ascii _ _ _ H) as Ha.
  destruct H as (E & Hi & Hp & Hr & Hc).
  assert (E' : inp = (pre ++ String c "") ++ rest)
    by (rewrite str_app_assoc; exact E).
  assert (Hlen : strlen (pre ++ String c "") = strlen pre + 1)
    by (rewrite strlen_app; reflexivity).
  assert (Hb : byteAt inp (strlen pre + 1) = headByte rest).
  { rewrite <- Hlen. rewrite E' at 1. apply byteAt_app. }
  assert (Hh : 0 <= headByte rest < 128).
  { apply headByte_ascii. simpl in Ha. apply andb_true_iff in Ha. tauto. }
  unfold peekChar. rewrite Hi, Hr, Hb.
  destruct (strlen inp <=? strlen pre + 1) eqn:Hle.
  - assert (rest = "").
    { destruct rest as [|c' rest']; [reflexivity|]. exfalso.
      apply Z.leb_le in Hle. rewrite E in Hle.
      rewrite strlen_app in Hle. unfold strlen in Hle. simpl in Hle. lia. }
    subst rest. reflexivity.
  - replace (128 <=? headByte rest) with false by zbool. reflexivity.
Qed.

Lemma New_At : At "" inp (New inp).
Proof.
  pose proof inp_ascii as Ha.
  unfold At, New, readChar. simpl.
  assert (Hb : byteAt inp 0 = headByte inp) by (apply (byteAt_app "" inp)).
  assert (Hh : 0 <= headByte inp < 128) by (apply headByte_ascii; exact Ha).
  rewrite Hb. destruct (strlen inp <=? 0) eqn:Hle.
  - assert (inp = "").
    { destruct inp as [|c' rest']; [reflexivity|]. exfalso.
      apply Z.leb_le in Hle. unfold strlen in Hle. simpl in Hle. lia. }
    rewrite H. simpl. auto.
  - replace (128 <=? headByte inp) with false by zbool. simpl.
    unfold strlen. simpl. auto.
Qed.

(** Writing the current byte and reading on moves it from [rest] to the
    builder. *)
Lemma writeRune_At (pre : string) (c : ascii) (rest sb : string) (l : Lexer) :
  At pre (String c rest) l ->
  At (pre ++ String c "") rest (fst (writeRune (l, sb)))
  /\ snd (writeRune (l, sb)) = sb ++ String c "".
Proof.
  intros H. split; [apply readChar_At; exact H|].
  unfold writeRune. simpl.
  pose proof (At_rest_ascii _ _ _ H) as Ha. simpl in Ha.
  apply andb_true_iff in Ha as [Ha _]. apply Z.ltb_lt in Ha.
  destruct H as (_ & _ & _ & _ & ->). simpl. rewrite encodeRune_chr by exact Ha.
  reflexivity.
Qed.

(** A loop that writes and reads on while [test] holds of the current
    byte moves the longest prefix of [rest] that passes [test] to the
    builder; its fuel suffices. *)
Lemma readWhile (test : Z -> bool) :
  test 0 = false ->
  forall (fuel : nat) (rest pre sb : string) (l : Lexer),
    At pre rest l -> (String.length rest <= fuel)%nat ->
    exists w rest' l',
      rest = w ++ rest'
      /\ loop fuel (fun st : Reader => test (ch (fst st)))
           (fun st => inr (writeRune st)) (l, sb) = Some (l', sb ++ w)
      /\ At (pre ++ w) rest' l'
      /\ test (headByte rest') = false
      /\ allBytes test w = true.
Proof.
  intros Ht0. induction fuel as [|fuel IH]; intros rest pre sb l HA Hf.
  - destruct rest; [|simpl in Hf; lia].
    exists "", "", l. simpl.
    destruct HA as (E & Hi & Hp & Hr & Hc). simpl in Hc. rewrite Hc, Ht0.
    rewrite !str_app_nil_r. repeat split; auto.
  - simpl. destruct (test (ch l)) eqn:Hc.
    + destruct rest as [|c rest].
      { destruct HA as (_ & _ & _ & _ & Hch). simpl in Hch. congruence. }
      destruct (writeRune_At pre c rest sb l HA) as [HA' Hsb].
      destruct (writeRune (l, sb)) as [l1 sb1] eqn:Hw. simpl in HA', Hsb.
      subst sb1.
      destruct (IH rest (pre ++ String c "") (sb ++ String c "") l1 HA')
        as (w & rest' & l' & -> & Hloop & HA'' & Hstop & Hall).
      { simpl in Hf. lia. }
      exists (String c w), rest', l'. split; [reflexivity|].
      rewrite Hloop. rewrite !str_app_assoc in *. simpl in *.
      split; [reflexivity|]. split; [exact HA''|]. split; [exact Hstop|].
      destruct HA as (_ & _ & _ & _ & Hch). simpl in Hch. rewrite <- Hch, Hc.
      exact Hall.
    + exists "", rest, l. rewrite !str_app_nil_r. simpl.
      destruct HA as (E & Hi & Hp & Hr & Hch). rewrite <- Hch, Hc.
      repeat split; auto.
Qed.

Lemma skipWhitespace_At (pre rest : string) (l : Lexer) :
  At pre rest l ->
  exists ws rest' l',
    rest = ws ++ rest'
    /\ skipWhitespace l = Some l'
    /\ At (pre ++ ws) rest' l'
    /\ isSpace (headByte rest') = false
    /\ allBytes isSpace ws = true.
Proof.
  intros HA. unfold skipWhitespace. pose proof (At_fuel _ _ _ HA) as Hf.
  revert Hf. generalize (fuelOf l) as fuel. intros fuel. revert rest pre l HA.
  induction fuel as [|fuel IH]; intros rest pre l HA Hf.
  - destruct rest; [|simpl in Hf; lia].
    exists "", "", l. simpl.
    destruct HA as (E & Hi & Hp & Hr & Hc). simpl in Hc. rewrite Hc.
    rewrite !str_app_nil_r. repeat split; auto.
  - simpl. destruct (isSpace (ch l)) eqn:Hc.
    + destruct rest as [|c rest].
      { destruct HA as (_ & _ & _ & _ & Hch). simpl in Hch.
        rewrite Hch in Hc. discriminate. }
      pose proof (readChar_At pre c rest l HA) as HA'.
      destruct (IH rest (pre ++ String c "") (readChar l) HA')
        as (ws & rest' & l' & -> & Hloop & HA'' & Hstop & Hall).
      { simpl in Hf. lia. }
      exists (String c ws), rest', l'. split; [reflexivity|].
      rewrite Hloop. rewrite !str_app_assoc in *. simpl in *.
      split; [reflexivity|]. split; [exact HA''|]. split; [exact Hstop|].
      destruct HA as (_ & _ & _ & _ & Hch). simpl in Hch. rewrite <- Hch, Hc.
      exact Hall.
    + exists "", rest, l. rewrite !str_app_nil_r. simpl.
      destruct HA as (E & Hi & Hp & Hr & Hch). rewrite <- Hch, Hc.
      repeat split; auto.
Qed.


Lemma loop_stop {S : Type} (fuel : nat) (cond : S -> bool) (body : S -> S + S)
    (s : S) :
  cond s = false -> loop fuel cond body s = Some s.
Proof. intros H. destruct fuel; simpl; rewrite H; reflexivity. Qed.

Lemma At_input (pre rest : string) (l : Lexer) : At pre rest l -> input l = inp.
Proof. intros H. apply H. Qed.

Lemma At_fuelOf (pre rest : string) (l : Lexer) :
  At pre rest l -> fuelOf l = String.length inp.
Proof. intros H. unfold fuelOf. rewrite (At_input _ _ _ H). reflexivity. Qed.

Lemma At_ch (pre rest : string) (l : Lexer) : At pre rest l -> ch l = headByte rest.
Proof. intros H. apply H. Qed.

Lemma At_pos (pre rest : string) (l : Lexer) : At pre rest l -> pos l = strlen pre.
Proof. intros H. apply H. Qed.

(** Two positions of the same prefix have the same text ahead. *)
Lemma At_app_inv (pre w rest rest' : string) (l l' : Lexer) :
  At pre rest l -> At (pre ++ w) rest' l' -> rest = w ++ rest'.
Proof.
  intros (E & _) (E' & _). rewrite E, str_app_assoc in E'.
  revert E'. clear. induction pre as [|c pre IH]; simpl; intros E.
  - exact E.
  - injection E as E. apply IH. exact E.
Qed.


(** *** Numbers *)

Context `{std : GoStd} `{reg : Types.Registry}.

(** The token [tok] begins after [pre]: its literal is the text [src] read
    from there, up to [normalize], and the lexer is left behind [src] and
    some [trail] read on. *)
Definition Lexed (pre : string) (tok : Token) (l' : Lexer) : Prop :=
  exists src trail rest',
    At (pre ++ src ++ trail) rest' l'
    /\ Pos tok = strlen pre
    /\ Literal tok = normalize (Typ tok) src
    /\ src <> "".

(** A reader in the middle of a number that began after [pre]: it has read
    [src] and built [src] without its commas. *)
Definition Mid (pre src rest : string) (st : Reader) : Prop :=
  At (pre ++ src) rest (fst st) /\ snd st = Parser.removeCommas src.

Lemma Mid_start (pre rest : string) (l : Lexer) :
  At pre rest l -> Mid pre "" rest (l, "").
Proof. intros H. split; simpl; [rewrite str_app_nil_r; exact H | reflexivity]. Qed.

Lemma Mid_write (pre src : string) (c : ascii) (rest : string) (st : Reader) :
  Mid pre src (String c rest) st -> c <> ","%char
  -> Mid pre (src ++ String c "") rest (writeRune st).
Proof.
  intros [HA Hsb] Hc. destruct st as [l sb]. simpl in HA, Hsb.
  destruct (writeRune_At (pre ++ src) c rest sb l HA) as [HA' Hsb'].
  split.
  - rewrite <- str_app_assoc. exact HA'.
  - rewrite Hsb', Hsb, removeCommas_app. simpl.
    destruct (Ascii.eqb c ",") eqn:E; [apply Ascii.eqb_eq in E; congruence|].
    reflexivity.
Qed.

Lemma Mid_write_ch (pre src rest : string) (st : Reader) (c : ascii) :
  Mid pre src rest st -> (ch (fst st) =? chr c) = true
  -> chr c <> 0 -> c <> ","%char
  -> exists r, rest = String c r /\ Mid pre (src ++ String c "") r (writeRune st).
Proof.
  intros HM Hc Hn Hcomma. apply Z.eqb_eq in Hc.
  rewrite (At_ch _ _ _ (proj1 HM)) in Hc.
  destruct (headByte_is rest c Hc Hn) as [r ->].
  exists r. split; [reflexivity | apply Mid_write; assumption].
Qed.

Lemma Mid_while (test : Z -> bool) (pre src rest : string) (st : Reader) :
  test 0 = false -> (forall c, test c = true -> notComma c = true)
  -> Mid pre src rest st
  -> exists w rest' st',
       loop (fuelOf (fst st)) (fun st : Reader => test (ch (fst st)))
         (fun st => inr (writeRune st)) st = Some st'
       /\ Mid pre (src ++ w) rest' st'.
Proof.
  intros Ht0 Hnc [HA Hsb]. destruct st as [l sb]. simpl in HA, Hsb.
  destruct (readWhile test Ht0 (fuelOf l) rest (pre ++ src) sb l HA
              (At_fuel _ _ _ HA))
    as (w & rest' & l' & -> & Hloop & HA' & _ & Hall).
  exists w, rest', (l', sb ++ w). split; [exact Hloop|]. split; simpl.
  - rewrite <- str_app_assoc. exact HA'.
  - rewrite removeCommas_app, Hsb. f_equal. symmetry. apply removeCommas_none.
    exact (allBytes_impl _ _ _ Hnc Hall).
Qed.

Lemma isDigit_notComma (c : Z) : isDigit c = true -> notComma c = true.
Proof.
  unfold isDigit, notComma. intros [H1 H2]%andb_true_iff.
  apply Z.leb_le in H1, H2. apply negb_true_iff. change (chr "0") with 48 in H1.
  change (chr "9") with 57 in H2. change (chr ",") with 44. zbool.
Qed.

Lemma readDigits_Mid (pre src rest : string) (st : Reader) :
  Mid pre src rest st
  -> exists w rest' st', readDigits st = Some st' /\ Mid pre (src ++ w) rest' st'.
Proof. apply (Mid_while isDigit); [reflexivity | exact isDigit_notComma]. Qed.

(** The integer part: the literal leaves out the commas read. *)
Lemma readIntPart_Mid (pre : string) (fuel : nat) :
  forall (src rest : string) (st : Reader) (flag : bool),
    Mid pre src rest st -> (String.length rest <= fuel)%nat
    -> exists w rest' st' flag',
         loop fuel
           (fun st : Reader * bool =>
              isDigit (ch (fst (fst st))) || (ch (fst (fst st)) =? chr ","))
           (fun st =>
              let l := fst (fst st) in
              if ch l =? chr "," then
                if negb (isDigit (peekChar l)) then inl st
                else inr ((readChar l, snd (fst st)), snd st)
              else inr (writeRune (fst st), true))
           (st, flag) = Some (st', flag')
         /\ Mid pre (src ++ w) rest' st'
         /\ isDigit (headByte rest') = false
         /\ (flag = true -> flag' = true)
         /\ (isDigit (headByte rest) = true -> flag' = true /\ w <> "").
Proof.
  induction fuel as [|fuel IH]; intros src rest st flag HM Hf.
  - destruct rest; [|simpl in Hf; lia].
    exists "", "", st, flag. rewrite str_app_nil_r.
    rewrite loop_stop.
    + split; [reflexivity|]. split; [exact HM|]. split; [reflexivity|].
      split; [auto|]. simpl. discriminate.
    + simpl. rewrite (At_ch _ _ _ (proj1 HM)). reflexivity.
  - simpl loop. cbv beta. simpl fst. simpl snd.
    pose proof (At_ch _ _ _ (proj1 HM)) as Hch.
    destruct (isDigit (ch (fst st)) || (ch (fst st) =? chr ",")) eqn:Hcond.
    + destruct (ch (fst st) =? chr ",") eqn:Hcomma.
      * (* a comma *)
        assert (Hnd : isDigit (headByte rest) = false).
        { apply Z.eqb_eq in Hcomma. rewrite <- Hch, Hcomma. reflexivity. }
        destruct (negb (isDigit (peekChar (fst st)))) eqn:Hpeek.
        -- exists "", rest, st, flag. rewrite str_app_nil_r.
           split; [reflexivity|]. split; [exact HM|]. split; [exact Hnd|].
           split; [auto|]. congruence.
        -- apply Z.eqb_eq in Hcomma. rewrite Hch in Hcomma.
           destruct (headByte_is rest "," Hcomma) as [r ->]; [discriminate|].
           destruct HM as [HA Hsb].
           assert (HM' : Mid pre (src ++ ",") r (readChar (fst st), snd st)).
           { split; simpl.
             - rewrite <- str_app_assoc. apply readChar_At. exact HA.
             - rewrite removeCommas_app. simpl. rewrite str_app_nil_r. exact Hsb. }
           destruct (IH _ _ _ flag HM') as (w & rest' & st' & flag' & Hl & HM'' & Hd & Hfl & _).
           { simpl in Hf. lia. }
           exists ("," ++ w), rest', st', flag'. split; [exact Hl|].
           rewrite str_app_assoc in HM''.
           split; [exact HM''|]. split; [exact Hd|]. split; [exact Hfl|].
           simpl. congruence.
      * (* a digit *)
        rewrite orb_false_r in Hcond.
        assert (Hnz : headByte rest <> 0).
        { rewrite <- Hch. intros E. rewrite E in Hcond. discriminate. }
        destruct (headByte_nonzero rest Hnz) as (c & r & ->).
        assert (Hc : c <> ","%char).
        { intros ->. simpl in Hch. rewrite Hch in Hcomma. discriminate. }
        pose proof (Mid_write pre src c r st HM Hc) as HM'.
        destruct (IH _ _ _ true HM') as (w & rest' & st' & flag' & Hl & HM'' & Hd & Hfl & _).
        { simpl in Hf. lia. }
        exists (String c w), rest', st', flag'. split; [exact Hl|].
        rewrite str_app_assoc in HM''.
        split; [exact HM''|]. split; [exact Hd|].
        split; [intros _; apply Hfl; reflexivity|].
        intros _. split; [apply Hfl; reflexivity | discriminate].
    + exists "", rest, st, flag. rewrite str_app_nil_r.
      apply orb_false_iff in Hcond as [Hd _]. rewrite Hch in Hd.
      split; [reflexivity|]. split; [exact HM|]. split; [exact Hd|].
      split; [auto|]. congruence.
Qed.

(** The decimal part of [readNumber]. *)
Definition readFraction (st2 : Reader) (hasDigits : bool) : option Reader :=
  if (ch (fst st2) =? chr ".") && isDigit (peekChar (fst st2))
  then readDigits (writeRune st2)
  else if (ch (fst st2) =? chr ".") && negb hasDigits
  then readDigits (writeRune (fst st2, snd st2 ++ "0"))
  else Some st2.

(** The exponent of [readNumber]. *)
Definition readExponent (st3 : Reader) : option Reader :=
  if (ch (fst st3) =? chr "e") || (ch (fst st3) =? chr "E")
  then
    let st := writeRune st3 in
    let st' :=
      if (ch (fst st) =? chr "+") || (ch (fst st) =? chr "-")
      then writeRune st else st in
    readDigits st'
  else Some st3.

(** The end of [readNumber]: a percent sign that follows is folded in. *)
Definition numberToken (st4 : Reader) (startPos : Z) : Token * Lexer :=
  if ch (fst st4) =? chr "%"
  then (Token.New PERCENT (snd st4 ++ "%") startPos, readChar (fst st4))
  else (Token.New NUMBER (snd st4) startPos, fst st4).

Lemma readNumber_eq (l : Lexer) (startPos : Z) :
  readNumber l startPos =
    (let st0 : Reader := (l, "") in
     let st1 := if ch l =? chr "-" then writeRune st0 else st0 in
     '(st2, hasDigits) ← readIntPart (st1, false);
     st3 ← readFraction st2 hasDigits;
     st4 ← readExponent st3;
     Some (numberToken st4 startPos)).
Proof.
  unfold readNumber. cbv zeta.
  apply option_bind_ext; [|reflexivity]. intros [st2 h].
  apply option_bind_ext; [|reflexivity]. intros st3.
  apply option_bind_ext; [|reflexivity]. intros st4.
  unfold numberToken. destruct (ch (fst st4) =? chr "%"); reflexivity.
Qed.

Lemma readFraction_Mid (pre src rest : string) (st2 : Reader) (h : bool) :
  Mid pre src rest st2
  -> (h = true \/ ((ch (fst st2) =? chr ".") && isDigit (peekChar (fst st2))) = true)
  -> exists w rest' st3,
       readFraction st2 h = Some st3 /\ Mid pre (src ++ w) rest' st3
       /\ (h = false -> w <> "").
Proof.
  intros HM Hh. unfold readFraction.
  destruct ((ch (fst st2) =? chr ".") && isDigit (peekChar (fst st2))) eqn:E.
  - apply andb_true_iff in E as [Hdot _].
    destruct (Mid_write_ch pre src rest st2 "." HM Hdot) as (r & -> & HM');
      [discriminate.. |].
    destruct (readDigits_Mid _ _ _ _ HM') as (w & rest' & st3 & Hr & HM'').
    exists ("." ++ w), rest', st3. rewrite str_app_assoc in HM''.
    split; [exact Hr|]. split; [exact HM''|]. discriminate.
  - destruct Hh as [-> | ?]; [|discriminate].
    rewrite andb_false_r. exists "", rest, st2. rewrite str_app_nil_r.
    split; [reflexivity|]. split; [exact HM|]. discriminate.
Qed.

Lemma readExponent_Mid (pre src rest : string) (st3 : Reader) :
  Mid pre src rest st3
  -> exists w rest' st4, readExponent st3 = Some st4 /\ Mid pre (src ++ w) rest' st4.
Proof.
  intros HM. unfold readExponent.
  destruct ((ch (fst st3) =? chr "e") || (ch (fst st3) =? chr "E")) eqn:E.
  - assert (He : exists c r, rest = String c r
                 /\ Mid pre (src ++ String c "") r (writeRune st3)).
    { apply orb_true_iff in E as [E | E].
      - destruct (Mid_write_ch pre src rest st3 "e" HM E) as (r & -> & HM');
          [discriminate.. | eauto].
      - destruct (Mid_write_ch pre src rest st3 "E" HM E) as (r & -> & HM');
          [discriminate.. | eauto]. }
    destruct He as (c & r & -> & HM'). cbv zeta.
    destruct ((ch (fst (writeRune st3)) =? chr "+")
              || (ch (fst (writeRune st3)) =? chr "-")) eqn:Es.
    + assert (Hs : exists c' r', r = String c' r'
                   /\ Mid pre ((src ++ String c "") ++ String c' "") r'
                        (writeRune (writeRune st3))).
      { apply orb_true_iff in Es as [Es | Es].
        - destruct (Mid_write_ch _ _ _ _ "+" HM' Es) as (r' & -> & HM'');
            [discriminate.. | eauto].
        - destruct (Mid_write_ch _ _ _ _ "-" HM' Es) as (r' & -> & HM'');
            [discriminate.. | eauto]. }
      destruct Hs as (c' & r' & -> & HM'').
      destruct (readDigits_Mid _ _ _ _ HM'') as (w & rest' & st4 & Hr & HM3).
      exists (String c (String c' w)), rest', st4. split; [exact Hr|].
      rewrite !str_app_assoc in HM3. exact HM3.
    + destruct (readDigits_Mid _ _ _ _ HM') as (w & rest' & st4 & Hr & HM3).
      exists (String c w), rest', st4. split; [exact Hr|].
      rewrite !str_app_assoc in HM3. exact HM3.
  - exists "", rest, st3. rewrite str_app_nil_r. auto.
Qed.

Lemma numberToken_Lexed (pre src rest : string) (st4 : Reader) :
  Mid pre src rest st4 -> src <> ""
  -> Lexed pre (fst (numberToken st4 (strlen pre))) (snd (numberToken st4 (strlen pre))).
Proof.
  intros HM Hne. unfold numberToken.
  destruct (ch (fst st4) =? chr "%") eqn:E.
  - destruct (Mid_write_ch pre src rest st4 "%" HM E) as (r & -> & HM');
      [discriminate.. |].
    destruct HM' as [HA' Hsb']. simpl in HA'.
    exists (src ++ "%"), "", r. simpl. rewrite str_app_nil_r.
    split; [exact HA'|]. split; [reflexivity|]. split.
    + rewrite removeCommas_app, (proj2 HM). reflexivity.
    + apply str_app_nonempty. exact Hne.
  - exists src, "", rest. simpl. rewrite str_app_nil_r.
    split; [apply HM|]. split; [reflexivity|]. split; [apply HM | exact Hne].
Qed.

Lemma readNumber_Lexed (pre rest : string) (l : Lexer) :
  At pre rest l
  -> isDigit (ch l) = true
     \/ ((ch l =? chr ".") = true /\ isDigit (peekChar l) = true)
     \/ ((ch l =? chr "-") = true /\ isDigit (peekChar l) = true)
  -> exists tok l', readNumber l (strlen pre) = Some (tok, l') /\ Lexed pre tok l'.
Proof.
  intros HA Hstart. rewrite readNumber_eq. cbv zeta.
  assert (H2 : exists src2 rest2 st2 h,
             readIntPart (if ch l =? chr "-" then writeRune (l, "") else (l, ""), false)
               = Some (st2, h)
             /\ Mid pre src2 rest2 st2
             /\ ((h = true /\ src2 <> "")
                 \/ (h = false
                     /\ ((ch (fst st2) =? chr ".") && isDigit (peekChar (fst st2))) = true))).
  { pose proof (Mid_start _ _ _ HA) as HM0.
    destruct Hstart as [Hd | [[Hdot Hpk] | [Hminus Hpk]]].
    - (* a digit first *)
      assert (Hm : (ch l =? chr "-") = false).
      { unfold isDigit in Hd. apply andb_true_iff in Hd as [H1 H2].
        apply Z.leb_le in H1, H2. change (chr "0") with 48 in H1.
        change (chr "-") with 45. zbool. }
      rewrite Hm. unfold readIntPart. simpl fst.
      destruct (readIntPart_Mid pre (fuelOf l) "" rest (l, "") false HM0
                  (At_fuel _ _ _ HA))
        as (w & rest' & st' & flag' & Hl & HM' & _ & _ & Hfl).
      rewrite <- (At_ch _ _ _ HA) in Hfl. destruct (Hfl Hd) as [-> Hw].
      exists w, rest', st', true. simpl in HM'. auto.
    - (* a dot first *)
      assert (Hm : (ch l =? chr "-") = false).
      { apply Z.eqb_eq in Hdot. rewrite Hdot. reflexivity. }
      rewrite Hm. unfold readIntPart. rewrite loop_stop.
      + exists "", rest, (l, ""), false. simpl. rewrite Hdot, Hpk. auto.
      + simpl. apply Z.eqb_eq in Hdot. rewrite Hdot. reflexivity.
    - (* a sign first *)
      rewrite Hminus.
      destruct (Mid_write_ch pre "" rest (l, "") "-" HM0 Hminus) as (r & -> & HM1);
        [discriminate.. |].
      assert (Hd : isDigit (headByte r) = true).
      { rewrite <- (peekChar_At _ _ _ _ HA). exact Hpk. }
      unfold readIntPart.
      destruct (readIntPart_Mid pre (fuelOf (fst (writeRune (l, "")))) _ r _ false HM1)
        as (w & rest' & st' & flag' & Hl & HM' & _ & _ & Hfl).
      { apply (At_fuel _ _ _ (proj1 HM1)). }
      destruct (Hfl Hd) as [-> Hw].
      exists ("-" ++ w), rest', st', true. simpl in HM'. simpl.
      split; [exact Hl|]. split; [exact HM'|]. left. split; [reflexivity | discriminate]. }
  destruct H2 as (src2 & rest2 & st2 & h & -> & HM2 & Hcase). simpl.
  destruct (readFraction_Mid pre src2 rest2 st2 h HM2) as (w3 & rest3 & st3 & -> & HM3 & Hw3).
  { destruct Hcase as [[-> _] | [_ E]]; auto. }
  simpl.
  destruct (readExponent_Mid _ _ _ _ HM3) as (w4 & rest4 & st4 & -> & HM4).
  simpl. exists (fst (numberToken st4 (strlen pre))), (snd (numberToken st4 (strlen pre))).
  split; [destruct (numberToken st4 (strlen pre)); reflexivity|].
  apply (numberToken_Lexed _ _ _ _ HM4).
  apply str_app_nonempty.
  destruct Hcase as [[_ Hne] | [Hf _]].
  - apply str_app_nonempty. exact Hne.
  - apply str_app_nonempty_r. apply Hw3. exact Hf.
Qed.

(** *** Single characters, comments *)

Lemma single_Lexed (pre : string) (c : ascii) (r : string) (l : Lexer)
    (T : Type_) (lit : string) :
  At pre (String c r) l -> lit = String c "" -> normalize T lit = lit
  -> Lexed pre (Token.New T lit (strlen pre)) (readChar l).
Proof.
  intros HA -> Hn. exists (String c ""), "", r. rewrite str_app_nil_r. simpl.
  split; [apply readChar_At; exact HA|]. split; [reflexivity|].
  split; [symmetry; exact Hn | discriminate].
Qed.

(** The current byte is the character [c0]: the token is that character. *)
Lemma char_Lexed (pre rest : string) (l : Lexer) (T : Type_) (c0 : ascii) :
  At pre rest l -> (ch l =? chr c0) = true -> chr c0 <> 0
  -> normalize T (String c0 "") = String c0 ""
  -> Lexed pre (Token.New T (String c0 "") (strlen pre)) (readChar l).
Proof.
  intros HA Hc Hn HT. apply Z.eqb_eq in Hc. rewrite (At_ch _ _ _ HA) in Hc.
  destruct (headByte_is rest c0 Hc Hn) as [r ->].
  apply (single_Lexed pre c0 r); auto.
Qed.

Lemma normalize_currency (r : Z) (s : string) :
  normalize (LookupCurrencySymbol r) s = s.
Proof.
  unfold LookupCurrencySymbol.
  repeat match goal with
         | |- context [if ?b then _ else _] => destruct b
         end; reflexivity.
Qed.

Lemma readCurrencySymbol_Lexed (pre rest : string) (l : Lexer) :
  At pre rest l -> ch l <> 0
  -> Lexed pre (fst (readCurrencySymbol l (strlen pre)))
       (snd (readCurrencySymbol l (strlen pre))).
Proof.
  intros HA Hn. pose proof (At_rest_ascii _ _ _ HA) as Ha.
  rewrite (At_ch _ _ _ HA) in Hn.
  destruct (headByte_nonzero rest Hn) as (c & r & ->).
  unfold readCurrencySymbol. simpl fst. simpl snd.
  apply (single_Lexed pre c r).
  - exact HA.
  - rewrite (At_ch _ _ _ HA). simpl. apply encodeRune_chr.
    simpl in Ha. apply andb_true_iff in Ha as [Ha _]. apply Z.ltb_lt in Ha. exact Ha.
  - apply normalize_currency.
Qed.

Lemma illegal_Lexed (pre rest : string) (l : Lexer) :
  At pre rest l -> ch l <> 0
  -> Lexed pre (Token.New ILLEGAL (encodeRune (ch l)) (strlen pre)) (readChar l).
Proof.
  intros HA Hn. pose proof (At_rest_ascii _ _ _ HA) as Ha.
  rewrite (At_ch _ _ _ HA) in Hn.
  destruct (headByte_nonzero rest Hn) as (c & r & ->).
  apply (single_Lexed pre c r).
  - exact HA.
  - rewrite (At_ch _ _ _ HA). simpl. apply encodeRune_chr.
    simpl in Ha. apply andb_true_iff in Ha as [Ha _]. apply Z.ltb_lt in Ha. exact Ha.
  - reflexivity.
Qed.

Lemma power_Lexed (pre rest : string) (l : Lexer) :
  At pre rest l -> (ch l =? chr "*") = true -> (peekChar l =? chr "*") = true
  -> Lexed pre (Token.New POWER "**" (strlen pre)) (readChar (readChar l)).
Proof.
  intros HA Hc Hp. apply Z.eqb_eq in Hc, Hp. rewrite (At_ch _ _ _ HA) in Hc.
  destruct (headByte_is rest "*" Hc) as [r ->]; [discriminate|].
  rewrite (peekChar_At _ _ _ _ HA) in Hp.
  destruct (headByte_is r "*" Hp) as [r' ->]; [discriminate|].
  exists "**", "", r'. rewrite str_app_nil_r. simpl.
  split; [|split; [reflexivity | split; [reflexivity | discriminate]]].
  apply readChar_At in HA. apply readChar_At in HA.
  rewrite str_app_assoc in HA. exact HA.
Qed.

Lemma readComment_Lexed (pre rest : string) (l : Lexer) :
  At pre rest l
  -> ((ch l =? chr "#") || ((ch l =? chr "/") && (peekChar l =? chr "/"))) = true
  -> exists tok l', readComment l (strlen pre) = Some (tok, l') /\ Lexed pre tok l'.
Proof.
  intros HA Hc. unfold readComment. cbv zeta.
  match goal with
  | |- context [loop _ _ _ ?s] => set (st1 := s)
  end.
  assert (H1 : exists src r1,
             At (pre ++ src) r1 (fst st1) /\ snd st1 = src /\ src <> "").
  { subst st1.
    destruct (ch l =? chr "#") eqn:Eh.
    - apply Z.eqb_eq in Eh. rewrite (At_ch _ _ _ HA) in Eh.
      destruct (headByte_is rest "#" Eh) as [r ->]; [discriminate|].
      destruct (writeRune_At pre "#" r "" l HA) as [HA' Hsb].
      exists "#", r. split; [exact HA' | split; [exact Hsb | discriminate]].
    - simpl in Hc. apply andb_true_iff in Hc as [Es Ep]. rewrite Es.
      apply Z.eqb_eq in Es, Ep. rewrite (At_ch _ _ _ HA) in Es.
      destruct (headByte_is rest "/" Es) as [r ->]; [discriminate|].
      rewrite (peekChar_At _ _ _ _ HA) in Ep.
      destruct (headByte_is r "/" Ep) as [r' ->]; [discriminate|].
      destruct (writeRune_At pre "/" _ "" l HA) as [HA' Hsb].
      rewrite (At_ch _ _ _ HA'). simpl headByte.
      change (chr "/" =? chr "/") with true. cbv iota.
      destruct (writeRune (l, "")) as [l1 sb1] eqn:Ew. simpl in HA', Hsb. subst sb1.
      destruct (writeRune_At _ "/" r' ("" ++ "/") l1 HA') as [HA'' Hsb'].
      exists "//", r'. rewrite str_app_assoc in HA''.
      split; [exact HA'' | split; [exact Hsb' | discriminate]]. }
  destruct H1 as (src & r1 & HA1 & Hsb1 & Hne).
  clearbody st1. destruct st1 as [l1 sb1]. simpl in HA1, Hsb1. subst sb1.
  destruct (readWhile (fun c => negb (c =? 10) && negb (c =? 0)) eq_refl
              (fuelOf l) r1 (pre ++ src) src l1 HA1)
    as (w & rest' & l' & -> & Hloop & HA' & _ & _).
  { rewrite (At_fuelOf _ _ _ HA), <- (At_fuelOf _ _ _ HA1). apply (At_fuel _ _ _ HA1). }
  cbv beta in Hloop. rewrite Hloop. simpl.
  eexists _, _. split; [reflexivity|].
  exists (src ++ w), "", rest'. rewrite str_app_nil_r. simpl.
  split; [rewrite <- str_app_assoc; exact HA'|].
  split; [reflexivity | split; [reflexivity | apply str_app_nonempty; exact Hne]].
Qed.

(** *** Identifiers *)

(** [unicode.IsLetter] knows no letter among NUL, space, tab and carriage
    return. *)
Definition lettersApart : bool :=
  negb (unicode_IsLetter 0) && negb (unicode_IsLetter 32)
  && negb (unicode_IsLetter 9) && negb (unicode_IsLetter 13).

Hypothesis letters : lettersApart = true.

Definition identByte (c : Z) : bool :=
  isLetter c || isDigit c || (c =? chr "_").

Definition wordByte (c : Z) : bool := isLetter c || (c =? chr "_").

Lemma letters_at (c : Z) :
  c = 0 \/ c = 32 \/ c = 9 \/ c = 13 -> unicode_IsLetter c = false.
Proof.
  pose proof letters as H. unfold lettersApart in H.
  apply andb_true_iff in H as [H H13]. apply andb_true_iff in H as [H H9].
  apply andb_true_iff in H as [H0 H32]. apply negb_true_iff in H0, H32, H9, H13.
  intros [-> | [-> | [-> | ->]]]; assumption.
Qed.

Lemma identByte_apart (c : Z) :
  c = 0 \/ c = 32 \/ c = 9 \/ c = 13 -> identByte c = false.
Proof.
  intros H. unfold identByte, isLetter. rewrite (letters_at c H).
  destruct H as [-> | [-> | [-> | ->]]]; reflexivity.
Qed.

Lemma wordByte_identByte (c : Z) : wordByte c = true -> identByte c = true.
Proof.
  unfold wordByte, identByte. intros [H | H]%orb_true_iff; rewrite H;
    [reflexivity | apply orb_true_r].
Qed.

Lemma wordByte_0 : wordByte 0 = false.
Proof.
  destruct (wordByte 0) eqn:E; [|reflexivity].
  apply wordByte_identByte in E. rewrite identByte_apart in E by auto. discriminate.
Qed.

Lemma isLetter_wordByte (c : Z) : isLetter c = true -> wordByte c = true.
Proof. unfold wordByte. intros ->. reflexivity. Qed.

Lemma wordByte_isLetter (c : Z) : wordByte c = false -> isLetter c = false.
Proof. unfold wordByte. intros [H _]%orb_false_iff. exact H. Qed.

Lemma isSpace_cases (c : Z) : isSpace c = true -> c = 32 \/ c = 9 \/ c = 13.
Proof.
  unfold isSpace. change (chr " ") with 32.
  intros [[H | H]%orb_true_iff | H]%orb_true_iff; apply Z.eqb_eq in H; auto.
Qed.

Lemma identByte_notSpace (c : Z) : identByte c = true -> notSpace c = true.
Proof.
  intros H. unfold notSpace. apply negb_true_iff.
  destruct (isSpace c) eqn:E; [|reflexivity].
  apply isSpace_cases in E. rewrite identByte_apart in H by auto. discriminate.
Qed.

Lemma wordByte_notSpace (c : Z) : wordByte c = true -> notSpace c = true.
Proof. intros H. apply identByte_notSpace, wordByte_identByte, H. Qed.

Lemma joinWords_snoc (words : list string) (w : string) :
  words <> [] -> joinWords (words ++ [w]) = joinWords words ++ " " ++ w.
Proof.
  induction words as [|a words IH]; [congruence|]. intros _.
  destruct words as [|b r]; [reflexivity|].
  change (joinWords ((a :: b :: r) ++ [w]))
    with (a ++ " " ++ joinWords ((b :: r) ++ [w])).
  change (joinWords (a :: b :: r)) with (a ++ " " ++ joinWords (b :: r)).
  rewrite IH by discriminate. rewrite !str_app_assoc. reflexivity.
Qed.

(** A run of a loop that read a byte left text behind. *)
Lemma read_nonempty (test : Z -> bool) (w rest' : string) :
  test (headByte (w ++ rest')) = true -> test (headByte rest') = false -> w <> "".
Proof. intros H1 H2 ->. simpl in H1. congruence. Qed.

Lemma headByte_app (w rest : string) : w <> "" -> headByte (w ++ rest) = headByte w.
Proof. destruct w; [congruence | reflexivity]. Qed.

(** The words that follow the first: each is joined to the literal by one
    space for the white space read before it. *)
Lemma readExpected_spec (pre : string) (expectedWords : list string) :
  forall (src rest : string) (l : Lexer) (words : list string),
    At (pre ++ src) rest l -> isLetter (headByte rest) = false
    -> lastNotSpace src = true -> joinWords words = squeeze src -> words <> []
    -> exists l' words' src' trail rest',
         readExpected expectedWords l words = Some (l', words')
         /\ At (pre ++ src' ++ trail) rest' l'
         /\ lastNotSpace src' = true
         /\ joinWords words' = squeeze src'.
Proof.
  induction expectedWords as [|expected es IH]; intros src rest l words HA Hnl Hlast Hjoin Hne.
  - exists l, words, src, "", rest. rewrite str_app_nil_r. simpl. auto.
  - simpl readExpected.
    destruct (skipWhitespace_At _ _ _ HA)
      as (ws & rest1 & l1 & -> & Hskip & HA1 & Hns & Hws).
    rewrite Hskip. simpl.
    rewrite str_app_assoc in HA1.
    destruct (negb (isLetter (ch l1))) eqn:El.
    + exists l1, words, src, ws, rest1. auto.
    + apply negb_false_iff in El. rewrite (At_ch _ _ _ HA1) in El.
      assert (Hwsne : ws <> "").
      { intros ->. simpl in Hnl. congruence. }
      destruct (readWhile wordByte wordByte_0 (fuelOf l1) rest1
                  (pre ++ src ++ ws) "" l1 HA1 (At_fuel _ _ _ HA1))
        as (word & rest2 & l2 & -> & Hloop & HA2 & Hstop & Hall).
      unfold readWord. loop_is Hloop. simpl.
      assert (Hword : word <> "").
      { apply (read_nonempty wordByte word rest2); [|exact Hstop].
        apply isLetter_wordByte. exact El. }
      destruct (String.eqb (strings_ToLower word) expected).
      * destruct (IH (src ++ ws ++ word) rest2 l2 (words ++ [word])%list)
          as (l' & words' & src' & trail & rest' & Hr & HA' & Hlast' & Hjoin').
        -- rewrite !str_app_assoc in HA2. exact HA2.
        -- apply wordByte_isLetter. exact Hstop.
        -- rewrite <- str_app_assoc. apply lastNotSpace_app; [|exact Hword].
           exact (allBytes_impl _ _ _ wordByte_notSpace Hall).
        -- rewrite joinWords_snoc by exact Hne. rewrite Hjoin.
           rewrite (squeeze_app src) by exact Hlast. f_equal.
           rewrite squeeze_spaces; [| exact Hws | exact Hwsne | exact Hword |].
           ++ rewrite squeeze_word; [reflexivity|].
              exact (allBytes_impl _ _ _ wordByte_notSpace Hall).
           ++ rewrite <- (headByte_app word rest2) by exact Hword. exact Hns.
        -- destruct words; discriminate.
        -- exists l', words', src', trail, rest'. auto.
      * exists (with_pos l2 (pos l1) (pos l1 + 1)
                  (if pos l1 <? strlen (input l2)
                   then byteAt (input l2) (pos l1) else 0)),
          words, src, ws, (word ++ rest2).
        split; [reflexivity|]. split; [|auto].
        destruct HA1 as (E1 & Hi1 & Hp1 & Hr1 & Hc1).
        unfold At. simpl. rewrite (At_input _ _ _ HA2), Hp1.
        split; [exact E1|]. split; [reflexivity|]. split; [reflexivity|].
        split; [reflexivity|].
        destruct (strlen (pre ++ src ++ ws) <? strlen inp) eqn:Elt.
        -- rewrite E1 at 1. apply byteAt_app.
        -- apply Z.ltb_ge in Elt. rewrite E1, strlen_app in Elt.
           destruct (word ++ rest2); [reflexivity|].
           unfold strlen in Elt. simpl in Elt. lia.
Qed.

Lemma identByte_0 : identByte 0 = false.
Proof. apply identByte_apart. auto. Qed.

Lemma normalize_keyword (s w : string) :
  allBytes notSpace w = true -> normalize (LookupIdentifier s) w = w.
Proof.
  intros Hw. unfold LookupIdentifier.
  repeat match goal with
         | |- context [if ?b then _ else _] => destruct b
         end; try reflexivity.
  apply squeeze_word. exact Hw.
Qed.

Lemma lastNotSpace_nonempty (s : string) : lastNotSpace s = true -> s <> "".
Proof. intros H ->. discriminate. Qed.

Lemma tryReadMultiWordIdentifier_spec (pre w rest : string) (l : Lexer) :
  At (pre ++ w) rest l -> isLetter (headByte rest) = false
  -> allBytes notSpace w = true -> w <> ""
  -> exists multiWord l',
       tryReadMultiWordIdentifier l w = Some (multiWord, l')
       /\ ((multiWord = "" /\ At (pre ++ w) rest l')
           \/ (multiWord <> ""
               /\ exists src trail rest',
                    At (pre ++ src ++ trail) rest' l'
                    /\ src <> "" /\ multiWord = squeeze src)).
Proof.
  intros HA Hnl Hw Hne. unfold tryReadMultiWordIdentifier. cbv zeta.
  destruct (multiWordPrefixes (strings_ToLower w)) as [expectedWords|].
  - destruct (readExpected_spec pre expectedWords w rest l [w] HA Hnl)
      as (l' & words' & src' & trail & rest' & Hr & HA' & Hlast' & Hjoin').
    + exact (lastNotSpace_app "" w Hw Hne).
    + simpl. symmetry. apply squeeze_word. exact Hw.
    + discriminate.
    + rewrite Hr. simpl.
      destruct (length words' =? 1)%nat.
      * eexists _, _. split; [reflexivity|]. left. split; [reflexivity|].
        destruct HA as (E & Hi & Hp & Hrp & Hc).
        unfold At. simpl. rewrite (At_input _ _ _ HA'). auto.
      * eexists _, _. split; [reflexivity|].
        pose proof (lastNotSpace_nonempty _ Hlast') as Hsrc.
        right. split.
        -- rewrite Hjoin'. apply squeeze_nonempty. exact Hsrc.
        -- exists src', trail, rest'. auto.
  - eexists _, _. split; [reflexivity|]. left. auto.
Qed.

Lemma readIdentifier_Lexed (pre rest : string) (l : Lexer) :
  At pre rest l -> (isLetter (ch l) || (ch l =? chr "_")) = true
  -> exists tok l', readIdentifier l (strlen pre) = Some (tok, l') /\ Lexed pre tok l'.
Proof.
  intros HA Hc. unfold readIdentifier.
  destruct (readWhile identByte identByte_0 (fuelOf l) rest pre "" l HA
              (At_fuel _ _ _ HA))
    as (w & rest1 & l1 & -> & Hloop & HA1 & Hstop & Hall).
  loop_is Hloop. simpl.
  assert (Hw : w <> "").
  { apply (read_nonempty identByte w rest1); [|exact Hstop].
    apply wordByte_identByte. rewrite <- (At_ch _ _ _ HA). exact Hc. }
  pose proof (allBytes_impl _ _ _ identByte_notSpace Hall) as Hns.
  destruct (negb (Type_eqb (LookupIdentifier (strings_ToLower w)) IDENTIFIER)).
  - eexists _, _. split; [reflexivity|].
    exists w, "", rest1. rewrite str_app_nil_r. simpl.
    split; [exact HA1|]. split; [reflexivity|]. split; [|exact Hw].
    symmetry. apply normalize_keyword. exact Hns.
  - destruct (tryReadMultiWordIdentifier_spec pre w rest1 l1 HA1)
      as (multiWord & l2 & Hr & Hcase); [| exact Hns | exact Hw |].
    { unfold identByte in Hstop. apply orb_false_iff in Hstop as [Hstop _].
      apply orb_false_iff in Hstop as [Hstop _]. exact Hstop. }
    rewrite Hr. simpl.
    destruct Hcase as [[-> HA2] | [Hm (src & trail & rest' & HA2 & Hsrc & ->)]].
    + simpl. eexists _, _. split; [reflexivity|].
      exists w, "", rest1. rewrite str_app_nil_r. simpl.
      split; [exact HA2|]. split; [reflexivity|]. split; [|exact Hw].
      symmetry. apply squeeze_word. exact Hns.
    + destruct (String.eqb (squeeze src) "") eqn:E.
      { apply String.eqb_eq in E. congruence. }
      simpl. eexists _, _. split; [reflexivity|].
      exists src, trail, rest'. simpl. auto.
Qed.

(** *** Tokens *)

Lemma substring_zero (n : nat) (s : string) : substring n 0 s = "".
Proof.
  revert n. induction s as [|c s IH]; intros [|n]; simpl; auto.
Qed.

(** A token lexed at [pre] keeps the text of the input, and the lexer has
    moved on. *)
Lemma Lexed_ok (pre rest : string) (l : Lexer) (tok : Token) (l' : Lexer) :
  At pre rest l -> Lexed pre tok l'
  -> tokenOK inp tok
     /\ exists pre' rest', At pre' rest' l'
          /\ (String.length rest' < String.length rest)%nat.
Proof.
  intros HA (src & trail & rest' & HA' & Hpos & Hlit & Hne). split.
  - exists src. rewrite Hpos. split; [apply strlen_nonneg|]. split; [|exact Hlit].
    unfold strlen. rewrite Nat2Z.id.
    destruct HA' as (E & _). rewrite E, !str_app_assoc. apply substring_mid.
  - exists (pre ++ src ++ trail), rest'. split; [exact HA'|].
    rewrite (At_app_inv _ _ _ _ _ _ HA HA'), !str_length_app.
    destruct src; [congruence|]. simpl. lia.
Qed.

Lemma NextToken_spec (pre rest : string) (l0 : Lexer) :
  At pre rest l0
  -> exists tok l',
       NextToken l0 = Some (tok, l')
       /\ tokenOK inp tok
       /\ (Type_eqb (Typ tok) EOF = true
           \/ exists pre' rest', At pre' rest' l'
                /\ (String.length rest' < String.length rest)%nat).
Proof.
  intros HA0.
  destruct (skipWhitespace_At _ _ _ HA0)
    as (ws & rest1 & l & -> & Hskip & HA & Hns & Hws).
  assert (Hgo : forall tok l',
             Lexed (pre ++ ws) tok l'
             -> tokenOK inp tok
                /\ (Type_eqb (Typ tok) EOF = true
                    \/ exists pre' rest', At pre' rest' l'
                         /\ (String.length rest' < String.length (ws ++ rest1))%nat)).
  { intros tok l' HL. destruct (Lexed_ok _ _ _ _ _ HA HL) as [Hok (p' & r' & HA' & Hlt)].
    split; [exact Hok|]. right. exists p', r'. split; [exact HA'|].
    rewrite str_length_app. lia. }
  assert (Hvia : forall r : option (Token * Lexer),
             (exists tok l', r = Some (tok, l') /\ Lexed (pre ++ ws) tok l')
             -> exists tok l', r = Some (tok, l') /\ tokenOK inp tok
                  /\ (Type_eqb (Typ tok) EOF = true
                      \/ exists pre' rest', At pre' rest' l'
                           /\ (String.length rest' < String.length (ws ++ rest1))%nat)).
  { intros r (tok & l' & -> & HL). exists tok, l'. split; [reflexivity|].
    apply Hgo. exact HL. }
  assert (Hone : forall tok l',
             Lexed (pre ++ ws) tok l'
             -> exists tok0 l0', Some (tok, l') = Some (tok0, l0') /\ tokenOK inp tok0
                  /\ (Type_eqb (Typ tok0) EOF = true
                      \/ exists pre' rest', At pre' rest' l0'
                           /\ (String.length rest' < String.length (ws ++ rest1))%nat)).
  { intros tok l' HL. apply Hvia. eauto. }
  unfold NextToken. rewrite Hskip. simpl mbind. cbv beta zeta.
  rewrite (At_pos _ _ _ HA).
  destruct (ch l =? 0) eqn:E0.
  { (* the end of the input, or a NUL byte *)
    eexists _, _. split; [reflexivity|]. split; [|left; reflexivity].
    exists "". simpl. split; [apply strlen_nonneg|]. split; [|reflexivity].
    apply substring_zero. }
  assert (Hnz : ch l <> 0) by (apply Z.eqb_neq; exact E0).
  destruct ((ch l =? chr "#") || ((ch l =? chr "/") && (peekChar l =? chr "/"))) eqn:Ecomment.
  { apply Hvia. apply (readComment_Lexed _ rest1); assumption. }
  destruct (Types.IsCurrencySymbolRune (ch l) || Types.IsCryptoSymbolRune (ch l)).
  { rewrite (surjective_pairing (readCurrencySymbol l (strlen (pre ++ ws)))).
    apply Hone. apply (readCurrencySymbol_Lexed _ rest1); assumption. }
  destruct (isDigit (ch l) || ((ch l =? chr ".") && isDigit (peekChar l))) eqn:Enum.
  { apply Hvia. apply (readNumber_Lexed _ rest1); [exact HA|].
    apply orb_true_iff in Enum as [Hd | [Hdot Hpk]%andb_true_iff]; auto. }
  destruct (ch l =? chr "+") eqn:Eplus.
  { apply Hone. apply (char_Lexed _ rest1); auto; discriminate. }
  destruct (ch l =? chr "-") eqn:Eminus.
  { destruct (isDigit (peekChar l) && isStartOfExpression l) eqn:Eneg.
    - apply Hvia. apply (readNumber_Lexed _ rest1); [exact HA|].
      apply andb_true_iff in Eneg as [Hpk _]. auto.
    - apply Hone. apply (char_Lexed _ rest1); auto; discriminate. }
  destruct (ch l =? chr "*") eqn:Estar.
  { destruct (peekChar l =? chr "*") eqn:Epow.
    - apply Hone. apply (power_Lexed _ rest1); assumption.
    - apply Hone. apply (char_Lexed _ rest1); auto; discriminate. }
  destruct (ch l =? chr "/") eqn:Eslash.
  { apply Hone. apply (char_Lexed _ rest1); auto; discriminate. }
  destruct (ch l =? chr "^") eqn:Ecaret.
  { apply Hone. apply (char_Lexed _ rest1); auto; discriminate. }
  destruct (ch l =? chr "(") eqn:Elp.
  { apply Hone. apply (char_Lexed _ rest1); auto; discriminate. }
  destruct (ch l =? chr ")") eqn:Erp.
  { apply Hone. apply (char_Lexed _ rest1); auto; discriminate. }
  destruct (ch l =? chr "=") eqn:Eeq.
  { apply Hone. apply (char_Lexed _ rest1); auto; discriminate. }
  destruct (ch l =? chr ",") eqn:Ecomma.
  { apply Hone. apply (char_Lexed _ rest1); auto; discriminate. }
  destruct (ch l =? chr "%") eqn:Epct.
  { apply Hone. apply (char_Lexed _ rest1); auto; discriminate. }
  destruct (ch l =? 10) eqn:Enl.
  { apply Hone. apply (char_Lexed _ rest1 l NEWLINE "010"%char); auto; discriminate. }
  destruct (isLetter (ch l) || (ch l =? chr "_")) eqn:Eid.
  { apply Hvia. apply (readIdentifier_Lexed _ rest1); assumption. }
  apply Hone. apply (illegal_Lexed _ rest1); assumption.
Qed.

Lemma tokenizeLoop_spec (fuel : nat) :
  forall (pre rest : string) (l : Lexer),
    At pre rest l -> (String.length rest < fuel)%nat
    -> exists toks, tokenizeLoop fuel l = Some toks /\ Forall (tokenOK inp) toks.
Proof.
  induction fuel as [|fuel IH]; intros pre rest l HA Hf; [lia|].
  simpl. destruct (NextToken_spec _ _ _ HA) as (tok & l' & -> & Hok & Hnext).
  simpl. destruct (Type_eqb (Typ tok) EOF) eqn:E.
  - exists [tok]. split; [reflexivity|]. constructor; [exact Hok | constructor].
  - destruct Hnext as [? | (pre' & rest' & HA' & Hlt)]; [discriminate|].
    destruct (IH pre' rest' l' HA') as (toks & -> & Hall); [lia|].
    simpl. exists (tok :: toks). split; [reflexivity|].
    constructor; assumption.
Qed.

End LexerTheory.

(** The round trip as the specification words it: the literal is the text
    of the input at the token's offset. *)
Definition literalAtPos (inp : string) (tok : Token.Token) : bool :=
  String.eqb
    (substring (Z.to_nat (Token.Pos tok)) (String.length (Token.Literal tok)) inp)
    (Token.Literal tok).

(** Where [normalize] changes nothing the round trip is exact. *)
Lemma tokenOK_exact (inp : string) (tok : Token.Token) :
  tokenOK inp tok
  -> (forall src, normalize (Token.Typ tok) src = src)
  -> literalAtPos inp tok = true.
Proof.
  intros (src & _ & Hsub & Hlit) Hn. unfold literalAtPos.
  rewrite Hlit, Hn, Hsub. apply String.eqb_refl.
Qed.

(** C9, amended: on an ASCII input line the lexer returns its tokens, and
    the literal of every token is the text of the input at the token's
    offset, up to [normalize]: a number leaves out the commas of its text,
    an identifier of several words has one space for the white space between
    two words. *)
Theorem C9_literal_is_text_at_pos `{std : GoStd} `{reg : Types.Registry}
    (inp : string) :
  asciiOnly inp = true -> lettersApart = true
  -> exists toks,
       Lexer.Tokenize inp = Some toks /\ Forall (tokenOK inp) toks.
Proof.
  intros Ha Hl. unfold Lexer.Tokenize.
  (* the lexer starts before the whole input, with one round of fuel more
     than the input has bytes *)
  pose proof (New_At inp Ha) as Hstart.
  apply (tokenizeLoop_spec inp Ha Hl (S (String.length inp)) "" inp _ Hstart).
  lia.
Qed.

Lemma C9_witness :
  asciiOnly "1,234 + hong  kong dollar" = true
  /\ lettersApart (std := Sample.std) = true
  /\ exists toks,
       Lexer.Tokenize (std := Sample.std) (reg := Sample.registry)
         "1,234 + hong  kong dollar" = Some toks
       /\ Forall (tokenOK "1,234 + hong  kong dollar") toks.
Proof.
  split; [reflexivity|]. split; [reflexivity|].
  exact (C9_literal_is_text_at_pos (std := Sample.std) (reg := Sample.registry)
           "1,234 + hong  kong dollar" eq_refl eq_refl).
Defined.

(** C9 as stated fails: the literal of "1,234" is "1234", which is not the
    text at offset 0, and the literal of "hong  kong" has one space. *)
Lemma C9_counterexample :
  Lexer.Tokenize (std := Sample.std) (reg := Sample.registry) "1,234"
    = Some [Token.New Token.NUMBER "1234" 0; Token.New Token.EOF "" 5]
  /\ literalAtPos "1,234" (Token.New Token.NUMBER "1234" 0) = false
  /\ Lexer.Tokenize (std := Sample.std) (reg := Sample.registry) "hong  kong"
       = Some [Token.New Token.IDENTIFIER "hong kong" 0; Token.New Token.EOF "" 10]
  /\ literalAtPos "hong  kong" (Token.New Token.IDENTIFIER "hong kong" 0) = false.
Proof. repeat split; vm_compute; reflexivity. Qed.

(** Off ASCII: [readChar] moves [readPos] to the last byte of a character of
    several bytes before it sets [pos], so the offset of the token is that
    of the last byte. *)
Lemma multibyte_pos_is_last_byte :
  Lexer.Tokenize (std := Sample.std) (reg := Sample.registry) "é+1"
    = Some [Token.New Token.ILLEGAL "é" 1; Token.New Token.PLUS "+" 2;
            Token.New Token.NUMBER "1" 3; Token.New Token.EOF "" 4]
  /\ literalAtPos "é+1" (Token.New Token.ILLEGAL "é" 1) = false.
Proof. split; vm_compute; reflexivity. Qed.

(** ** The lexer returns

    On every input, ASCII or not: each loop reads on while the current
    character is not 0, and reading moves [readPos] on. *)

Lemma length_substring_tail (s : string) (n : nat) :
  (n <= String.length s)%nat
  -> String.length (substring n (String.length s - n) s) = (String.length s - n)%nat.
Proof.
  revert n. induction s as [|c s IH]; intros [|n] Hn; simpl in *; try lia.
  - f_equal. clear. induction s as [|c s IH]; simpl; [reflexivity|].
    f_equal. exact IH.
  - apply IH. lia.
Qed.

Lemma strlen_strFrom (s : string) (i : Z) :
  0 <= i <= strlen s -> strlen (strFrom s i) = strlen s - i.
Proof.
  unfold strlen, strFrom. intros H.
  rewrite length_substring_tail by lia. lia.
Qed.

Lemma decodeTail_size (s : string) (n : nat) (i r size : Z) :
  snd (Lexer.decodeTail s n i r size) = 1 \/ snd (Lexer.decodeTail s n i r size) = size.
Proof.
  revert i r. induction n as [|n IH]; intros i r; simpl; [auto|].
  destruct (negb _); simpl; auto.
Qed.

Lemma decodeRune_size (s : string) :
  strlen s <> 0 -> 1 <= snd (Lexer.decodeRune s) <= strlen s.
Proof.
  intros Hs. pose proof (strlen_nonneg s) as H0. unfold Lexer.decodeRune.
  destruct (strlen s =? 0) eqn:E; [apply Z.eqb_eq in E; congruence|].
  destruct (byteAt s 0 <? 128); [simpl; lia|].
  assert (Hsz : forall size r, 2 <= size ->
            1 <= snd (if strlen s <? size then (Lexer.ReplacementChar, 1)
                      else Lexer.decodeTail s (Z.to_nat (size - 1)) 1 r size)
              <= strlen s).
  { intros size r Hsize. destruct (strlen s <? size) eqn:El; [simpl; lia|].
    apply Z.ltb_ge in El.
    destruct (decodeTail_size s (Z.to_nat (size - 1)) 1 r size) as [-> | ->]; lia. }
  cbv zeta.
  destruct (Z.land (byteAt s 0) 224 =? 192); [apply Hsz; lia|].
  destruct (Z.land (byteAt s 0) 240 =? 224); [apply Hsz; lia|].
  destruct (Z.land (byteAt s 0) 248 =? 240); [apply Hsz; lia|].
  simpl. lia.
Qed.

Section LexerTotal.
Import Token Lexer.
Context `{std : GoStd} `{reg : Types.Registry}.
Hypothesis letter0 : unicode_IsLetter 0 = false.

(** The lexer has read a character, and one that is not 0 lies within the
    input. *)
Definition wf (l : Lexer) : Prop :=
  0 <= pos l /\ pos l < readPos l
  /\ (ch l <> 0 -> readPos l <= strlen (input l)).

(** [l'] is [l] at least one character further. *)
Definition after (l l' : Lexer) : Prop :=
  input l' = input l /\ readPos l <= pos l' /\ wf l'.

Definition upto (l l' : Lexer) : Prop :=
  input l' = input l /\ pos l <= pos l' /\ readPos l <= readPos l' /\ wf l'.

(** The characters still to read, the current one apart. *)
Definition ahead (l : Lexer) : nat :=
  Z.to_nat (strlen (input l) + 1 - readPos l).

Lemma readChar_after (l : Lexer) :
  0 <= readPos l -> after l (readChar l).
Proof.
  intros H0. unfold after, wf, readChar.
  destruct (strlen (input l) <=? readPos l) eqn:E.
  - simpl. repeat split; try lia.
  - apply Z.leb_gt in E.
    destruct (128 <=? byteAt (input l) (readPos l)).
    + pose proof (decodeRune_size (strFrom (input l) (readPos l))) as Hd.
      rewrite strlen_strFrom in Hd by lia.
      destruct (decodeRune (strFrom (input l) (readPos l))) as [r size].
      simpl in *. repeat split; lia.
    + simpl. repeat split; lia.
Qed.

Lemma wf_readPos (l : Lexer) : wf l -> 0 <= readPos l.
Proof. intros (H1 & H2 & _). lia. Qed.

Lemma upto_refl (l : Lexer) : wf l -> upto l l.
Proof. intros H. unfold upto. repeat split; try lia; apply H. Qed.

Lemma upto_trans (a b c : Lexer) : upto a b -> upto b c -> upto a c.
Proof.
  intros (H1 & H2 & H3 & H4) (H5 & H6 & H7 & H8).
  unfold upto. repeat split; try lia; try apply H8. congruence.
Qed.

Lemma after_upto (a b : Lexer) : wf a -> after a b -> upto a b.
Proof.
  intros (Ha1 & Ha2 & _) (H1 & H2 & H3).
  pose proof H3 as (Hb1 & Hb2 & _).
  unfold upto. repeat split; try lia; try apply H3. exact H1.
Qed.

Lemma after_then (a b c : Lexer) : after a b -> upto b c -> after a c.
Proof.
  intros (H1 & H2 & H3) (H5 & H6 & H7 & H8).
  unfold after. repeat split; try lia; try apply H8. congruence.
Qed.

Lemma upto_then (a b c : Lexer) : upto a b -> after b c -> after a c.
Proof.
  intros (H1 & H2 & H3 & H4) (H5 & H6 & H7).
  unfold after. repeat split; try lia; try apply H7. congruence.
Qed.

Lemma after_wf (a b : Lexer) : after a b -> wf b.
Proof. intros H. apply H. Qed.

Lemma upto_wf (a b : Lexer) : upto a b -> wf b.
Proof. intros H. apply H. Qed.

Lemma upto_input (a b : Lexer) : upto a b -> input b = input a.
Proof. intros H. apply H. Qed.

Lemma after_input (a b : Lexer) : after a b -> input b = input a.
Proof. intros H. apply H. Qed.

Lemma ahead_fuel (l : Lexer) : wf l -> (ahead l <= fuelOf l)%nat.
Proof.
  intros (H1 & H2 & _). unfold ahead, fuelOf.
  change (Z.of_nat (String.length (input l))) with (strlen (input l)).
  unfold strlen. lia.
Qed.

(** A loop whose every round reads a character that is not 0, or breaks,
    returns within the characters ahead. *)
Lemma loop_returns {S : Type} (lex : S -> Lexer) (cond : S -> bool)
    (body : S -> S + S) :
  (forall s, cond s = true -> ch (lex s) <> 0)
  -> (forall s, cond s = true ->
        match body s with
        | inl s' => lex s' = lex s
        | inr s' => lex s' = readChar (lex s)
        end)
  -> forall (fuel : nat) (s : S),
       wf (lex s) -> (ahead (lex s) <= fuel)%nat
       -> exists s',
            loop fuel cond body s = Some s'
            /\ upto (lex s) (lex s')
            /\ (cond s = true -> (forall s1, body s <> inl s1)
                -> after (lex s) (lex s')).
Proof.
  intros Hcond Hbody. induction fuel as [|fuel IH]; intros s Hwf Hf.
  - destruct (cond s) eqn:Ec.
    + exfalso. pose proof (Hcond s Ec) as Hn.
      destruct Hwf as (_ & _ & Hin). specialize (Hin Hn). unfold ahead in Hf. lia.
    + exists s. rewrite loop_stop by exact Ec.
      split; [reflexivity|]. split; [apply upto_refl; exact Hwf | discriminate].
  - simpl. destruct (cond s) eqn:Ec.
    + pose proof (Hcond s Ec) as Hn. pose proof (Hbody s Ec) as Hb.
      destruct (body s) as [s1 | s1] eqn:Eb.
      * exists s1. split; [reflexivity|]. rewrite Hb.
        split; [apply upto_refl; exact Hwf|].
        intros _ H. exfalso. exact (H s1 eq_refl).
      * pose proof (readChar_after (lex s) (wf_readPos _ Hwf)) as Ha.
        rewrite <- Hb in Ha.
        destruct (IH s1 (after_wf _ _ Ha)) as (s' & Hl & Hu & _).
        { destruct Hwf as (_ & _ & Hin). specialize (Hin Hn).
          destruct Ha as (Hi & Hp & (_ & Hlt & _)).
          unfold ahead in *. rewrite Hi. lia. }
        exists s'. split; [exact Hl|].
        pose proof (after_then _ _ _ Ha Hu) as Ha'.
        split; [apply after_upto; assumption | intros _ _; exact Ha'].
    + exists s. split; [reflexivity|].
      split; [apply upto_refl; exact Hwf | discriminate].
Qed.

(** The loops that write the current character and read on. *)
Lemma while_returns (test : Z -> bool) (fuel : nat) (st : Reader) :
  test 0 = false -> wf (fst st) -> (ahead (fst st) <= fuel)%nat
  -> exists st',
       loop fuel (fun st : Reader => test (ch (fst st)))
         (fun st => inr (writeRune st)) st = Some st'
       /\ upto (fst st) (fst st')
       /\ (test (ch (fst st)) = true -> after (fst st) (fst st')).
Proof.
  intros Ht0 Hwf Hf.
  destruct (loop_returns fst (fun st : Reader => test (ch (fst st)))
              (fun st => inr (writeRune st))) with (fuel := fuel) (s := st)
    as (st' & Hl & Hu & Ha); try assumption.
  - intros s Hs E. rewrite E in Hs. congruence.
  - intros s _. reflexivity.
  - exists st'. split; [exact Hl|]. split; [exact Hu|].
    intros Hc. apply Ha; [exact Hc | discriminate].
Qed.

Lemma skipWhitespace_returns (l : Lexer) :
  wf l -> exists l', skipWhitespace l = Some l' /\ upto l l' /\ isSpace (ch l') = false.
Proof.
  intros Hwf. unfold skipWhitespace.
  pose proof (ahead_fuel l Hwf) as Hf. revert Hf.
  generalize (fuelOf l). intros fuel. revert l Hwf.
  induction fuel as [|fuel IH]; intros l Hwf Hf.
  - destruct (isSpace (ch l)) eqn:Ec.
    + exfalso. assert (Hn : ch l <> 0) by (intros E; rewrite E in Ec; discriminate).
      destruct Hwf as (_ & _ & Hin). specialize (Hin Hn). unfold ahead in Hf. lia.
    + exists l. rewrite loop_stop by exact Ec.
      split; [reflexivity|]. split; [apply upto_refl; exact Hwf | exact Ec].
  - simpl. destruct (isSpace (ch l)) eqn:Ec.
    + assert (Hn : ch l <> 0) by (intros E; rewrite E in Ec; discriminate).
      pose proof (readChar_after l (wf_readPos _ Hwf)) as Ha.
      destruct (IH (readChar l) (after_wf _ _ Ha)) as (l' & Hl & Hu & Hs).
      { destruct Hwf as (_ & _ & Hin). specialize (Hin Hn).
        destruct Ha as (Hi & Hp & (_ & Hlt & _)).
        unfold ahead in *. rewrite Hi. lia. }
      exists l'. split; [exact Hl|]. split; [|exact Hs].
      apply (upto_trans _ (readChar l)); [apply after_upto; assumption | exact Hu].
    + exists l. split; [reflexivity|].
      split; [apply upto_refl; exact Hwf | exact Ec].
Qed.

Lemma writeRune_after (st : Reader) : wf (fst st) -> after (fst st) (fst (writeRune st)).
Proof. intros H. apply readChar_after, wf_readPos, H. Qed.

(** Fuel taken at the start of a token is enough later in the token. *)
Lemma ahead_upto (l l' : Lexer) : upto l l' -> (ahead l' <= fuelOf l)%nat.
Proof.
  intros H. pose proof (ahead_fuel l' (upto_wf _ _ H)) as Hf.
  unfold fuelOf in *. rewrite (upto_input _ _ H) in Hf. exact Hf.
Qed.

Lemma readDigits_returns (st : Reader) :
  wf (fst st)
  -> exists st', readDigits st = Some st' /\ upto (fst st) (fst st').
Proof.
  intros Hwf. unfold readDigits.
  destruct (while_returns isDigit (fuelOf (fst st)) st eq_refl Hwf
              (ahead_fuel _ Hwf)) as (st' & Hl & Hu & _).
  exists st'. split; [exact Hl | exact Hu].
Qed.

Lemma readIntPart_returns (st : Reader) (flag : bool) :
  wf (fst st)
  -> exists st' flag',
       readIntPart (st, flag) = Some (st', flag')
       /\ upto (fst st) (fst st')
       /\ (isDigit (ch (fst st)) = true -> after (fst st) (fst st')).
Proof.
  intros Hwf. unfold readIntPart.
  match goal with
  | |- context [loop ?f0 ?c0 ?b0 ?s0] =>
      destruct (loop_returns (fun x : Reader * bool => fst (fst x)) c0 b0)
        with (fuel := f0) (s := s0) as ([st' flag'] & Hl & Hu & Ha)
  end.
  - intros s Hs E. cbv beta in Hs, E. unfold Reader in *. rewrite E in Hs. discriminate.
  - intros s Hs. cbv beta zeta.
    destruct (ch _ =? chr ","); [destruct (negb _)|]; reflexivity.
  - exact Hwf.
  - exact (ahead_fuel _ Hwf).
  - exists st', flag'. split; [exact Hl|]. split; [exact Hu|].
    intros Hd. apply Ha.
    + simpl. rewrite Hd. reflexivity.
    + intros s1. simpl.
      assert (Hc : (ch (fst st) =? chr ",") = false).
      { unfold isDigit in Hd. apply andb_true_iff in Hd as [H1 H2].
        apply Z.leb_le in H1. change (chr "0") with 48 in H1.
        apply Z.eqb_neq. change (chr ",") with 44. lia. }
      rewrite Hc. discriminate.
Qed.

Lemma readFraction_returns (st2 : Reader) (h : bool) :
  wf (fst st2)
  -> exists st3,
       readFraction st2 h = Some st3
       /\ upto (fst st2) (fst st3)
       /\ (((ch (fst st2) =? chr ".") && isDigit (peekChar (fst st2))) = true
           -> after (fst st2) (fst st3)).
Proof.
  intros Hwf. unfold readFraction.
  pose proof (writeRune_after st2 Hwf) as Ha.
  destruct ((ch (fst st2) =? chr ".") && isDigit (peekChar (fst st2))).
  - destruct (readDigits_returns (writeRune st2) (after_wf _ _ Ha)) as (st3 & Hr & Hu).
    exists st3. pose proof (after_then _ _ _ Ha Hu) as Ha'.
    split; [exact Hr|]. split; [apply after_upto; assumption | intros _; exact Ha'].
  - destruct ((ch (fst st2) =? chr ".") && negb h).
    + destruct (readDigits_returns (writeRune (fst st2, snd st2 ++ "0"))
                  (after_wf _ _ Ha)) as (st3 & Hr & Hu).
      exists st3. pose proof (after_then _ _ _ Ha Hu) as Ha'.
      split; [exact Hr|]. split; [apply after_upto; assumption | discriminate].
    + exists st2. split; [reflexivity|].
      split; [apply upto_refl; exact Hwf | discriminate].
Qed.

Lemma readExponent_returns (st3 : Reader) :
  wf (fst st3)
  -> exists st4, readExponent st3 = Some st4 /\ upto (fst st3) (fst st4).
Proof.
  intros Hwf. unfold readExponent.
  destruct ((ch (fst st3) =? chr "e") || (ch (fst st3) =? chr "E")).
  - cbv zeta. pose proof (writeRune_after st3 Hwf) as Ha.
    pose proof (after_upto _ _ Hwf Ha) as Hu1.
    destruct ((ch (fst (writeRune st3)) =? chr "+")
              || (ch (fst (writeRune st3)) =? chr "-")).
    + pose proof (writeRune_after (writeRune st3) (after_wf _ _ Ha)) as Ha2.
      pose proof (after_upto _ _ (after_wf _ _ Ha) Ha2) as Hu2.
      destruct (readDigits_returns _ (after_wf _ _ Ha2)) as (st4 & Hr & Hu).
      exists st4. split; [exact Hr|].
      exact (upto_trans _ _ _ Hu1 (upto_trans _ _ _ Hu2 Hu)).
    + destruct (readDigits_returns _ (after_wf _ _ Ha)) as (st4 & Hr & Hu).
      exists st4. split; [exact Hr|]. exact (upto_trans _ _ _ Hu1 Hu).
  - exists st3. split; [reflexivity | apply upto_refl; exact Hwf].
Qed.

Lemma numberToken_upto (st4 : Reader) (startPos : Z) :
  wf (fst st4) -> upto (fst st4) (snd (numberToken st4 startPos)).
Proof.
  intros Hwf. unfold numberToken. destruct (ch (fst st4) =? chr "%"); simpl.
  - apply after_upto; [exact Hwf|]. apply readChar_after, wf_readPos, Hwf.
  - apply upto_refl. exact Hwf.
Qed.

Lemma readNumber_returns (l : Lexer) (startPos : Z) :
  wf l
  -> isDigit (ch l) = true
     \/ ((ch l =? chr ".") && isDigit (peekChar l)) = true
     \/ (ch l =? chr "-") = true
  -> exists tok l', readNumber l startPos = Some (tok, l') /\ after l l'.
Proof.
  intros Hwf Hstart. rewrite readNumber_eq. cbv zeta.
  assert (H2 : exists st2 h,
             readIntPart (if ch l =? chr "-" then writeRune (l, "") else (l, ""), false)
               = Some (st2, h)
             /\ upto l (fst st2)
             /\ (after l (fst st2)
                 \/ ((ch (fst st2) =? chr ".") && isDigit (peekChar (fst st2))) = true)).
  { destruct (ch l =? chr "-") eqn:Em.
    - pose proof (writeRune_after (l, "") Hwf) as Ha.
      destruct (readIntPart_returns (writeRune (l, "")) false (after_wf _ _ Ha))
        as (st2 & h & Hr & Hu & _).
      exists st2, h. pose proof (after_then _ _ _ Ha Hu) as Ha'.
      split; [exact Hr|]. split; [apply after_upto; assumption | left; exact Ha'].
    - destruct Hstart as [Hd | [Hdot | ?]]; [| |discriminate].
      + destruct (readIntPart_returns (l, "") false Hwf) as (st2 & h & Hr & Hu & Ha).
        exists st2, h. split; [exact Hr|]. split; [exact Hu | left; exact (Ha Hd)].
      + exists (l, ""), false. unfold readIntPart. rewrite loop_stop.
        * split; [reflexivity|]. split; [apply upto_refl; exact Hwf | right; exact Hdot].
        * simpl. apply andb_true_iff in Hdot as [Hdot _]. apply Z.eqb_eq in Hdot.
          rewrite Hdot. reflexivity. }
  destruct H2 as (st2 & h & -> & Hu2 & Hcase). simpl.
  destruct (readFraction_returns st2 h (upto_wf _ _ Hu2)) as (st3 & -> & Hu3 & Ha3).
  simpl.
  destruct (readExponent_returns st3 (upto_wf _ _ Hu3)) as (st4 & -> & Hu4).
  simpl. pose proof (numberToken_upto st4 startPos (upto_wf _ _ Hu4)) as Hu5.
  destruct (numberToken st4 startPos) as [tok l'] eqn:Et. simpl in Hu5.
  exists tok, l'. split; [reflexivity|].
  destruct Hcase as [Ha | Hdot].
  - exact (after_then _ _ _ Ha (upto_trans _ _ _ Hu3 (upto_trans _ _ _ Hu4 Hu5))).
  - exact (upto_then _ _ _ Hu2
             (after_then _ _ _ (Ha3 Hdot) (upto_trans _ _ _ Hu4 Hu5))).
Qed.

Lemma readComment_returns (l : Lexer) (startPos : Z) :
  wf l
  -> ((ch l =? chr "#") || ((ch l =? chr "/") && (peekChar l =? chr "/"))) = true
  -> exists tok l', readComment l startPos = Some (tok, l') /\ after l l'.
Proof.
  intros Hwf Hc. unfold readComment. cbv zeta.
  match goal with
  | |- context [loop _ _ _ ?s0] => set (st1 := s0)
  end.
  assert (H1 : after l (fst st1)).
  { subst st1. pose proof (writeRune_after (l, "") Hwf) as Ha.
    destruct (ch l =? chr "#"); [exact Ha|].
    simpl in Hc. apply andb_true_iff in Hc as [-> _].
    destruct (ch (fst (writeRune (l, ""))) =? chr "/"); [|exact Ha].
    apply (after_then _ _ _ Ha). apply after_upto; [exact (after_wf _ _ Ha)|].
    apply writeRune_after. exact (after_wf _ _ Ha). }
  clearbody st1.
  destruct (while_returns (fun c => negb (c =? 10) && negb (c =? 0)) (fuelOf l) st1
              eq_refl (after_wf _ _ H1)) as (st2 & Hl & Hu & _).
  { apply ahead_upto. apply after_upto; assumption. }
  loop_is Hl. destruct st2 as [l2 sb]. simpl.
  eexists _, _. split; [reflexivity|]. exact (after_then _ _ _ H1 Hu).
Qed.

Lemma isLetter_0 : isLetter 0 = false.
Proof. unfold isLetter. rewrite letter0. reflexivity. Qed.

(** The words after the first of a multi-word identifier: wherever the
    lexer stops, or goes back to, it is further than the first word. *)
Lemma readExpected_returns (l0 : Lexer) (expectedWords : list string) :
  forall (l : Lexer) (words : list string),
    after l0 l
    -> exists l' words',
         readExpected expectedWords l words = Some (l', words') /\ after l0 l'.
Proof.
  induction expectedWords as [|expected es IH]; intros l words Ha.
  - exists l, words. split; [reflexivity | exact Ha].
  - simpl readExpected.
    destruct (skipWhitespace_returns l (after_wf _ _ Ha)) as (l1 & -> & Hu1 & _).
    simpl. pose proof (after_then _ _ _ Ha Hu1) as Ha1.
    destruct (negb (isLetter (ch l1))); [exists l1, words; auto|].
    unfold readWord. simpl fst.
    destruct (while_returns (fun c => isLetter c || (c =? chr "_")) (fuelOf l1)
                (l1, "")) as ([l2 word] & Hl & Hu2 & _).
    { rewrite isLetter_0. reflexivity. }
    { exact (after_wf _ _ Ha1). }
    { apply ahead_fuel. exact (after_wf _ _ Ha1). }
    loop_is Hl. simpl. simpl in Hu2.
    pose proof (after_then _ _ _ Ha1 Hu2) as Ha2.
    destruct (String.eqb (strings_ToLower word) expected); [apply IH; exact Ha2|].
    eexists _, _. split; [reflexivity|].
    destruct Ha1 as (Hi1 & Hp1 & (Hw1 & Hw2 & Hw3)).
    unfold after, wf. simpl. rewrite (after_input _ _ Ha2).
    split; [reflexivity|]. split; [exact Hp1|].
    split; [exact Hw1|]. split; [lia|].
    rewrite <- Hi1. intros Hn.
    destruct (pos l1 <? strlen (input l1)) eqn:E; [|congruence].
    apply Z.ltb_lt in E. lia.
Qed.

Lemma readIdentifier_returns (l : Lexer) (startPos : Z) :
  wf l -> (isLetter (ch l) || (ch l =? chr "_")) = true
  -> exists tok l', readIdentifier l startPos = Some (tok, l') /\ after l l'.
Proof.
  intros Hwf Hc. unfold readIdentifier.
  destruct (while_returns (fun c => isLetter c || isDigit c || (c =? chr "_"))
              (fuelOf l) (l, "")) as ([l1 literal] & Hl & Hu & Ha).
  { rewrite isLetter_0. reflexivity. }
  { exact Hwf. }
  { apply ahead_fuel. exact Hwf. }
  loop_is Hl. simpl. simpl in Hu, Ha.
  assert (Ha1 : after l l1).
  { apply Ha. apply orb_true_iff in Hc as [-> | ->];
      [reflexivity | apply orb_true_r]. }
  destruct (negb (Type_eqb (LookupIdentifier (strings_ToLower literal)) IDENTIFIER)).
  { eexists _, _. split; [reflexivity | exact Ha1]. }
  assert (Ht : exists multiWord l2,
             tryReadMultiWordIdentifier l1 literal = Some (multiWord, l2)
             /\ after l l2).
  { unfold tryReadMultiWordIdentifier. cbv zeta.
    destruct (multiWordPrefixes _) as [expectedWords|];
      [|eexists _, _; split; [reflexivity | exact Ha1]].
    destruct (readExpected_returns l expectedWords l1 [literal] Ha1)
      as (l' & words' & -> & Ha'). simpl.
    destruct (length words' =? 1)%nat; eexists _, _;
      (split; [reflexivity|]); [|exact Ha'].
    destruct Ha1 as (Hi1 & Hp1 & Hw1).
    unfold after, wf. simpl. rewrite (after_input _ _ Ha'), <- Hi1. auto. }
  destruct Ht as (multiWord & l2 & -> & Ha2). simpl.
  destruct (negb (String.eqb multiWord "")); eexists _, _;
    (split; [reflexivity | exact Ha2]).
Qed.

Lemma NextToken_returns (l0 : Lexer) :
  wf l0
  -> exists tok l',
       NextToken l0 = Some (tok, l')
       /\ wf l'
       /\ (Type_eqb (Typ tok) EOF = true \/ (ahead l' < ahead l0)%nat).
Proof.
  intros Hwf0.
  destruct (skipWhitespace_returns l0 Hwf0) as (l & Hskip & Hu & _).
  pose proof (upto_wf _ _ Hu) as Hwf.
  assert (Hgo : forall l', ch l <> 0 -> after l l'
                -> wf l' /\ (ahead l' < ahead l0)%nat).
  { intros l' Hn Ha. split; [exact (after_wf _ _ Ha)|].
    destruct Hwf as (_ & Hlt & Hin). specialize (Hin Hn).
    destruct Hu as (Hi & _ & Hrp & _). destruct Ha as (Hi' & Hp' & (_ & Hlt' & _)).
    unfold ahead. rewrite Hi', Hi. rewrite Hi in Hin. lia. }
  assert (Hvia : forall r : option (Token * Lexer),
             ch l <> 0
             -> (exists tok l', r = Some (tok, l') /\ after l l')
             -> exists tok l', r = Some (tok, l') /\ wf l'
                  /\ (Type_eqb (Typ tok) EOF = true \/ (ahead l' < ahead l0)%nat)).
  { intros r Hn (tok & l' & -> & Ha). exists tok, l'. split; [reflexivity|].
    destruct (Hgo l' Hn Ha). auto. }
  assert (Hone : forall tok l',
             ch l <> 0 -> after l l'
             -> exists tok0 l0', Some (tok, l') = Some (tok0, l0') /\ wf l0'
                  /\ (Type_eqb (Typ tok0) EOF = true \/ (ahead l0' < ahead l0)%nat)).
  { intros tok l' Hn Ha. apply (Hvia _ Hn). eauto. }
  pose proof (readChar_after l (wf_readPos _ Hwf)) as Hrc.
  unfold NextToken. rewrite Hskip. simpl mbind. cbv beta zeta.
  destruct (ch l =? 0) eqn:E0.
  { eexists _, _. split; [reflexivity|]. split; [exact Hwf | left; reflexivity]. }
  assert (Hnz : ch l <> 0) by (apply Z.eqb_neq; exact E0).
  destruct ((ch l =? chr "#") || ((ch l =? chr "/") && (peekChar l =? chr "/"))) eqn:Ecomment.
  { apply (Hvia _ Hnz). apply readComment_returns; assumption. }
  destruct (Types.IsCurrencySymbolRune (ch l) || Types.IsCryptoSymbolRune (ch l)).
  { unfold readCurrencySymbol. apply (Hone _ _ Hnz). exact Hrc. }
  destruct (isDigit (ch l) || ((ch l =? chr ".") && isDigit (peekChar l))) eqn:Enum.
  { apply (Hvia _ Hnz). apply readNumber_returns; [exact Hwf|].
    apply orb_true_iff in Enum as [Hd | Hdot]; auto. }
  destruct (ch l =? chr "+"); [apply (Hone _ _ Hnz); exact Hrc|].
  destruct (ch l =? chr "-") eqn:Eminus.
  { destruct (isDigit (peekChar l) && isStartOfExpression l).
    - apply (Hvia _ Hnz). apply readNumber_returns; auto.
    - apply (Hone _ _ Hnz). exact Hrc. }
  destruct (ch l =? chr "*").
  { destruct (peekChar l =? chr "*"); apply (Hone _ _ Hnz); [|exact Hrc].
    apply (after_then _ _ _ Hrc). apply after_upto; [exact (after_wf _ _ Hrc)|].
    apply readChar_after, wf_readPos, (after_wf _ _ Hrc). }
  destruct (ch l =? chr "/"); [apply (Hone _ _ Hnz); exact Hrc|].
  destruct (ch l =? chr "^"); [apply (Hone _ _ Hnz); exact Hrc|].
  destruct (ch l =? chr "("); [apply (Hone _ _ Hnz); exact Hrc|].
  destruct (ch l =? chr ")"); [apply (Hone _ _ Hnz); exact Hrc|].
  destruct (ch l =? chr "="); [apply (Hone _ _ Hnz); exact Hrc|].
  destruct (ch l =? chr ","); [apply (Hone _ _ Hnz); exact Hrc|].
  destruct (ch l =? chr "%"); [apply (Hone _ _ Hnz); exact Hrc|].
  destruct (ch l =? 10); [apply (Hone _ _ Hnz); exact Hrc|].
  destruct (isLetter (ch l) || (ch l =? chr "_")) eqn:Eid.
  { apply (Hvia _ Hnz). apply readIdentifier_returns; assumption. }
  apply (Hone _ _ Hnz). exact Hrc.
Qed.

Lemma tokenizeLoop_returns (fuel : nat) :
  forall l : Lexer,
    wf l -> (ahead l < fuel)%nat -> is_Some (tokenizeLoop fuel l).
Proof.
  induction fuel as [|fuel IH]; intros l Hwf Hf; [lia|].
  simpl. destruct (NextToken_returns l Hwf) as (tok & l' & -> & Hwf' & Hnext).
  simpl. destruct (Type_eqb (Typ tok) EOF) eqn:E; [eauto|].
  destruct Hnext as [? | Hlt]; [discriminate|].
  destruct (IH l' Hwf') as [toks ->]; [lia|]. simpl. eauto.
Qed.

(** [Tokenize] returns on every input. *)
Lemma Tokenize_returns (inp : string) : is_Some (Tokenize inp).
Proof.
  unfold Tokenize. apply tokenizeLoop_returns.
  - apply (after_wf {| input := inp; pos := 0; readPos := 0; ch := 0;
                       line := 1; col := 0 |}).
    apply readChar_after. simpl. lia.
  - pose proof (readChar_after {| input := inp; pos := 0; readPos := 0; ch := 0;
                                   line := 1; col := 0 |}) as Ha.
    destruct Ha as (Hi & Hp & (_ & Hlt & _)); [simpl; lia|].
    unfold ahead, Lexer.New. rewrite Hi. simpl in *. unfold strlen. lia.
Qed.

End LexerTotal.

(** ** The parser returns *)

Section ParserTotal.
Import Token Ast Parser.
Context `{std : GoStd} `{reg : Types.Registry}.

#[local] Arguments advance : simpl never.
#[local] Arguments check : simpl never.
#[local] Arguments checkAny : simpl never.
#[local] Arguments isBinaryOp : simpl never.
#[local] Arguments addError : simpl never.
#[local] Arguments parseNumber : simpl never.
#[local] Arguments parsePercent : simpl never.
#[local] Arguments parseCurrencyWithSymbol : simpl never.
#[local] Arguments expect : simpl never.
#[local] Arguments match_ : simpl never.
#[local] Arguments currentBinaryOp : simpl never.
#[local] Arguments Precedence : simpl never.
#[local] Arguments BinaryOp_eqb : simpl never.

(** [p'] is [p] further on in the same tokens. *)
Definition further (p p' : Parser) : Prop :=
  tokens p' = tokens p /\ pos p <= pos p'.

(** The tokens still to read. *)
Definition remaining (p : Parser) : Z := Z.max 0 (ntokens p - pos p).

Definition returns {A : Type} (res : option (A * Parser)) (p : Parser) : Prop :=
  exists e p', res = Some (e, p') /\ further p p'.

Lemma further_refl (p : Parser) : further p p.
Proof. split; [reflexivity | lia]. Qed.

Lemma further_trans (p q r : Parser) : further p q -> further q r -> further p r.
Proof. intros [H1 H2] [H3 H4]. split; [congruence | lia]. Qed.

Lemma further_remaining (p p' : Parser) :
  further p p' -> remaining p' <= remaining p.
Proof. intros [Ht Hp]. unfold remaining, ntokens. rewrite Ht. lia. Qed.

Lemma further_advance (p : Parser) : further p (snd (advance p)).
Proof.
  unfold advance, further. simpl. destruct (pos p <? ntokens p); simpl; split;
    try reflexivity; lia.
Qed.

Lemma further_addError (p : Parser) (msg : string) : further p (addError p msg).
Proof. split; [reflexivity | simpl; lia]. Qed.

Lemma Type_eqb_eq (a b : Type_) : Type_eqb a b = true -> a = b.
Proof. destruct a, b; simpl; intros H; try discriminate; reflexivity. Qed.

(** A token that the parser tests for is in the list: reading it leaves
    one token less. *)
Lemma remaining_advance (p : Parser) :
  Typ (current p) <> EOF
  -> remaining (snd (advance p)) = remaining p - 1 /\ 1 <= remaining p.
Proof.
  intros H. unfold current, tokenAt in H.
  destruct (ntokens p <=? pos p) eqn:E; [simpl in H; congruence|].
  apply Z.leb_gt in E. unfold advance, remaining. simpl.
  destruct (pos p <? ntokens p) eqn:E'; [|apply Z.ltb_ge in E'; lia].
  unfold ntokens in *. simpl. lia.
Qed.

Lemma check_current (p : Parser) (t : Type_) :
  check p t = true -> Typ (current p) = t.
Proof. unfold check. apply Type_eqb_eq. Qed.

Lemma checkAny_current (p : Parser) (ts : list Type_) :
  checkAny p ts = true -> In (Typ (current p)) ts.
Proof.
  unfold checkAny. intros H. apply existsb_exists in H as (t & Hin & Ht).
  apply Type_eqb_eq in Ht. congruence.
Qed.

Lemma further_match (p : Parser) (t : Type_) : further p (snd (match_ p t)).
Proof.
  unfold match_. destruct (check p t); simpl;
    [apply further_advance | apply further_refl].
Qed.

Lemma further_expect (p : Parser) (t : Type_) (msg : string) :
  further p (snd (expect p t msg)).
Proof.
  unfold expect. destruct (check p t); simpl;
    [apply further_advance | apply further_addError].
Qed.

Lemma further_parseNumber (p : Parser) : further p (snd (parseNumber p)).
Proof.
  unfold parseNumber. pose proof (further_advance p) as H.
  destruct (advance p) as [tok p1]. simpl in H.
  pose proof (further_advance p1) as H1.
  pose proof (further_trans _ _ _ H H1) as H2.
  pose proof (further_trans _ _ _ H (further_addError p1
                ("invalid number: " ++ Literal tok))) as H3.
  destruct (parseFloat (Literal tok)); [|exact H3].
  destruct (check p1 IDENTIFIER); [|exact H].
  destruct (Types.ParseCurrency _); [exact H2|].
  destruct (Types.ParseCrypto _); [exact H2|].
  destruct (Types.ParseMetal _); [exact H2|].
  destruct (Types.ParseUnit _); [exact H2 | exact H].
Qed.

Lemma further_parsePercent (p : Parser) : further p (snd (parsePercent p)).
Proof.
  unfold parsePercent. pose proof (further_advance p) as H.
  destruct (advance p) as [tok p1]. simpl in H.
  destruct (parseFloat _); [exact H|].
  exact (further_trans _ _ _ H (further_addError p1 _)).
Qed.

Lemma further_parseCurrencyWithSymbol (p : Parser) :
  further p (snd (parseCurrencyWithSymbol p)).
Proof.
  unfold parseCurrencyWithSymbol. pose proof (further_advance p) as H.
  destruct (advance p) as [tok p1]. simpl in H. cbv zeta.
  destruct (negb (check p1 NUMBER)).
  - pose proof (further_trans _ _ _ H (further_addError p1
                  "expected number after currency symbol")) as H1.
    destruct (Types.LookupCurrencyBySymbol _); [exact H1|].
    destruct (Types.LookupCrypto _); exact H1.
  - pose proof (further_advance p1) as H1.
    destruct (advance p1) as [numTok p2]. simpl in H1.
    pose proof (further_trans _ _ _ H H1) as H2.
    destruct (parseFloat _).
    + destruct (Types.LookupCurrencyBySymbol _); [exact H2|].
      destruct (Types.LookupCrypto _); exact H2.
    + pose proof (further_trans _ _ _ H2 (further_addError p2
                    ("invalid number: " ++ Literal numTok))) as H3.
      destruct (Types.LookupCurrencyBySymbol _); [exact H3|].
      destruct (Types.LookupCrypto _); exact H3.
Qed.

Lemma returns_Some {A : Type} (e : A) (p p' : Parser) :
  further p p' -> returns (Some (e, p')) p.
Proof. intros H. exists e, p'. auto. Qed.

Lemma returns_pair {A : Type} (r : A * Parser) (p : Parser) :
  further p (snd r) -> returns (Some r) p.
Proof. destruct r as [e p']. apply returns_Some. Qed.

Lemma returns_further {A : Type} (res : option (A * Parser)) (p q : Parser) :
  further p q -> returns res q -> returns res p.
Proof.
  intros H (e & p' & -> & H'). exists e, p'.
  split; [reflexivity | exact (further_trans _ _ _ H H')].
Qed.

(** The conversion suffix of [binaryLoop]. *)
Lemma further_suffix (lhs : Expr) (p : Parser) :
  further p
    (snd (if check p IN then
            let p1 := snd (advance p) in
            if check p1 IDENTIFIER then
              let '(tok, p2) := advance p1 in
              (ConversionExpr lhs (Literal tok), p2)
            else (lhs, p1)
          else (lhs, p))).
Proof.
  destruct (check p IN); [|apply further_refl]. cbv zeta.
  pose proof (further_advance p) as H.
  destruct (check (snd (advance p)) IDENTIFIER); [|exact H].
  pose proof (further_advance (snd (advance p))) as H1.
  destruct (advance (snd (advance p))) as [tok p2]. simpl in *.
  exact (further_trans _ _ _ H H1).
Qed.

(** Unfolds one level of the descent, keeping [advance] folded. *)
Ltac descend :=
  simpl;
  repeat match goal with
         | |- context [if pos ?p <? ntokens ?p then ?x else ?p] =>
             change (if pos p <? ntokens p then x else p) with (snd (advance p))
         end.

(** With eight levels of calls for every token still to read, and five for
    the expression that reads none, every function of the descent
    returns. *)
Definition total (f : nat) : Prop :=
  (forall minPrec p, 8 * remaining p + 5 <= Z.of_nat f
     -> returns (parseBinaryExpr f minPrec p) p)
  /\ (forall minPrec lhs p, 8 * remaining p + 1 <= Z.of_nat f
     -> returns (binaryLoop f minPrec lhs p) p)
  /\ (forall p, 8 * remaining p + 4 <= Z.of_nat f
     -> returns (parseUnaryExpr f p) p)
  /\ (forall p, 8 * remaining p + 3 <= Z.of_nat f
     -> returns (parsePostfixExpr f p) p)
  /\ (forall p, 8 * remaining p + 2 <= Z.of_nat f
     -> returns (parsePrimaryExpr f p) p)
  /\ (forall p, Typ (current p) <> EOF -> 8 * remaining p + 1 <= Z.of_nat f
     -> returns (parseIdentifierOrValue f p) p)
  /\ (forall name p, 8 * remaining p + 7 <= Z.of_nat f
     -> returns (parseFunctionCall f name p) p)
  /\ (forall args p, 8 * remaining p + 6 <= Z.of_nat f
     -> returns (parseArgs f args p) p)
  /\ (forall p, Typ (current p) <> EOF -> 8 * remaining p + 1 <= Z.of_nat f
     -> returns (parseGroupExpr f p) p).

Lemma remaining_nonneg (p : Parser) : 0 <= remaining p.
Proof. unfold remaining. lia. Qed.

Lemma descent_total (f : nat) : total f.
Proof.
  induction f as [|f (IHB & IHL & IHU & IHPo & IHPr & IHI & IHC & IHA & IHG)].
  { unfold total. repeat split; intros; pose proof (remaining_nonneg p); lia. }
  unfold total. repeat split.
  - (* parseBinaryExpr *)
    intros minPrec p Hf. descend.
    destruct (IHU p) as (lhs & p1 & -> & H1); [lia|]. descend.
    destruct (isNil lhs); [apply returns_Some; exact H1|].
    apply (returns_further _ _ _ H1). apply IHL.
    pose proof (further_remaining _ _ H1). lia.
  - (* binaryLoop *)
    intros minPrec lhs p Hf. descend.
    destruct (negb (isBinaryOp p)) eqn:Eop;
      [apply returns_pair, further_suffix|].
    destruct (Precedence (currentBinaryOp p) <? minPrec);
      [apply returns_pair, further_suffix|].
    apply negb_false_iff in Eop. apply checkAny_current in Eop.
    assert (Hcur : Typ (current p) <> EOF).
    { intros E. rewrite E in Eop. simpl in Eop. intuition discriminate. }
    destruct (remaining_advance p Hcur) as [Hr Hr1].
    pose proof (further_advance p) as Ha.
    match goal with
    | |- context [parseBinaryExpr f ?a ?b] =>
        destruct (IHB a b) as (rhs & p2 & -> & H2); [lia|]
    end.
    descend.
    pose proof (further_trans _ _ _ Ha H2) as H02.
    destruct (isNil rhs).
    + apply returns_Some. exact (further_trans _ _ _ H02 (further_addError p2 _)).
    + apply (returns_further _ _ _ H02). apply IHL.
      pose proof (further_remaining _ _ H2). lia.
  - (* parseUnaryExpr *)
    intros p Hf. descend.
    destruct (checkAny p [MINUS; PLUS]) eqn:Esign.
    + apply checkAny_current in Esign.
      assert (Hcur : Typ (current p) <> EOF).
      { intros E. rewrite E in Esign. simpl in Esign. intuition discriminate. }
      destruct (remaining_advance p Hcur) as [Hr Hr1].
      pose proof (further_advance p) as Ha.
      destruct (IHU (snd (advance p))) as (e & p2 & -> & H2); [lia|]. descend.
      pose proof (further_trans _ _ _ Ha H2) as H02.
      destruct (isNil e); apply returns_Some; exact H02.
    + apply IHPo. lia.
  - (* parsePostfixExpr *)
    intros p Hf. descend.
    destruct (IHPr p) as (e & p1 & -> & H1); [lia|]. descend.
    destruct (isNil e); [apply returns_Some; exact H1|].
    destruct (check p1 OF) eqn:Eof; [|apply returns_Some; exact H1].
    assert (Hcur : Typ (current p1) <> EOF).
    { rewrite (check_current _ _ Eof). discriminate. }
    destruct (remaining_advance p1 Hcur) as [Hr Hr1].
    pose proof (further_advance p1) as Ha.
    pose proof (further_remaining _ _ H1) as Hle.
    destruct e; try (apply returns_Some; exact H1).
    destruct (IHU (snd (advance p1))) as (val & p3 & -> & H3); [lia|]. descend.
    pose proof (further_trans _ _ _ H1 (further_trans _ _ _ Ha H3)) as H03.
    destruct (isNil val).
    + apply returns_Some. exact (further_trans _ _ _ H03 (further_addError p3 _)).
    + apply returns_Some. exact H03.
  - (* parsePrimaryExpr *)
    intros p Hf. descend.
    destruct (Typ (current p)) eqn:Et;
      try (apply returns_Some; first [apply further_refl | apply further_addError]).
    + apply returns_pair, further_parseNumber.
    + apply returns_pair, further_parsePercent.
    + apply IHI; [congruence | lia].
    + apply IHG; [congruence | lia].
    + apply returns_pair, further_parseCurrencyWithSymbol.
    + apply returns_pair, further_parseCurrencyWithSymbol.
    + apply returns_pair, further_parseCurrencyWithSymbol.
    + apply returns_pair, further_parseCurrencyWithSymbol.
    + apply returns_pair, further_parseCurrencyWithSymbol.
    + apply returns_pair, further_parseCurrencyWithSymbol.
  - (* parseIdentifierOrValue *)
    intros p Hcur Hf. descend.
    destruct (remaining_advance p Hcur) as [Hr Hr1].
    pose proof (further_advance p) as Ha.
    destruct (check (snd (advance p)) LPAREN).
    + apply (returns_further _ _ _ Ha). apply IHC. lia.
    + destruct (_ || _); apply returns_Some; exact Ha.
  - (* parseFunctionCall *)
    intros name p Hf. descend.
    pose proof (further_advance p) as Ha.
    pose proof (further_remaining _ _ Ha) as Hle.
    assert (Hargs : returns (if negb (check (snd (advance p)) RPAREN)
                             then parseArgs f [] (snd (advance p))
                             else Some ([], snd (advance p)))
                      (snd (advance p))).
    { destruct (negb _); [apply IHA; lia | apply returns_Some, further_refl]. }
    destruct Hargs as (args & p2 & -> & H2). descend.
    apply returns_Some.
    exact (further_trans _ _ _ Ha (further_trans _ _ _ H2 (further_expect p2 _ _))).
  - (* parseArgs *)
    intros args p Hf. descend.
    destruct (IHB 0 p) as (arg & p1 & -> & H1); [lia|]. descend.
    pose proof (further_remaining _ _ H1) as Hle.
    unfold match_. destruct (check p1 COMMA) eqn:Ec; descend.
    + assert (Hcur : Typ (current p1) <> EOF).
      { rewrite (check_current _ _ Ec). discriminate. }
      destruct (remaining_advance p1 Hcur) as [Hr Hr1].
      apply (returns_further _ _ _ (further_trans _ _ _ H1 (further_advance p1))).
      apply IHA. lia.
    + apply returns_Some. exact H1.
  - (* parseGroupExpr *)
    intros p Hcur Hf. descend.
    destruct (remaining_advance p Hcur) as [Hr Hr1].
    pose proof (further_advance p) as Ha.
    destruct (IHB 0 (snd (advance p))) as (e & p2 & -> & H2); [lia|]. descend.
    pose proof (further_trans _ _ _ Ha H2) as H02.
    destruct (isNil e); simpl; apply returns_Some.
    + exact (further_trans _ _ _ H02
               (further_trans _ _ _ (further_addError p2 _) (further_expect _ _ _))).
    + exact (further_trans _ _ _ H02 (further_expect _ _ _)).
Qed.

Lemma remaining_le (p : Parser) :
  0 <= pos p -> remaining p <= Z.of_nat (length (tokens p)).
Proof. unfold remaining, ntokens. lia. Qed.

Lemma further_pos (p p' : Parser) : further p p' -> 0 <= pos p -> 0 <= pos p'.
Proof. intros [_ H]. lia. Qed.

Lemma parseExpression_returns (p : Parser) :
  0 <= pos p -> returns (parseExpression p) p.
Proof.
  intros Hp. unfold parseExpression, Parser.fuelOf.
  apply (descent_total (8 * length (tokens p) + 8)).
  pose proof (remaining_le p Hp). lia.
Qed.

Lemma parseStatement_returns (p : Parser) :
  0 <= pos p -> returns (parseStatement p) p.
Proof.
  intros Hp. unfold parseStatement.
  destruct (check p IDENTIFIER && Type_eqb (Typ (peek p)) EQUALS).
  { unfold parseAssignment.
    pose proof (further_advance p) as H1.
    destruct (advance p) as [tok p1]. simpl in H1. cbv zeta.
    pose proof (further_trans _ _ _ H1 (further_advance p1)) as H2.
    destruct (parseExpression_returns (snd (advance p1)))
      as (e & p3 & -> & H3); [exact (further_pos _ _ H2 Hp)|].
    simpl. pose proof (further_trans _ _ _ H2 H3) as H03.
    destruct (isNil e); apply returns_Some;
      [exact (further_trans _ _ _ H03 (further_addError p3 _)) | exact H03]. }
  destruct (checkAny p [PLUS; MINUS; STAR; SLASH; CARET; POWER]).
  { unfold parseContinuation, parseBinaryOp. cbv zeta.
    pose proof (further_advance p) as H1.
    destruct (parseExpression_returns (snd (advance p)))
      as (e & p2 & -> & H2); [exact (further_pos _ _ H1 Hp)|].
    simpl. pose proof (further_trans _ _ _ H1 H2) as H02.
    destruct (isNil e); apply returns_Some;
      [exact (further_trans _ _ _ H02 (further_addError p2 _)) | exact H02]. }
  destruct (check p IN).
  { apply returns_pair. unfold parseConversionContinuation. cbv zeta.
    pose proof (further_advance p) as H1.
    destruct (negb (check (snd (advance p)) IDENTIFIER)).
    - exact (further_trans _ _ _ H1 (further_addError _ _)).
    - pose proof (further_advance (snd (advance p))) as H2.
      destruct (advance (snd (advance p))) as [tok p2].
      exact (further_trans _ _ _ H1 H2). }
  destruct (parseExpression_returns p Hp) as (e & p1 & -> & H1). simpl.
  destruct (isNil e); apply returns_Some; exact H1.
Qed.

(** The loop of [parseLine] over the leading NEWLINE tokens. *)
Lemma skipNewlines_returns (fuel : nat) :
  forall p : Parser,
    remaining p <= Z.of_nat fuel
    -> exists p1,
         loop fuel (fun p => check p NEWLINE) (fun p => inr (snd (advance p))) p
           = Some p1
         /\ further p p1.
Proof.
  induction fuel as [|fuel IH]; intros p Hf.
  - simpl. destruct (check p NEWLINE) eqn:E.
    + assert (Hcur : Typ (current p) <> EOF).
      { rewrite (check_current _ _ E). discriminate. }
      destruct (remaining_advance p Hcur). lia.
    + exists p. split; [reflexivity | apply further_refl].
  - simpl. destruct (check p NEWLINE) eqn:E.
    + assert (Hcur : Typ (current p) <> EOF).
      { rewrite (check_current _ _ E). discriminate. }
      destruct (remaining_advance p Hcur) as [Hr Hr1].
      destruct (IH (snd (advance p))) as (p1 & Hl & H1); [lia|].
      exists p1. split; [exact Hl|].
      exact (further_trans _ _ _ (further_advance p) H1).
    + exists p. split; [reflexivity | apply further_refl].
Qed.

Lemma parseLine_returns (p : Parser) :
  0 <= pos p -> is_Some (parseLine p).
Proof.
  intros Hp. unfold parseLine.
  destruct (skipNewlines_returns (length (tokens p)) p (remaining_le p Hp))
    as (p1 & -> & H1).
  simpl. destruct (check p1 EOF); [eauto|].
  destruct (check p1 COMMENT).
  { destruct (advance p1); eauto. }
  destruct (parseStatement_returns p1 (further_pos _ _ H1 Hp))
    as (stmt & p2 & -> & H2).
  simpl. destruct (check p2 COMMENT); [destruct (advance p2)|]; eauto.
Qed.

(** [ParseLine] returns whenever the lexer does. *)
Lemma ParseLine_returns (inp : string) :
  is_Some (Lexer.Tokenize inp) -> is_Some (ParseLine inp).
Proof.
  intros [toks Ht]. unfold ParseLine, Parser.New. rewrite Ht. simpl.
  destruct (parseLine_returns (NewFromTokens toks)) as [[line p'] Hl];
    [simpl; lia|].
  rewrite Hl. simpl. eauto.
Qed.

End ParserTotal.

(** ** The preview returns *)

Section PreviewTotal.
Context `{std : GoStd} `{reg : Types.Registry} `{ord : Cache.MapOrder}.
Import Types Ast Evaluation.
Hypothesis letter0 : unicode_IsLetter 0 = false.

Lemma ParseLine_total (inp : string) : is_Some (Parser.ParseLine inp).
Proof. apply ParseLine_returns, Tokenize_returns, letter0. Qed.

Lemma specEval_returns (e : Env) (inp : string) : is_Some (specEval e inp).
Proof.
  unfold specEval. cbv zeta.
  destruct (String.eqb _ ""); [eauto|].
  destruct (_ || _); [eauto|].
  destruct (ParseLine_total inp) as [[line errs] ->]. simpl.
  destruct errs; eauto.
Qed.

Lemma specPreview_returns (e : Env) (cache : Cache.RateCache) (inp : string) :
  is_Some (specPreview e cache inp).
Proof.
  unfold specPreview. cbv zeta.
  destruct (String.eqb _ ""); [eauto|].
  destruct (ParseLine_total inp) as [[line errs] ->]. simpl.
  destruct errs; eauto.
Qed.

Lemma EvalPreview_returns (eng : Engine.Engine) (st : Store) (e : Env)
    (cache : Cache.RateCache) (inp : string) :
  load st (Engine.ctx (Engine.evaluator eng)) = Some e
  -> caches st !! Engine.rateCache eng = Some cache
  -> exists v st', Engine.EvalPreview eng inp st = Some (v, st').
Proof.
  intros Hl Hr. pose proof (EvalPreview_spec eng st e cache inp Hl Hr) as H.
  destruct (specPreview_returns e cache inp) as [v Hv]. rewrite Hv in H.
  destruct H as [st' H]. eauto.
Qed.

(** Every sequence of calls on a context that loads returns. *)
Lemma run_returns (eng : Engine.Engine) (calls : list Call) :
  forall (st : Store) (e : Env) (cache : Cache.RateCache),
    load st (Engine.ctx (Engine.evaluator eng)) = Some e
    -> caches st !! Engine.rateCache eng = Some cache
    -> is_Some (run eng calls st).
Proof.
  induction calls as [|k rest IH]; intros st e cache Hl Hr; [simpl; eauto|].
  simpl. destruct k as [inp|inp]; unfold call.
  - pose proof (Eval_spec eng st e inp Hl) as H.
    destruct (specEval_returns e inp) as [[v e'] Hv]. rewrite Hv in H.
    destruct H as (st' & -> & Hl' & Hc). cbn [mbind option_bind].
    rewrite <- Hc in Hr.
    destruct (IH st' e' cache Hl' Hr) as [[vs st2] ->]. simpl. eauto.
  - destruct (EvalPreview_returns eng st e cache inp Hl Hr) as (v & st' & Hp).
    rewrite Hp. cbn [mbind option_bind].
    pose proof (EvalPreview_extends _ _ _ _ _ Hp) as Hx.
    assert (Hr' : caches st' !! Engine.rateCache eng = Some cache)
      by (destruct Hx as (_ & _ & _ & <-); exact Hr).
    destruct (IH st' e cache (load_extends _ _ _ _ Hx Hl) Hr') as [[vs st2] ->].
    simpl. eauto.
Qed.

End PreviewTotal.

(** C6: on every input, and every store in which the context and the rate
    cache of the engine are there, [EvalPreview] returns and leaves every
    object of the store as it was: the context of the session holds the
    same variables, previous result and line history as before, and every
    sequence of later [Eval] and [EvalPreview] calls on the engine returns
    the answers it would have returned without the preview. *)
Theorem C6_preview_leaves_session `{std : GoStd} `{reg : Types.Registry}
    `{ord : Cache.MapOrder} (eng : Engine.Engine) (inp : string)
    (st : Evaluation.Store) (e : Evaluation.Env) (cache : Cache.RateCache) :
  unicode_IsLetter 0 = false
  -> Evaluation.load st (Engine.ctx (Engine.evaluator eng)) = Some e
  -> Evaluation.caches st !! Engine.rateCache eng = Some cache
  -> exists v st',
       Engine.EvalPreview eng inp st = Some (v, st')
       /\ extends st st'
       /\ Evaluation.load st' (Engine.ctx (Engine.evaluator eng)) = Some e
       /\ (forall c e', Evaluation.load st c = Some e'
                        -> Evaluation.load st' c = Some e')
       /\ (forall calls, exists vs,
             fst <$> run eng calls st = Some vs
             /\ fst <$> run eng calls st' = Some vs).
Proof.
  intros H0 Hl Hr.
  destruct (EvalPreview_returns H0 eng st e cache inp Hl Hr) as (v & st' & Hp).
  exists v, st'. split; [exact Hp|].
  destruct (EvalPreview_frame eng inp st st' v Hp) as (Hext & Hframe & Hrun).
  split; [exact Hext|]. split; [apply Hframe; exact Hl|].
  split; [exact Hframe|].
  intros calls. destruct (run_returns H0 eng calls st e cache Hl Hr) as [[vs st2] Hv].
  exists vs. rewrite (Hrun e cache calls Hl Hr), Hv. split; reflexivity.
Qed.

Definition sampleEnv : Evaluation.Env :=
  {| Evaluation.vars := ∅; Evaluation.prev := Types.Empty; Evaluation.hist := [];
     Evaluation.isStrict := false; Evaluation.prec := 2;
     Evaluation.rc := Some Cache.empty |}.

Lemma C6_witness :
  unicode_IsLetter (GoStd := Sample.std) 0 = false
  /\ Evaluation.load sampleStore 1%positive = Some sampleEnv
  /\ Evaluation.caches sampleStore !! 1%positive = Some Cache.empty
  /\ exists v st',
       Engine.EvalPreview (std := Sample.std) (reg := Sample.registry)
         (ord := Sample.order) sampleEngine "x = 2 + 3" sampleStore = Some (v, st')
       /\ Types.Num v = 5%float
       /\ Evaluation.load st' 1%positive = Some sampleEnv.
Proof.
  split; [reflexivity|]. split; [reflexivity|]. split; [reflexivity|].
  destruct (C6_preview_leaves_session (std := Sample.std) (reg := Sample.registry)
              (ord := Sample.order) sampleEngine "x = 2 + 3" sampleStore
              sampleEnv Cache.empty eq_refl eq_refl eq_refl)
    as (v & st' & Hp & _ & Hl & _).
  exists v, st'. split; [exact Hp|]. split; [|exact Hl].
  revert Hp. vm_compute. intros [= <- _]. reflexivity.
Defined.


(** * Further properties of the code *)

(** ** The context: variables *)

Section ContextVariables.
Context `{std : GoStd} `{reg : Types.Registry} `{ord : Cache.MapOrder}.
Import Types Ast Evaluation.

Lemma isSpecial_false (lower : string) :
  isSpecial lower = false ->
  (String.eqb lower "_" || String.eqb lower "ans") = false
  /\ String.eqb lower "total" = false.
Proof.
  unfold isSpecial. intros H. apply orb_false_iff in H as [H ->].
  rewrite H. auto.
Qed.

(** What [GetVariable] answers for a name that is not special. *)
Lemma GetVariable_plain (e : Env) (name : string) :
  isSpecial (strings_ToLower name) = false ->
  GetVariable e name =
    match vars e !! name with
    | Some v => (v, true)
    | None =>
        match vars e !! strings_ToLower name with
        | Some v => (v, true)
        | None => (zeroValue, false)
        end
    end.
Proof.
  intros H. apply isSpecial_false in H as [H1 H2].
  unfold GetVariable. cbv zeta. rewrite H1, H2. reflexivity.
Qed.

(** What [GetVariable] answers for a special name does not depend on the
    variables. *)
Lemma GetVariable_special_vars (e e' : Env) (n : string) :
  isSpecial (strings_ToLower n) = true -> prev e' = prev e -> hist e' = hist e
  -> GetVariable e' n = GetVariable e n.
Proof.
  intros Hs Hp Hh. unfold GetVariable, calculateTotal. cbv zeta. rewrite Hp, Hh.
  destruct (String.eqb (strings_ToLower n) "_"
            || String.eqb (strings_ToLower n) "ans") eqn:E; [reflexivity|].
  unfold isSpecial in Hs. rewrite E in Hs. simpl in Hs. rewrite Hs. reflexivity.
Qed.

(** X1: a variable that was set is read back: [GetVariable] answers the
    value under the name it was set under, and under every name whose
    lower-case form is the name it was set under, unless that name is a
    variable itself; the other names answer as before. In full: the
    special names read as before, any other name reads from the map with
    the new entry, under its own spelling first and under its lower-case
    spelling next, and nothing but the map changes. *)
Theorem X1_set_then_get_variable (st : Store) (c : ref) (e : Env)
    (name : string) (v : Value) :
  load st c = Some e ->
  isSpecial (strings_ToLower name) = false ->
  exists st' e',
    SetVariable st c name v = Some st'
    /\ load st' c = Some e'
    /\ GetVariable e' name = (v, true)
    /\ (forall n, strings_ToLower n = name -> isSpecial name = false
                  -> vars e !! n = None -> GetVariable e' n = (v, true))
    /\ (forall n, n <> name -> strings_ToLower n <> name
                  -> GetVariable e' n = GetVariable e n)
    /\ (forall n, isSpecial (strings_ToLower n) = true
                  -> GetVariable e' n = GetVariable e n)
    /\ (forall n, isSpecial (strings_ToLower n) = false
                  -> GetVariable e' n =
                       match (if String.eqb n name then Some v else vars e !! n) with
                       | Some w => (w, true)
                       | None =>
                           match (if String.eqb (strings_ToLower n) name then Some v
                                  else vars e !! strings_ToLower n) with
                           | Some w => (w, true)
                           | None => (zeroValue, false)
                           end
                       end)
    /\ vars e' = <[name := v]> (vars e)
    /\ prev e' = prev e /\ hist e' = hist e
    /\ rc e' = rc e /\ prec e' = prec e /\ isStrict e' = isStrict e.
Proof.
  intros Hl Hs.
  destruct (SetVariable_load st c e name v Hl) as (st' & Hset & Hl' & _).
  unfold envSetVariable in Hl'. rewrite Hs in Hl'.
  exists st', (env_with_vars e (<[name := v]> (vars e))).
  split; [exact Hset|]. split; [exact Hl'|]. split; [|split; [|split; [|split; [|split]]]].
  6:{ repeat split. }
  4:{ intros n Hn. apply GetVariable_special_vars; [exact Hn | reflexivity..]. }
  4:{ intros n Hn. rewrite GetVariable_plain by exact Hn. simpl.
      destruct (String.eqb n name) eqn:E1.
      - apply String.eqb_eq in E1. subst n. rewrite lookup_insert_eq. reflexivity.
      - apply String.eqb_neq in E1. rewrite lookup_insert_ne by congruence.
        destruct (String.eqb (strings_ToLower n) name) eqn:E2.
        + apply String.eqb_eq in E2. rewrite E2, lookup_insert_eq. reflexivity.
        + apply String.eqb_neq in E2. rewrite lookup_insert_ne by congruence.
          reflexivity. }
  - rewrite GetVariable_plain by exact Hs. simpl.
    rewrite lookup_insert_eq. reflexivity.
  - intros n Hn Hsn Hnone. rewrite GetVariable_plain by (rewrite Hn; exact Hsn).
    simpl. rewrite Hn. destruct (decide (n = name)) as [->|Hne].
    + rewrite lookup_insert_eq. reflexivity.
    + rewrite lookup_insert_ne by congruence. rewrite Hnone.
      rewrite lookup_insert_eq. reflexivity.
  - intros n Hne Hlow. unfold GetVariable. cbv zeta. simpl.
    rewrite !lookup_insert_ne by congruence. reflexivity.
Qed.

(** X2: [DeleteVariable] removes the entry of exactly that name from the
    map, whatever the name, and leaves the rest of the context alone. The
    special names read as before, also when it is one of them that was
    deleted. Any other name reads from the map without the entry: under
    its own spelling unless it is the deleted name, else under its
    lower-case spelling unless that is the deleted name. So the deleted
    name is found afterwards only through an entry under its lower-case
    spelling, a name whose lower-case spelling is the deleted name is found
    only through its own entry, and all other names read as before. *)
Theorem X2_delete_variable (st : Store) (c : ref) (e : Env) (name : string) :
  load st c = Some e ->
  exists st' e',
    DeleteVariable st c name = Some st'
    /\ load st' c = Some e'
    /\ vars e' = delete name (vars e)
    /\ prev e' = prev e /\ hist e' = hist e
    /\ rc e' = rc e /\ prec e' = prec e /\ isStrict e' = isStrict e
    /\ (forall n, isSpecial (strings_ToLower n) = true
                  -> GetVariable e' n = GetVariable e n)
    /\ (forall n, isSpecial (strings_ToLower n) = false
                  -> GetVariable e' n =
                       match (if String.eqb n name then None else vars e !! n) with
                       | Some v => (v, true)
                       | None =>
                           match (if String.eqb (strings_ToLower n) name then None
                                  else vars e !! strings_ToLower n) with
                           | Some v => (v, true)
                           | None => (zeroValue, false)
                           end
                       end)
    /\ (isSpecial (strings_ToLower name) = false
        -> strings_ToLower name = name \/ vars e !! strings_ToLower name = None
        -> GetVariable e' name = (zeroValue, false))
    /\ (forall n, n <> name -> strings_ToLower n <> name
                  -> GetVariable e' n = GetVariable e n).
Proof.
  intros Hl. apply load_Some in Hl as (x & m & h & r & Hx & Hm & Hh & Hr & ->).
  unfold DeleteVariable. rewrite Hx. simpl. rewrite Hm. simpl.
  eexists _, {| vars := delete name m; prev := previous x; hist := h;
                isStrict := strict x; prec := precision x; rc := r |}.
  split; [reflexivity|]. split.
  { apply load_Some. exists x, (delete name m), h, r. simpl.
    rewrite lookup_insert_eq. auto. }
  split; [reflexivity|]. split; [reflexivity|]. split; [reflexivity|].
  split; [reflexivity|]. split; [reflexivity|]. split; [reflexivity|].
  split; [|split; [|split]].
  - intros n Hs. apply GetVariable_special_vars; [exact Hs | reflexivity..].
  - intros n Hs. rewrite GetVariable_plain by exact Hs. simpl.
    destruct (String.eqb n name) eqn:E1.
    + apply String.eqb_eq in E1. subst n. rewrite lookup_delete_eq.
      destruct (String.eqb (strings_ToLower name) name) eqn:E2.
      * apply String.eqb_eq in E2. rewrite E2, lookup_delete_eq. reflexivity.
      * apply String.eqb_neq in E2. rewrite lookup_delete_ne by congruence.
        reflexivity.
    + apply String.eqb_neq in E1. rewrite lookup_delete_ne by congruence.
      destruct (String.eqb (strings_ToLower n) name) eqn:E2.
      * apply String.eqb_eq in E2. rewrite E2, lookup_delete_eq. reflexivity.
      * apply String.eqb_neq in E2. rewrite lookup_delete_ne by congruence.
        reflexivity.
  - intros Hs Hlow. rewrite GetVariable_plain by exact Hs. simpl.
    rewrite lookup_delete_eq.
    destruct Hlow as [-> | Hnone]; [rewrite lookup_delete_eq; reflexivity|].
    destruct (decide (strings_ToLower name = name)) as [->|Hne].
    + rewrite lookup_delete_eq. reflexivity.
    + rewrite lookup_delete_ne by congruence. rewrite Hnone. reflexivity.
  - intros n Hne Hlow. unfold GetVariable. cbv zeta. simpl.
    rewrite !lookup_delete_ne by congruence. reflexivity.
Qed.

(** X3: [Clear] empties the variables, the previous result and the line
    history, and keeps the rate cache and the settings: afterwards no name
    is found but "total", which is the number 0. *)
Theorem X3_clear_resets_session (st : Store) (c : ref) (e : Env) :
  load st c = Some e ->
  exists st' e',
    Clear st c = Some st'
    /\ load st' c = Some e'
    /\ vars e' = ∅ /\ prev e' = Empty /\ hist e' = []
    /\ rc e' = rc e /\ prec e' = prec e /\ isStrict e' = isStrict e
    /\ (forall name,
          GetVariable e' name =
            if String.eqb (strings_ToLower name) "_"
               || String.eqb (strings_ToLower name) "ans"
            then (Empty, false)
            else if String.eqb (strings_ToLower name) "total"
            then (Number 0, true)
            else (zeroValue, false)).
Proof.
  intros Hl. apply load_Some in Hl as (x & m & h & r & Hx & Hm & Hh & Hr & ->).
  unfold Clear. rewrite Hx. simpl.
  eexists _, {| vars := ∅; prev := Empty; hist := []; isStrict := strict x;
                prec := precision x; rc := r |}.
  split; [reflexivity|]. split.
  { apply load_Some. eexists _, ∅, [], r. simpl.
    rewrite lookup_insert_eq. split; [reflexivity|]. simpl.
    rewrite lookup_insert_eq. split; [reflexivity|].
    split; [reflexivity|]. split; [|reflexivity].
    unfold loadCache in *. simpl. exact Hr. }
  repeat (split; [reflexivity|]).
  intros name. unfold GetVariable. cbv zeta. simpl.
  destruct (_ || _); [reflexivity|].
  destruct (String.eqb _ "total"); [reflexivity|].
  rewrite !lookup_empty. reflexivity.
Qed.

End ContextVariables.

(** ** The context: the line history *)

Section ContextLines.
Context `{std : GoStd} `{reg : Types.Registry} `{ord : Cache.MapOrder}.
Import Types Ast Evaluation.

Lemma LastLine_snoc (e : Env) (lr : LineResult) :
  LastLine (envAddLineResult e lr) =
    if isValidLine lr then (lr, true) else LastLine e.
Proof.
  unfold LastLine, envAddLineResult. simpl. rewrite rev_unit. simpl.
  destruct (isValidLine lr); reflexivity.
Qed.

Lemma calculateTotal_snoc (e : Env) (lr : LineResult) :
  calculateTotal (envAddLineResult e lr) =
    if IsConsumed lr then calculateTotal e
    else if IsNumeric (LValue lr)
    then Number (Num (calculateTotal e) + AsFloat (LValue lr))%float
    else calculateTotal e.
Proof.
  unfold calculateTotal, envAddLineResult. simpl. rewrite fold_left_app. simpl.
  destruct (IsConsumed lr); [reflexivity|].
  destruct (IsNumeric (LValue lr)); reflexivity.
Qed.

(** X4: [AddLineResult] appends the line to the history and changes nothing
    else of the context (variables, previous result, rate cache, precision
    and strict flag stay); [LastLine] then
    answers that line when its value is neither empty nor an error, and
    the line it answered before otherwise; the running total grows by the
    value of the line when the line is numeric and not consumed, and stays
    as it was otherwise. *)
Theorem X4_add_line_then_last_line (st : Store) (c : ref) (e : Env)
    (lr : LineResult) :
  load st c = Some e ->
  exists st' e',
    AddLineResult st c lr = Some st'
    /\ load st' c = Some e'
    /\ hist e' = (hist e ++ [lr])%list
    /\ vars e' = vars e /\ prev e' = prev e
    /\ LastLine e' = (if isValidLine lr then (lr, true) else LastLine e)
    /\ calculateTotal e' =
         (if IsConsumed lr then calculateTotal e
          else if IsNumeric (LValue lr)
          then Number (Num (calculateTotal e) + AsFloat (LValue lr))%float
          else calculateTotal e)
    /\ rc e' = rc e /\ prec e' = prec e /\ isStrict e' = isStrict e.
Proof.
  intros Hl. destruct (AddLineResult_load st c e lr Hl) as (st' & Ha & Hl' & _).
  exists st', (envAddLineResult e lr).
  split; [exact Ha|]. split; [exact Hl'|].
  split; [reflexivity|]. split; [reflexivity|]. split; [reflexivity|].
  split; [apply LastLine_snoc|]. split; [apply calculateTotal_snoc|].
  repeat split.
Qed.

(** The line [name = expr]. *)
Definition assignLine (name : string) (expr : Expr) (raw : string) : Line :=
  {| LStmt := AssignStmt name expr; Comment := ""; Raw := raw |}.

(** X5: a line [name = expr] whose expression evaluates without error
    answers the value; the value is the previous result afterwards (unless
    it is empty), and the history has one line more, which records the
    name. For a name that is not special the value is stored under the
    name, and only there, and evaluating the name afterwards gives that
    value. For "_", "ans" and "total" in any case nothing is stored: the
    variables stay as they are, and "total" evaluates afterwards to the
    running total, which now counts the new line. *)
Theorem X5_assignment_defines_variable (st : Store) (c : ref) (e : Env)
    (name raw : string) (expr : Expr) :
  load st c = Some e ->
  IsError (evalExpr e expr) = false ->
  exists st' e',
    EvalLine st c (assignLine name expr raw) = Some (evalExpr e expr, st')
    /\ load st' c = Some e'
    /\ vars e' = (if isSpecial (strings_ToLower name) then vars e
                  else <[name := evalExpr e expr]> (vars e))
    /\ (isSpecial (strings_ToLower name) = false
        -> evalExpr e' (Identifier name) = evalExpr e expr)
    /\ (String.eqb (strings_ToLower name) "total" = true
        -> evalExpr e' (Identifier name) = calculateTotal e')
    /\ (IsEmpty (evalExpr e expr) = false -> prev e' = evalExpr e expr)
    /\ hist e' = (hist e ++ [{| Input := raw; LValue := evalExpr e expr;
                                IsConsumed := false; IsContinuation := false;
                                AssignedVar := name |}])%list.
Proof.
  intros Hl Herr.
  destruct (EvalLine_load st c e (assignLine name expr raw) Hl)
    as (st' & He & Hl' & _).
  unfold envEvalLine, assignLine in He, Hl'. simpl in He, Hl'.
  rewrite Herr in He, Hl'. simpl in He, Hl'.
  eexists st', _. split; [exact He|]. split; [exact Hl'|].
  assert (Htotal : forall e0, String.eqb (strings_ToLower name) "total" = true
                     -> evalExpr e0 (Identifier name) = calculateTotal e0).
  { intros e0 Ht. simpl. unfold evalIdentifier, GetVariable. cbv zeta.
    apply String.eqb_eq in Ht. rewrite Ht. reflexivity. }
  split.
  { unfold envSetPrevious, envSetVariable.
    destruct (isSpecial (strings_ToLower name));
      destruct (negb (IsEmpty (evalExpr e expr)) && negb (IsError (evalExpr e expr)));
      reflexivity. }
  split.
  { intros Hs. unfold envSetVariable. rewrite Hs.
    simpl. unfold evalIdentifier. rewrite GetVariable_plain by exact Hs.
    unfold envSetPrevious.
    destruct (negb (IsEmpty (evalExpr e expr)) && negb (IsError (evalExpr e expr)));
      simpl; rewrite lookup_insert_eq; reflexivity. }
  split; [apply Htotal|].
  unfold envSetPrevious. rewrite Herr.
  destruct (IsEmpty (evalExpr e expr)) eqn:Hemp; simpl.
  - split; [discriminate|].
    unfold envSetVariable. destruct (isSpecial (strings_ToLower name)); reflexivity.
  - split; [reflexivity|].
    unfold envSetVariable. destruct (isSpecial (strings_ToLower name)); reflexivity.
Qed.

(** X6: a line whose expression evaluates to an error changes neither the
    variables nor the previous result nor the settings: an assignment
    defines nothing; the error is recorded in the history as one new line,
    where the last valid line and the running total pass over it. *)
Theorem X6_error_line_keeps_state (st : Store) (c : ref) (e : Env)
    (stmt : Stmt) (expr : Expr) (raw cmt : string) :
  load st c = Some e ->
  (stmt = ExprStmt expr /\ isContinuationStmt stmt = false)
  \/ (exists name, stmt = AssignStmt name expr) ->
  IsError (evalExpr e expr) = true ->
  exists st' e',
    EvalLine st c {| LStmt := stmt; Comment := cmt; Raw := raw |}
      = Some (evalExpr e expr, st')
    /\ load st' c = Some e'
    /\ vars e' = vars e /\ prev e' = prev e
    /\ length (hist e') = S (length (hist e))
    /\ LastLine e' = LastLine e
    /\ calculateTotal e' = calculateTotal e
    /\ hist e' = (hist e ++ [{| Input := raw; LValue := evalExpr e expr;
                                IsConsumed := false; IsContinuation := false;
                                AssignedVar :=
                                  match stmt with
                                  | AssignStmt name _ => name
                                  | _ => ""
                                  end |}])%list
    /\ rc e' = rc e /\ prec e' = prec e /\ isStrict e' = isStrict e.
Proof.
  intros Hl Hstmt Herr.
  destruct (EvalLine_load st c e {| LStmt := stmt; Comment := cmt; Raw := raw |} Hl)
    as (st' & He & Hl' & _).
  assert (Hnum : IsNumeric (evalExpr e expr) = false).
  { unfold IsError in Herr. unfold IsNumeric.
    destruct (Kind (evalExpr e expr)); try discriminate; reflexivity. }
  assert (Hval : forall cont av,
             isValidLine {| Input := raw; LValue := evalExpr e expr;
                            IsConsumed := false; IsContinuation := cont;
                            AssignedVar := av |} = false).
  { intros. unfold isValidLine. simpl. rewrite Herr. apply andb_false_r. }
  destruct Hstmt as [[-> Hc] | [name ->]].
  - unfold envEvalLine in He, Hl'.
    cbn [LStmt Raw envEvalStmt fst snd] in He, Hl'. rewrite Hc in Hl'.
    unfold envSetPrevious in Hl'. rewrite Herr, andb_false_r in Hl'.
    eexists st', _. split; [exact He|]. split; [exact Hl'|].
    split; [reflexivity|]. split; [reflexivity|].
    split; [simpl; rewrite length_app; simpl; lia|].
    rewrite LastLine_snoc, calculateTotal_snoc, Hval. simpl. rewrite Hnum.
    repeat split.
  - unfold envEvalLine in He, Hl'. simpl in He, Hl'.
    rewrite Herr in He, Hl'. simpl in He, Hl'.
    unfold envSetPrevious in Hl'. rewrite Herr, andb_false_r in Hl'.
    eexists st', _. split; [exact He|]. split; [exact Hl'|].
    split; [reflexivity|]. split; [reflexivity|].
    split; [simpl; rewrite length_app; simpl; lia|].
    rewrite LastLine_snoc, calculateTotal_snoc, Hval. simpl. rewrite Hnum.
    repeat split.
Qed.

End ContextLines.

(** ** The rate cache: what a search finds *)

Lemma SFmul_comm (x y : spec_float) :
  SFmul prec emax x y = SFmul prec emax y x.
Proof.
  destruct x as [sx|sx| |sx mx ex], y as [sy|sy| |sy my ey];
    cbn [SFmul]; try reflexivity;
    try (rewrite (xorb_comm sx sy); reflexivity).
  rewrite (xorb_comm sx sy), (Pos.mul_comm mx my), (Z.add_comm ex ey).
  reflexivity.
Qed.

Lemma float_mul_1_r (x : float) : (x * 1)%float = x.
Proof.
  rewrite <- (float_mul_1_l x) at 2.
  apply Prim2SF_inj. rewrite !FloatAxioms.mul_spec. apply SFmul_comm.
Qed.

Section CacheSearch.
Context `{std : GoStd} `{ord : Cache.MapOrder}.
Import Cache.

(** [pathRate tbl from x r]: a chain of stored rates leads from [from] to
    [x], and [r] is the product of its rates, multiplied up from 1.0 in the
    order of the chain. *)
Inductive pathRate (tbl : gmap (string * string) float) (from : string)
    : string -> float -> Prop :=
  | path_here : pathRate tbl from from 1%float
  | path_step (x y : string) (r r0 : float) :
      pathRate tbl from x r -> tbl !! (x, y) = Some r0
      -> pathRate tbl from y (r * r0)%float.

(** One enumeration of the table for the dequeued entry [cur]. *)
Lemma scanRates_queue (to : string) (cur : queueEntry)
    (entries : list (ratePair * float)) :
  forall (v v' : gset string) (q q' : list queueEntry),
    scanRates to cur entries v q = inr (v', q') ->
    exists new,
      q' = (q ++ new)%list
      /\ v ⊆ v'
      /\ (forall x, x ∈ v' -> x ∈ v \/ exists n, n ∈ new /\ currency n = x)
      /\ (forall p r0, (p, r0) ∈ entries -> From p = currency cur
                       -> To p <> to /\ To p ∈ v')
      /\ Forall (fun n => currency n <> to /\
                   exists p r0, (p, r0) ∈ entries /\ From p = currency cur
                     /\ To p = currency n /\ rate n = (rate cur * r0)%float) new.
Proof.
  induction entries as [|[p r0] rest IH]; intros v v' q q'; simpl.
  - intros [= <- <-]. exists []. rewrite app_nil_r.
    split; [reflexivity|]. split; [set_solver|]. split; [auto|].
    split; [|constructor]. intros p r0 Hin. inversion Hin.
  - destruct (String.eqb (From p) (currency cur)) eqn:Ef; simpl.
    + destruct (String.eqb (To p) to) eqn:Et; [discriminate|].
      apply String.eqb_neq in Et. apply String.eqb_eq in Ef.
      destruct (bool_decide (To p ∈ v)) eqn:Ev.
      * apply bool_decide_eq_true in Ev. intros Hs.
        destruct (IH _ _ _ _ Hs) as (new & -> & Hsub & Hv' & Hall & Hnew).
        exists new. split; [reflexivity|]. split; [exact Hsub|].
        split; [exact Hv'|]. split.
        -- intros p' r' Hin Hf. apply elem_of_cons in Hin as [[= -> ->] | Hin].
           ++ split; [exact Et | apply Hsub; exact Ev].
           ++ apply (Hall _ _ Hin Hf).
        -- eapply Forall_impl; [exact Hnew|].
           intros n (Hn & p' & r' & Hin & Hrest). split; [exact Hn|].
           exists p', r'. split; [right; exact Hin | exact Hrest].
      * apply bool_decide_eq_false in Ev. intros Hs.
        destruct (IH _ _ _ _ Hs) as (new & -> & Hsub & Hv' & Hall & Hnew).
        exists ({| currency := To p; rate := (rate cur * r0)%float |} :: new).
        split; [rewrite <- app_assoc; reflexivity|].
        split; [intros z Hz; apply Hsub, elem_of_union_r, Hz|]. split; [|split].
        -- intros x Hx. destruct (Hv' x Hx) as [Hin | (n & Hn & <-)].
           ++ apply elem_of_union in Hin as [Hin | Hin]; [|left; exact Hin].
              apply elem_of_singleton in Hin. subst x. right.
              eexists. split; [left|]. reflexivity.
           ++ right. exists n. split; [right; exact Hn | reflexivity].
        -- intros p' r' Hin Hf. apply elem_of_cons in Hin as [[= -> ->] | Hin].
           ++ split; [exact Et|].
              apply Hsub, elem_of_union_l, elem_of_singleton. reflexivity.
           ++ apply (Hall _ _ Hin Hf).
        -- constructor.
           ++ simpl. split; [exact Et|]. exists p, r0.
              split; [left|]; auto.
           ++ eapply Forall_impl; [exact Hnew|].
              intros n (Hn & p' & r' & Hin & Hrest). split; [exact Hn|].
              exists p', r'. split; [right; exact Hin | exact Hrest].
    + intros Hs.
      destruct (IH _ _ _ _ Hs) as (new & -> & Hsub & Hv' & Hall & Hnew).
      exists new. split; [reflexivity|]. split; [exact Hsub|].
      split; [exact Hv'|]. split.
      * intros p' r' Hin Hf. apply elem_of_cons in Hin as [[= -> ->] | Hin].
        -- apply String.eqb_neq in Ef. congruence.
        -- apply (Hall _ _ Hin Hf).
      * eapply Forall_impl; [exact Hnew|].
        intros n (Hn & p' & r' & Hin & Hrest). split; [exact Hn|].
        exists p', r'. split; [right; exact Hin | exact Hrest].
Qed.

(** A rate the search returns is the product along a chain. *)
Lemma bfsLoop_path (tbl : gmap (string * string) float) (from to : string) :
  forall (fuel k : nat) (visited : gset string) (queue : list queueEntry)
         (r : float),
    Forall (fun n => pathRate tbl from (currency n) (rate n)) queue ->
    bfsLoop fuel k tbl to visited queue = Some (r, true) ->
    pathRate tbl from to r.
Proof.
  induction fuel as [|fuel IH]; intros k visited queue r Hq; simpl; [discriminate|].
  destruct queue as [|cur queue']; [discriminate|].
  inversion Hq as [|? ? Hcur Hq']; subst.
  destruct (scanRates to cur (range_rates k tbl) visited queue') as [r1|[v' q']] eqn:Hs.
  - intros [= <-]. apply scanRates_inl in Hs as (p & r0 & Hin & Hf & Ht & ->).
    apply range_rates_elem in Hin. destruct p as [a b]. simpl in Hf, Ht. subst a b.
    eapply path_step; eassumption.
  - apply scanRates_queue in Hs as (new & -> & _ & _ & _ & Hnew).
    apply IH. apply Forall_app. split; [exact Hq'|].
    eapply Forall_impl; [exact Hnew|].
    intros n (_ & p & r0 & Hin & Hf & Ht & Hr).
    apply range_rates_elem in Hin. destruct p as [a b]. simpl in Hf, Ht. subst a b.
    rewrite Hr. eapply path_step; eassumption.
Qed.

(** A search that gives up has visited a set of codes that is closed
    under the stored pairs and does not hold the target. *)
Lemma bfsLoop_closed (tbl : gmap (string * string) float) (from to : string) :
  forall (fuel k : nat) (visited : gset string) (queue : list queueEntry)
         (res : float * bool),
    to ∉ visited ->
    (forall x, x ∈ visited ->
       (exists n, n ∈ queue /\ currency n = x)
       \/ (forall y, edge tbl x y -> y ∈ visited)) ->
    bfsLoop fuel k tbl to visited queue = Some res -> snd res = false ->
    exists V : gset string,
      visited ⊆ V /\ (to ∉ V) /\ (forall x y, x ∈ V -> edge tbl x y -> y ∈ V).
Proof.
  induction fuel as [|fuel IH]; intros k visited queue res Hto Hinv; simpl;
    [discriminate|].
  destruct queue as [|cur queue'].
  - intros _ _. exists visited. split; [set_solver|]. split; [exact Hto|].
    intros x y Hx He. destruct (Hinv x Hx) as [(n & Hn & _) | Hc]; [inversion Hn|].
    apply Hc. exact He.
  - destruct (scanRates to cur (range_rates k tbl) visited queue') as [r1|[v' q']] eqn:Hs.
    + intros [= <-]. discriminate.
    + apply scanRates_queue in Hs as (new & -> & Hsub & Hv' & Hall & Hnew).
      intros Hres Hfalse.
      destruct (IH (S k) v' (queue' ++ new)%list res) as (V & HV & HtoV & Hclosed);
        try assumption.
      * intros Hin. destruct (Hv' to Hin) as [? | (n & Hn & Hc)]; [auto|].
        rewrite Forall_forall in Hnew. destruct (Hnew n Hn) as [Hne _]. auto.
      * intros x Hx. destruct (Hv' x Hx) as [Hxv | (n & Hn & Hc)].
        -- destruct (Hinv x Hxv) as [(n & Hn & Hc) | Hc].
           ++ apply elem_of_cons in Hn as [-> | Hn].
              ** right. intros y [r0 He].
                 assert (Hin : ((x, y), r0) ∈ range_rates k tbl)
                   by (apply range_rates_elem; exact He).
                 apply (Hall _ _ Hin). simpl. congruence.
              ** left. exists n. split; [|exact Hc].
                 apply elem_of_app. left. exact Hn.
           ++ right. intros y He. apply Hsub. apply Hc. exact He.
        -- left. exists n. split; [|exact Hc]. apply elem_of_app. right. exact Hn.
      * exists V. split; [intros z Hz; apply HV, Hsub, Hz | auto].
Qed.

(** X7: what [SetRate] stores, [GetRate] finds: the rate itself for the
    pair, and its reciprocal for the swapped pair when the rate is not
    zero; the codes are compared in upper case. *)
Theorem X7_set_rate_then_get_rate (c : RateCache) (from to : string)
    (r : float) :
  strings_ToUpper from <> strings_ToUpper to ->
  GetRate (SetRate c from to r) from to = (r, true)
  /\ (fneq r 0 = true
      -> GetRate (SetRate c from to r) to from = ((1 / r)%float, true)).
Proof.
  intros Hne. split.
  - unfold GetRate. apply String.eqb_neq in Hne. rewrite Hne.
    unfold SetRate, storeBoth. simpl.
    destruct (fneq r 0).
    + apply String.eqb_neq in Hne.
      rewrite lookup_insert_ne by congruence. rewrite lookup_insert_eq. reflexivity.
    + rewrite lookup_insert_eq. reflexivity.
  - intros Hr. unfold GetRate.
    assert (Hne' : strings_ToUpper to <> strings_ToUpper from) by congruence.
    apply String.eqb_neq in Hne'. rewrite Hne'.
    unfold SetRate, storeBoth. simpl. rewrite Hr.
    rewrite lookup_insert_eq. reflexivity.
Qed.

Lemma pathRate_connected (tbl : gmap (string * string) float)
    (from x : string) (r : float) :
  pathRate tbl from x r -> connected tbl from x.
Proof.
  induction 1 as [|x y r r0 _ IH He]; [apply rtc_refl|].
  eapply rtc_r; [exact IH|]. unfold edge. rewrite He. eauto.
Qed.

(** X8: a rate that [GetRate] finds is the product of the stored rates
    along a chain of pairs that leads from the one code to the other (the
    empty chain for equal codes, one pair for a stored rate). *)
Theorem X8_found_rate_is_chain_product (c : RateCache) (from to : string)
    (r : float) :
  GetRate c from to = (r, true) ->
  pathRate (rates c) (strings_ToUpper from) (strings_ToUpper to) r.
Proof.
  unfold GetRate.
  destruct (String.eqb (strings_ToUpper from) (strings_ToUpper to)) eqn:E.
  { apply String.eqb_eq in E. rewrite <- E. intros [= <-]. constructor. }
  destruct (rates c !! (strings_ToUpper from, strings_ToUpper to)) as [r0|] eqn:Hd.
  { intros [= <-]. rewrite <- (float_mul_1_l r0).
    eapply path_step; [constructor | exact Hd]. }
  destruct (bfsLoop_total c (strings_ToUpper from) (strings_ToUpper to))
    as (res & Hres & -> & _). intros ->.
  eapply bfsLoop_path; [|exact Hres].
  constructor; [constructor | constructor].
Qed.

(** A chain of stored pairs is found. *)
Lemma GetRate_connected (c : RateCache) (from to : string) :
  connected (rates c) (strings_ToUpper from) (strings_ToUpper to)
  -> snd (GetRate c from to) = true.
Proof.
  intros Hc. destruct (snd (GetRate c from to)) eqn:E; [reflexivity|].
  exfalso. destruct (GetRate c from to) as [r ok] eqn:Hg. simpl in E. subst ok.
  revert Hg. unfold GetRate.
  destruct (String.eqb (strings_ToUpper from) (strings_ToUpper to)) eqn:E;
    [discriminate|].
  destruct (rates c !! (strings_ToUpper from, strings_ToUpper to)) eqn:Hd;
    [discriminate|].
  destruct (bfsLoop_total c (strings_ToUpper from) (strings_ToUpper to))
    as (res & Hres & -> & _).
  intros Hs. assert (Hs' : snd res = false) by (rewrite Hs; reflexivity).
  apply String.eqb_neq in E.
  assert (Hto : strings_ToUpper to ∉ ({[strings_ToUpper from]} : gset string)).
  { intros Hin. apply elem_of_singleton in Hin. congruence. }
  assert (Hinv : forall x, x ∈ ({[strings_ToUpper from]} : gset string) ->
            (exists n, n ∈ [{| currency := strings_ToUpper from; rate := 1%float |}]
                       /\ currency n = x)
            \/ (forall y, edge (rates c) x y
                          -> y ∈ ({[strings_ToUpper from]} : gset string))).
  { intros x Hx. apply elem_of_singleton in Hx. subst x. left.
    eexists. split; [left|]. reflexivity. }
  destruct (bfsLoop_closed (rates c) (strings_ToUpper from) (strings_ToUpper to)
              _ _ _ _ res Hto Hinv Hres Hs') as (V & HV & HtoV & Hclosed).
  apply HtoV.
  assert (Hfrom : strings_ToUpper from ∈ V)
    by (apply HV, elem_of_singleton; reflexivity).
  revert Hfrom. clear -Hc Hclosed. induction Hc as [x | x y z Hxy _ IH].
  - auto.
  - intros Hx. apply IH. eapply Hclosed; eassumption.
Qed.

(** X9: [GetRate] finds a rate exactly when a chain of stored pairs leads
    from the one code to the other: the search misses no chain. *)
Theorem X9_rate_found_iff_connected (c : RateCache) (from to : string) :
  snd (GetRate c from to) = true
  <-> connected (rates c) (strings_ToUpper from) (strings_ToUpper to).
Proof.
  split.
  - unfold GetRate.
    destruct (String.eqb (strings_ToUpper from) (strings_ToUpper to)) eqn:E.
    { intros _. apply String.eqb_eq in E. rewrite E. apply rtc_refl. }
    destruct (rates c !! (strings_ToUpper from, strings_ToUpper to)) eqn:Hd.
    { intros _. apply rtc_once. unfold edge. rewrite Hd. eauto. }
    destruct (bfsLoop_total c (strings_ToUpper from) (strings_ToUpper to))
      as (res & _ & -> & Hfound & _). exact Hfound.
  - apply GetRate_connected.
Qed.

(** X10: [Clear] forgets every rate, the defaults too: afterwards
    [GetRate] finds 1.0 for equal codes and nothing else. *)
Theorem X10_clear_forgets_all_rates (c : RateCache) (from to : string) :
  GetRate (Clear c) from to =
    if String.eqb (strings_ToUpper from) (strings_ToUpper to)
    then (1%float, true) else (0%float, false).
Proof.
  destruct (String.eqb (strings_ToUpper from) (strings_ToUpper to)) eqn:E.
  - unfold GetRate. rewrite E. reflexivity.
  - apply GetRate_unreachable. apply not_connected_empty.
    apply String.eqb_neq. exact E.
Qed.

(** X11: converting an amount into its own currency, the codes compared
    in upper case, gives the amount itself, bit for bit, whatever rates the
    cache holds. *)
Theorem X11_convert_same_currency (c : RateCache) (amount : float)
    (from to : string) :
  strings_ToUpper from = strings_ToUpper to
  -> Convert c amount from to = (amount, true).
Proof.
  intros E. unfold Convert, GetRate. apply String.eqb_eq in E. rewrite E. simpl.
  rewrite float_mul_1_r. reflexivity.
Qed.

(** X12: [ConvertValue] either converts, and then the value it answers is
    no error and the value converted was a currency, crypto or metal
    amount, or it answers the value it was given, unchanged, and false. *)
Theorem X12_convert_value_or_unchanged `{reg : Types.Registry}
    (c : RateCache) (v : Types.Value) (target : string) :
  ConvertValue c v target = (v, false)
  \/ (snd (ConvertValue c v target) = true
      /\ Types.IsError (fst (ConvertValue c v target)) = false
      /\ Types.IsError v = false
      /\ (Types.Kind v = Types.ValueCurrency \/ Types.Kind v = Types.ValueCrypto
          \/ Types.Kind v = Types.ValueMetal)).
Proof.
  unfold ConvertValue.
  destruct (Types.IsError v || Types.IsEmpty v) eqn:Hee; [left; reflexivity|].
  apply orb_false_iff in Hee as [Herr _].
  destruct (Types.Kind v) eqn:Hk; try (left; reflexivity).
  - destruct (Types.Curr v) as [curr|]; [|left; reflexivity].
    destruct (Convert c (Types.Num v) (Types.CurrCode curr) (strings_ToUpper target))
      as [converted ok].
    destruct ok; simpl; [|left; reflexivity]. right. auto 6.
  - destruct (Types.MetalP v) as [metal|]; [|left; reflexivity].
    destruct (Convert c (Types.Num v) (Types.MetalCode metal) (strings_ToUpper target))
      as [converted ok].
    destruct ok; simpl; [|left; reflexivity]. right.
    destruct (Types.ParseCurrency _); simpl; auto 6.
  - destruct (Types.CryptoP v) as [crypto|]; [|left; reflexivity].
    destruct (Convert c (Types.Num v) (Types.CryptoCode crypto) (strings_ToUpper target))
      as [converted ok].
    destruct ok; simpl; [|left; reflexivity]. right.
    destruct (Types.ParseCrypto _); simpl; [auto 6|].
    destruct (Types.ParseCurrency _); simpl; auto 6.
Qed.

End CacheSearch.

(** ** Values and the evaluator: signs, errors, functions *)

Lemma float_opp_involutive (x : float) : (- - x)%float = x.
Proof.
  apply Prim2SF_inj. rewrite !FloatAxioms.opp_spec.
  destruct (Prim2SF x) as [s|s| |s m e]; simpl; try reflexivity;
    rewrite negb_involutive; reflexivity.
Qed.

(** X13: [Negate] changes the sign of the amount and nothing else, leaves
    an error and the empty value as they are, and undoes itself. *)
Theorem X13_negate_involution (v : Types.Value) :
  Types.Negate (Types.Negate v) = v
  /\ sameType (Types.Negate v) v
  /\ Types.Err (Types.Negate v) = Types.Err v
  /\ Types.Num (Types.Negate v) =
       (if Types.IsError v || Types.IsEmpty v then Types.Num v
        else - Types.Num v)%float.
Proof.
  unfold Types.Negate.
  destruct (Types.IsError v || Types.IsEmpty v) eqn:E.
  - rewrite E. repeat split.
  - change (Types.IsError (Types.WithAmount v (- Types.Num v))
            || Types.IsEmpty (Types.WithAmount v (- Types.Num v)))
      with (Types.IsError v || Types.IsEmpty v).
    rewrite E. split; [|repeat split].
    unfold Types.WithAmount. simpl. rewrite float_opp_involutive.
    destruct v; reflexivity.
Qed.

Section EvaluatorMore.
Context `{std : GoStd} `{reg : Types.Registry} `{ord : Cache.MapOrder}.
Import Types Ast Evaluation.

(** The argument loop of [evalCall]. *)
Definition evalArgs (e : Env) : list Expr -> list Value -> Value + list Value :=
  fix evalArgs (l : list Expr) (acc : list Value) : Value + list Value :=
    match l with
    | [] => inr acc
    | a :: rest =>
        let val := evalExpr e a in
        if IsError val then inl val
        else evalArgs rest (acc ++ [val])%list
    end.

Lemma evalExpr_call (e : Env) (name : string) (args : list Expr) :
  evalExpr e (CallExpr name args) =
    match evalArgs e args [] with
    | inl err => err
    | inr vals => callFunction (strings_ToLower name) vals
    end.
Proof. reflexivity. Qed.

Lemma evalArgs_spec (e : Env) (args : list Expr) :
  forall acc,
    evalArgs e args acc =
      match find IsError (map (evalExpr e) args) with
      | Some err => inl err
      | None => inr (acc ++ map (evalExpr e) args)%list
      end.
Proof.
  induction args as [|a rest IH]; intros acc; simpl.
  - rewrite app_nil_r. reflexivity.
  - destruct (IsError (evalExpr e a)); [reflexivity|].
    rewrite IH. destruct (find _ _); [reflexivity|].
    rewrite <- app_assoc. reflexivity.
Qed.

(** X14: a call evaluates its arguments from left to right and answers
    the first error among them, whatever the function; when no argument is
    an error the function is applied, under its lower-case name, to all the
    values in order. *)
Theorem X14_call_answers_first_argument_error (e : Env) (name : string)
    (args : list Expr) :
  evalExpr e (CallExpr name args) =
    match find IsError (map (evalExpr e) args) with
    | Some err => err
    | None => callFunction (strings_ToLower name) (map (evalExpr e) args)
    end.
Proof.
  rewrite evalExpr_call, evalArgs_spec.
  destruct (find _ _); reflexivity.
Qed.

Lemma finite_or_error (result : float) :
  let r := if math_IsNaN result || math_IsInf result
           then Error "invalid result" else Number result in
  IsError r = true
  \/ (Kind r = ValueNumber /\ PrimFloat.is_nan (Num r) = false
      /\ PrimFloat.is_infinity (Num r) = false).
Proof.
  unfold math_IsNaN, math_IsInf. cbv zeta.
  destruct (PrimFloat.is_nan result) eqn:En; [left; reflexivity|].
  destruct (PrimFloat.is_infinity result) eqn:Ei; [left; reflexivity|].
  right. simpl. auto.
Qed.

(** X15: the functions of one argument and [pow] never answer a NaN or an
    infinity, whatever the function of the library answers: the result is
    an error or a plain number that is finite. *)
Theorem X15_math_functions_answer_finite (args : list Value)
    (fn : float -> float) :
  (IsError (fnUnary args fn) = true
   \/ (Kind (fnUnary args fn) = ValueNumber
       /\ PrimFloat.is_nan (Num (fnUnary args fn)) = false
       /\ PrimFloat.is_infinity (Num (fnUnary args fn)) = false))
  /\ (IsError (fnPow args) = true
      \/ (Kind (fnPow args) = ValueNumber
          /\ PrimFloat.is_nan (Num (fnPow args)) = false
          /\ PrimFloat.is_infinity (Num (fnPow args)) = false)).
Proof.
  split.
  - unfold fnUnary. destruct args as [|arg [|? ?]]; [left; reflexivity | |left; reflexivity].
    destruct (IsError arg) eqn:E; [left; exact E|].
    apply finite_or_error.
  - unfold fnPow.
    destruct args as [|b [|x [|? ?]]]; try (left; reflexivity).
    apply finite_or_error.
Qed.

(** X16: "percent of value" keeps the kind and the type descriptors of the
    value and multiplies its amount by the fraction: the stored fraction of
    a percentage, a hundredth of any other number. *)
Theorem X16_percent_of_keeps_value_type (e : Env) (pe ve : Expr) :
  IsError (evalExpr e pe) = false ->
  IsError (evalExpr e ve) = false ->
  let percent := evalExpr e pe in
  let value := evalExpr e ve in
  let result := evalExpr e (PercentOfExpr pe ve) in
  sameType result value
  /\ Num result =
       (Num value * (if IsPercentage percent then Num percent
                     else Num percent / 100))%float.
Proof.
  intros Hp Hv percent value result. subst percent value result. simpl.
  rewrite Hp, Hv. split; [apply WithAmount_sameType|].
  destruct (IsPercentage (evalExpr e pe)); reflexivity.
Qed.

Lemma IsError_Errorf (format : string) (args : list string) :
  IsError (Errorf format args) = true.
Proof. reflexivity. Qed.

(** X17: converting an amount with a unit to a target that names a unit:
    between units of one type the result carries the target unit, and
    between units of different types the result is an error. *)
Theorem X17_unit_conversion_needs_same_type (e : Env) (amount : float)
    (unit targetUnit : Unit) (target : string) :
  ParseUnit target = Some targetUnit ->
  let result := convertValue e (UnitValue amount (Some unit)) target in
  if UnitType_eqb (UType unit) (UType targetUnit)
  then Kind result = ValueWithUnit /\ UnitP result = Some targetUnit
       /\ ConvertTo unit amount targetUnit = Some (Num result)
  else IsError result = true.
Proof.
  intros Hpu result. subst result. unfold convertValue. simpl. rewrite Hpu.
  unfold ConvertTo.
  destruct (UnitType_eqb (UType unit) (UType targetUnit)); simpl; [|reflexivity].
  destruct (UnitType_eqb (UType unit) UnitTypeTemperature); simpl; auto.
Qed.

End EvaluatorMore.

(** ** internal/ast: the identifiers of an expression *)

(** [GetIdentifiers]: the names an expression refers to, in the order
    [collect] meets them. *)
Fixpoint GetIdentifiers (e : Ast.Expr) : list string :=
  match e with
  | Ast.Identifier name => [name]
  | Ast.BinaryExpr l _ r => GetIdentifiers l ++ GetIdentifiers r
  | Ast.UnaryExpr _ x => GetIdentifiers x
  | Ast.PercentOfExpr p v => GetIdentifiers p ++ GetIdentifiers v
  | Ast.ConversionExpr v _ => GetIdentifiers v
  | Ast.CallExpr _ args =>
      (fix collect (l : list Ast.Expr) : list string :=
         match l with
         | [] => []
         | a :: rest => GetIdentifiers a ++ collect rest
         end) args
  | Ast.GroupExpr x => GetIdentifiers x
  | Ast.ContinuationExpr _ x => GetIdentifiers x
  | Ast.CondExpr c t f => GetIdentifiers c ++ GetIdentifiers t ++ GetIdentifiers f
  | Ast.RangeExpr s t st => GetIdentifiers s ++ GetIdentifiers t ++ GetIdentifiers st
  | _ => []
  end%list.

Section Identifiers.
Context `{std : GoStd} `{reg : Types.Registry} `{ord : Cache.MapOrder}.
Import Types Ast Evaluation.

Lemma applyBinaryOp_rc (e1 e2 : Env) (op : BinaryOp) (l r : Value) :
  rc e1 = rc e2 -> applyBinaryOp e1 op l r = applyBinaryOp e2 op l r.
Proof.
  intros H. unfold applyBinaryOp, coerceResult, Convert. rewrite H. reflexivity.
Qed.

Lemma convertValue_rc (e1 e2 : Env) (v : Value) (target : string) :
  rc e1 = rc e2 -> convertValue e1 v target = convertValue e2 v target.
Proof.
  intros H. unfold convertValue, ConvertValue. rewrite H. reflexivity.
Qed.

Lemma evalArgs_ext (e1 e2 : Env) (args : list Expr) :
  Forall (fun a => evalExpr e1 a = evalExpr e2 a) args ->
  forall acc, evalArgs e1 args acc = evalArgs e2 args acc.
Proof.
  induction 1 as [|a rest Ha _ IH]; intros acc; simpl; [reflexivity|].
  rewrite Ha. destruct (IsError (evalExpr e2 a)); [reflexivity | apply IH].
Qed.

(** X18: the value of an expression depends on the variables only through
    the names [GetIdentifiers] lists: two contexts with the same previous
    result, settings and rates, in which those names read alike, give the
    same value. *)
Theorem X18_evaluation_reads_listed_identifiers (x : Expr) (e1 e2 : Env) :
  prev e1 = prev e2 -> isStrict e1 = isStrict e2 -> rc e1 = rc e2 ->
  (forall n, In n (GetIdentifiers x) -> GetVariable e1 n = GetVariable e2 n) ->
  evalExpr e1 x = evalExpr e2 x.
Proof.
  revert x e1 e2. fix IH 1. intros x e1 e2 Hp Hs Hr Hv.
  destruct x as [ | | | | | | |name|l op r|op x|pe ve|ve target|name args|x
                 |op x|target|c t f|s t st]; try reflexivity.
  - (* Identifier *)
    simpl. unfold evalIdentifier, IsStrict. rewrite (Hv name), Hs; [reflexivity|].
    left. reflexivity.
  - (* BinaryExpr *)
    simpl in Hv. simpl.
    rewrite (IH l e1 e2), (IH r e1 e2), (applyBinaryOp_rc e1 e2);
      try assumption; try reflexivity;
      intros n Hn; apply Hv, in_or_app; auto.
  - simpl in Hv. simpl. rewrite (IH x e1 e2); auto.
  - simpl in Hv. simpl.
    rewrite (IH pe e1 e2), (IH ve e1 e2); try assumption; try reflexivity;
      intros n Hn; apply Hv, in_or_app; auto.
  - simpl in Hv. simpl.
    rewrite (IH ve e1 e2), (convertValue_rc e1 e2); auto.
  - (* CallExpr *)
    rewrite !evalExpr_call. rewrite (evalArgs_ext e1 e2); [reflexivity|].
    simpl in Hv. induction args as [|a rest IHargs]; constructor.
    + apply IH; try assumption. intros n Hn. apply Hv, in_or_app. auto.
    + apply IHargs. intros n Hn. apply Hv, in_or_app. auto.
  - simpl in Hv. simpl. apply IH; assumption.
  - (* ContinuationExpr *)
    simpl in Hv. simpl. unfold HasPrevious, Previous.
    rewrite Hp, (IH x e1 e2), (applyBinaryOp_rc e1 e2); auto.
  - simpl. unfold HasPrevious, Previous.
    rewrite Hp, (convertValue_rc e1 e2); auto.
Qed.

End Identifiers.

(** ** Instances of the properties above *)

Lemma X1_witness :
  Evaluation.load sampleStore 1%positive = Some sampleEnv
  /\ Evaluation.isSpecial (strings_ToLower (GoStd := Sample.std) "x") = false
  /\ exists st' e',
       Evaluation.SetVariable (std := Sample.std) sampleStore 1%positive "x"
         (Types.Number 5) = Some st'
       /\ Evaluation.load st' 1%positive = Some e'
       /\ Evaluation.GetVariable (std := Sample.std) e' "x" = (Types.Number 5, true).
Proof.
  split; [reflexivity|]. split; [reflexivity|].
  destruct (X1_set_then_get_variable (std := Sample.std) sampleStore 1%positive
              sampleEnv "x" (Types.Number 5) eq_refl eq_refl)
    as (st' & e' & H1 & H2 & H3 & _).
  exists st', e'. split; [exact H1|]. split; [exact H2 | exact H3].
Defined.

Lemma X2_witness :
  Evaluation.load sampleStore 1%positive = Some sampleEnv
  /\ exists st' e',
       Evaluation.DeleteVariable sampleStore 1%positive "x" = Some st'
       /\ Evaluation.load st' 1%positive = Some e'
       /\ Evaluation.GetVariable (std := Sample.std) e' "x"
          = (Types.zeroValue, false).
Proof.
  split; [reflexivity|].
  destruct (X2_delete_variable (std := Sample.std) sampleStore 1%positive
              sampleEnv "x" eq_refl)
    as (st' & e' & H1 & H2 & _ & _ & _ & _ & _ & _ & _ & _ & H3 & _).
  exists st', e'. split; [exact H1|]. split; [exact H2|].
  apply H3; [reflexivity | left; reflexivity].
Defined.

Lemma X3_witness :
  Evaluation.load sampleStore 1%positive = Some sampleEnv
  /\ exists st' e',
       Evaluation.Clear sampleStore 1%positive = Some st'
       /\ Evaluation.load st' 1%positive = Some e'
       /\ Evaluation.hist e' = [].
Proof.
  split; [reflexivity|].
  destruct (X3_clear_resets_session (std := Sample.std) sampleStore 1%positive
              sampleEnv eq_refl)
    as (st' & e' & H1 & H2 & _ & _ & H3 & _).
  exists st', e'. split; [exact H1|]. split; [exact H2 | exact H3].
Defined.

Definition sampleLine : Evaluation.LineResult :=
  {| Evaluation.Input := "5"; Evaluation.LValue := Types.Number 5;
     Evaluation.IsConsumed := false; Evaluation.IsContinuation := false;
     Evaluation.AssignedVar := "" |}.

Lemma X4_witness :
  Evaluation.load sampleStore 1%positive = Some sampleEnv
  /\ exists st' e',
       Evaluation.AddLineResult (std := Sample.std) sampleStore 1%positive
         sampleLine = Some st'
       /\ Evaluation.load st' 1%positive = Some e'
       /\ Evaluation.LastLine e' = (sampleLine, true).
Proof.
  split; [reflexivity|].
  destruct (X4_add_line_then_last_line (std := Sample.std) sampleStore 1%positive
              sampleEnv sampleLine eq_refl)
    as (st' & e' & H1 & H2 & _ & _ & _ & H3 & _).
  exists st', e'. split; [exact H1|]. split; [exact H2 | exact H3].
Defined.

Lemma X5_witness :
  Evaluation.load sampleStore 1%positive = Some sampleEnv
  /\ exists st' e',
       Evaluation.EvalLine (std := Sample.std) (reg := Sample.registry)
         (ord := Sample.order) sampleStore 1%positive
         (assignLine "x" (Ast.NumberLit 5 "5") "x = 5")
         = Some (Types.Number 5, st')
       /\ Evaluation.load st' 1%positive = Some e'
       /\ Evaluation.evalExpr (std := Sample.std) (reg := Sample.registry)
            (ord := Sample.order) e' (Ast.Identifier "x") = Types.Number 5.
Proof.
  split; [reflexivity|].
  destruct (X5_assignment_defines_variable (std := Sample.std)
              (reg := Sample.registry) (ord := Sample.order) sampleStore
              1%positive sampleEnv "x" "x = 5" (Ast.NumberLit 5 "5")
              eq_refl eq_refl)
    as (st' & e' & H1 & H2 & _ & H3 & _).
  exists st', e'. split; [exact H1|]. split; [exact H2 | exact (H3 eq_refl)].
Defined.

Lemma X6_witness :
  Evaluation.load sampleStore 1%positive = Some sampleEnv
  /\ exists st' e',
       Evaluation.EvalLine (std := Sample.std) (reg := Sample.registry)
         (ord := Sample.order) sampleStore 1%positive
         {| Ast.LStmt := Ast.ExprStmt (Ast.CallExpr "nothing" []);
            Ast.Comment := ""; Ast.Raw := "nothing()" |}
         = Some (Types.Errorf "unknown function: %s" ["nothing"], st')
       /\ Evaluation.load st' 1%positive = Some e'
       /\ Evaluation.prev e' = Types.Empty.
Proof.
  split; [reflexivity|].
  destruct (X6_error_line_keeps_state (std := Sample.std)
              (reg := Sample.registry) (ord := Sample.order) sampleStore
              1%positive sampleEnv (Ast.ExprStmt (Ast.CallExpr "nothing" []))
              (Ast.CallExpr "nothing" []) "nothing()" "" eq_refl
              (or_introl (conj eq_refl eq_refl)) eq_refl)
    as (st' & e' & H1 & H2 & _ & H3 & _).
  exists st', e'. split; [exact H1|]. split; [exact H2 | exact H3].
Defined.

Lemma X7_witness :
  strings_ToUpper (GoStd := Sample.std) "USD"
    <> strings_ToUpper (GoStd := Sample.std) "EUR"
  /\ Cache.GetRate (std := Sample.std) (ord := Sample.order)
       (Cache.SetRate (std := Sample.std) Cache.empty "USD" "EUR" 2) "USD" "EUR"
     = (2%float, true).
Proof.
  assert (H : strings_ToUpper (GoStd := Sample.std) "USD"
              <> strings_ToUpper (GoStd := Sample.std) "EUR")
    by (vm_compute; discriminate).
  split; [exact H|].
  exact (proj1 (X7_set_rate_then_get_rate (std := Sample.std)
                  (ord := Sample.order) Cache.empty "USD" "EUR" 2 H)).
Defined.

Lemma X8_witness :
  Cache.GetRate (std := Sample.std) (ord := Sample.order)
    (Cache.SetRate (std := Sample.std) Cache.empty "USD" "EUR" 2) "usd" "eur"
    = (2%float, true)
  /\ pathRate
       (Cache.rates (Cache.SetRate (std := Sample.std) Cache.empty "USD" "EUR" 2))
       "USD" "EUR" 2.
Proof.
  split; [vm_compute; reflexivity|].
  apply (X8_found_rate_is_chain_product (std := Sample.std)
           (ord := Sample.order)
           (Cache.SetRate (std := Sample.std) Cache.empty "USD" "EUR" 2)
           "usd" "eur" 2).
  vm_compute. reflexivity.
Defined.

Lemma X11_witness :
  strings_ToUpper (GoStd := Sample.std) "usd"
    = strings_ToUpper (GoStd := Sample.std) "USD"
  /\ Cache.Convert (std := Sample.std) (ord := Sample.order) Cache.empty 12.5
       "usd" "USD" = (12.5%float, true).
Proof.
  split; [reflexivity|].
  exact (X11_convert_same_currency (std := Sample.std) (ord := Sample.order)
           Cache.empty 12.5 "usd" "USD" eq_refl).
Defined.


Lemma X16_witness :
  let e := Sample.env0 in
  Types.IsError (Evaluation.evalExpr (std := Sample.std) (reg := Sample.registry)
                   (ord := Sample.order) e (Ast.PercentLit 0.25 "25%")) = false
  /\ Types.IsError (Evaluation.evalExpr (std := Sample.std)
                      (reg := Sample.registry) (ord := Sample.order) e
                      (Ast.CurrencyLit 50 (Some Sample.USD) "$50")) = false
  /\ Types.Kind (Evaluation.evalExpr (std := Sample.std) (reg := Sample.registry)
                   (ord := Sample.order) e
                   (Ast.PercentOfExpr (Ast.PercentLit 0.25 "25%")
                      (Ast.CurrencyLit 50 (Some Sample.USD) "$50")))
     = Types.ValueCurrency.
Proof.
  cbv zeta. split; [reflexivity|]. split; [reflexivity|].
  exact (proj1 (proj1 (X16_percent_of_keeps_value_type (std := Sample.std)
                  (reg := Sample.registry) (ord := Sample.order) Sample.env0
                  (Ast.PercentLit 0.25 "25%")
                  (Ast.CurrencyLit 50 (Some Sample.USD) "$50")
                  eq_refl eq_refl))).
Defined.

Definition metre : Types.Unit :=
  {| Types.UnitCode := "m"; Types.UnitSymbol := "m"; Types.UnitName := "meter";
     Types.Plural := "meters"; Types.UType := Types.UnitTypeLength;
     Types.UnitAliases := ["meter"; "meters"]; Types.ToBase := 1;
     Types.FromBaseAdd := 0; Types.IsBase := true |}.

Definition kilometre : Types.Unit :=
  {| Types.UnitCode := "km"; Types.UnitSymbol := "km";
     Types.UnitName := "kilometer"; Types.Plural := "kilometers";
     Types.UType := Types.UnitTypeLength;
     Types.UnitAliases := ["kilometer"; "kilometers"]; Types.ToBase := 1000;
     Types.FromBaseAdd := 0; Types.IsBase := false |}.

(** The sample registry with the two units of length. *)
Definition unitRegistry : Types.Registry :=
  {| Types.ParseCurrency := Types.ParseCurrency (Registry := Sample.registry);
     Types.CurrencyFromCode := Types.CurrencyFromCode (Registry := Sample.registry);
     Types.LookupCurrencyBySymbol :=
       Types.LookupCurrencyBySymbol (Registry := Sample.registry);
     Types.IsCurrencySymbolRune :=
       Types.IsCurrencySymbolRune (Registry := Sample.registry);
     Types.ParseCrypto := fun _ => None;
     Types.LookupCrypto := fun _ => None;
     Types.IsCrypto := fun _ => false;
     Types.IsCryptoSymbolRune := fun _ => false;
     Types.ParseMetal := fun _ => None;
     Types.ParseUnit := fun s =>
       if String.eqb s "m" then Some metre
       else if String.eqb s "km" then Some kilometre else None |}.

Lemma X17_witness :
  Types.ParseUnit (Registry := unitRegistry) "m" = Some metre
  /\ Evaluation.convertValue (std := Sample.std) (reg := unitRegistry)
       (ord := Sample.order) Sample.env0 (Types.UnitValue 2 (Some kilometre)) "m"
     = Types.UnitValue 2000 (Some metre).
Proof.
  split; [reflexivity|].
  pose proof (X17_unit_conversion_needs_same_type (std := Sample.std)
                (reg := unitRegistry) (ord := Sample.order) Sample.env0 2
                kilometre metre "m" eq_refl) as H.
  cbv zeta in H. destruct H as (_ & _ & _). reflexivity.
Defined.

Definition sampleEnvY : Evaluation.Env :=
  {| Evaluation.vars := {[ "y" := Types.Number 1 ]};
     Evaluation.prev := Types.Empty; Evaluation.hist := [];
     Evaluation.isStrict := false; Evaluation.prec := 2;
     Evaluation.rc := Some Cache.empty |}.

Lemma X18_witness :
  Evaluation.evalExpr (std := Sample.std) (reg := Sample.registry)
    (ord := Sample.order) sampleEnv
    (Ast.BinaryExpr (Ast.Identifier "x") Ast.OpAdd (Ast.NumberLit 1 "1"))
  = Evaluation.evalExpr (std := Sample.std) (reg := Sample.registry)
      (ord := Sample.order) sampleEnvY
      (Ast.BinaryExpr (Ast.Identifier "x") Ast.OpAdd (Ast.NumberLit 1 "1")).
Proof.
  apply (X18_evaluation_reads_listed_identifiers (std := Sample.std)
           (reg := Sample.registry) (ord := Sample.order)); try reflexivity.
  intros n [<-|[]]. vm_compute. reflexivity.
Defined.

(** ** The engine: clones, lines one after the other *)

Section EngineMore.
Context `{std : GoStd} `{reg : Types.Registry} `{ord : Cache.MapOrder}.
Import Types Ast Evaluation.

Lemma SetRateCacheAdapter_ctx (st st' : Store) (c r : ref) :
  Engine.SetRateCacheAdapter st c r = Some st'
  -> exists x, ctxs st' !! c = Some x /\ rateCache x = Some r.
Proof.
  unfold Engine.SetRateCacheAdapter, SetRateCache. intros H.
  destruct (ctxs st !! c) as [x|] eqn:Hx; simpl in H; [|discriminate].
  injection H as <-. exists (set_rateCache x (Some r)). simpl.
  rewrite lookup_insert_eq. split; reflexivity.
Qed.

Lemma load_with_cache (st : Store) (c r : ref) (x : Context) (e : Env)
    (k : Cache.RateCache) :
  load st c = Some e -> ctxs st !! c = Some x -> rateCache x = Some r
  -> load (with_cache st r k) c = Some (env_with_rc e (Some k)).
Proof.
  intros Hl Hx Hr. apply load_Some in Hl as (x' & m & h & r' & Hx' & Hm & Hh & Hc & ->).
  rewrite Hx in Hx'. injection Hx' as <-.
  apply load_Some. exists x, m, h, (Some k). split; [exact Hx|]. split; [exact Hm|].
  split.
  { unfold sliceElems in *. simpl. exact Hh. }
  split; [|reflexivity].
  unfold loadCache. rewrite Hr. simpl. rewrite lookup_insert_eq. reflexivity.
Qed.

Lemma load_with_map_other (st : Store) (c l : ref) (x : Context) (e : Env)
    (m : gmap string Value) :
  load st c = Some e -> ctxs st !! c = Some x -> variables x <> l
  -> load (with_map st l m) c = Some e.
Proof.
  intros Hl Hx Hne. apply load_Some in Hl as (x' & m' & h & r' & Hx' & Hm & Hh & Hc & ->).
  rewrite Hx in Hx'. injection Hx' as <-.
  apply load_Some. exists x, m', h, r'. split; [exact Hx|]. split.
  { simpl. rewrite lookup_insert_ne by congruence. exact Hm. }
  split; [exact Hh|]. split; [exact Hc | reflexivity].
Qed.

Lemma Eval_private (eng : Engine.Engine) (inp : string) (st0 st st' : Store)
    (v : Value) :
  extends st0 st -> private st0 st (Engine.ctx (Engine.evaluator eng))
  -> Engine.Eval_ eng inp st = Some (v, st') -> extends st0 st'.
Proof.
  intros He Hp. unfold Engine.Eval_.
  destruct (String.eqb _ ""); [intros [= _ <-]; exact He|].
  destruct (_ || _); [intros [= _ <-]; exact He|].
  destruct (Parser.ParseLine inp) as [[line errs]|]; simpl; [|discriminate].
  destruct errs as [|err errs]; [|intros [= _ <-]; exact He].
  intros H. eapply EvalLine_private in H as [H _]; eassumption.
Qed.

(** X19: [Engine.Clone] gives an engine on a copy of the session: it reads
    the variables, the previous result and the lines of the original; what
    is then set or evaluated in the clone does not reach the original, and a
    variable set in the original does not reach the clone. The rate cache is
    the same object: a rate set through the original is the one the clone
    reads. *)
Theorem X19_clone_copies_session_shares_rates (eng : Engine.Engine)
    (st : Store) (e : Env) (cache : Cache.RateCache) :
  load st (Engine.ctx (Engine.evaluator eng)) = Some e
  -> caches st !! Engine.rateCache eng = Some cache
  -> exists eng' st1,
       Engine.Clone eng st = Some (eng', st1)
       /\ Engine.rateCache eng' = Engine.rateCache eng
       /\ load st1 (Engine.ctx (Engine.evaluator eng'))
          = Some (env_with_rc e (Some cache))
       /\ load st1 (Engine.ctx (Engine.evaluator eng)) = Some e
       /\ (forall name v st2,
             Engine.SetVariable eng' name v st1 = Some st2
             -> load st2 (Engine.ctx (Engine.evaluator eng)) = Some e)
       /\ (forall inp v st2,
             Engine.Eval_ eng' inp st1 = Some (v, st2)
             -> load st2 (Engine.ctx (Engine.evaluator eng)) = Some e)
       /\ (forall name v st2,
             Engine.SetVariable eng name v st1 = Some st2
             -> load st2 (Engine.ctx (Engine.evaluator eng'))
                = Some (env_with_rc e (Some cache)))
       /\ (forall from to r st2,
             Engine.SetRate eng from to r st1 = Some st2
             -> load st2 (Engine.ctx (Engine.evaluator eng'))
                = Some (env_with_rc e (Some (Cache.SetRate cache from to r)))).
Proof.
  intros Hl Hc.
  destruct (Clone_load st _ e Hl) as (c' & st0 & Hclone & Hl0).
  destruct (Clone_extends _ _ _ _ Hclone) as [Hext Hpriv].
  assert (Hc0 : caches st0 !! Engine.rateCache eng = Some cache).
  { destruct Hext as (_ & _ & _ & <-). exact Hc. }
  destruct (SetRateCacheAdapter_load st0 c' (Engine.rateCache eng) e cache Hl0 Hc0)
    as (st1 & Hset & Hl1).
  destruct (SetRateCache_private st st0 st1 c' (Some (Engine.rateCache eng))
              Hext Hpriv Hset) as [Hext1 Hpriv1].
  destruct (SetRateCacheAdapter_ctx _ _ _ _ Hset) as (x' & Hx' & Hr').
  assert (Hl1o : load st1 (Engine.ctx (Engine.evaluator eng)) = Some e)
    by (eapply load_extends; eassumption).
  exists {| Engine.evaluator := Engine.NewWithContext c';
            Engine.rateCache := Engine.rateCache eng |}, st1.
  split.
  { unfold Engine.Clone. rewrite Hclone. simpl. rewrite Hset. reflexivity. }
  split; [reflexivity|]. split; [exact Hl1|]. split; [exact Hl1o|].
  split.
  { intros name v st2 H. unfold Engine.SetVariable in H. simpl in H.
    eapply SetVariable_private in H as [H _]; [|eassumption..].
    eapply load_extends; eassumption. }
  split.
  { intros inp v st2 H.
    eapply Eval_private in H; [|eassumption..].
    eapply load_extends; eassumption. }
  split.
  { intros name v st2 H. unfold Engine.SetVariable, SetVariable in H. simpl.
    destruct (ctxs st1 !! Engine.ctx (Engine.evaluator eng)) as [x|] eqn:Hx;
      simpl in H; [|discriminate].
    destruct (isSpecial (strings_ToLower name)); [injection H as <-; exact Hl1|].
    destruct (maps st1 !! variables x) as [m|] eqn:Hm; simpl in H; [|discriminate].
    injection H as <-.
    apply (load_with_map_other st1 c' (variables x) x'); [exact Hl1 | exact Hx' |].
    intros Heq. destruct Hpriv1 as [Hnone Hfresh].
    destruct (Hfresh x' Hx') as [Hm' _].
    apply load_Some in Hl as (x0 & m0 & h0 & r0 & Hx0 & Hm0 & _).
    destruct Hext1 as (Hctx & _).
    pose proof (lookup_weaken _ _ _ _ Hx0 Hctx) as Hx1.
    rewrite Hx in Hx1. injection Hx1 as ->.
    rewrite Heq in Hm'. congruence. }
  intros from to r st2 H. unfold Engine.SetRate in H. simpl in H.
  assert (Hc1 : caches st1 !! Engine.rateCache eng = Some cache).
  { destruct Hext1 as (_ & _ & _ & <-). exact Hc. }
  rewrite Hc1 in H. simpl in H. injection H as <-.
  replace (env_with_rc e (Some (Cache.SetRate cache from to r)))
    with (env_with_rc (env_with_rc e (Some cache))
            (Some (Cache.SetRate cache from to r))) by reflexivity.
  apply (load_with_cache st1 c' (Engine.rateCache eng) x'); assumption.
Qed.

(** X20: [EvalMultiple] answers every list of lines with one value for
    each line, whatever the lines are; the session is still there
    afterwards, and no line changes the rate caches. *)
Theorem X20_eval_multiple_answers_every_line (eng : Engine.Engine)
    (inputs : list string) :
  unicode_IsLetter 0 = false
  -> forall (st : Store) (e : Env),
       load st (Engine.ctx (Engine.evaluator eng)) = Some e
       -> exists vs st',
            Engine.EvalMultiple eng inputs st = Some (vs, st')
            /\ length vs = length inputs
            /\ is_Some (load st' (Engine.ctx (Engine.evaluator eng)))
            /\ caches st' = caches st.
Proof.
  intros H0. induction inputs as [|inp rest IH]; intros st e Hl.
  - exists [], st. rewrite Hl. repeat split. eexists; reflexivity.
  - pose proof (Eval_spec eng st e inp Hl) as Hspec.
    destruct (specEval_returns H0 e inp) as [[v e1] Hs]. rewrite Hs in Hspec.
    destruct Hspec as (st1 & Hev & Hl1 & Hc1).
    destruct (IH st1 e1 Hl1) as (vs & st2 & Hrest & Hlen & Hl2 & Hc2).
    exists (v :: vs), st2. simpl. rewrite Hev. simpl. rewrite Hrest. simpl.
    split; [reflexivity|]. split; [f_equal; exact Hlen|].
    split; [exact Hl2 | congruence].
Qed.

(** X21: evaluating a list of lines is evaluating its first part and then
    the rest from the state the first part left: the values are those of the
    two parts, one after the other. *)
Theorem X21_eval_multiple_in_two_parts (eng : Engine.Engine)
    (first rest : list string) (st : Store) :
  Engine.EvalMultiple eng (first ++ rest) st =
    match Engine.EvalMultiple eng first st with
    | Some (vs1, st1) =>
        match Engine.EvalMultiple eng rest st1 with
        | Some (vs2, st2) => Some ((vs1 ++ vs2)%list, st2)
        | None => None
        end
    | None => None
    end.
Proof.
  revert st. induction first as [|inp first IH]; intros st; simpl.
  - destruct (Engine.EvalMultiple eng rest st) as [[vs2 st2]|]; reflexivity.
  - destruct (Engine.Eval_ eng inp st) as [[v st1]|]; simpl; [|reflexivity].
    rewrite IH.
    destruct (Engine.EvalMultiple eng first st1) as [[vs1 st2]|]; simpl;
      [|reflexivity].
    destruct (Engine.EvalMultiple eng rest st2) as [[vs2 st3]|]; reflexivity.
Qed.

(** X22: a continuation line ("+ 5" after a line with a value) applies the
    operator to the previous result; when its value is numeric, the line it
    continues is marked as consumed and the running total counts the new
    value in its place. *)
Theorem X22_continuation_replaces_line_in_total (st : Store) (c : ref)
    (e : Env) (h : list LineResult) (l : LineResult) (op : BinaryOp)
    (x : Expr) (raw cmt : string) :
  load st c = Some e
  -> hist e = (h ++ [l])%list
  -> isValidLine l = true
  -> HasPrevious e = true
  -> IsError (evalExpr e x) = false
  -> let result := applyBinaryOp e op (prev e) (evalExpr e x) in
     IsNumeric result = true
     -> exists st' e',
          EvalLine st c {| LStmt := ExprStmt (ContinuationExpr op x);
                           Comment := cmt; Raw := raw |} = Some (result, st')
          /\ load st' c = Some e'
          /\ hist e' = (h ++ [consume l;
                              {| Input := raw; LValue := result;
                                 IsConsumed := false; IsContinuation := true;
                                 AssignedVar := "" |}])%list
          /\ prev e' = result
          /\ vars e' = vars e
          /\ calculateTotal e'
             = Number (Num (calculateTotal (env_with_hist e h))
                       + AsFloat result)%float.
Proof.
  intros Hl Hh Hv Hprev Hx result Hnum.
  destruct (EvalLine_load st c e
              {| LStmt := ExprStmt (ContinuationExpr op x); Comment := cmt;
                 Raw := raw |} Hl) as (st' & Hev & Hl' & _).
  assert (Hres : evalExpr e (ContinuationExpr op x) = result).
  { simpl. rewrite Hprev, Hx. reflexivity. }
  assert (Hne : negb (IsEmpty result) && negb (IsError result) = true).
  { unfold IsNumeric in Hnum. unfold IsEmpty, IsError.
    destruct (Kind result); simpl in *; congruence. }
  unfold envEvalLine in Hev, Hl'.
  cbn [LStmt Raw envEvalStmt isContinuationStmt fst snd] in Hev, Hl'.
  rewrite Hres in Hev, Hl'.
  exists st'. eexists. split; [exact Hev|]. split; [exact Hl'|].
  assert (Hmark : envMarkLastConsumed e = env_with_hist e (h ++ [consume l])%list).
  { unfold envMarkLastConsumed. rewrite Hh.
    rewrite length_app. simpl. rewrite Nat.add_1_r. simpl.
    rewrite lookup_app_r by lia. rewrite Nat.sub_diag. simpl. rewrite Hv.
    f_equal. rewrite alter_app_r_alt by lia. rewrite Nat.sub_diag. reflexivity. }
  unfold envSetPrevious. rewrite Hne. simpl. rewrite Hmark. simpl.
  split; [rewrite <- app_assoc; reflexivity|].
  split; [reflexivity|]. split; [reflexivity|].
  unfold calculateTotal. simpl. rewrite !fold_left_app. simpl.
  rewrite Hnum. reflexivity.
Qed.

(** X23: [SetPrecision] takes a number of decimals from 0 to 15 and leaves
    the setting alone for any other: a precision within these bounds stays
    within them. Nothing else of the session changes. *)
Theorem X23_set_precision_keeps_bounds (st : Store) (c : ref) (e : Env)
    (p : Z) :
  load st c = Some e
  -> exists st' e',
       SetPrecision st c p = Some st'
       /\ load st' c = Some e'
       /\ prec e' = (if (0 <=? p) && (p <=? 15) then p else prec e)
       /\ (0 <= prec e <= 15 -> 0 <= prec e' <= 15)
       /\ vars e' = vars e /\ prev e' = prev e /\ hist e' = hist e
       /\ rc e' = rc e /\ isStrict e' = isStrict e.
Proof.
  intros Hl. pose proof Hl as Hl0.
  apply load_Some in Hl as (x & m & h & r & Hx & Hm & Hh & Hc & ->).
  unfold SetPrecision. rewrite Hx. simpl.
  destruct ((0 <=? p) && (p <=? 15)) eqn:Hp.
  - eexists. exists {| vars := m; prev := previous x; hist := h;
                       isStrict := strict x; prec := p; rc := r |}.
    split; [reflexivity|]. split.
    { apply load_Some. exists (set_precision x p), m, h, r. simpl.
      rewrite lookup_insert_eq. repeat split; assumption. }
    simpl. split; [reflexivity|]. split; [|repeat split].
    intros _. apply andb_true_iff in Hp as [H1 H2].
    apply Z.leb_le in H1, H2. lia.
  - exists st. eexists. split; [reflexivity|]. split; [exact Hl0|].
    simpl. repeat split; tauto.
Qed.

End EngineMore.

Lemma X19_witness :
  Evaluation.load sampleStore 1%positive = Some sampleEnv
  /\ Evaluation.caches sampleStore !! 1%positive = Some Cache.empty
  /\ exists eng' st1,
       Engine.Clone sampleEngine sampleStore = Some (eng', st1)
       /\ Engine.rateCache eng' = 1%positive
       /\ Evaluation.load st1 1%positive = Some sampleEnv.
Proof.
  split; [reflexivity|]. split; [reflexivity|].
  destruct (X19_clone_copies_session_shares_rates (std := Sample.std)
              (reg := Sample.registry) (ord := Sample.order) sampleEngine
              sampleStore sampleEnv Cache.empty eq_refl eq_refl)
    as (eng' & st1 & H1 & H2 & _ & H3 & _).
  exists eng', st1. split; [exact H1|]. split; [exact H2 | exact H3].
Defined.

Lemma X20_witness :
  unicode_IsLetter (GoStd := Sample.std) 0 = false
  /\ Evaluation.load sampleStore 1%positive = Some sampleEnv
  /\ exists vs st',
       Engine.EvalMultiple (std := Sample.std) (reg := Sample.registry)
         (ord := Sample.order) sampleEngine ["x = 2"; "x * 3"] sampleStore
         = Some (vs, st')
       /\ length vs = 2%nat.
Proof.
  split; [reflexivity|]. split; [reflexivity|].
  destruct (X20_eval_multiple_answers_every_line (std := Sample.std)
              (reg := Sample.registry) (ord := Sample.order) sampleEngine
              ["x = 2"; "x * 3"] eq_refl sampleStore sampleEnv eq_refl)
    as (vs & st' & H1 & H2 & _).
  exists vs, st'. split; [exact H1 | exact H2].
Defined.

(** The sample store after a line "5". *)
Definition sampleStoreLine : Evaluation.Store :=
  {| Evaluation.ctxs :=
       {[ 1%positive :=
            {| Evaluation.variables := 1%positive;
               Evaluation.rateCache := Some 1%positive;
               Evaluation.previous := Types.Number 5;
               Evaluation.lines := {| Evaluation.arr := Some 1%positive;
                                      Evaluation.len := 1 |};
               Evaluation.precision := 2;
               Evaluation.strict := false |} ]};
     Evaluation.maps := {[ 1%positive := ∅ ]};
     Evaluation.arrays := {[ 1%positive := [sampleLine] ]};
     Evaluation.caches := {[ 1%positive := Cache.empty ]} |}.

Definition sampleEnvLine : Evaluation.Env :=
  {| Evaluation.vars := ∅; Evaluation.prev := Types.Number 5;
     Evaluation.hist := [sampleLine]; Evaluation.isStrict := false;
     Evaluation.prec := 2; Evaluation.rc := Some Cache.empty |}.

Lemma X22_witness :
  Evaluation.load sampleStoreLine 1%positive = Some sampleEnvLine
  /\ exists st' e',
       Evaluation.EvalLine (std := Sample.std) (reg := Sample.registry)
         (ord := Sample.order) sampleStoreLine 1%positive
         {| Ast.LStmt := Ast.ExprStmt (Ast.ContinuationExpr Ast.OpAdd
                                         (Ast.NumberLit 3 "3"));
            Ast.Comment := ""; Ast.Raw := "+ 3" |}
         = Some (Types.Number 8, st')
       /\ Evaluation.load st' 1%positive = Some e'
       /\ Evaluation.calculateTotal e' = Types.Number 8.
Proof.
  split; [reflexivity|].
  destruct (X22_continuation_replaces_line_in_total (std := Sample.std)
              (reg := Sample.registry) (ord := Sample.order) sampleStoreLine
              1%positive sampleEnvLine [] sampleLine Ast.OpAdd
              (Ast.NumberLit 3 "3") "+ 3" "" eq_refl eq_refl eq_refl eq_refl
              eq_refl eq_refl)
    as (st' & e' & H1 & H2 & _ & _ & _ & H3).
  exists st', e'. split; [exact H1|]. split; [exact H2 | exact H3].
Defined.

Lemma X23_witness :
  Evaluation.load sampleStore 1%positive = Some sampleEnv
  /\ exists st' e',
       Evaluation.SetPrecision sampleStore 1%positive 20 = Some st'
       /\ Evaluation.load st' 1%positive = Some e'
       /\ Evaluation.prec e' = 2.
Proof.
  split; [reflexivity|].
  destruct (X23_set_precision_keeps_bounds sampleStore 1%positive sampleEnv 20
              eq_refl)
    as (st' & e' & H1 & H2 & H3 & _).
  exists st', e'. split; [exact H1|]. split; [exact H2 | exact H3].
Defined.

(** ** The lexer and the parser: shape of the results *)

Section FrontEnd.
Context `{std : GoStd} `{reg : Types.Registry}.
Import Token Lexer Ast Parser.

Lemma tokenizeLoop_shape (fuel : nat) :
  forall (l : Lexer) (toks : list Token),
    tokenizeLoop fuel l = Some toks
    -> exists front eof,
         toks = (front ++ [eof])%list /\ Typ eof = EOF
         /\ Forall (fun t => Typ t <> EOF) front.
Proof.
  induction fuel as [|fuel IH]; intros l toks; simpl; [discriminate|].
  destruct (NextToken l) as [[tok l']|]; simpl; [|discriminate].
  destruct (Type_eqb (Typ tok) EOF) eqn:E.
  - intros [= <-]. exists [], tok. split; [reflexivity|].
    split; [apply Type_eqb_eq, E | constructor].
  - destruct (tokenizeLoop fuel l') as [rest|] eqn:Hr; simpl; [|discriminate].
    intros [= <-]. destruct (IH l' rest Hr) as (front & eof & -> & He & Hf).
    exists (tok :: front), eof. split; [reflexivity|]. split; [exact He|].
    constructor; [|exact Hf]. intros Heq. rewrite Heq in E. discriminate.
Qed.

(** X24: the lexer returns on every input, and its tokens are zero or more
    tokens that are not EOF followed by one EOF token. *)
Theorem X24_tokens_end_with_the_only_EOF (inp : string) :
  unicode_IsLetter 0 = false
  -> exists front eof,
       Tokenize inp = Some (front ++ [eof])%list
       /\ Typ eof = EOF
       /\ Forall (fun t => Typ t <> EOF) front.
Proof.
  intros H0. destruct (Tokenize_returns H0 inp) as [toks Ht].
  destruct (tokenizeLoop_shape _ _ _ Ht) as (front & eof & -> & He & Hf).
  exists front, eof. auto.
Qed.

(** X25: the parser returns a line on every list of tokens, also one that
    does not end in EOF or has parentheses that do not match; it keeps the
    tokens, and its position is never before the first of them. *)
Theorem X25_parser_returns_on_every_token_list (toks : list Token) :
  exists line p',
    parseLine (NewFromTokens toks) = Some (line, p')
    /\ tokens p' = toks /\ 0 <= Parser.pos p'.
Proof.
  assert (H0 : 0 <= Parser.pos (NewFromTokens toks)) by (simpl; lia).
  unfold parseLine.
  destruct (skipNewlines_returns (length (tokens (NewFromTokens toks)))
              (NewFromTokens toks) (remaining_le _ H0)) as (p1 & -> & H1).
  simpl. assert (Hp1 : 0 <= Parser.pos p1) by (eapply further_pos; eassumption).
  destruct H1 as [Ht1 _]. simpl in Ht1.
  destruct (check p1 EOF); [eauto|].
  destruct (check p1 COMMENT).
  { eexists _, _. split; [reflexivity|].
    destruct (Parser.pos p1 <? ntokens p1); simpl; split; (congruence || lia). }
  destruct (parseStatement_returns p1 Hp1) as (stmt & p2 & -> & Ht2 & Hpos2).
  simpl. destruct (check p2 COMMENT).
  - eexists _, _. split; [reflexivity|].
    destruct (Parser.pos p2 <? ntokens p2); simpl; split; (congruence || lia).
  - eexists _, _. split; [reflexivity|]. split; [congruence | lia].
Qed.

(** The operator a token of a binary operator stands for. *)
Definition operatorOf (t : Type_) : option BinaryOp :=
  match t with
  | PLUS => Some OpAdd
  | MINUS => Some OpSub
  | STAR => Some OpMul
  | SLASH => Some OpDiv
  | CARET | POWER => Some OpPow
  | _ => None
  end.

(** The tokens of "a op1 b op2 c". *)
Definition chainTokens (a b c : string) (t1 t2 : Type_) (l1 l2 : string)
    (pa p1 pb p2 pc pe : Z) : list Token :=
  [Token.New IDENTIFIER a pa; Token.New t1 l1 p1; Token.New IDENTIFIER b pb;
   Token.New t2 l2 p2; Token.New IDENTIFIER c pc; Token.New EOF "" pe].

(** An operator that binds less than [minPrec] ends the loop. *)
Lemma binaryLoop_low (f : nat) (minPrec : Z) (lhs : Expr) (p : Parser) :
  isBinaryOp p = true ->
  (Precedence (currentBinaryOp p) <? minPrec)%Z = true ->
  binaryLoop (S f) minPrec lhs p = Some (suffix lhs p).
Proof. intros Hb Hp. simpl. rewrite Hb, Hp. reflexivity. Qed.

Lemma suffix_none (lhs : Expr) (p : Parser) :
  check p IN = false -> suffix lhs p = (lhs, p).
Proof. intros H. unfold suffix. rewrite H. reflexivity. Qed.

Ltac parse_step :=
  first [ rewrite parseBinaryExpr_S
        | rewrite parseUnaryExpr_ident by reflexivity
        | rewrite binaryLoop_go by reflexivity
        | rewrite binaryLoop_low by reflexivity
        | rewrite binaryLoop_stop by reflexivity
        | rewrite suffix_none by reflexivity ];
  cbv zeta;
  cbn [mbind option_bind isNil BinaryOp_eqb Precedence Z.add Pos.add];
  rewrite ?identNode_not_nil.

(** X26: in "a op1 b op2 c" the second operator takes [b] when it binds
    tighter than the first, or when both are the power operator, which
    associates to the right; otherwise the first operator takes it, so
    operators of the same level associate to the left. *)
Theorem X26_operator_precedence (a b c : string) (t1 t2 : Type_)
    (l1 l2 : string) (pa p1 pb p2 pc pe : Z) (op1 op2 : BinaryOp) :
  operatorOf t1 = Some op1 -> operatorOf t2 = Some op2
  -> let toks := chainTokens a b c t1 t2 l1 l2 pa p1 pb p2 pc pe in
     parseExpression (NewFromTokens toks) =
       Some (if (Precedence op1 <? Precedence op2)
                || (BinaryOp_eqb op1 OpPow && BinaryOp_eqb op2 OpPow)
             then BinaryExpr (identNode a) op1
                    (BinaryExpr (identNode b) op2 (identNode c))
             else BinaryExpr (BinaryExpr (identNode a) op1 (identNode b)) op2
                    (identNode c),
             at_ toks 5).
Proof.
  intros H1 H2 toks. unfold parseExpression.
  change (fuelOf (NewFromTokens toks)) with 56%nat.
  change (NewFromTokens toks) with (at_ toks 0).
  destruct t1; try discriminate H1; injection H1 as <-;
    destruct t2; try discriminate H2; injection H2 as <-;
    repeat parse_step; reflexivity.
Qed.

End FrontEnd.

Lemma X24_witness :
  unicode_IsLetter (GoStd := Sample.std) 0 = false
  /\ exists front eof,
       Lexer.Tokenize (std := Sample.std) (reg := Sample.registry) "1 + 2"
         = Some (front ++ [eof])%list
       /\ Token.Typ eof = Token.EOF.
Proof.
  split; [reflexivity|].
  destruct (X24_tokens_end_with_the_only_EOF (std := Sample.std)
              (reg := Sample.registry) "1 + 2" eq_refl)
    as (front & eof & H1 & H2 & _).
  exists front, eof. split; [exact H1 | exact H2].
Defined.

Lemma X26_witness :
  operatorOf Token.PLUS = Some Ast.OpAdd
  /\ operatorOf Token.STAR = Some Ast.OpMul
  /\ Parser.parseExpression (std := Sample.std) (reg := Sample.registry)
       (Parser.NewFromTokens
          (chainTokens "a" "b" "c" Token.PLUS Token.STAR "+" "*" 0 2 4 6 8 9))
     = Some (Ast.BinaryExpr (Ast.Identifier "a") Ast.OpAdd
               (Ast.BinaryExpr (Ast.Identifier "b") Ast.OpMul
                  (Ast.Identifier "c")),
             at_ (chainTokens "a" "b" "c" Token.PLUS Token.STAR "+" "*"
                    0 2 4 6 8 9) 5).
Proof.
  split; [reflexivity|]. split; [reflexivity|].
  exact (X26_operator_precedence (std := Sample.std) (reg := Sample.registry)
           "a" "b" "c" Token.PLUS Token.STAR "+" "*" 0 2 4 6 8 9
           Ast.OpAdd Ast.OpMul eq_refl eq_refl).
Defined.

(** ** The rate cache: rates in bulk *)

Section CacheBulk.
Context `{std : GoStd} `{reg : Types.Registry} `{ord : Cache.MapOrder}.
Import Cache.

(** The body of the second loop of [ApplyRawRates]. *)
Definition applyOne (r : gmap (string * string) float) (entry : string * float)
    : gmap (string * string) float :=
  let '(code, rate) := entry in
  let code := strings_ToUpper code in
  if Types.IsCrypto code then storeBoth code "USD" rate r
  else storeBoth "USD" code rate r.

Lemma ApplyRawRates_rates (c : RateCache) (raw : list (string * float)) (now : Z) :
  rates (ApplyRawRates c raw now) = fold_left applyOne raw (rates c).
Proof. reflexivity. Qed.

Lemma storeBoth_other (from to : string) (rate : float)
    (r : gmap (string * string) float) (key : string * string) :
  key <> (from, to) -> key <> (to, from)
  -> storeBoth from to rate r !! key = r !! key.
Proof.
  intros H1 H2. unfold storeBoth. destruct (fneq rate 0).
  - rewrite !lookup_insert_ne by congruence. reflexivity.
  - rewrite lookup_insert_ne by congruence. reflexivity.
Qed.

Lemma storeBoth_direct (from to : string) (rate : float)
    (r : gmap (string * string) float) :
  from <> to -> storeBoth from to rate r !! (from, to) = Some rate.
Proof.
  intros Hne. unfold storeBoth. destruct (fneq rate 0).
  - rewrite lookup_insert_ne by congruence. apply lookup_insert_eq.
  - apply lookup_insert_eq.
Qed.

(** The pair under which the rate of [code] is stored. *)
Definition rawKey (code : string) : string * string :=
  if Types.IsCrypto code then (code, "USD") else ("USD", code).

Lemma applyOne_other (r : gmap (string * string) float) (entry : string * float)
    (U : string) :
  U <> "USD" -> strings_ToUpper (fst entry) <> U
  -> applyOne r entry !! rawKey U = r !! rawKey U.
Proof.
  intros HU Hne. destruct entry as [code rate]. simpl in Hne. unfold applyOne, rawKey.
  destruct (Types.IsCrypto U), (Types.IsCrypto (strings_ToUpper code));
    apply storeBoth_other; congruence.
Qed.

Lemma fold_applyOne_other (rest : list (string * float)) (U : string) :
  U <> "USD"
  -> Forall (fun entry => strings_ToUpper (fst entry) <> U) rest
  -> forall r, fold_left applyOne rest r !! rawKey U = r !! rawKey U.
Proof.
  intros HU. induction 1 as [|entry rest Hne _ IH]; intros r; simpl; [reflexivity|].
  rewrite IH. apply applyOne_other; assumption.
Qed.

Lemma fold_applyOne_read (raw : list (string * float)) (code : string)
    (rate : float) :
  strings_ToUpper code <> "USD"
  -> NoDup (map (fun entry => strings_ToUpper (fst entry)) raw)
  -> In (code, rate) raw
  -> forall r, fold_left applyOne raw r !! rawKey (strings_ToUpper code) = Some rate.
Proof.
  intros HU. induction raw as [|entry rest IH]; intros Hnd Hin r; [destruct Hin|].
  simpl in Hnd. apply NoDup_cons in Hnd as [Hhd Hnd]. simpl.
  destruct Hin as [-> | Hin].
  - rewrite fold_applyOne_other; [|exact HU|].
    + unfold applyOne, rawKey.
      destruct (Types.IsCrypto (strings_ToUpper code));
        apply storeBoth_direct; congruence.
    + apply Forall_forall. intros entry He Heq. apply Hhd. simpl.
      rewrite <- Heq. apply list_elem_of_In, in_map_iff. exists entry.
      split; [reflexivity | apply list_elem_of_In; exact He].
  - apply IH; assumption.
Qed.

(** X27: the rates [ApplyRawRates] takes are read back as given: the rate
    of a crypto code is the rate from the code to USD, the rate of any other
    code the rate from USD to the code. The codes are compared in upper
    case, so two entries must not differ in case only. *)
Theorem X27_applied_rates_are_read_back (c : RateCache)
    (raw : list (string * float)) (now : Z) (code usd : string) (rate : float) :
  NoDup (map (fun entry => strings_ToUpper (fst entry)) raw)
  -> In (code, rate) raw
  -> strings_ToUpper code <> "USD"
  -> strings_ToUpper usd = "USD"
  -> if Types.IsCrypto (strings_ToUpper code)
     then GetRate (ApplyRawRates c raw now) code usd = (rate, true)
     else GetRate (ApplyRawRates c raw now) usd code = (rate, true).
Proof.
  intros Hnd Hin HU Husd.
  pose proof (fold_applyOne_read raw code rate HU Hnd Hin (rates c)) as Hread.
  rewrite <- ApplyRawRates_rates with (now := now) in Hread.
  unfold rawKey in Hread. unfold GetRate. rewrite Husd.
  destruct (Types.IsCrypto (strings_ToUpper code)).
  - destruct (String.eqb (strings_ToUpper code) "USD") eqn:E.
    { apply String.eqb_eq in E. contradiction. }
    rewrite Hread. reflexivity.
  - destruct (String.eqb "USD" (strings_ToUpper code)) eqn:E.
    { apply String.eqb_eq in E. congruence. }
    rewrite Hread. reflexivity.
Qed.

(** The codes [loadDefaults] gives a rate. *)
Definition defaultCodes : list string :=
  ("USD" :: map fst fiatDefaults ++ map fst cryptoDefaults
     ++ map fst metalDefaults)%list.

Definition linkedToUSD (tbl : gmap (string * string) float) (code : string) : bool :=
  String.eqb code "USD"
  || (bool_decide (is_Some (tbl !! ("USD", code)))
      && bool_decide (is_Some (tbl !! (code, "USD")))).

Lemma defaults_linked :
  forallb (linkedToUSD (rates (loadDefaults empty))) defaultCodes = true.
Proof. vm_compute. reflexivity. Qed.

Lemma defaults_connected (a b : string) :
  In a defaultCodes -> In b defaultCodes
  -> connected (rates (loadDefaults empty)) a b.
Proof.
  intros Ha Hb. pose proof defaults_linked as H.
  rewrite forallb_forall in H.
  apply H in Ha. apply H in Hb. unfold linkedToUSD in Ha, Hb.
  unfold connected. transitivity "USD".
  - apply orb_true_iff in Ha as [Ha|Ha].
    + apply String.eqb_eq in Ha. subst a. apply rtc_refl.
    + apply andb_true_iff in Ha as [_ Ha]. apply bool_decide_eq_true in Ha.
      apply rtc_once. exact Ha.
  - apply orb_true_iff in Hb as [Hb|Hb].
    + apply String.eqb_eq in Hb. subst b. apply rtc_refl.
    + apply andb_true_iff in Hb as [Hb _]. apply bool_decide_eq_true in Hb.
      apply rtc_once. exact Hb.
Qed.


(** X28: with the rates [loadDefaults] stores, which a new cache has when
    there is no cache file, a rate is found between any two of the codes of
    the default tables: the pairs all pass through USD. *)
Theorem X28_default_rates_connect_all_codes (now : Z) (from to : string) :
  In (strings_ToUpper from) defaultCodes
  -> In (strings_ToUpper to) defaultCodes
  -> snd (GetRate (New None now) from to) = true.
Proof.
  intros Hf Ht. apply GetRate_connected.
  change (rates (New None now)) with (rates (loadDefaults empty)).
  apply defaults_connected; assumption.
Qed.

End CacheBulk.

Lemma X27_witness :
  NoDup (map (fun entry => strings_ToUpper (GoStd := Sample.std) (fst entry))
           [("eur", 0.5%float); ("GBP", 0.25%float)])
  /\ In ("eur", 0.5%float) [("eur", 0.5%float); ("GBP", 0.25%float)]
  /\ strings_ToUpper (GoStd := Sample.std) "eur" <> "USD"
  /\ strings_ToUpper (GoStd := Sample.std) "usd" = "USD"
  /\ Cache.GetRate (std := Sample.std) (ord := Sample.order)
       (Cache.ApplyRawRates (std := Sample.std) (reg := Sample.registry)
          Cache.empty [("eur", 0.5%float); ("GBP", 0.25%float)] 0) "usd" "eur"
     = (0.5%float, true).
Proof.
  assert (Hnd : NoDup (map (fun entry =>
                              strings_ToUpper (GoStd := Sample.std) (fst entry))
                         [("eur", 0.5%float); ("GBP", 0.25%float)])).
  { apply (bool_decide_unpack _). vm_compute. reflexivity. }
  assert (Hin : In ("eur", 0.5%float) [("eur", 0.5%float); ("GBP", 0.25%float)])
    by (left; reflexivity).
  assert (HU : strings_ToUpper (GoStd := Sample.std) "eur" <> "USD")
    by (vm_compute; discriminate).
  split; [exact Hnd|]. split; [exact Hin|]. split; [exact HU|].
  split; [reflexivity|].
  exact (X27_applied_rates_are_read_back (std := Sample.std)
           (reg := Sample.registry) (ord := Sample.order) Cache.empty
           [("eur", 0.5%float); ("GBP", 0.25%float)] 0 "eur" "usd" 0.5 Hnd Hin HU
           eq_refl).
Defined.

Lemma X28_witness :
  In (strings_ToUpper (GoStd := Sample.std) "eur") defaultCodes
  /\ In (strings_ToUpper (GoStd := Sample.std) "btc") defaultCodes
  /\ snd (Cache.GetRate (std := Sample.std) (ord := Sample.order)
            (Cache.New (std := Sample.std) (reg := Sample.registry) None 0)
            "eur" "btc") = true.
Proof.
  assert (H1 : In (strings_ToUpper (GoStd := Sample.std) "eur") defaultCodes)
    by (vm_compute; tauto).
  assert (H2 : In (strings_ToUpper (GoStd := Sample.std) "btc") defaultCodes)
    by (vm_compute; tauto).
  split; [exact H1|]. split; [exact H2|].
  exact (X28_default_rates_connect_all_codes (std := Sample.std)
           (reg := Sample.registry) (ord := Sample.order) 0 "eur" "btc" H1 H2).
Defined.

(** ** The lexer: UTF-8 *)

(** A property of the integers of a range, checked on each of them. *)
Lemma Z_range_forall (P : Z -> bool) (lo : Z) (n : nat) :
  forallb P (map (fun i => lo + Z.of_nat i) (seq 0 n)) = true ->
  forall b, lo <= b < lo + Z.of_nat n -> P b = true.
Proof.
  intros H b Hb. rewrite forallb_forall in H. apply H.
  apply in_map_iff. exists (Z.to_nat (b - lo)). split; [lia|].
  apply in_seq. lia.
Qed.

Lemma lead2_bits (b : Z) :
  192 <= b < 224 -> Z.land b 224 = 192 /\ Z.land b 31 = b - 192.
Proof.
  intros Hb.
  pose proof (Z_range_forall
                (fun b => (Z.land b 224 =? 192) && (Z.land b 31 =? b - 192))
                192 32 eq_refl b Hb) as H.
  apply andb_true_iff in H as [H1 H2]. split; lia.
Qed.

Lemma lead3_bits (b : Z) :
  224 <= b < 240
  -> Z.land b 224 <> 192 /\ Z.land b 240 = 224 /\ Z.land b 15 = b - 224.
Proof.
  intros Hb.
  pose proof (Z_range_forall
                (fun b => negb (Z.land b 224 =? 192) && (Z.land b 240 =? 224)
                          && (Z.land b 15 =? b - 224))
                224 16 eq_refl b Hb) as H.
  apply andb_true_iff in H as [H H3]. apply andb_true_iff in H as [H1 H2].
  apply negb_true_iff in H1. split; [|split]; lia.
Qed.

Lemma lead4_bits (b : Z) :
  240 <= b < 248
  -> Z.land b 224 <> 192 /\ Z.land b 240 <> 224 /\ Z.land b 248 = 240
     /\ Z.land b 7 = b - 240.
Proof.
  intros Hb.
  pose proof (Z_range_forall
                (fun b => negb (Z.land b 224 =? 192) && negb (Z.land b 240 =? 224)
                          && (Z.land b 248 =? 240) && (Z.land b 7 =? b - 240))
                240 8 eq_refl b Hb) as H.
  apply andb_true_iff in H as [H H4]. apply andb_true_iff in H as [H H3].
  apply andb_true_iff in H as [H1 H2].
  apply negb_true_iff in H1, H2. repeat split; lia.
Qed.

Lemma cont_bits (b : Z) :
  128 <= b < 192 -> Z.land b 192 = 128 /\ Z.land b 63 = b - 128.
Proof.
  intros Hb.
  pose proof (Z_range_forall
                (fun b => (Z.land b 192 =? 128) && (Z.land b 63 =? b - 128))
                128 64 eq_refl b Hb) as H.
  apply andb_true_iff in H as [H1 H2]. split; lia.
Qed.

Lemma lor_small (base : Z) (n : nat) (x : Z) :
  forallb (fun x => Z.lor base x =? base + x)
    (map (fun i => 0 + Z.of_nat i) (seq 0 n)) = true
  -> 0 <= x < Z.of_nat n -> Z.lor base x = base + x.
Proof.
  intros H Hx.
  pose proof (Z_range_forall (fun x => Z.lor base x =? base + x) 0 n H x) as H1.
  apply Z.eqb_eq, H1. lia.
Qed.

(** Six more bits under an accumulated value. *)
Lemma lor_shiftl_6 (acc y : Z) :
  0 <= acc -> 0 <= y < 64 -> Z.lor (Z.shiftl acc 6) y = acc * 64 + y.
Proof.
  intros Ha Hy. rewrite Z.shiftl_mul_pow2 by lia. change (2 ^ 6) with 64.
  assert (Hl : Z.land (acc * 64) y = 0).
  { apply Z.bits_inj'. intros n Hn. rewrite Z.land_spec, Z.bits_0.
    destruct (Z.lt_ge_cases n 6) as [Hlt|Hge].
    - replace (acc * 64) with (Z.shiftl acc 6)
        by (rewrite Z.shiftl_mul_pow2 by lia; reflexivity).
      rewrite Z.shiftl_spec_low by lia. reflexivity.
    - assert (Hy0 : Z.testbit y n = false).
      { destruct (Z.eq_dec y 0) as [->|Hne]; [apply Z.bits_0|].
        apply Z.bits_above_log2; [lia|].
        assert (Z.log2 y < 6) by (apply Z.log2_lt_pow2; lia). lia. }
      rewrite Hy0. apply andb_false_r. }
  rewrite <- Z.lxor_lor by exact Hl. symmetry. apply Z.add_nocarry_lxor. exact Hl.
Qed.

Lemma byteAt_first (b : Z) (s : string) :
  0 <= b < 256 -> byteAt (byteStr b ++ s) 0 = b.
Proof.
  intros Hb. unfold byteAt, byteStr. simpl.
  rewrite nat_ascii_embedding by lia. lia.
Qed.

Lemma byteAt_next (b i : Z) (s : string) :
  0 <= i -> byteAt (byteStr b ++ s) (i + 1) = byteAt s i.
Proof.
  intros Hi. unfold byteAt, byteStr. simpl.
  destruct (i + 1 <? 0) eqn:E1; [lia|]. destruct (i <? 0) eqn:E2; [lia|].
  replace (Z.to_nat (i + 1)) with (S (Z.to_nat i)) by lia. reflexivity.
Qed.

Lemma byteAt_1 (a b : Z) (s : string) :
  0 <= b < 256 -> byteAt (byteStr a ++ byteStr b ++ s) 1 = b.
Proof.
  intros Hb.
  exact (eq_trans (byteAt_next a 0 _ (Z.le_refl 0)) (byteAt_first b s Hb)).
Qed.

Lemma byteAt_2 (a b c : Z) (s : string) :
  0 <= c < 256 -> byteAt (byteStr a ++ byteStr b ++ byteStr c ++ s) 2 = c.
Proof.
  intros Hc.
  exact (eq_trans (byteAt_next a 1 _ ltac:(lia)) (byteAt_1 b c s Hc)).
Qed.

Lemma byteAt_3 (a b c d : Z) (s : string) :
  0 <= d < 256
  -> byteAt (byteStr a ++ byteStr b ++ byteStr c ++ byteStr d ++ s) 3 = d.
Proof.
  intros Hd.
  exact (eq_trans (byteAt_next a 2 _ ltac:(lia)) (byteAt_2 b c d s Hd)).
Qed.

Lemma strlen_byteStr (b : Z) (s : string) :
  strlen (byteStr b ++ s) = 1 + strlen s.
Proof. unfold strlen, byteStr. simpl. lia. Qed.

Section Utf8.
Import Lexer.

Lemma decodeRune_1 (b : Z) (rest : string) :
  0 <= b < 128 -> decodeRune (byteStr b ++ rest) = (b, 1).
Proof.
  intros Hb. unfold decodeRune. rewrite strlen_byteStr, byteAt_first by lia.
  pose proof (strlen_nonneg rest).
  destruct (1 + strlen rest =? 0) eqn:E; [lia|].
  destruct (b <? 128) eqn:E1; [reflexivity | lia].
Qed.

Lemma decodeRune_2 (b0 b1 : Z) (rest : string) :
  192 <= b0 < 224 -> 128 <= b1 < 192
  -> decodeRune (byteStr b0 ++ byteStr b1 ++ rest)
     = ((b0 - 192) * 64 + (b1 - 128), 2).
Proof.
  intros H0 H1. unfold decodeRune.
  rewrite !strlen_byteStr, byteAt_first by lia.
  pose proof (strlen_nonneg rest).
  destruct (lead2_bits b0 H0) as [Ha Hb]. destruct (cont_bits b1 H1) as [Hc Hd].
  destruct (_ =? 0) eqn:E; [lia|]. destruct (b0 <? 128) eqn:E1; [lia|].
  rewrite Ha. rewrite Z.eqb_refl.
  destruct (_ <? 2) eqn:E2; [lia|].
  change (Z.to_nat (2 - 1)) with 1%nat. cbn [decodeTail].
  rewrite byteAt_1 by lia.
  rewrite Hc, Hb, Hd. rewrite Z.eqb_refl. cbn [negb].
  rewrite lor_shiftl_6 by lia. reflexivity.
Qed.

Lemma decodeRune_3 (b0 b1 b2 : Z) (rest : string) :
  224 <= b0 < 240 -> 128 <= b1 < 192 -> 128 <= b2 < 192
  -> decodeRune (byteStr b0 ++ byteStr b1 ++ byteStr b2 ++ rest)
     = (((b0 - 224) * 64 + (b1 - 128)) * 64 + (b2 - 128), 3).
Proof.
  intros H0 H1 H2. unfold decodeRune.
  rewrite !strlen_byteStr, byteAt_first by lia.
  pose proof (strlen_nonneg rest).
  destruct (lead3_bits b0 H0) as (Hn & Ha & Hb).
  destruct (cont_bits b1 H1) as [Hc1 Hd1]. destruct (cont_bits b2 H2) as [Hc2 Hd2].
  destruct (_ =? 0) eqn:E; [lia|]. destruct (b0 <? 128) eqn:E1; [lia|].
  destruct (Z.land b0 224 =? 192) eqn:E2; [lia|].
  rewrite Ha. rewrite Z.eqb_refl.
  destruct (_ <? 3) eqn:E3; [lia|].
  change (Z.to_nat (3 - 1)) with 2%nat. cbn [decodeTail].
  rewrite byteAt_1 by lia. rewrite Hc1. rewrite Z.eqb_refl. cbn [negb].
  change (1 + 1) with 2. rewrite byteAt_2 by lia. rewrite Hc2. rewrite Z.eqb_refl.
  cbn [negb]. rewrite Hb, Hd1, Hd2.
  rewrite (lor_shiftl_6 (b0 - 224) (b1 - 128)) by lia.
  rewrite lor_shiftl_6 by lia. reflexivity.
Qed.

Lemma decodeRune_4 (b0 b1 b2 b3 : Z) (rest : string) :
  240 <= b0 < 248 -> 128 <= b1 < 192 -> 128 <= b2 < 192 -> 128 <= b3 < 192
  -> decodeRune (byteStr b0 ++ byteStr b1 ++ byteStr b2 ++ byteStr b3 ++ rest)
     = ((((b0 - 240) * 64 + (b1 - 128)) * 64 + (b2 - 128)) * 64 + (b3 - 128), 4).
Proof.
  intros H0 H1 H2 H3. unfold decodeRune.
  rewrite !strlen_byteStr, byteAt_first by lia.
  pose proof (strlen_nonneg rest).
  destruct (lead4_bits b0 H0) as (Hn & Hn' & Ha & Hb).
  destruct (cont_bits b1 H1) as [Hc1 Hd1]. destruct (cont_bits b2 H2) as [Hc2 Hd2].
  destruct (cont_bits b3 H3) as [Hc3 Hd3].
  destruct (_ =? 0) eqn:E; [lia|]. destruct (b0 <? 128) eqn:E1; [lia|].
  destruct (Z.land b0 224 =? 192) eqn:E2; [lia|].
  destruct (Z.land b0 240 =? 224) eqn:E3; [lia|].
  rewrite Ha. rewrite Z.eqb_refl.
  destruct (_ <? 4) eqn:E4; [lia|].
  change (Z.to_nat (4 - 1)) with 3%nat. cbn [decodeTail].
  rewrite byteAt_1 by lia. rewrite Hc1. rewrite Z.eqb_refl. cbn [negb].
  change (1 + 1) with 2. rewrite byteAt_2 by lia. rewrite Hc2. rewrite Z.eqb_refl.
  cbn [negb]. change (2 + 1) with 3. rewrite byteAt_3 by lia. rewrite Hc3.
  rewrite Z.eqb_refl. cbn [negb]. rewrite Hb, Hd1, Hd2, Hd3.
  rewrite (lor_shiftl_6 (b0 - 240) (b1 - 128)) by lia.
  rewrite (lor_shiftl_6 _ (b2 - 128)) by lia.
  rewrite lor_shiftl_6 by lia. reflexivity.
Qed.

Lemma shiftr_div (r k : Z) : 0 <= k -> Z.shiftr r k = r / 2 ^ k.
Proof. intros. apply Z.shiftr_div_pow2. assumption. Qed.

Lemma land_63 (x : Z) : Z.land x 63 = x mod 64.
Proof. change 63 with (Z.ones 6). rewrite Z.land_ones by lia. reflexivity. Qed.

(** X29: the decoder of the lexer inverts the UTF-8 encoding: on the bytes
    of a code point that is no surrogate, whatever follows them, it answers
    the code point and the number of its bytes. *)
Theorem X29_decodeRune_inverts_encodeRune (r : Z) (rest : string) :
  0 <= r <= 1114111 -> ~ (55296 <= r <= 57343)
  -> decodeRune (encodeRune r ++ rest) = (r, strlen (encodeRune r)).
Proof.
  intros Hr Hs. unfold encodeRune.
  destruct ((r <? 0) || (1114111 <? r) || ((55296 <=? r) && (r <=? 57343))) eqn:E.
  { exfalso. apply orb_true_iff in E as [E|E].
    - apply orb_true_iff in E as [E|E]; lia.
    - apply andb_true_iff in E as [E1 E2]. lia. }
  clear E. rewrite !land_63, !shiftr_div by lia.
  change (2 ^ 6) with 64. change (2 ^ 12) with 4096. change (2 ^ 18) with 262144.
  destruct (r <=? 127) eqn:E1.
  { rewrite decodeRune_1 by lia. reflexivity. }
  destruct (r <=? 2047) eqn:E2.
  { rewrite (lor_small 192 32) by (reflexivity || (Z.div_mod_to_equations; lia)).
    rewrite (lor_small 128 64) by (reflexivity || (Z.div_mod_to_equations; lia)).
    rewrite !str_app_assoc.
    rewrite decodeRune_2 by (Z.div_mod_to_equations; lia).
    f_equal. Z.div_mod_to_equations; lia. }
  destruct (r <=? 65535) eqn:E3.
  { rewrite (lor_small 224 16) by (reflexivity || (Z.div_mod_to_equations; lia)).
    rewrite !(lor_small 128 64) by (reflexivity || (Z.div_mod_to_equations; lia)).
    rewrite !str_app_assoc.
    rewrite decodeRune_3 by (Z.div_mod_to_equations; lia).
    f_equal. Z.div_mod_to_equations; lia. }
  rewrite (lor_small 240 8) by (reflexivity || (Z.div_mod_to_equations; lia)).
  rewrite !(lor_small 128 64) by (reflexivity || (Z.div_mod_to_equations; lia)).
  rewrite !str_app_assoc.
  rewrite decodeRune_4 by (Z.div_mod_to_equations; lia).
  f_equal. Z.div_mod_to_equations; lia.
Qed.

End Utf8.


Lemma X29_witness :
  0 <= 8364 <= 1114111 /\ ~ (55296 <= 8364 <= 57343)
  /\ Lexer.decodeRune (encodeRune 8364 ++ "5") = (8364, 3).
Proof.
  assert (H1 : 0 <= 8364 <= 1114111) by lia.
  assert (H2 : ~ (55296 <= 8364 <= 57343)) by lia.
  split; [exact H1|]. split; [exact H2|].
  exact (X29_decodeRune_inverts_encodeRune 8364 "5" H1 H2).
Defined.

(** ** pkg/types and internal/ast: [itoa] *)

(** The value an [int64] holds after an operation whose exact result is
    [z]. *)
Definition int64 (z : Z) : Z := (z + 2 ^ 63) mod 2 ^ 64 - 2 ^ 63.

(** The loop [for n > 0] of [itoa] over [buf], the array of 20 bytes;
    [None] where Go panics on the index. Every round lowers [i], and the
    round that finds it below 0 panics: 21 rounds are never used up. *)
Fixpoint itoaLoop (fuel : nat) (n i : Z) (buf : list Z) : option (Z * list Z) :=
  if 0 <? n then
    match fuel with
    | O => None
    | S fuel' =>
        let i := i - 1 in
        if (i <? 0) || (20 <=? i) then None
        else itoaLoop fuel' (n / 10) i
               (<[Z.to_nat i := (48 + n mod 10) mod 256]> buf)
    end
  else Some (i, buf).

(** [string(bytes)]. *)
Fixpoint bytesToString (bs : list Z) : string :=
  match bs with
  | [] => ""
  | b :: rest => byteStr b ++ bytesToString rest
  end.

(** [itoa], the same function in currency.go and in ast.go. *)
Definition itoa (n : Z) : option string :=
  if n =? 0 then Some "0"
  else
    let negative := n <? 0 in
    let n := if negative then int64 (- n) else n in
    '(i, buf) ← itoaLoop 21 n 20 (replicate 20 0);
    '(i, buf) ← (if negative then
                   let i := i - 1 in
                   if (i <? 0) || (20 <=? i) then None
                   else Some (i, <[Z.to_nat i := chr "-"]> buf)
                 else Some (i, buf));
    Some (bytesToString (drop (Z.to_nat i) buf)).

(** Reading a decimal numeral: the digits, most significant first, after
    an optional minus sign. *)
Fixpoint readDecimal (s : string) (acc : Z) : option Z :=
  match s with
  | EmptyString => Some acc
  | String c rest =>
      let d := chr c in
      if (48 <=? d) && (d <=? 57) then readDecimal rest (10 * acc + (d - 48))
      else None
  end.

Definition readInt (s : string) : option Z :=
  match s with
  | EmptyString => None
  | String c rest =>
      if Ascii.eqb c "-" then
        match rest with
        | EmptyString => None
        | _ => Z.opp <$> readDecimal rest 0
        end
      else readDecimal s 0
  end.

Lemma bytesToString_app (a b : list Z) :
  bytesToString (a ++ b) = bytesToString a ++ bytesToString b.
Proof.
  induction a as [|x a IH]; simpl; [reflexivity|].
  rewrite IH. unfold byteStr. reflexivity.
Qed.

Lemma readDecimal_app (s t : string) :
  forall acc, readDecimal (s ++ t) acc = readDecimal s acc ≫= readDecimal t.
Proof.
  induction s as [|c s IH]; intros acc; simpl; [reflexivity|].
  destruct (_ && _); [apply IH | reflexivity].
Qed.

Lemma readDecimal_digit (d acc : Z) :
  0 <= d <= 9 -> readDecimal (byteStr ((48 + d) mod 256)) acc = Some (10 * acc + d).
Proof.
  intros Hd. rewrite Z.mod_small by lia. unfold byteStr. simpl. unfold chr.
  rewrite nat_ascii_embedding by lia. rewrite Z2Nat.id by lia.
  destruct ((48 <=? 48 + d) && (48 + d <=? 57)) eqn:E.
  - f_equal. lia.
  - apply andb_false_iff in E as [E|E]; lia.
Qed.

Lemma itoaLoop_spec (fuel : nat) :
  forall (n : Z) (d k : nat) (buf : list Z),
    0 <= n < 10 ^ Z.of_nat d -> (d <= fuel)%nat -> (d <= k <= 20)%nat
    -> length buf = 20%nat
    -> exists (j : nat) (buf' : list Z),
         itoaLoop fuel n (Z.of_nat k) buf = Some (Z.of_nat j, buf')
         /\ (j <= k)%nat /\ (k - j <= d)%nat /\ (0 < n -> (j < k)%nat)
         /\ length buf' = 20%nat
         /\ drop k buf' = drop k buf
         /\ forall acc,
              readDecimal (bytesToString (take (k - j) (drop j buf'))) acc
              = Some (acc * 10 ^ Z.of_nat (k - j) + n).
Proof.
  induction fuel as [|fuel IH]; intros n d k buf Hn Hd Hk Hlen.
  - assert (d = 0%nat) by lia. subst d. assert (n = 0) by (simpl in Hn; lia).
    subst n. exists k, buf. simpl. rewrite Nat.sub_diag. simpl.
    split; [reflexivity|]. split; [lia|]. split; [lia|]. split; [lia|].
    split; [exact Hlen|]. split; [reflexivity|]. intros acc. f_equal. lia.
  - simpl. destruct (0 <? n) eqn:Epos.
    2:{ assert (n = 0) by lia. subst n. exists k, buf. rewrite Nat.sub_diag. simpl.
        split; [reflexivity|]. split; [lia|]. split; [lia|]. split; [lia|].
        split; [exact Hlen|]. split; [reflexivity|]. intros acc. f_equal. lia. }
    apply Z.ltb_lt in Epos.
    destruct d as [|d]; [simpl in Hn; lia|].
    assert (Hk1 : Z.of_nat k - 1 = Z.of_nat (k - 1)) by lia. rewrite Hk1.
    destruct ((Z.of_nat (k - 1) <? 0) || (20 <=? Z.of_nat (k - 1))) eqn:Eb.
    { apply orb_true_iff in Eb as [Eb|Eb];
        [apply Z.ltb_lt in Eb | apply Z.leb_le in Eb]; lia. }
    rewrite Nat2Z.id.
    assert (Hn10 : 0 <= n / 10 < 10 ^ Z.of_nat d).
    { replace (Z.of_nat (S d)) with (Z.of_nat d + 1) in Hn by lia.
      rewrite Z.pow_add_r in Hn by lia. change (10 ^ 1) with 10 in Hn.
      pose proof (Z.pow_pos_nonneg 10 (Z.of_nat d)).
      split; [apply Z.div_pos; lia|]. apply Z.div_lt_upper_bound; lia. }
    set (digit := (48 + n mod 10) mod 256).
    destruct (IH (n / 10) d (k - 1)%nat (<[(k - 1)%nat := digit]> buf) Hn10)
      as (j & buf' & Hloop & Hjk & Hkd & _ & Hlen' & Hdrop & Hread);
      [lia | lia | rewrite length_insert; exact Hlen |].
    exists j, buf'. split; [exact Hloop|]. split; [lia|]. split; [lia|].
    split; [lia|]. split; [exact Hlen'|].
    assert (Hat : buf' !! (k - 1)%nat = Some digit).
    { rewrite <- (Nat.add_0_r (k - 1)), <- lookup_drop, Hdrop, lookup_drop.
      rewrite Nat.add_0_r. apply list_lookup_insert_eq. lia. }
    split.
    { replace (drop k buf') with (drop 1 (drop (k - 1) buf'))
        by (rewrite drop_drop; f_equal; lia).
      rewrite Hdrop, drop_drop. replace (k - 1 + 1)%nat with k by lia.
      apply drop_insert_lt. lia. }
    intros acc.
    replace (k - j)%nat with (S (k - 1 - j)) by lia.
    rewrite (take_S_r _ _ digit).
    2:{ rewrite lookup_drop. replace (j + (k - 1 - j))%nat with (k - 1)%nat by lia.
        exact Hat. }
    rewrite bytesToString_app, readDecimal_app, Hread. cbn [mbind option_bind].
    change (bytesToString [digit]) with (byteStr digit ++ "").
    rewrite str_app_nil_r. unfold digit.
    rewrite readDecimal_digit by (pose proof (Z.mod_pos_bound n 10); lia).
    f_equal. rewrite Nat2Z.inj_succ, Z.pow_succ_r by lia.
    pose proof (Z.div_mod n 10). lia.
Qed.

Lemma readDecimal_head (c : ascii) (rest : string) (acc v : Z) :
  readDecimal (String c rest) acc = Some v -> Ascii.eqb c "-" = false.
Proof.
  simpl. destruct (Ascii.eqb c "-") eqn:E; [|reflexivity].
  apply Ascii.eqb_eq in E. subst c. discriminate.
Qed.

Lemma strlen_bytesToString (bs : list Z) :
  strlen (bytesToString bs) = Z.of_nat (length bs).
Proof.
  unfold strlen. f_equal. induction bs as [|b bs IH]; simpl; [reflexivity|].
  rewrite IH. reflexivity.
Qed.

Lemma take_all_20 (j : nat) (buf : list Z) :
  length buf = 20%nat -> take (20 - j) (drop j buf) = drop j buf.
Proof. intros H. apply take_ge. rewrite length_drop. lia. Qed.

(** X30: for a number above the least [int64], [itoa] stays inside its
    buffer of 20 bytes and writes a decimal numeral, of at most 20 bytes,
    that reads back as the number. *)
Theorem X30_itoa_reads_back (n : Z) :
  - 2 ^ 63 < n < 2 ^ 63
  -> exists s, itoa n = Some s /\ readInt s = Some n /\ strlen s <= 20.
Proof.
  intros Hn. unfold itoa. destruct (n =? 0) eqn:E0.
  { apply Z.eqb_eq in E0. subst n. exists "0". repeat split. unfold strlen. simpl. lia. }
  apply Z.eqb_neq in E0.
  assert (Hpow : 2 ^ 63 < 10 ^ Z.of_nat 19) by (vm_compute; reflexivity).
  destruct (n <? 0) eqn:Eneg.
  - apply Z.ltb_lt in Eneg.
    assert (Hm : int64 (- n) = - n).
    { unfold int64. rewrite Z.mod_small by lia. lia. }
    rewrite Hm.
    destruct (itoaLoop_spec 21 (- n) 19 20 (replicate 20 0))
      as (j & buf' & Hloop & Hjk & Hkd & Hlt & Hlen & _ & Hread);
      [lia | lia | lia | apply length_replicate |].
    change (itoaLoop 21 (- n) 20 (replicate 20 0))
      with (itoaLoop 21 (- n) (Z.of_nat 20) (replicate 20 0)).
    rewrite Hloop. cbn [mbind option_bind].
    assert (Hj1 : Z.of_nat j - 1 = Z.of_nat (j - 1)) by lia. rewrite Hj1.
    destruct ((Z.of_nat (j - 1) <? 0) || (20 <=? Z.of_nat (j - 1))) eqn:Eb.
    { apply orb_true_iff in Eb as [Eb|Eb];
        [apply Z.ltb_lt in Eb | apply Z.leb_le in Eb]; lia. }
    cbn [mbind option_bind]. rewrite Nat2Z.id. eexists. split; [reflexivity|].
    assert (Hsplit : drop (j - 1) (<[(j - 1)%nat := chr "-"]> buf')
                     = chr "-" :: drop j buf').
    { rewrite insert_take_drop by lia. rewrite drop_app_length'
        by (rewrite length_take; lia).
      replace (S (j - 1)) with j by lia. reflexivity. }
    rewrite Hsplit. rewrite take_all_20 in Hread by exact Hlen.
    specialize (Hread 0).
    assert (Hne : drop j buf' <> []).
    { intros Hnil. apply (f_equal length) in Hnil. rewrite length_drop in Hnil.
      simpl in Hnil. specialize (Hlt ltac:(lia)). lia. }
    split.
    + change (bytesToString (chr "-" :: drop j buf'))
        with (String "-" (bytesToString (drop j buf'))).
      unfold readInt. rewrite Ascii.eqb_refl.
      destruct (drop j buf') as [|b bs] eqn:Hd; [contradiction|].
      change (bytesToString (b :: bs))
        with (String (ascii_of_nat (Z.to_nat b)) (bytesToString bs)) in *.
      rewrite Hread. simpl. f_equal. lia.
    + rewrite strlen_bytesToString. simpl. rewrite length_drop. lia.
  - apply Z.ltb_ge in Eneg.
    destruct (itoaLoop_spec 21 n 19 20 (replicate 20 0))
      as (j & buf' & Hloop & Hjk & Hkd & Hlt & Hlen & _ & Hread);
      [lia | lia | lia | apply length_replicate |].
    change (itoaLoop 21 n 20 (replicate 20 0))
      with (itoaLoop 21 n (Z.of_nat 20) (replicate 20 0)).
    rewrite Hloop. cbn [mbind option_bind]. rewrite Nat2Z.id.
    eexists. split; [reflexivity|].
    rewrite take_all_20 in Hread by exact Hlen. specialize (Hread 0).
    split.
    + destruct (drop j buf') as [|b bs] eqn:Hd.
      { apply (f_equal length) in Hd. rewrite length_drop in Hd. simpl in Hd.
        specialize (Hlt ltac:(lia)). lia. }
      change (bytesToString (b :: bs))
        with (String (ascii_of_nat (Z.to_nat b)) (bytesToString bs)) in *.
      unfold readInt. rewrite (readDecimal_head _ _ _ _ Hread), Hread.
      f_equal; lia.
    + rewrite strlen_bytesToString, length_drop. lia.
Qed.

Lemma X30_witness :
  - 2 ^ 63 < -1234 < 2 ^ 63
  /\ itoa (-1234) = Some "-1234" /\ readInt "-1234" = Some (-1234).
Proof.
  assert (H : - 2 ^ 63 < -1234 < 2 ^ 63) by lia.
  split; [exact H|].
  destruct (X30_itoa_reads_back (-1234) H) as (s & H1 & H2 & _).
  split; reflexivity.
Defined.
